(** * WGS, a customizable word game solver: a shallow embedding

    The development follows the C++ sources: [scramble.h]/[scramble.cpp]
    (trie, board, solution, solver and scorer), [wgs.h] (grid and scoring
    rules), [analyze.cpp] (solution analysis), [maker.cpp] (board generator)
    and [validate.cpp] (validator).

    Conventions.  A [char] is an [ascii]; a [std::string] is a [list ascii];
    [size_t] indices into arrays are [nat]; an [unsigned char] stored in an
    array is a [nat] reduced modulo 256 where the code narrows; [unsigned]
    and [int] quantities that take part in arithmetic are [Z] with the
    32-bit wrap-around written out; a [double] is a binary64 [spec_float].
    C arrays are lists read with [!!] and written with [<[ _ := _ ]>]. *)

From Stdlib Require Import ZArith List Ascii String Lia SpecFloat Bool.
From stdpp Require Import base tactics option list gmap strings.

Open Scope nat_scope.

(** ** Characters ([<cctype>] in the "C" locale) *)

Module Char.

Definition code (c : ascii) : nat := nat_of_ascii c.

Definition isupper (c : ascii) : bool := (65 <=? code c) && (code c <=? 90).
Definition islower (c : ascii) : bool := (97 <=? code c) && (code c <=? 122).
Definition isalpha (c : ascii) : bool := isupper c || islower c.
Definition toupper (c : ascii) : ascii :=
  if islower c then ascii_of_nat (code c - 32) else c.

Definition NUL : ascii := ascii_of_nat 0.
Definition eqb (a b : ascii) : bool := Ascii.eqb a b.

(** ['A' + i] *)
Definition letter (i : nat) : ascii := ascii_of_nat (65 + i).

End Char.

Notation "a =c? b" := (Char.eqb a b) (at level 70, no associativity).

Definition str (s : string) : list ascii := list_ascii_of_string s.

(** ** Trie ([scramble.h], [scramble.cpp]) *)

Definition ALPHABET_SIZE : nat := 26.

(** The node keeps the two shapes of the C++ class: an inline single child
    ([child_letter], [child_ptr]) or a 26-slot array ([children]).  A null
    pointer is [None]; [child_letter = NUL] means "no inline child". *)
#[warnings="-register-all"]
Inductive Trie : Type := mkTrie {
  child_ptr : option Trie;
  children : option (list (option Trie));
  child_letter : ascii;
  is_word : bool
}.

(** [Trie::Trie()] *)
Definition new_Trie : Trie :=
  {| child_ptr := None; children := None; child_letter := Char.NUL;
     is_word := false |}.

(** [Trie::child(char)] *)
Definition child (t : Trie) (c : ascii) : option Trie :=
  if negb (Char.isupper c) then None
  else match children t with
       | Some arr => mjoin (arr !! (Char.code c - 65))
       | None =>
           if negb (child_letter t =c? Char.NUL) && (child_letter t =c? c)
           then child_ptr t else None
       end.

(** [Trie::add_word(const char * )]; the C string ends at its first NUL. *)
Fixpoint add_word (word : list ascii) (t : Trie) : Trie :=
  match word with
  | [] => {| child_ptr := child_ptr t; children := children t;
             child_letter := child_letter t; is_word := true |}
  | c :: rest =>
      let letter := Char.toupper c in
      if letter =c? Char.NUL then
        {| child_ptr := child_ptr t; children := children t;
           child_letter := child_letter t; is_word := true |}
      else if negb (Char.isupper letter) then t
      else
        let idx := Char.code letter - 65 in
        match children t with
        | Some arr =>
            let sub := default new_Trie (mjoin (arr !! idx)) in
            {| child_ptr := child_ptr t;
               children := Some (<[idx := Some (add_word rest sub)]> arr);
               child_letter := child_letter t; is_word := is_word t |}
        | None =>
            if child_letter t =c? letter then
              {| child_ptr :=
                   Some (add_word rest (default new_Trie (child_ptr t)));
                 children := None;
                 child_letter := child_letter t; is_word := is_word t |}
            else if child_letter t =c? Char.NUL then
              {| child_ptr := Some (add_word rest new_Trie);
                 children := None;
                 child_letter := letter; is_word := is_word t |}
            else
              let arr0 := replicate ALPHABET_SIZE None in
              let arr1 :=
                <[Char.code (child_letter t) - 65 := child_ptr t]> arr0 in
              {| child_ptr := None;
                 children :=
                   Some (<[idx := Some (add_word rest new_Trie)]> arr1);
                 child_letter := Char.NUL; is_word := is_word t |}
        end
  end.

(** Repeated [child] from a node, as [_solve] descends; [None] is the null
    pointer. *)
Fixpoint descend (t : Trie) (w : list ascii) : option Trie :=
  match w with
  | [] => Some t
  | c :: w' => match child t c with
               | Some t' => descend t' w'
               | None => None
               end
  end.

(** The word [w] is stored in the dictionary rooted at [t]. *)
Definition trie_contains (t : Trie) (w : list ascii) : bool :=
  match descend t w with
  | Some n => is_word n
  | None => false
  end.

(** [Solver::add_word] applied to a list of dictionary words. *)
Definition dict_of (ws : list string) : Trie :=
  fold_left (fun t w => add_word (str w) t) ws new_Trie.

(** ** Grid and board ([wgs.h], [scramble.h], [scramble.cpp]) *)

Definition MAX_GRID_WIDTH : nat := 10.

Record GameGrid : Type := mkGameGrid {
  grid_tiles : list (list bool);
  tile_adjacency : string
}.

(** [GameGrid::isTileSet] *)
Definition isTileSet (g : GameGrid) (x y : nat) : bool :=
  if (x <? MAX_GRID_WIDTH) && (y <? MAX_GRID_WIDTH)
  then default false (grid_tiles g !! x ≫= (fun r => r !! y))
  else false.

Record Board : Type := mkBoard {
  letters : list ascii;
  adj_matrix : option (list bool);
  tile_grid : list (list ascii);
  letter_mult_grid : list nat;
  word_mult_grid : list nat;
  board_size : nat
}.

Definition tile (b : Board) (i : nat) : list ascii :=
  default [] (tile_grid b !! i).
Definition letter_mult (b : Board) (i : nat) : nat :=
  default 0 (letter_mult_grid b !! i).
Definition word_mult (b : Board) (i : nat) : nat :=
  default 0 (word_mult_grid b !! i).
Definition get_board_size (b : Board) : nat := board_size b.

(** [Board::is_adjacent]: a board without a matrix is fully connected. *)
Definition is_adjacent (b : Board) (i j : nat) : bool :=
  match adj_matrix b with
  | Some m => default false (m !! (i * board_size b + j))
  | None => true
  end.

(** *** [Board::parse_board] *)

Definition is_tile_start (c : ascii) : bool :=
  Char.isupper c || (c =c? "?") || (c =c? ".").

(** The locals of the second loop of [parse_board]. *)
Record parse_state : Type := mkParse {
  p_letter_multiplier : nat;
  p_word_multiplier : nat;
  p_pos : nat;
  p_tiles : list (list ascii);
  p_letter_mult : list nat;
  p_word_mult : list nat
}.

Definition parse_place (st : parse_state) (t : list ascii) : parse_state :=
  {| p_letter_multiplier := 1; p_word_multiplier := 1;
     p_pos := S (p_pos st);
     p_tiles := <[p_pos st := t]> (p_tiles st);
     p_letter_mult := <[p_pos st := p_letter_multiplier st]> (p_letter_mult st);
     p_word_mult := <[p_pos st := p_word_multiplier st]> (p_word_mult st) |}.

Definition parse_step (st : parse_state) (letter : ascii) : parse_state :=
  if letter =c? ":" then
    {| p_letter_multiplier := (p_letter_multiplier st + 1) mod 256;
       p_word_multiplier := p_word_multiplier st;
       p_pos := p_pos st; p_tiles := p_tiles st;
       p_letter_mult := p_letter_mult st; p_word_mult := p_word_mult st |}
  else if letter =c? ";" then
    {| p_letter_multiplier := p_letter_multiplier st;
       p_word_multiplier := (p_word_multiplier st + 1) mod 256;
       p_pos := p_pos st; p_tiles := p_tiles st;
       p_letter_mult := p_letter_mult st; p_word_mult := p_word_mult st |}
  else if Char.isalpha letter || (letter =c? "?") || (letter =c? ".") then
    if Char.islower letter && (0 <? p_pos st) then
      {| p_letter_multiplier := p_letter_multiplier st;
         p_word_multiplier := p_word_multiplier st;
         p_pos := p_pos st;
         p_tiles := alter (fun t => t ++ [letter]) (p_pos st - 1) (p_tiles st);
         p_letter_mult := p_letter_mult st; p_word_mult := p_word_mult st |}
    else if Char.isupper letter || (letter =c? "?") then
      parse_place st [letter]
    else if letter =c? "." then
      parse_place st []
    else st
  else st.

Definition parse_board (ls : list ascii) : parse_state :=
  let n := length (filter (fun c => is_tile_start c = true) ls) in
  let st0 :=
    {| p_letter_multiplier := 1; p_word_multiplier := 1; p_pos := 0;
       p_tiles := replicate n []; p_letter_mult := replicate n 0;
       p_word_mult := replicate n 0 |} in
  if n =? 0 then st0 else fold_left parse_step ls st0.

(** *** [Board::build_adjacency_matrix] *)

(** Row-major enumeration of the grid cells. *)
Definition grid_cells : list (nat * nat) :=
  row ← seq 0 MAX_GRID_WIDTH; col ← seq 0 MAX_GRID_WIDTH; [(row, col)].

(** [pos_matrix], flattened row-major; [-1] marks a cell without a tile. *)
Definition build_pos_matrix (g : GameGrid) (n : nat) : list Z :=
  (fold_left
     (fun (acc : nat * list Z) (rc : nat * nat) =>
        if isTileSet g rc.1 rc.2 && (acc.1 <? n)
        then (S acc.1, acc.2 ++ [Z.of_nat acc.1])
        else (acc.1, acc.2 ++ [(-1)%Z]))
     grid_cells (0, [])).2.

Definition pos_at (m : list Z) (row col : nat) : Z :=
  default (-1)%Z (m !! (row * MAX_GRID_WIDTH + col)).

(** One guarded assignment [adj_matrix[pos * board_size + q] = true]. *)
Definition link (n : nat) (m : list Z) (pos : Z) (guard : bool)
    (row col : nat) (adj : list bool) : list bool :=
  if guard && negb (pos_at m row col =? -1)%Z
  then <[Z.to_nat pos * n + Z.to_nat (pos_at m row col) := true]> adj
  else adj.

Definition link_cell (adjacency : string) (n : nat) (m : list Z)
    (adj : list bool) (rc : nat * nat) : list bool :=
  let row := rc.1 in
  let col := rc.2 in
  let pos := pos_at m row col in
  let W := MAX_GRID_WIDTH in
  if (pos =? -1)%Z then adj
  else
    let adj :=
      if String.eqb adjacency "Diagonal" then
        link n m pos ((0 <? row) && (col <? W - 1)) (row - 1) (col + 1)
          (link n m pos ((0 <? row) && (0 <? col)) (row - 1) (col - 1) adj)
      else adj in
    let adj :=
      if String.eqb adjacency "Diagonal" then
        link n m pos ((row <? W - 1) && (col <? W - 1)) (row + 1) (col + 1)
          (link n m pos ((row <? W - 1) && (0 <? col)) (row + 1) (col - 1) adj)
      else adj in
    if String.eqb adjacency "Diagonal" || String.eqb adjacency "Straight" then
      link n m pos (col <? W - 1) row (col + 1)
        (link n m pos (0 <? col) row (col - 1)
           (link n m pos (row <? W - 1) (row + 1) col
              (link n m pos (0 <? row) (row - 1) col adj)))
    else adj.

Definition build_adjacency_matrix (g : option GameGrid) (n : nat)
    : option (list bool) :=
  match g with
  | None => None
  | Some g =>
      if String.eqb (tile_adjacency g) "Full" then None
      else
        let m := build_pos_matrix g n in
        Some (fold_left (link_cell (tile_adjacency g) n m) grid_cells
                (replicate (n * n) false))
  end.

(** [Board::Board(letters, g)] *)
Definition Board_new (ls : list ascii) (g : option GameGrid) : Board :=
  let st := parse_board ls in
  let n := length (filter (fun c => is_tile_start c = true) ls) in
  {| letters := ls;
     adj_matrix := build_adjacency_matrix g n;
     tile_grid := p_tiles st;
     letter_mult_grid := p_letter_mult st;
     word_mult_grid := p_word_mult st;
     board_size := n |}.

(** A square grid of side [w] with every cell enabled. *)
Definition square_grid (w : nat) (adjacency : string) : GameGrid :=
  {| grid_tiles :=
       map (fun r => map (fun c => (r <? w) && (c <? w)) (seq 0 MAX_GRID_WIDTH))
         (seq 0 MAX_GRID_WIDTH);
     tile_adjacency := adjacency |}.

(** ** Machine arithmetic used by the scorer *)

(** [unsigned]: 32 bits, wrapping. *)
Definition u32 (z : Z) : Z := (z mod 2 ^ 32)%Z.

(** [double]: IEEE 754 binary64. *)
Definition double : Type := spec_float.
Definition dprec : Z := 53%Z.
Definition demax : Z := 1024%Z.

(** The double nearest to [m * 2^e]. *)
Definition double_of (m e : Z) : double := binary_normalize dprec demax m e false.
(** Conversion of an integer to [double]. *)
Definition double_of_Z (n : Z) : double := double_of n 0.
Definition dzero : double := S754_zero false.
Definition dmul : double -> double -> double := SFmul dprec demax.
Definition dadd : double -> double -> double := SFadd dprec demax.

(** The integer part of a finite double, rounded toward zero. *)
Definition dtrunc (x : double) : Z :=
  match x with
  | S754_finite sg m e =>
      let mag := if (0 <=? e)%Z then (Zpos m * 2 ^ e)%Z
                 else (Zpos m / 2 ^ (- e))%Z in
      if sg then (- mag)%Z else mag
  | _ => 0%Z
  end.

(** The least integer not below a finite double. *)
Definition dceilZ (x : double) : Z :=
  match x with
  | S754_finite sg m e =>
      if (0 <=? e)%Z then (if sg then - (Zpos m * 2 ^ e) else Zpos m * 2 ^ e)%Z
      else if sg then (- (Zpos m / 2 ^ (- e)))%Z
      else ((Zpos m + 2 ^ (- e) - 1) / 2 ^ (- e))%Z
  | _ => 0%Z
  end.

(** [ceil] of [<cmath>]: an integral double; zeros, infinities and NaN are
    returned as they are. *)
Definition ceil (x : double) : double :=
  match x with
  | S754_finite sg m e =>
      if (0 <=? e)%Z then x
      else binary_normalize dprec demax (dceilZ x) 0 sg
  | _ => x
  end.

(** Conversion of a double to [unsigned]: the fraction is discarded.  C++
    defines the result only when the truncated value is an [unsigned], from
    0 to 2^32 - 1.  Outside that range the behaviour is undefined; the model
    gives there what the x86-64 build computes: its conversion instruction
    truncates to 64 bits, of which the low 32 are kept, and a value without
    a 64-bit truncation (2^63 and beyond, an infinity, NaN) gives 0. *)
Definition unsigned_of_double (x : double) : Z :=
  let t := dtrunc x in
  match x with
  | S754_finite _ _ _ =>
      if (- 2 ^ 63 <=? t)%Z && (t <? 2 ^ 63)%Z then u32 t else 0%Z
  | _ => 0%Z
  end.

(** ** Scoring rules ([wgs.h]) *)

Record GameScoringRules : Type := mkRules {
  q_is_qu : bool;
  random_board_size : Z;
  short_word_multiplier : bool;
  qu_length : Z;
  short_word_length : Z;
  short_word_points : Z;
  min_word_length : Z;
  wild_card_points : bool;
  round_bonus_up : bool;
  multiply_length_bonus : bool;
  letter_values : gmap ascii Z;
  length_bonuses : gmap Z double
}.

(** [GameScoringRules::GameScoringRules()] *)
Definition default_rules : GameScoringRules :=
  {| q_is_qu := true; random_board_size := 0; short_word_multiplier := false;
     qu_length := 1; short_word_length := 0; short_word_points := 0;
     min_word_length := 0; wild_card_points := false;
     round_bonus_up := false; multiply_length_bonus := false;
     letter_values := ∅; length_bonuses := ∅ |}.

(** [GameScoringRules::letterValue] *)
Definition letterValue (s : GameScoringRules) (letter : ascii) : Z :=
  default 0%Z (letter_values s !! Char.toupper letter).

(** [GameScoringRules::lengthBonus] *)
Definition lengthBonus (s : GameScoringRules) (len : Z) : double :=
  default dzero (length_bonuses s !! len).

(** ** Solutions ([scramble.h]) *)

Record Solution : Type := mkSolution {
  word : list ascii;
  positions : list nat;
  word_length : Z;
  score : Z;
  letter_points : Z;
  word_multiplier : Z;
  length_bonus : double
}.

(** ** The scorer: [Solver::score_solution] ([scramble.cpp])

    [wildcard] is the solver's array of chosen wildcard letters.  [word_len]
    is an [int]; it stays far below [2^31] and is kept exact. *)

Record letter_acc : Type := mkLetterAcc {
  la_word_len : Z;
  la_word : list ascii;
  la_tile_value : Z
}.

(** Body of the loop over the characters of one tile. *)
Definition score_letter (s : GameScoringRules) (chosen : ascii)
    (acc : letter_acc) (c : ascii) : letter_acc :=
  let is_wildcard := c =c? "?" in
  let letter := if is_wildcard then chosen else c in
  let word_len := (la_word_len acc + 1)%Z in
  let word := la_word acc ++ [Char.toupper letter] in
  let qu := ((letter =c? "Q") || (letter =c? "q")) && q_is_qu s in
  let word' := if qu then word ++ ["U"%char] else word in
  let word_len' :=
    if qu && (qu_length s =? 2)%Z then (word_len + 1)%Z else word_len in
  let tile_value :=
    if negb is_wildcard || wild_card_points s
    then u32 (la_tile_value acc + letterValue s letter)
    else la_tile_value acc in
  {| la_word_len := word_len'; la_word := word'; la_tile_value := tile_value |}.

Record path_acc : Type := mkPathAcc {
  pa_word_len : Z;
  pa_word : list ascii;
  pa_letter_points : Z;
  pa_word_multiplier : Z
}.

(** Body of the loop over the positions of the path. *)
Definition score_tile (wildcard : list ascii) (b : Board)
    (s : GameScoringRules) (acc : path_acc) (p : nat) : path_acc :=
  let la :=
    fold_left (score_letter s (default Char.NUL (wildcard !! p))) (tile b p)
      {| la_word_len := pa_word_len acc; la_word := pa_word acc;
         la_tile_value := 0 |} in
  let letter_multiplier := Z.of_nat (letter_mult b p) in
  {| pa_word_len := la_word_len la;
     pa_word := la_word la;
     pa_letter_points :=
       u32 (pa_letter_points acc + u32 (la_tile_value la * letter_multiplier));
     pa_word_multiplier :=
       u32 (pa_word_multiplier acc * Z.of_nat (word_mult b p)) |}.

Definition score_path (wildcard : list ascii) (b : Board)
    (s : GameScoringRules) (ps : list nat) : path_acc :=
  fold_left (score_tile wildcard b s) ps
    {| pa_word_len := 0; pa_word := []; pa_letter_points := 0;
       pa_word_multiplier := 1 |}.

Definition score_solution (wildcard : list ascii) (b : Board)
    (s : GameScoringRules) (ps : list nat) : Solution :=
  let acc := score_path wildcard b s ps in
  let word_len := pa_word_len acc in
  let letter_points := pa_letter_points acc in
  let word_multiplier := pa_word_multiplier acc in
  if (word_len <? min_word_length s)%Z then
    mkSolution (pa_word acc) ps word_len 0 0 1 dzero
  else if (word_len <=? short_word_length s)%Z then
    if short_word_multiplier s then
      mkSolution (pa_word acc) ps word_len
        (u32 (word_multiplier * u32 (short_word_points s)))
        (u32 (short_word_points s)) word_multiplier dzero
    else
      mkSolution (pa_word acc) ps word_len
        (u32 (short_word_points s)) (u32 (short_word_points s)) 1 dzero
  else
    let bonus := lengthBonus s word_len in
    let base := double_of_Z (u32 (letter_points * word_multiplier)) in
    let sc :=
      if multiply_length_bonus s then
        if round_bonus_up s then unsigned_of_double (ceil (dmul base bonus))
        else unsigned_of_double (dmul base bonus)
      else
        if round_bonus_up s then unsigned_of_double (ceil (dadd base bonus))
        else unsigned_of_double (dadd base bonus) in
    mkSolution (pa_word acc) ps word_len sc letter_points word_multiplier bonus.

(** ** The solver ([scramble.h], [scramble.cpp]) *)

Record Solver : Type := mkSolver {
  dict : Trie;
  solutions : list Solution;
  board : option Board;
  used : list nat;
  path : list nat;
  cur_len : nat;
  wildcard : list ascii
}.

(** [Solver::Solver()]: every pointer is null and the list is empty. *)
Definition new_Solver : Solver :=
  {| dict := new_Trie; solutions := []; board := None; used := [];
     path := []; cur_len := 0; wildcard := [] |}.

(** [Solver::add_word] *)
Definition Solver_add_word (w : list ascii) (s : Solver) : Solver :=
  {| dict := add_word w (dict s); solutions := solutions s;
     board := board s; used := used s; path := path s;
     cur_len := cur_len s; wildcard := wildcard s |}.

(** [Solver::get_solutions] *)
Definition get_solutions (s : Solver) : list Solution := solutions s.

(** [wildcard[pos] = c] *)
Definition set_wildcard (pos : nat) (c : ascii) (s : Solver) : Solver :=
  {| dict := dict s; solutions := solutions s; board := board s;
     used := used s; path := path s; cur_len := cur_len s;
     wildcard := <[pos := c]> (wildcard s) |}.

(** [used[pos] = 1; path[cur_len++] = pos]: the path stores an
    [unsigned char]. *)
Definition enter (pos : nat) (s : Solver) : Solver :=
  {| dict := dict s; solutions := solutions s; board := board s;
     used := <[pos := 1]> (used s);
     path := <[cur_len s := pos mod 256]> (path s);
     cur_len := S (cur_len s); wildcard := wildcard s |}.

(** [used[pos] = 0; --cur_len] *)
Definition leave (pos : nat) (s : Solver) : Solver :=
  {| dict := dict s; solutions := solutions s; board := board s;
     used := <[pos := 0]> (used s); path := path s;
     cur_len := cur_len s - 1; wildcard := wildcard s |}.

(** [solutions.emplace_back(sol)] *)
Definition emplace_back (sol : Solution) (s : Solver) : Solver :=
  {| dict := dict s; solutions := solutions s ++ [sol]; board := board s;
     used := used s; path := path s; cur_len := cur_len s;
     wildcard := wildcard s |}.

(** The block guarded by [t->is_a_word()]: score the current path and keep
    the solution when it is long enough. *)
Definition emit (b : Board) (sr : GameScoringRules) (t : Trie) (s : Solver)
    : Solver :=
  if is_word t then
    let new_solution :=
      score_solution (wildcard s) b sr (take (cur_len s) (path s)) in
    if (min_word_length sr <=? word_length new_solution)%Z
    then emplace_back new_solution s else s
  else s.

(** The outcome of the loop of [_solve] over the characters of the tile:
    a failed descent, a wildcard met at trie node [t], or the whole tile
    consumed down to node [t]. *)
Inductive walk_result : Type :=
  | WalkFail
  | WalkWild (t : Trie)
  | WalkDone (t : Trie).

Fixpoint walk (sr : GameScoringRules) (t : Trie) (cs : list ascii)
    : walk_result :=
  match cs with
  | [] => WalkDone t
  | c :: cs' =>
      if c =c? "?" then WalkWild t
      else
        match child t (Char.toupper c) with
        | None => WalkFail
        | Some t1 =>
            if q_is_qu sr && (Char.toupper c =c? "Q") then
              match child t1 "U" with
              | None => WalkFail
              | Some t2 => walk sr t2 cs'
              end
            else walk sr t1 cs'
        end
  end.

(** A [for] loop whose body may run out of fuel. *)
Fixpoint for_each {A St : Type} (body : A -> St -> option St) (l : list A)
    (s : St) : option St :=
  match l with
  | [] => Some s
  | x :: l' =>
      match body x s with
      | Some s' => for_each body l' s'
      | None => None
      end
  end.

(** [Solver::_solve].  [b] is [this->board], which [solve] sets before the
    first call.  The recursion is bounded by [fuel]; [None] means that the
    bound was too small. *)
Fixpoint _solve (fuel : nat) (b : Board) (sr : GameScoringRules) (pos : nat)
    (t : option Trie) (tl : list ascii) (s : Solver) : option Solver :=
  match fuel with
  | 0 => None
  | S fuel' =>
      match t with
      | None => Some s
      | Some t0 =>
          match tl with
          | [] => Some s
          | _ :: rest =>
              match walk sr t0 tl with
              | WalkFail => Some s
              | WalkWild t1 =>
                  for_each
                    (fun i s1 =>
                       _solve fuel' b sr pos (Some t1) (Char.letter i :: rest)
                         (set_wildcard pos (Char.letter i) s1))
                    (seq 0 ALPHABET_SIZE) s
              | WalkDone t1 =>
                  let s1 := emit b sr t1 (enter pos s) in
                  match
                    for_each
                      (fun i s2 =>
                         if (default 0 (used s2 !! i) =? 0) && is_adjacent b pos i
                         then _solve fuel' b sr i (Some t1) (tile b i) s2
                         else Some s2)
                      (seq 0 (get_board_size b)) s1
                  with
                  | Some s3 => Some (leave pos s3)
                  | None => None
                  end
              end
          end
      end
  end.

(** The state with which [solve] starts its walks. *)
Definition reset (b : Board) (s : Solver) : Solver :=
  let n := get_board_size b in
  {| dict := dict s; solutions := []; board := Some b;
     used := replicate n 0; path := replicate n 0; cur_len := 0;
     wildcard := replicate n Char.NUL |}.

(** [Solver::solve]; a null board pointer is [None].  Every tile is
    entered at most once on a walk and a wildcard tile takes two calls, so
    a depth of twice the board size is never exceeded. *)
Definition solve (b : option Board) (sr : GameScoringRules) (s : Solver)
    : option Solver :=
  match b with
  | None => Some s
  | Some b =>
      for_each
        (fun i s1 =>
           _solve (2 * get_board_size b) b sr i (Some (dict s1)) (tile b i) s1)
        (seq 0 (get_board_size b)) (reset b s)
  end.

(** ** Solution order ([scramble.h]) *)

(** [std::string::operator<]: lexicographic on the character codes. *)
Fixpoint str_ltb (a b : list ascii) : bool :=
  match a, b with
  | _, [] => false
  | [], _ :: _ => true
  | x :: a', y :: b' =>
      if Char.code x <? Char.code y then true
      else if Char.code y <? Char.code x then false
      else str_ltb a' b'
  end.

Definition str_eqb (a b : list ascii) : bool := bool_decide (a = b).

(** [equal_words] *)
Definition equal_words (a b : Solution) : bool := str_eqb (word a) (word b).

(** [operator<(const Solution &, const Solution &)] *)
Definition Solution_ltb (a b : Solution) : bool :=
  if str_ltb (word a) (word b) then true
  else if str_ltb (word b) (word a) then false
  else (score b <? score a)%Z.

(** The postcondition of [std::sort]: no element is less than one before
    it. *)
Fixpoint sorted_solutions (l : list Solution) : Prop :=
  match l with
  | [] => True
  | x :: l' =>
      Forall (fun y => Solution_ltb y x = false) l' /\ sorted_solutions l'
  end.

(** ** The analyzer ([analyze.h], [analyze.cpp]) *)

(** [size_t]: 64 bits, wrapping. *)
Definition size_t (z : Z) : Z := (z mod 2 ^ 64)%Z.

(** [m[k]] read on a [std::map<size_t, size_t>]: an absent key reads 0. *)
Definition at_key (m : gmap nat Z) (k : nat) : Z := default 0%Z (m !! k).

(** [m[k] += v] *)
Definition add_at (k : nat) (v : Z) (m : gmap nat Z) : gmap nat Z :=
  <[k := size_t (at_key m k + v)]> m.

Record SolutionAnalysis : Type := mkAnalysis {
  word_length_counts : gmap nat Z;
  point_length_counts : gmap nat Z;
  word_lengthp_counts : gmap nat Z;
  point_lengthp_counts : gmap nat Z;
  position_words : gmap nat Z;
  position_points : gmap nat Z;
  best_words : gmap nat (list ascii);
  best_word_points : gmap nat Z;
  board_letters : list ascii;
  (* locals of the constructor *)
  last_word : list ascii;
  last_word_positions : gset nat
}.

(** [if (best_word_points[n] < score) { best_words[n] = word; ... }]; the
    read creates the key. *)
Definition update_best (n : nat) (w : list ascii) (sc : Z)
    (bw : gmap nat (list ascii) * gmap nat Z)
    : gmap nat (list ascii) * gmap nat Z :=
  if (at_key bw.2 n <? sc)%Z
  then (<[n := w]> bw.1, <[n := sc]> bw.2)
  else (bw.1, <[n := at_key bw.2 n]> bw.2).

(** The loop over the positions of one solution. *)
Definition credit_position (sc : Z)
    (acc : gmap nat Z * gmap nat Z * gset nat) (pos : nat)
    : gmap nat Z * gmap nat Z * gset nat :=
  let p := (pos + 1) mod 256 in
  if bool_decide (p ∈ acc.2) then acc
  else (add_at p 1 acc.1.1, add_at p sc acc.1.2, {[p]} ∪ acc.2).

(** The body of the loop over the solutions. *)
Definition analyze_step (a : SolutionAnalysis) (i : Solution)
    : SolutionAnalysis :=
  let sc := score i in
  let w := word i in
  let word_length := length w in
  let fresh := negb (str_eqb w (last_word a)) in
  let lwp := if fresh then ∅ else last_word_positions a in
  let bw := update_best 0 w sc
              (update_best word_length w sc (best_words a, best_word_points a)) in
  let wlc := if fresh
             then add_at 0 1 (add_at word_length 1 (word_length_counts a))
             else word_length_counts a in
  let plc := if fresh
             then add_at 0 sc (add_at word_length sc (point_length_counts a))
             else point_length_counts a in
  let wlpc := if fresh
              then fold_left (fun m j => add_at j 1 m) (seq 0 (S word_length))
                     (word_lengthp_counts a)
              else word_lengthp_counts a in
  let plpc := if fresh
              then fold_left (fun m j => add_at j sc m) (seq 0 (S word_length))
                     (point_lengthp_counts a)
              else point_lengthp_counts a in
  let pw := if fresh then add_at 0 1 (position_words a)
            else position_words a in
  let pp := if fresh then add_at 0 sc (position_points a)
            else position_points a in
  let r := fold_left (credit_position sc) (positions i) (pw, pp, lwp) in
  {| word_length_counts := wlc; point_length_counts := plc;
     word_lengthp_counts := wlpc; point_lengthp_counts := plpc;
     position_words := r.1.1; position_points := r.1.2;
     best_words := bw.1; best_word_points := bw.2;
     board_letters := board_letters a;
     last_word := w; last_word_positions := r.2 |}.

(** [SolutionAnalysis::SolutionAnalysis(b, solutions)] *)
Definition analyze (b : Board) (sols : list Solution) : SolutionAnalysis :=
  fold_left analyze_step sols
    {| word_length_counts := ∅; point_length_counts := ∅;
       word_lengthp_counts := ∅; point_lengthp_counts := ∅;
       position_words := ∅; position_points := ∅;
       best_words := ∅; best_word_points := ∅;
       board_letters := letters b;
       last_word := []; last_word_positions := ∅ |}.

(** ** The generator's acceptance test ([maker.cpp]) *)

(** [(int) x] for a [size_t] [x]: the low 32 bits, two's complement. *)
Definition int_of_size_t (x : Z) : Z :=
  let r := (x mod 2 ^ 32)%Z in
  if (r <? 2 ^ 31)%Z then r else (r - 2 ^ 32)%Z.

(** The locals [best_score], [best_points], [duds], [changes] of
    [generate_dice_board] and [generate_prop_board], and the board [best]. *)
Record gen_state (B : Type) : Type := mkGen {
  best : B;
  best_score : Z;
  best_points : Z;
  duds : Z;
  changes : Z
}.
Arguments mkGen {B}.
Arguments best {B}.
Arguments best_score {B}.
Arguments best_points {B}.
Arguments duds {B}.
Arguments changes {B}.

(** The condition of the [if] that ends each trial; it is the same text in
    both generators. *)
Definition accepts (reverse_target : bool)
    (board_score board_points best_score best_points changes : Z) : bool :=
  (reverse_target &&
     ((board_score <? best_score)%Z || (board_points <? best_points)%Z ||
      (int_of_size_t (size_t (board_score - best_score)) <? 250 ÷ changes)%Z))
  ||
  (negb reverse_target &&
     ((best_score <? board_score)%Z || (best_points <? board_points)%Z ||
      (int_of_size_t (size_t (best_score - board_score)) <? 250 ÷ changes)%Z)).

(** A trial: the candidate board [tmp] with its distinct-word count and
    point total. *)
Record candidate (B : Type) : Type := mkCandidate {
  tmp : B;
  board_score : Z;
  board_points : Z
}.
Arguments mkCandidate {B}.
Arguments tmp {B}.
Arguments board_score {B}.
Arguments board_points {B}.

(** The end of the loop body: accept the candidate or count a dud. *)
Definition trial {B : Type} (reverse_target : bool) (st : gen_state B)
    (c : candidate B) : gen_state B :=
  if accepts reverse_target (board_score c) (board_points c)
       (best_score st) (best_points st) (changes st)
  then {| best := tmp c; best_score := board_score c;
          best_points := board_points c; duds := 0;
          changes := (changes st + 1)%Z |}
  else {| best := best st; best_score := best_score st;
          best_points := best_points st; duds := (duds st + 1)%Z;
          changes := changes st |}.

(** The locals before the loop: [best_score = -reverse_target] as a
    [size_t]. *)
Definition gen_init {B : Type} (reverse_target : bool) (b0 : B) : gen_state B :=
  {| best := b0;
     best_score := size_t (if reverse_target then -1 else 0);
     best_points := size_t (if reverse_target then -1 else 0);
     duds := 0; changes := 1 |}.

(** The condition of the [do ... while]. *)
Definition keep_going {B : Type} (reverse_target : bool)
    (min_words min_score : Z) (st : gen_state B) : bool :=
  (duds st <? 200)%Z &&
  ((negb reverse_target &&
      ((best_score st <? min_words)%Z || (best_points st <? min_score)%Z))
   || (reverse_target &&
      ((min_words <? best_score st)%Z || (min_score <? best_points st)%Z))).

(** The [do ... while] loop run on the candidates that the random moves
    and the solver produce, in order. *)
Fixpoint gen_loop {B : Type} (reverse_target : bool) (min_words min_score : Z)
    (cands : list (candidate B)) (st : gen_state B) : gen_state B :=
  match cands with
  | [] => st
  | c :: cands' =>
      let st' := trial reverse_target st c in
      if keep_going reverse_target min_words min_score st'
      then gen_loop reverse_target min_words min_score cands' st'
      else st'
  end.

(** ** The validator: propensity boards ([validate.cpp]) *)

(** The loop of [validatePropensityBoard] over the board tiles; [pool] is
    the local copy [letters]. *)
Fixpoint validate_tiles (pool : list (list ascii))
    (board_tiles : list (list ascii)) (sample_without_replace : bool) : bool :=
  match board_tiles with
  | [] => true
  | t :: rest =>
      match list_find (fun x => x = t) pool with
      | None => false
      | Some (i, _) =>
          validate_tiles
            (if sample_without_replace then delete i pool else pool)
            rest sample_without_replace
      end
  end.

(** [Validator::validatePropensityBoard]: the result, and the caller's
    vector [prop_letters] as the call leaves it. *)
Definition validatePropensityBoard (prop_letters : list (list ascii))
    (board_tiles : list (list ascii)) (sample_without_replace : bool)
    : bool * list (list ascii) :=
  let letters := prop_letters in
  (validate_tiles letters board_tiles sample_without_replace, prop_letters).

(** ** What a walk spells *)

(** The letter a tile character stands for: a wildcard stands for the
    letter recorded for its tile. *)
Definition chosen_letter (wc : list ascii) (p : nat) (c : ascii) : ascii :=
  if c =c? "?" then default Char.NUL (wc !! p) else c.

Definition is_Q (l : ascii) : bool := (l =c? "Q") || (l =c? "q").

(** The letters consumed from tile [p], and along a path. *)
Definition tile_letters (wc : list ascii) (b : Board) (p : nat) : list ascii :=
  map (chosen_letter wc p) (tile b p).
Definition path_letters (wc : list ascii) (b : Board) (ps : list nat)
    : list ascii :=
  ps ≫= tile_letters wc b.

(** The emitted characters: each letter in upper case, and a [U] after each
    [Q] when [qu] is set. *)
Definition expand_letter (qu : bool) (l : ascii) : list ascii :=
  Char.toupper l :: (if is_Q l && qu then ["U"%char] else []).
Definition expand_word (qu : bool) (ls : list ascii) : list ascii :=
  ls ≫= expand_letter qu.

Definition spell (sr : GameScoringRules) (wc : list ascii) (b : Board)
    (ps : list nat) : list ascii :=
  expand_word (q_is_qu sr) (path_letters wc b ps).

(** The number of letters [Q] among the consumed letters. *)
Definition q_count (ls : list ascii) : nat :=
  length (filter (fun l => is_Q l = true) ls).

(** ** Rule sets and boards used in the examples *)

(** The default rules with [quLength] set. *)
Definition qu_rules (len : Z) : GameScoringRules :=
  {| q_is_qu := true; random_board_size := 0; short_word_multiplier := false;
     qu_length := len; short_word_length := 0; short_word_points := 0;
     min_word_length := 0; wild_card_points := false;
     round_bonus_up := false; multiply_length_bonus := false;
     letter_values := ∅; length_bonuses := ∅ |}.

(** Rules with [A] worth 2, [B] worth 1 and a bonus of 10.5 for seven
    letters. *)
Definition bonus_rules (round_up multiply : bool) : GameScoringRules :=
  {| q_is_qu := true; random_board_size := 0; short_word_multiplier := false;
     qu_length := 1; short_word_length := 2; short_word_points := 0;
     min_word_length := 3; wild_card_points := false;
     round_bonus_up := round_up; multiply_length_bonus := multiply;
     letter_values := <["A"%char := 2%Z]> (<["B"%char := 1%Z]> ∅);
     length_bonuses := <[7%Z := double_of 21 (-1)]> ∅ |}.





(** ** Walks on a board *)

(** A tile as [parse_board] builds it: a wildcard can only come first. *)
Definition tile_ok (t : list ascii) : Prop := "?"%char ∉ tail t.

Definition wf_board (b : Board) : Prop :=
  length (tile_grid b) = board_size b /\ Forall tile_ok (tile_grid b).

(** Consecutive tiles are adjacent. *)
Fixpoint chain (b : Board) (ps : list nat) : Prop :=
  match ps with
  | p :: rest =>
      match rest with
      | q :: _ => is_adjacent b p q = true /\ chain b rest
      | [] => True
      end
  | [] => True
  end.

(** A walk: distinct tiles of the board, none empty, each adjacent to the
    next. *)
Definition is_walk (b : Board) (ps : list nat) : Prop :=
  NoDup ps /\
  (forall p, p ∈ ps -> p < board_size b /\ tile b p <> []) /\
  chain b ps.

(** The wildcard array gives tile [p] a letter of the alphabet if the tile
    holds a wildcard. *)
Definition valid_choice (wc : list ascii) (b : Board) (p : nat) : Prop :=
  "?"%char ∈ tile b p ->
  exists i, i < ALPHABET_SIZE /\ wc !! p = Some (Char.letter i).

(** How many solutions of a list have the given path and word. *)
Definition count_solutions (ps : list nat) (w : list ascii)
    (sols : list Solution) : nat :=
  length (filter (fun sol => positions sol = ps /\ word sol = w) sols).

(** The solver's arrays describe the walk [P] being extended. *)
Definition Rep (b : Board) (s : Solver) (P : list nat) : Prop :=
  cur_len s = length P /\
  take (length P) (path s) = P /\
  length (path s) = board_size b /\
  length (used s) = board_size b /\
  length (wildcard s) = board_size b /\
  (forall i, i < board_size b ->
     used s !! i = Some (if bool_decide (i ∈ P) then 1 else 0)).

(** [pos] may extend the walk [P]. *)
Definition extends (b : Board) (P : list nat) (pos : nat) : Prop :=
  NoDup (P ++ [pos]) /\
  (forall p, p ∈ P ++ [pos] -> p < board_size b) /\
  (forall p, p ∈ P -> tile b p <> []) /\
  chain b (P ++ [pos]).

(** Two wildcard arrays give the same letters on the tiles of [P]. *)
Definition agree (b : Board) (P : list nat) (wq wc : list ascii) : Prop :=
  forall p, p ∈ P -> tile_letters wq b p = tile_letters wc b p.

(** The invariant of the second loop of [parse_board]. *)
Definition parse_inv (n : nat) (st : parse_state) : Prop :=
  length (p_tiles st) = n /\ Forall tile_ok (p_tiles st).

(** What [_solve], entered at [pos] with tile text [tl] after the walk [P],
    may emit: a scored walk through [P] and [pos] whose word is in the
    dictionary and long enough. *)
Definition sol_ok (b : Board) (sr : GameScoringRules) (root : Trie)
    (wc : list ascii) (P : list nat) (pos : nat) (tl : list ascii)
    (sol : Solution) : Prop :=
  exists R wq,
    sol = score_solution wq b sr (P ++ pos :: R) /\
    is_walk b (P ++ pos :: R) /\
    agree b P wq wc /\
    ("?"%char ∉ tl -> tile_letters wq b pos = tl) /\
    trie_contains root (spell sr wq b (P ++ pos :: R)) = true /\
    (min_word_length sr <= word_length sol)%Z.

(** What it must emit: every walk through [P] and [pos], with every choice
    of wildcard letters, that spells a dictionary word long enough. *)
Definition target_ok (b : Board) (sr : GameScoringRules) (root : Trie)
    (wc : list ascii) (P : list nat) (pos : nat) (tl : list ascii)
    (R : list nat) (wq : list ascii) : Prop :=
  is_walk b (P ++ pos :: R) /\
  agree b P wq wc /\
  ("?"%char ∉ tl -> tile_letters wq b pos = tl) /\
  (forall p, p ∈ pos :: R -> valid_choice wq b p) /\
  trie_contains root (spell sr wq b (P ++ pos :: R)) = true /\
  (min_word_length sr <=
     word_length (score_solution wq b sr (P ++ pos :: R)))%Z.

(** The effect of a call of [_solve] from state [s]. *)
Definition Post (b : Board) (sr : GameScoringRules) (s : Solver)
    (P : list nat) (pos : nat) (tl : list ascii) (s' : Solver) : Prop :=
  Rep b s' P /\
  dict s' = dict s /\
  (forall p, p ∈ P -> wildcard s' !! p = wildcard s !! p) /\
  exists new,
    solutions s' = solutions s ++ new /\
    (forall sol, sol ∈ new ->
       sol_ok b sr (dict s) (wildcard s) P pos tl sol) /\
    (forall R wq,
       target_ok b sr (dict s) (wildcard s) P pos tl R wq ->
       count_solutions (P ++ pos :: R) (spell sr wq b (P ++ pos :: R)) new = 1).

(** The two ways [_solve] is entered at [pos]: with the tile as the board
    has it, or with its wildcard replaced; the second is one call deeper. *)
Definition entry (b : Board) (fuel : nat) (s : Solver) (P : list nat)
    (pos : nat) (tl : list ascii) : Prop :=
  (tl = tile b pos /\ 2 * (board_size b - length P) <= fuel) \/
  (tl = tile_letters (wildcard s) b pos /\ ("?"%char ∉ tl) /\
   2 * (board_size b - length P) <= S fuel).

(** The contract of [_solve] at a given recursion bound. *)
Definition frame_spec (b : Board) (sr : GameScoringRules) (fuel : nat) : Prop :=
  forall s P pos t tl,
    Rep b s P ->
    extends b P pos ->
    descend (dict s) (spell sr (wildcard s) b P) = Some t ->
    entry b fuel s P pos tl ->
    exists s', _solve fuel b sr pos (Some t) tl s = Some s' /\
               Post b sr s P pos tl s'.

(** The invariant of a loop over the tiles that may follow the walk [P],
    after the tiles below [k]; [s0] is the state before the loop. *)
Definition tiles_inv (b : Board) (sr : GameScoringRules) (s0 : Solver)
    (P : list nat) (k : nat) (s : Solver) : Prop :=
  Rep b s P /\
  dict s = dict s0 /\
  (forall p, p ∈ P -> wildcard s !! p = wildcard s0 !! p) /\
  exists acc,
    solutions s = solutions s0 ++ acc /\
    (forall sol, sol ∈ acc ->
       exists i, i < k /\
         sol_ok b sr (dict s0) (wildcard s0) P i (tile b i) sol) /\
    (forall i R wq, i < k ->
       target_ok b sr (dict s0) (wildcard s0) P i (tile b i) R wq ->
       count_solutions (P ++ i :: R) (spell sr wq b (P ++ i :: R)) acc = 1).

(** The invariant of the loop over the alphabet at a wildcard tile, after
    the letters below [k]; [rest] is the tile text after the wildcard. *)
Definition letters_inv (b : Board) (sr : GameScoringRules) (s0 : Solver)
    (P : list nat) (pos : nat) (rest : list ascii) (k : nat) (s : Solver)
    : Prop :=
  Rep b s P /\
  dict s = dict s0 /\
  (forall p, p ∈ P -> wildcard s !! p = wildcard s0 !! p) /\
  exists acc,
    solutions s = solutions s0 ++ acc /\
    (forall sol, sol ∈ acc ->
       exists i, i < k /\
         sol_ok b sr (dict s0) (wildcard s0) P pos (Char.letter i :: rest) sol) /\
    (forall i R wq, i < k ->
       target_ok b sr (dict s0) (wildcard s0) P pos (Char.letter i :: rest) R wq ->
       count_solutions (P ++ pos :: R) (spell sr wq b (P ++ pos :: R)) acc = 1).

(** The word length the scorer computes from the consumed letters. *)
Definition scored_length (sr : GameScoringRules) (ls : list ascii) : Z :=
  (Z.of_nat (length ls) +
   (if q_is_qu sr && (qu_length sr =? 2)%Z then Z.of_nat (q_count ls) else 0))%Z.

(** A solver whose dictionary holds the given words. *)
Definition solver_with (ws : list string) : Solver :=
  fold_left (fun s w => Solver_add_word (str w) s) ws new_Solver.

(** The default rules with a minimum word length. *)
Definition min_rules (len : Z) : GameScoringRules :=
  {| q_is_qu := true; random_board_size := 0; short_word_multiplier := false;
     qu_length := 1; short_word_length := 0; short_word_points := 0;
     min_word_length := len; wild_card_points := false;
     round_bonus_up := false; multiply_length_bonus := false;
     letter_values := ∅; length_bonuses := ∅ |}.

(** A fully connected board of 257 tiles: [A], 255 times [X], [B]. *)
Definition long_board : Board :=
  Board_new (str "A" ++ replicate 255 "X"%char ++ str "B") None.

(** A 4 by 4 board with straight adjacency. *)
Definition cat_board : Board :=
  Board_new (str "CATSXXXXXXXXXXXX") (Some (square_grid 4 "Straight")).

(** A solver with the given dictionary whose other members hold what an
    earlier call left behind. *)
Definition used_solver (d : Trie) (old : list Solution) (b : option Board)
    : Solver :=
  {| dict := d; solutions := old; board := b; used := [1; 0; 1];
     path := [2; 0; 0]; cur_len := 0; wildcard := ["Z"%char; "Q"%char] |}.

(** The 26 one-letter words. *)
Definition alphabet_words : list string :=
  map (fun i => String (Char.letter i) EmptyString) (seq 0 ALPHABET_SIZE).

(** The default rules without the Qu rule. *)
Definition plain_rules : GameScoringRules :=
  {| q_is_qu := false; random_board_size := 0; short_word_multiplier := false;
     qu_length := 1; short_word_length := 0; short_word_points := 0;
     min_word_length := 0; wild_card_points := false;
     round_bonus_up := false; multiply_length_bonus := false;
     letter_values := ∅; length_bonuses := ∅ |}.

(** ** Runs of the generator loop *)

(** The state before the next trial, after the trials on [pre]. *)
Definition after_trials {B : Type} (reverse_target : bool) (b0 : B)
    (pre : list (candidate B)) : gen_state B :=
  fold_left (trial reverse_target) pre (gen_init reverse_target b0).

(** The decisions taken on a list of candidates, from state [st]. *)
Fixpoint decisions {B : Type} (reverse_target : bool) (st : gen_state B)
    (cands : list (candidate B)) : list bool :=
  match cands with
  | [] => []
  | c :: cs =>
      accepts reverse_target (board_score c) (board_points c)
        (best_score st) (best_points st) (changes st)
      :: decisions reverse_target (trial reverse_target st c) cs
  end.

(** The number of moves accepted in the trials on [pre]. *)
Definition accepted_moves {B : Type} (reverse_target : bool) (b0 : B)
    (pre : list (candidate B)) : Z :=
  Z.of_nat (length (filter (fun d => d = true)
                      (decisions reverse_target (gen_init reverse_target b0) pre))).

(** ** Duplicate words and credited positions *)

(** The list without the solutions whose word occurred before; [seen]
    holds the words met so far. *)
Fixpoint dedup_words (seen : list (list ascii)) (l : list Solution)
    : list Solution :=
  match l with
  | [] => []
  | x :: l' =>
      if bool_decide (word x ∈ seen) then dedup_words seen l'
      else x :: dedup_words (word x :: seen) l'
  end.

(** The solution passes through the tile numbered [p] (from 1, as a byte). *)
Definition touches (p : nat) (sol : Solution) : bool :=
  bool_decide (p ∈ map (fun pos => (pos + 1) mod 256) (positions sol)).

(** The solutions that are the first of their word to pass through [p];
    [seen] holds the words already met at [p]. *)
Fixpoint credited (p : nat) (seen : list (list ascii)) (l : list Solution)
    : list Solution :=
  match l with
  | [] => []
  | x :: l' =>
      if touches p x && negb (bool_decide (word x ∈ seen))
      then x :: credited p (word x :: seen) l'
      else credited p seen l'
  end.

(** The solutions whose word differs from the word of the solution before
    them ([lw] before the first): those for which the constructor takes
    the branch [word != last_word]. *)
Fixpoint firsts (lw : list ascii) (l : list Solution) : list Solution :=
  match l with
  | [] => []
  | x :: l' =>
      if str_eqb (word x) lw then firsts (word x) l'
      else x :: firsts (word x) l'
  end.

(** Equal words are next to each other: once the list leaves the word
    [lw], it does not come back to it. *)
Fixpoint grouped (lw : list ascii) (l : list Solution) : Prop :=
  match l with
  | [] => True
  | x :: l' =>
      (word x <> lw -> forall y, y ∈ l' -> word y <> lw) /\
      grouped (word x) l'
  end.

(** The four mappings keyed by word length. *)
Record length_maps : Type := mkLengthMaps {
  lm_words : gmap nat Z;
  lm_points : gmap nat Z;
  lm_words_plus : gmap nat Z;
  lm_points_plus : gmap nat Z
}.

Definition length_aggregates (a : SolutionAnalysis) : length_maps :=
  {| lm_words := word_length_counts a; lm_points := point_length_counts a;
     lm_words_plus := word_lengthp_counts a;
     lm_points_plus := point_lengthp_counts a |}.

(** The update of the four mappings for a word met for the first time. *)
Definition count_word (m : length_maps) (x : Solution) : length_maps :=
  let n := length (word x) in
  {| lm_words := add_at 0 1 (add_at n 1 (lm_words m));
     lm_points := add_at 0 (score x) (add_at n (score x) (lm_points m));
     lm_words_plus :=
       fold_left (fun m j => add_at j 1 m) (seq 0 (S n)) (lm_words_plus m);
     lm_points_plus :=
       fold_left (fun m j => add_at j (score x) m) (seq 0 (S n))
         (lm_points_plus m) |}.

(** The four mappings along a list, from last word [lw]. *)
Fixpoint count_words (lw : list ascii) (m : length_maps) (l : list Solution)
    : length_maps :=
  match l with
  | [] => m
  | x :: l' =>
      count_words (word x)
        (if str_eqb (word x) lw then m else count_word m x) l'
  end.

(** The credits the constructor gives at [p] along a list, from last word
    [lw]; [has] tells whether [p] is in the set of credited positions. *)
Fixpoint credits (p : nat) (lw : list ascii) (has : bool) (l : list Solution)
    : list Solution :=
  match l with
  | [] => []
  | x :: l' =>
      let has' := if str_eqb (word x) lw then has else false in
      if touches p x && negb has'
      then x :: credits p (word x) true l'
      else credits p (word x) has' l'
  end.

(** The sum of the scores of a list of solutions. *)
Definition total_score (l : list Solution) : Z :=
  fold_right (fun x acc => (score x + acc)%Z) 0%Z l.

(** Every value of the mapping is a [size_t]. *)
Definition in_range (m : gmap nat Z) : Prop :=
  forall k, size_t (at_key m k) = at_key m k.

(** A sorted list with the word CAT found on two paths. *)
Definition cat_solutions : list Solution :=
  [ mkSolution (str "CAT") [0; 1; 2] 3 5 5 1 dzero;
    mkSolution (str "CAT") [4; 1; 2] 3 3 3 1 dzero;
    mkSolution (str "CATS") [0; 1; 2; 3] 4 6 6 1 dzero ].

(** ** Ford-Fulkerson ([ford_fulkerson.cpp]) *)

Module FF.

(** The members of [class fordFulkerson]; vertices are [nat], the entries
    of [prev] are [int]s ([-1]: not reached, [-2]: the source). *)
Record fordFulkerson : Type := mk {
  capacity_matrix : list Z;
  flow_network : list Z;
  q : list nat;
  qf : nat;
  qb : nat;
  prev : list Z;
  vertices : nat
}.

Definition at_ (m : list Z) (i : nat) : Z := default 0%Z (m !! i).

(** [capacity_matrix[u * vertices + v]] and [flow_network[...]] *)
Definition cap (s : fordFulkerson) (u v : nat) : Z :=
  at_ (capacity_matrix s) (u * vertices s + v).
Definition flow (s : fordFulkerson) (u v : nat) : Z :=
  at_ (flow_network s) (u * vertices s + v).

(** [fordFulkerson(int _vertices)] *)
Definition new (V : nat) : fordFulkerson :=
  {| capacity_matrix := replicate (V * V) 0%Z;
     flow_network := replicate (V * V) 0%Z;
     q := replicate V 0; qf := 0; qb := 0;
     prev := replicate V 0%Z; vertices := V |}.

(** [addEdge] *)
Definition addEdge (u v : nat) (s : fordFulkerson) : fordFulkerson :=
  {| capacity_matrix := <[u * vertices s + v := 1%Z]> (capacity_matrix s);
     flow_network := flow_network s; q := q s; qf := qf s; qb := qb s;
     prev := prev s; vertices := vertices s |}.

(** The body of the loop over [v] in the search: [v] is reached from [u]
    when it is new and the edge has residual capacity. *)
Definition scan (u : nat) (s : fordFulkerson) (v : nat) : fordFulkerson :=
  if (at_ (prev s) v =? -1)%Z && (flow s u v - flow s v u <? cap s u v)%Z
  then {| capacity_matrix := capacity_matrix s;
          flow_network := flow_network s;
          q := <[qb s := v]> (q s); qf := qf s; qb := S (qb s);
          prev := <[v := Z.of_nat u]> (prev s); vertices := vertices s |}
  else s.

(** [u = q[qf++]] *)
Definition dequeue (s : fordFulkerson) : nat * fordFulkerson :=
  (default 0 (q s !! qf s),
   {| capacity_matrix := capacity_matrix s; flow_network := flow_network s;
      q := q s; qf := S (qf s); qb := qb s; prev := prev s;
      vertices := vertices s |}).

(** [while (qb > qf && prev[sink] == -1)] *)
Fixpoint bfs (fuel : nat) (sink : nat) (s : fordFulkerson)
    : option fordFulkerson :=
  match fuel with
  | 0 => None
  | S fuel' =>
      if (qf s <? qb s) && (at_ (prev s) sink =? -1)%Z then
        let us := dequeue s in
        bfs fuel' sink (fold_left (scan us.1) (seq 0 (vertices s)) us.2)
      else Some s
  end.

(** The start of a search: [prev] cleared, the source queued. *)
Definition start_search (source : nat) (s : fordFulkerson) : fordFulkerson :=
  {| capacity_matrix := capacity_matrix s; flow_network := flow_network s;
     q := <[0 := source]> (q s); qf := 0; qb := 1;
     prev := <[source := (-2)%Z]> (replicate (vertices s) (-1)%Z);
     vertices := vertices s |}.

(** The bottleneck along the [prev] chain from [v] back to the source. *)
Fixpoint bottleneck (fuel : nat) (s : fordFulkerson) (v : nat) (bot : Z)
    : option Z :=
  match fuel with
  | 0 => None
  | S fuel' =>
      let u := at_ (prev s) v in
      if (0 <=? u)%Z then
        let u := Z.to_nat u in
        let new_bot := (cap s u v - flow s u v + flow s v u)%Z in
        bottleneck fuel' s u (if (new_bot <? bot)%Z then new_bot else bot)
      else Some bot
  end.

(** [flow_network[u * vertices + v] += bot] along the same chain. *)
Fixpoint push (fuel : nat) (s : fordFulkerson) (v : nat) (bot : Z)
    : option fordFulkerson :=
  match fuel with
  | 0 => None
  | S fuel' =>
      let u := at_ (prev s) v in
      if (0 <=? u)%Z then
        let u := Z.to_nat u in
        push fuel'
          {| capacity_matrix := capacity_matrix s;
             flow_network :=
               <[u * vertices s + v := (flow s u v + bot)%Z]> (flow_network s);
             q := q s; qf := qf s; qb := qb s; prev := prev s;
             vertices := vertices s |}
          u bot
      else Some s
  end.

(** The [while (true)] of [maxFlow]; [total] is the local [flow]. *)
Fixpoint augment (fuel : nat) (source sink : nat) (s : fordFulkerson)
    (total : Z) : option Z :=
  match fuel with
  | 0 => None
  | S fuel' =>
      match bfs (S (vertices s)) sink (start_search source s) with
      | None => None
      | Some s1 =>
          if (at_ (prev s1) sink =? -1)%Z then Some total
          else
            match bottleneck (S (vertices s)) s1 sink (2 ^ 31 - 1)%Z with
            | None => None
            | Some bot =>
                match push (S (vertices s)) s1 sink bot with
                | None => None
                | Some s2 => augment fuel' source sink s2 (total + bot)%Z
                end
            end
      end
  end.

(** [maxFlow]: every round adds at least one unit and the flow is bounded
    by the number of vertices. *)
Definition maxFlow (source sink : nat) (s : fordFulkerson) : option Z :=
  augment (S (vertices s)) source sink
    {| capacity_matrix := capacity_matrix s;
       flow_network := replicate (vertices s * vertices s) 0%Z;
       q := q s; qf := qf s; qb := qb s; prev := prev s;
       vertices := vertices s |}
    0%Z.

End FF.

(** ** Word validation with dice, phase A ([validate.cpp]) *)

(** [face[0]]; the character after the end of a [std::string] is NUL. *)
Definition first_char (face : list ascii) : ascii := default Char.NUL (face !! 0).

(** The flow network of [validateDiceWord]: vertex 0 is the source, [1..n]
    the dice, [n+1..n+m] the letters of the word, [n+m+1] the sink. *)
Definition dice_word_graph (dice : list (list (list ascii)))
    (w : list ascii) : FF.fordFulkerson :=
  let n := length dice in
  let m := length w in
  let sink := n + m + 1 in
  let ff0 := FF.new (n + m + 2) in
  let ff1 := fold_left (fun ff i => FF.addEdge 0 i ff) (seq 1 n) ff0 in
  let ff2 := fold_left (fun ff i => FF.addEdge (i + n) sink ff) (seq 1 m) ff1 in
  fold_left
    (fun ff i =>
       fold_left
         (fun ff face =>
            if 1 <? length face then ff
            else
              fold_left
                (fun ff k =>
                   if (first_char face =c? default Char.NUL (w !! (k - 1)))
                      || (first_char face =c? "?")
                   then FF.addEdge i (k + n) ff else ff)
                (seq 1 m) ff)
         (default [] (dice !! (i - 1))) ff)
    (seq 1 n) ff2.

(** Phase A: accept when the maximal flow equals the word length. *)
Definition phaseA (dice : list (list (list ascii))) (w : list ascii)
    : option bool :=
  match FF.maxFlow 0 (length dice + length w + 1) (dice_word_graph dice w) with
  | Some f => Some (f =? Z.of_nat (length w))%Z
  | None => None
  end.

(** ** Dancing links ([dlx.h]) *)

Module DLX.

Definition MAX_COLUMNS : nat := 200.
Definition MAX_ROW_BUF : nat := 2000.

(** [struct element]; a pointer is the index of the element in the arena
    of allocated elements, and the field [S] is called [Sz]. *)
Record element : Type := mkElement {
  L : nat;
  R : nat;
  U : nat;
  D : nat;
  C : nat;
  Sz : Z
}.

Definition fresh : element := mkElement 0 0 0 0 0 0.

(** The arena; [root] is the first element allocated. *)
#[warnings="-notation-for-abbreviation"] Notation arena := (list element) (only parsing).
Definition root : nat := 0.

Definition get (h : arena) (a : nat) : element := default fresh (h !! a).

Definition set_L (a v : nat) (h : arena) : arena :=
  alter (fun e => mkElement v (R e) (U e) (D e) (C e) (Sz e)) a h.
Definition set_R (a v : nat) (h : arena) : arena :=
  alter (fun e => mkElement (L e) v (U e) (D e) (C e) (Sz e)) a h.
Definition set_U (a v : nat) (h : arena) : arena :=
  alter (fun e => mkElement (L e) (R e) v (D e) (C e) (Sz e)) a h.
Definition set_D (a v : nat) (h : arena) : arena :=
  alter (fun e => mkElement (L e) (R e) (U e) v (C e) (Sz e)) a h.
Definition set_C (a v : nat) (h : arena) : arena :=
  alter (fun e => mkElement (L e) (R e) (U e) (D e) v (Sz e)) a h.
Definition set_Sz (a : nat) (v : Z) (h : arena) : arena :=
  alter (fun e => mkElement (L e) (R e) (U e) (D e) (C e) v) a h.

(** The members of [class DLX]. *)
Record t : Type := mkDLX {
  heap : arena;
  O : list nat;
  last_added : nat;
  column_array : list nat;
  solutions : Z;
  all_solutions : bool
}.

Definition with_heap (h : arena) (d : t) : t :=
  {| heap := h; O := O d; last_added := last_added d;
     column_array := column_array d; solutions := solutions d;
     all_solutions := all_solutions d |}.

(** [DLX()] *)
Definition new : t :=
  {| heap := [mkElement root root 0 0 0 0]; O := replicate MAX_ROW_BUF 0;
     last_added := root; column_array := []; solutions := 0;
     all_solutions := false |}.

(** [addColumn]; the array of columns has [MAX_COLUMNS] slots. *)
Definition addColumn (d : t) : option t :=
  if MAX_COLUMNS <=? length (column_array d) then None
  else
    let c := length (heap d) in
    let h := heap d ++ [fresh] in
    let h := set_R (last_added d) c h in
    let h := set_L root c h in
    let h := set_L c (last_added d) h in
    let h := set_R c root h in
    let h := set_D c c (set_U c c h) in
    let h := set_Sz c 0 h in
    Some {| heap := h; O := O d; last_added := c;
            column_array := column_array d ++ [c];
            solutions := solutions d; all_solutions := all_solutions d |}.

(** The locals [first] and [last] of [addRow] with the arena. *)
Record row_state : Type := mkRowState {
  rs_heap : arena;
  rs_first : option nat;
  rs_last : option nat
}.

(** The body of the loop of [addRow] for the column number [k]. *)
Definition addRow_step (cols : list nat) (st : option row_state) (k : nat)
    : option row_state :=
  match st, cols !! k with
  | Some st, Some tmp =>
      let c := length (rs_heap st) in
      let h := rs_heap st ++ [fresh] in
      let h := set_D c tmp h in
      let h := set_Sz tmp (Sz (get h tmp) + 1) h in
      let h := set_R c c (set_L c c h) in
      let h := set_C c tmp h in
      let h := set_U c (U (get h tmp)) h in
      let h := set_U tmp c h in
      let h := set_D (U (get h c)) c h in
      let h := match rs_last st with
               | Some last => set_R last c (set_L c last h)
               | None => h
               end in
      let h := match rs_first st with
               | Some first => set_L first c (set_R c first h)
               | None => h
               end in
      Some {| rs_heap := h;
              rs_first := match rs_first st with
                          | Some first => Some first
                          | None => Some c
                          end;
              rs_last := Some c |}
  | _, _ => None
  end.

(** [addRow] *)
Definition addRow (values : list nat) (d : t) : option t :=
  match
    fold_left (addRow_step (column_array d)) values
      (Some {| rs_heap := heap d; rs_first := None; rs_last := None |})
  with
  | Some st => Some (with_heap (rs_heap st) d)
  | None => None
  end.

(** [for (x = start; x != stop; x = next(x)) body(x)] on the arena. *)
Fixpoint iter (fuel : nat) (next : element -> nat) (stop : nat)
    (body : nat -> arena -> option arena) (cur : nat) (h : arena)
    : option arena :=
  match fuel with
  | 0 => None
  | S fuel' =>
      if cur =? stop then Some h
      else
        match body cur h with
        | Some h' => iter fuel' next stop body (next (get h' cur)) h'
        | None => None
        end
  end.

(** The body of the inner loop of [cover] *)
Definition unlink_node (j : nat) (h : arena) : option arena :=
  let h := set_U (D (get h j)) (U (get h j)) h in
  let h := set_D (U (get h j)) (D (get h j)) h in
  Some (set_Sz (C (get h j)) (Sz (get h (C (get h j))) - 1) h).

(** [cover] *)
Definition cover (c : nat) (h : arena) : option arena :=
  let n := length h in
  let h := set_L (R (get h c)) (L (get h c)) h in
  let h := set_R (L (get h c)) (R (get h c)) h in
  iter (S n) D c
    (fun i h => iter (S n) R i unlink_node (R (get h i)) h)
    (D (get h c)) h.

(** The body of the inner loop of [uncover] *)
Definition relink_node (j : nat) (h : arena) : option arena :=
  let h := set_Sz (C (get h j)) (Sz (get h (C (get h j))) + 1) h in
  let h := set_U (D (get h j)) j h in
  Some (set_D (U (get h j)) j h).

(** [uncover] *)
Definition uncover (c : nat) (h : arena) : option arena :=
  let n := length h in
  match
    iter (S n) U c
      (fun i h => iter (S n) L i relink_node (L (get h i)) h)
      (U (get h c)) h
  with
  | Some h =>
      let h := set_L (R (get h c)) c h in
      Some (set_R (L (get h c)) c h)
  | None => None
  end.

(** The choice of the column with the least count; [size] is an
    [unsigned]. *)
Fixpoint choose_loop (fuel : nat) (h : arena) (pick c : nat) (size : Z)
    : option nat :=
  match fuel with
  | 0 => None
  | S fuel' =>
      if pick =? root then Some c
      else if (Sz (get h pick) <? size)%Z
           then choose_loop fuel' h (R (get h pick)) pick
                  (Sz (get h pick) mod 2 ^ 32)%Z
           else choose_loop fuel' h (R (get h pick)) c size
  end.

Definition choose (h : arena) : option nat :=
  choose_loop (S (length h)) h (R (get h root)) (R (get h root))
    (2 ^ 32 - 1)%Z.

(** Covering the other columns of the row of [r], and undoing it. *)
Definition cover_row (r : nat) (h : arena) : option arena :=
  iter (S (length h)) R r (fun j h => cover (C (get h j)) h) (R (get h r)) h.
Definition uncover_row (r : nat) (h : arena) : option arena :=
  iter (S (length h)) L r (fun j h => uncover (C (get h j)) h) (L (get h r)) h.

(** The loop of [_search] over the rows of the chosen column [c];
    [search] is the recursive call. *)
Fixpoint rows_loop (search : nat -> t -> option t) (fuel : nat) (k c r : nat)
    (d : t) : option t :=
  match fuel with
  | 0 => None
  | S fuel' =>
      if r =? c then Some d
      else if MAX_ROW_BUF <=? k then None
      else
        let d := {| heap := heap d; O := <[k := r]> (O d);
                    last_added := last_added d;
                    column_array := column_array d;
                    solutions := solutions d;
                    all_solutions := all_solutions d |} in
        match cover_row r (heap d) with
        | None => None
        | Some h1 =>
            match search (S k) (with_heap h1 d) with
            | None => None
            | Some d1 =>
                let r := default 0 (O d1 !! k) in
                match uncover_row r (heap d1) with
                | None => None
                | Some h2 =>
                    let d2 := with_heap h2 d1 in
                    if negb (solutions d2 =? 0)%Z && negb (all_solutions d2)
                    then Some d2
                    else rows_loop search fuel' k c (D (get h2 r)) d2
                end
            end
        end
  end.

(** [_search] *)
Fixpoint _search (fuel : nat) (k : nat) (d : t) : option t :=
  match fuel with
  | 0 => None
  | S fuel' =>
      if R (get (heap d) root) =? root then
        Some {| heap := heap d; O := O d; last_added := last_added d;
                column_array := column_array d;
                solutions := (solutions d + 1)%Z;
                all_solutions := all_solutions d |}
      else
        match choose (heap d) with
        | None => None
        | Some c =>
            match cover c (heap d) with
            | None => None
            | Some h1 =>
                match
                  rows_loop (_search fuel') (S (length h1)) k c
                    (D (get h1 c)) (with_heap h1 d)
                with
                | None => None
                | Some d2 =>
                    match uncover c (heap d2) with
                    | None => None
                    | Some h3 => Some (with_heap h3 d2)
                    end
                end
            end
      end
  end.

(** [solve]: the search is at most as deep as there are columns. *)
Definition solve (_all_solutions : bool) (d : t) : option (Z * t) :=
  match
    _search (S (length (column_array d))) 0
      {| heap := heap d; O := O d; last_added := last_added d;
         column_array := column_array d; solutions := 0;
         all_solutions := _all_solutions |}
  with
  | Some d' => Some (solutions d', d')
  | None => None
  end.

End DLX.

(** ** Word validation with dice, phase B ([validate.cpp]) *)

(** [std::string::find(pat, pos)]; [None] is [npos]. *)
Definition str_find (w pat : list ascii) (pos : nat) : option nat :=
  snd <$> list_find (fun i => bool_decide (take (length pat) (drop i w) = pat) = true)
            (seq pos (S (length w) - (pos + length pat))).

(** The loop over the places where the face matches the word, each giving
    a row; at most one row per place. *)
Fixpoint face_rows (fuel : nat) (w face_text : list ascii)
    (using_wildcard : bool) (die_offset pos : nat) (d : DLX.t)
    : option DLX.t :=
  match fuel with
  | 0 => None
  | S fuel' =>
      match str_find w face_text pos with
      | None => Some d
      | Some p =>
          let positions :=
            map (fun i => p + i) (seq 0 (length face_text))
            ++ (if using_wildcard then [p - 1] else [])
            ++ [die_offset] in
          match DLX.addRow positions d with
          | None => None
          | Some d' =>
              face_rows fuel' w face_text using_wildcard die_offset (S p) d'
          end
      end
  end.

(** The rows of one face. *)
Definition add_face (w : list ascii) (die_offset : nat) (d : option DLX.t)
    (face : list ascii) : option DLX.t :=
  match d with
  | None => None
  | Some d =>
      if bool_decide (face = ["?"%char]) then
        fold_left
          (fun d i => match d with
                      | Some d => DLX.addRow [i; die_offset] d
                      | None => None
                      end)
          (seq 0 (length w)) (Some d)
      else if first_char face =c? "?" then
        face_rows (S (S (length w))) w (drop 1 face) true die_offset 1 d
      else
        face_rows (S (S (length w))) w face false die_offset 0 d
  end.

(** The rows of one die: those of its faces, and the row that leaves the
    die unused. *)
Definition add_die (w : list ascii) (acc : option DLX.t * nat)
    (die : list (list ascii)) : option DLX.t * nat :=
  let die_offset := acc.2 in
  (match fold_left (add_face w die_offset) die acc.1 with
   | Some d => DLX.addRow [die_offset] d
   | None => None
   end,
   S die_offset).

(** The exact-cover problem of [validateDiceWord]. *)
Definition dice_word_matrix (dice : list (list (list ascii)))
    (w : list ascii) : option DLX.t :=
  let cols := length w + length dice in
  let d0 :=
    fold_left (fun d _ => match d with
                          | Some d => DLX.addColumn d
                          | None => None
                          end)
      (seq 0 cols) (Some DLX.new) in
  (fold_left (add_die w) dice (d0, length w)).1.

(** Phase B: accept when the search finds an exact cover. *)
Definition phaseB (dice : list (list (list ascii))) (w : list ascii)
    : option bool :=
  match dice_word_matrix dice w with
  | Some d =>
      match DLX.solve false d with
      | Some r => Some (negb (r.1 =? 0)%Z)
      | None => None
      end
  | None => None
  end.

(** [Validator::multiLetterDice] *)
Definition multiLetterDice (dice : list (list (list ascii))) : bool :=
  existsb (existsb (fun face => 1 <? length face)) dice.

(** The capacity of the dice: the sum of their longest faces. *)
Definition dice_capacity (dice : list (list (list ascii))) : nat :=
  fold_left
    (fun capacity die =>
       capacity +
       fold_left (fun m face => if m <? length face then length face else m)
         die 0)
    dice 0.

(** Some face of several letters occurs in the word. *)
Definition long_face_in_word (dice : list (list (list ascii)))
    (w : list ascii) : bool :=
  existsb
    (existsb
       (fun face =>
          (1 <? length face) &&
          (bool_decide (is_Some (str_find w face 0)) ||
           ((first_char face =c? "?") &&
            match str_find w (drop 1 face) 0 with
            | Some p => 0 <? p
            | None => false
            end))))
    dice.

(** [Validator::validateDiceWord] *)
Definition validateDiceWord (dice : list (list (list ascii)))
    (w : list ascii) : option bool :=
  match phaseA dice w with
  | None => None
  | Some true => Some true
  | Some false =>
      if dice_capacity dice <? length w then Some false
      else if multiLetterDice dice && long_face_in_word dice w
           then phaseB dice w
           else Some false
  end.


(** ** Invariants of the dancing links *)

(** A doubly linked chain from [x] through [l] to [z]: [nx] is the pointer
    forward and [pv] the pointer back. *)
Fixpoint linked (nx pv : nat -> nat) (x : nat) (l : list nat) (z : nat)
    : Prop :=
  match l with
  | [] => nx x = z /\ pv z = x
  | y :: l' => nx x = y /\ pv y = x /\ linked nx pv y l' z
  end.

(** A circular list with the head [hd] and the other members [l]. *)
Definition ring (nx pv : nat -> nat) (hd : nat) (l : list nat) : Prop :=
  linked nx pv hd l hd /\ NoDup (hd :: l).

(** The horizontal ring ([R], [L]) and the vertical ring ([D], [U]). *)
Definition hring (h : list DLX.element) : nat -> list nat -> Prop :=
  ring (fun a => DLX.R (DLX.get h a)) (fun a => DLX.L (DLX.get h a)).
Definition vring (h : list DLX.element) : nat -> list nat -> Prop :=
  ring (fun a => DLX.D (DLX.get h a)) (fun a => DLX.U (DLX.get h a)).

(** The matrix that was entered: the column headers [cols] and the rows,
    each the list of its nodes with their column headers. *)
Definition row_ok (h : list DLX.element) (cols : list nat)
    (ρ : list (nat * nat)) : Prop :=
  match ρ.*1 with
  | [] => False
  | a :: l => hring h a l
  end /\
  NoDup ρ.*2 /\
  forall a c, (a, c) ∈ ρ -> DLX.C (DLX.get h a) = c /\ c ∈ cols.

Definition Static (h : list DLX.element) (cols : list nat)
    (rows : list (list (nat * nat))) : Prop :=
  NoDup (DLX.root :: cols ++ (concat rows).*1) /\
  (forall a, a ∈ DLX.root :: cols ++ (concat rows).*1 -> a < length h) /\
  Forall (row_ok h cols) rows.

(** A row is active when all its columns are among the uncovered [A]. *)
Definition active (A : list nat) (ρ : list (nat * nat)) : Prop :=
  forall c, c ∈ ρ.*2 -> c ∈ A.

(** Every column of [A] links exactly the nodes of the rows that are
    [live], and counts them. *)
Definition Cols (h : list DLX.element) (rows : list (list (nat * nat)))
    (A : list nat) (live : list (nat * nat) -> nat -> Prop) : Prop :=
  forall d, d ∈ A ->
    exists V, vring h d V /\ DLX.Sz (DLX.get h d) = Z.of_nat (length V) /\
      forall a, a ∈ V <-> exists ρ, ρ ∈ rows /\ (a, d) ∈ ρ /\ live ρ a.

(** The state of the links between the operations of the search: the
    columns [A] are uncovered. *)
Definition Good (h : list DLX.element) (cols : list nat)
    (rows : list (list (nat * nat))) (A : list nat) : Prop :=
  Static h cols rows /\ hring h DLX.root A /\ A ⊆ cols /\
  Cols h rows A (fun ρ _ => active A ρ).

(** The row of a node and the other nodes of that row, in the order in
    which the loop over [R] meets them. *)
Definition row_of (rows : list (list (nat * nat))) (a : nat)
    : list (nat * nat) :=
  default [] (head (filter (fun ρ => a ∈ ρ.*1) rows)).

Fixpoint index_of (a : nat) (l : list nat) : nat :=
  match l with
  | [] => 0
  | x :: l' => if decide (x = a) then 0 else S (index_of a l')
  end.

Definition others (rows : list (list (nat * nat))) (a : nat)
    : list (nat * nat) :=
  let ρ := row_of rows a in
  let k := index_of a ρ.*1 in
  drop (S k) ρ ++ take k ρ.

(** The effect of the inner loop bodies of [cover] and [uncover]. *)
Definition unlk (h : list DLX.element) (j : nat) : list DLX.element :=
  default h (DLX.unlink_node j h).
Definition relk (j : nat) (h : list DLX.element) : list DLX.element :=
  default h (DLX.relink_node j h).

(** An exact cover of the columns [A] by rows, each given by its
    columns. *)
Inductive EC (rows : list (list nat)) : list nat -> Prop :=
  | EC_nil : EC rows []
  | EC_row A ρ :
      ρ ∈ rows -> ρ ≠ [] -> (forall c, c ∈ ρ -> c ∈ A) ->
      EC rows (filter (fun c => c ∉ ρ) A) -> EC rows A.

(** The nodes that [cover] takes out of their columns, in the order of its
    loops, when the column links the nodes [Vc]. *)
Definition ops_of (rows : list (list (nat * nat))) (Vc : list nat)
    : list nat :=
  concat (map (fun i => (others rows i).*1) Vc).

(** The state inside [cover c]: the header of [c] is out of the header
    ring, the nodes [X] are out of their columns. *)
Definition Mid (h : list DLX.element) (cols : list nat)
    (rows : list (list (nat * nat))) (A : list nat) (c : nat)
    (Vc : list nat) (X : list nat) : Prop :=
  Static h cols rows /\ hring h DLX.root A /\ A ⊆ cols /\ c ∈ cols /\
  (c ∉ A) /\ vring h c Vc /\
  (forall a, a ∈ Vc -> exists ρ, ρ ∈ rows /\ (a, c) ∈ ρ) /\
  Cols h rows A (fun ρ a => active (c :: A) ρ /\ a ∉ X).

(** The members of the ring of a column: its header and nodes of it. *)
Definition in_col (rows : list (list (nat * nat))) (d x : nat) : Prop :=
  x = d \/ exists ρ, ρ ∈ rows /\ (x, d) ∈ ρ.

(** The first two assignments of [cover] and the last two of [uncover]. *)
Definition hdr_out (c : nat) (h : list DLX.element) : list DLX.element :=
  let h := DLX.set_L (DLX.R (DLX.get h c)) (DLX.L (DLX.get h c)) h in
  DLX.set_R (DLX.L (DLX.get h c)) (DLX.R (DLX.get h c)) h.
Definition hdr_in (c : nat) (h : list DLX.element) : list DLX.element :=
  let h := DLX.set_L (DLX.R (DLX.get h c)) c h in
  DLX.set_R (DLX.L (DLX.get h c)) c h.

(** The nodes that may be taken out inside [cover c]. *)
Definition valid_ops (rows : list (list (nat * nat))) (A : list nat)
    (c : nat) (ops : list nat) : Prop :=
  NoDup ops /\
  forall j, j ∈ ops ->
    exists ρ d, ρ ∈ rows /\ (j, d) ∈ ρ /\ active (c :: A) ρ /\ d <> c.

(** * Further functions of the sources *)

(** ** The trie: the shape of a node and the lookup by word *)

(** The shape that [Trie::add_word] keeps: a child array has
    [ALPHABET_SIZE] slots and replaces the inline child; an inline child
    has an upper-case letter and a node. *)
Definition node_ok (t : Trie) : Prop :=
  match children t with
  | Some arr => length arr = ALPHABET_SIZE /\ child_letter t = Char.NUL
  | None =>
      child_letter t = Char.NUL \/
      (Char.isupper (child_letter t) = true /\ is_Some (child_ptr t))
  end.

Fixpoint wf_trie (t : Trie) : Prop :=
  node_ok t /\
  match child_ptr t with
  | Some s => wf_trie s
  | None => True
  end /\
  match children t with
  | Some arr =>
      (fix all (l : list (option Trie)) : Prop :=
         match l with
         | [] => True
         | o :: l' =>
             match o with
             | Some s => wf_trie s
             | None => True
             end /\ all l'
         end) arr
  | None => True
  end.

(** [Trie::is_a_word(const char * )]; [None] is the dereference of the null
    [children] array or of a null [child_ptr]. *)
Fixpoint is_a_word (word : list ascii) (t : Trie) : option bool :=
  match word with
  | [] => Some (is_word t)
  | letter :: rest =>
      if letter =c? Char.NUL then Some (is_word t)
      else if negb (Char.isupper letter) then Some false
      else if negb (child_letter t =c? Char.NUL) then
        if child_letter t =c? letter then
          match child_ptr t with
          | Some s => is_a_word rest s
          | None => None
          end
        else Some false
      else
        match children t with
        | None => None
        | Some arr =>
            match arr !! (Char.code letter - 65) with
            | Some (Some s) => is_a_word rest s
            | Some None => Some false
            | None => None
            end
        end
  end.

(** The word as the trie stores it. *)
Definition upper_word (w : list ascii) : list ascii := map Char.toupper w.

(** What [Trie::add_word] stores for a C string: the letters before the
    end of the string in upper case, and nothing when another character
    comes first. *)
Fixpoint stored_word (w : list ascii) : option (list ascii) :=
  match w with
  | [] => Some []
  | c :: rest =>
      if c =c? Char.NUL then Some []
      else if Char.isalpha c then cons (Char.toupper c) <$> stored_word rest
      else None
  end.

(** ** Scoring rules: the setters of [wgs.h] *)

(** [GameScoringRules::setLetterValue] *)
Definition setLetterValue (letter : ascii) (value : Z) (s : GameScoringRules)
    : GameScoringRules :=
  {| q_is_qu := q_is_qu s; random_board_size := random_board_size s;
     short_word_multiplier := short_word_multiplier s;
     qu_length := qu_length s; short_word_length := short_word_length s;
     short_word_points := short_word_points s;
     min_word_length := min_word_length s;
     wild_card_points := wild_card_points s;
     round_bonus_up := round_bonus_up s;
     multiply_length_bonus := multiply_length_bonus s;
     letter_values := <[letter := value]> (letter_values s);
     length_bonuses := length_bonuses s |}.

(** ** The points of a path *)

(** The value the scorer adds for the character [c] of tile [p]: a
    wildcard counts only under [wildCardPoints]. *)
Definition char_points (wc : list ascii) (s : GameScoringRules) (p : nat)
    (c : ascii) : Z :=
  if negb (c =c? "?") || wild_card_points s
  then letterValue s (chosen_letter wc p c) else 0%Z.

Definition tile_points (wc : list ascii) (b : Board) (s : GameScoringRules)
    (p : nat) : Z :=
  foldr Z.add 0%Z (map (char_points wc s p) (tile b p)).

(** The sum of the tile values, each times its letter multiplier, and the
    product of the word multipliers. *)
Definition path_points (wc : list ascii) (b : Board) (s : GameScoringRules)
    (ps : list nat) : Z :=
  foldr Z.add 0%Z
    (map (fun p => (tile_points wc b s p * Z.of_nat (letter_mult b p))%Z) ps).
Definition path_multiplier (b : Board) (ps : list nat) : Z :=
  foldr Z.mul 1%Z (map (fun p => Z.of_nat (word_mult b p)) ps).

(** A rule set with letter values and a short-word rule. *)
Definition short_rules (mult : bool) : GameScoringRules :=
  {| q_is_qu := true; random_board_size := 0; short_word_multiplier := mult;
     qu_length := 1; short_word_length := 4; short_word_points := 1;
     min_word_length := 3; wild_card_points := false;
     round_bonus_up := false; multiply_length_bonus := false;
     letter_values := <["A"%char := 2%Z]> (<["B"%char := 1%Z]> ∅);
     length_bonuses := ∅ |}.

(** ** The analyzer: the best words *)

(** The solutions that compete for the entry [n] of [best_words]: all of
    them for [n = 0], those with a word of [n] characters otherwise. *)
Definition counts_for (n : nat) (x : Solution) : bool :=
  (n =? 0) || (length (word x) =? n).

(** ** The board parser: what the tiles hold *)

(** The input from its first tile on; lower-case letters before it belong
    to no tile. *)
Fixpoint from_first_tile (ls : list ascii) : list ascii :=
  match ls with
  | [] => []
  | c :: rest => if is_tile_start c then c :: rest else from_first_tile rest
  end.

(** The characters that tiles are made of. *)
Definition is_tile_char (c : ascii) : bool := Char.isalpha c || (c =c? "?").

Definition board_text (ls : list ascii) : list ascii :=
  filter (fun c => is_tile_char c = true) (from_first_tile ls).

(** The number of tile starts in a text. *)
Definition count_tiles (ls : list ascii) : nat :=
  length (filter (fun c => is_tile_start c = true) ls).

(** The number of occurrences of a character. *)
Definition count_char (x : ascii) (ls : list ascii) : nat :=
  length (filter (fun c => c = x) ls).

(** After its first character a tile holds lower-case letters only. *)
Definition tail_lower (t : list ascii) : Prop :=
  Forall (fun c => Char.islower c = true) (tail t).

(** ** The grid: [GameGrid] with its count of enabled tiles ([wgs.h]) *)

Record GridState : Type := mkGridState {
  grid : GameGrid;
  tiles_set : Z
}.

(** [GameGrid::GameGrid()]: no tile enabled, adjacency the empty string. *)
Definition new_GameGrid : GridState :=
  {| grid := {| grid_tiles :=
                  replicate MAX_GRID_WIDTH (replicate MAX_GRID_WIDTH false);
                tile_adjacency := EmptyString |};
     tiles_set := 0 |}.

(** [GameGrid::setTile]; [tiles_set] is a [size_t]. *)
Definition setTile (x y : nat) (value : bool) (st : GridState) : GridState :=
  if (x <? MAX_GRID_WIDTH) && (y <? MAX_GRID_WIDTH) then
    if default false (grid_tiles (grid st) !! x ≫= (fun r => r !! y)) then st
    else
      {| grid :=
           {| grid_tiles :=
                alter (fun r => <[y := value]> r) x (grid_tiles (grid st));
              tile_adjacency := tile_adjacency (grid st) |};
         tiles_set := size_t (tiles_set st + 1) |}
  else st.

(** [GameGrid::tilesSet] *)
Definition tilesSet (st : GridState) : Z := tiles_set st.

(** The number of enabled cells of a grid. *)
Definition enabled_cells (g : GameGrid) : nat :=
  length (filter (fun rc => isTileSet g rc.1 rc.2 = true) grid_cells).

(** The grid after enabling the cells of a list, as the loader does. *)
Definition enable_all (cs : list (nat * nat)) : GridState :=
  fold_left (fun st rc => setTile rc.1 rc.2 true st) cs new_GameGrid.

(** A grid of [MAX_GRID_WIDTH] rows of [MAX_GRID_WIDTH] cells. *)
Definition grid_shape (g : GameGrid) : Prop :=
  length (grid_tiles g) = MAX_GRID_WIDTH /\
  Forall (fun r => length r = MAX_GRID_WIDTH) (grid_tiles g).

(** ** Dancing links: the matrix as it is entered *)

(** The state of a [DLX] object after its columns [cols] and rows [rows]
    were added and before a search. *)
Definition Built (d : DLX.t) (cols : list nat)
    (rows : list (list (nat * nat))) : Prop :=
  Good (DLX.heap d) cols rows cols /\
  DLX.column_array d = cols /\
  DLX.last_added d = default DLX.root (last cols).

(** [n] calls of [addColumn], then one [addRow] for each list of column
    numbers. *)
Definition add_columns (n : nat) (d : DLX.t) : option DLX.t :=
  fold_left (fun d _ => d ≫= DLX.addColumn) (seq 0 n) (Some d).
Definition add_rows (valss : list (list nat)) (d : DLX.t) : option DLX.t :=
  fold_left (fun d values => d ≫= DLX.addRow values) valss (Some d).
Definition build_matrix (n : nat) (valss : list (list nat)) : option DLX.t :=
  add_columns n DLX.new ≫= add_rows valss.

(** A row is entered with distinct numbers of columns that exist. *)
Definition row_values_ok (n : nat) (values : list nat) : bool :=
  bool_decide (NoDup values) && forallb (fun k => k <? n) values
  && negb (bool_decide (values = [])).

(** The rows while one is being entered: [part] is the row of the call of
    [addRow] in progress. *)
Definition cur_rows (rows : list (list (nat * nat))) (part : list (nat * nat))
    : list (list (nat * nat)) :=
  match part with
  | [] => rows
  | _ :: _ => rows ++ [part]
  end.

(** The first assignments of the body of the loop of [addRow]: the new
    node is put at the bottom of the column [tmp]. *)
Definition new_node (tmp : nat) (h : list DLX.element) : list DLX.element :=
  let c := length h in
  let h := h ++ [DLX.fresh] in
  let h := DLX.set_D c tmp h in
  let h := DLX.set_Sz tmp (DLX.Sz (DLX.get h tmp) + 1) h in
  let h := DLX.set_R c c (DLX.set_L c c h) in
  let h := DLX.set_C c tmp h in
  let h := DLX.set_U c (DLX.U (DLX.get h tmp)) h in
  let h := DLX.set_U tmp c h in
  DLX.set_D (DLX.U (DLX.get h c)) c h.

(** The rows with their nodes numbered as [addRow] allocates them from the
    address [a0] on; [cols] are the headers. *)
Fixpoint number_rows (cols : list nat) (a0 : nat) (valss : list (list nat))
    : list (list (nat * nat)) :=
  match valss with
  | [] => []
  | values :: rest =>
      zip (seq a0 (length values)) (map (fun k => default 0 (cols !! k)) values)
      :: number_rows cols (a0 + length values) rest
  end.
(** ** Dancing links: the search *)

(** The calls of [cover] that the loop over a row makes, and the calls of
    [uncover] that undo them, last first. *)
Fixpoint covers (ds : list nat) (h : list DLX.element)
    : option (list DLX.element) :=
  match ds with
  | [] => Some h
  | d :: ds' => DLX.cover d h ≫= covers ds'
  end.
Fixpoint uncovers (ds : list nat) (h : list DLX.element)
    : option (list DLX.element) :=
  match ds with
  | [] => Some h
  | d :: ds' => uncovers ds' h ≫= DLX.uncover d
  end.

(** Some of the rows [valss], each a list of column numbers, have every
    column [0 .. n-1] in exactly one of them. *)
Definition exact_cover (n : nat) (valss : list (list nat)) : Prop :=
  exists sel, (forall ρ, ρ ∈ sel -> ρ ∈ valss) /\
    Permutation (concat sel) (seq 0 n).

(** The rows of the matrix as lists of column headers. *)
Definition row_cols (rows : list (list (nat * nat))) : list (list nat) :=
  (fun ρ => ρ.*2) <$> rows.

(** What a call of [_search] at the depth [k] leaves, when the columns [A]
    were uncovered at its start. *)
Definition search_post (rows : list (list (nat * nat))) (A : list nat)
    (k : nat) (d d' : DLX.t) : Prop :=
  DLX.heap d' = DLX.heap d /\
  take k (DLX.O d') = take k (DLX.O d) /\
  length (DLX.O d') = length (DLX.O d) /\
  DLX.last_added d' = DLX.last_added d /\
  DLX.column_array d' = DLX.column_array d /\
  DLX.all_solutions d' = DLX.all_solutions d /\
  (DLX.solutions d <= DLX.solutions d')%Z /\
  ((DLX.solutions d < DLX.solutions d')%Z <-> EC (row_cols rows) A) /\
  (DLX.all_solutions d = false ->
   (DLX.solutions d' <= DLX.solutions d + 1)%Z).

(** What [_search] needs at its start. *)
Definition search_pre (cols : list nat) (rows : list (list (nat * nat)))
    (A : list nat) (k : nat) (d : DLX.t) : Prop :=
  Good (DLX.heap d) cols rows A /\
  k + length A <= DLX.MAX_ROW_BUF /\
  length (DLX.O d) = DLX.MAX_ROW_BUF /\
  (DLX.all_solutions d = true \/ DLX.solutions d = 0%Z).

(** ** The adjacency matrix of a board *)

(** The cells of the tiles: [build_adjacency_matrix] gives the tile [k] the
    [k]-th enabled cell of the grid, row by row. *)
Definition tile_cells (g : GameGrid) (n : nat) : list (nat * nat) :=
  take n (filter (fun rc => isTileSet g rc.1 rc.2 = true) grid_cells).

Definition dist (a b : nat) : nat := if a <? b then b - a else a - b.

(** Cells next to each other: along a row or a column for [Straight], also
    along a diagonal for [Diagonal]. *)
Definition near (adjacency : string) (p q : nat * nat) : bool :=
  let dr := dist p.1 q.1 in
  let dc := dist p.2 q.2 in
  if String.eqb adjacency "Diagonal" then
    (dr <=? 1) && (dc <=? 1) && negb ((dr =? 0) && (dc =? 0))
  else if String.eqb adjacency "Straight" then dr + dc =? 1
  else false.

(** The cells that [link_cell] looks at from the cell [rc], in the order of
    its assignments. *)
Definition nbrs (adjacency : string) (rc : nat * nat) : list (nat * nat) :=
  let row := rc.1 in
  let col := rc.2 in
  let W := MAX_GRID_WIDTH in
  let cell (guard : bool) (r c : nat) := if guard then [(r, c)] else [] in
  (if String.eqb adjacency "Diagonal" then
     cell ((0 <? row) && (0 <? col)) (row - 1) (col - 1) ++
     cell ((0 <? row) && (col <? W - 1)) (row - 1) (col + 1) ++
     cell ((row <? W - 1) && (0 <? col)) (row + 1) (col - 1) ++
     cell ((row <? W - 1) && (col <? W - 1)) (row + 1) (col + 1)
   else []) ++
  (if String.eqb adjacency "Diagonal" || String.eqb adjacency "Straight" then
     cell (0 <? row) (row - 1) col ++
     cell (row <? W - 1) (row + 1) col ++
     cell (0 <? col) row (col - 1) ++
     cell (col <? W - 1) row (col + 1)
   else []).

(** The number of enabled cells before the place [idx] of the row-major
    order. *)
Definition enabled_before (g : GameGrid) (idx : nat) : nat :=
  length (filter (fun rc => isTileSet g rc.1 rc.2 = true) (take idx grid_cells)).

(** ** Dice ([dice.h], [dice.cpp]) *)

Module Dice.

(** The values of the successive calls of [rand()]; the state counts the
    calls made so far. *)
Definition Rand : Type := nat -> nat.

Record t : Type := mk {
  letters : list ascii;
  dice : list (list (list ascii));
  positions : list nat;
  die_faces : list nat
}.

(** [Dice::swap_dice]; an index outside the vectors is a read outside
    them. *)
Definition swap_dice (i j : nat) (d : t) : option t :=
  match positions d !! i, positions d !! j, die_faces d !! i, die_faces d !! j with
  | Some pi, Some pj, Some fi, Some fj =>
      Some {| letters := letters d; dice := dice d;
              positions := <[j := pi]> (<[i := pj]> (positions d));
              die_faces := <[j := fi]> (<[i := fj]> (die_faces d)) |}
  | _, _, _, _ => None
  end.

(** [Dice::roll(int i)] with the value [r] of [rand()]: [dice.at] throws
    outside the vector, and a die without faces divides by zero. *)
Definition roll_at (i : nat) (r : nat) (d : t) : option t :=
  match positions d !! i with
  | Some p =>
      match dice d !! p with
      | Some die =>
          if (length die =? 0) || negb (i <? length (die_faces d)) then None
          else Some {| letters := letters d; dice := dice d;
                       positions := positions d;
                       die_faces := <[i := r mod length die]> (die_faces d) |}
      | None => None
      end
  | None => None
  end.

(** [Dice::scramble]: the loop [while (max > 0)]. *)
Fixpoint scramble_loop (max : nat) (rng : Rand) (k : nat) (d : t)
    : option (t * nat) :=
  match max with
  | 0 => Some (d, k)
  | S m =>
      match swap_dice (rng k mod max) max d with
      | Some d' => scramble_loop m rng (S k) d'
      | None => None
      end
  end.

Definition scramble (rng : Rand) (k : nat) (d : t) : option (t * nat) :=
  scramble_loop (length (dice d) - 1) rng k d.

(** [Dice::roll()] *)
Definition roll (rng : Rand) (k : nat) (d : t) : option (t * nat) :=
  match
    fold_left
      (fun (st : option (t * nat)) (i : nat) =>
         match st with
         | Some (d, k) =>
             if i <? length (positions d) then
               match
                 roll_at i (rng k)
                   {| letters := letters d; dice := dice d;
                      positions := <[i := i]> (positions d);
                      die_faces := die_faces d |}
               with
               | Some d' => Some (d', S k)
               | None => None
               end
             else None
         | None => None
         end)
      (seq 0 (length (dice d))) (Some (d, k))
  with
  | Some (d, k) => scramble rng k d
  | None => None
  end.

(** [Dice::Dice(dice)] *)
Definition new (ds : list (list (list ascii))) (rng : Rand) (k : nat)
    : option (t * nat) :=
  roll rng k {| letters := []; dice := ds;
                positions := replicate (length ds) 0;
                die_faces := replicate (length ds) 0 |}.

(** [Dice::get_letters] *)
Definition get_letters (d : t) : option (list ascii) :=
  fold_left
    (fun (s : option (list ascii)) (i : nat) =>
       match s, positions d !! i, die_faces d !! i with
       | Some s, Some p, Some f =>
           match dice d !! p ≫= (fun die => die !! f) with
           | Some face => Some (s ++ face)
           | None => None
           end
       | _, _, _ => None
       end)
    (seq 0 (length (dice d))) (Some []).

End Dice.

(** The state of a [Dice] object between calls: every die is at one
    position and shows one of its faces. *)
Definition Dice_ok (d : Dice.t) : Prop :=
  length (Dice.die_faces d) = length (Dice.dice d) /\
  Dice.positions d ≡ₚ seq 0 (length (Dice.dice d)) /\
  forall i p f, Dice.positions d !! i = Some p -> Dice.die_faces d !! i = Some f ->
    exists die, Dice.dice d !! p = Some die /\ f < length die.

(** * Properties *)

(** ** Characters *)

Ltac by_cases_on_ascii c :=
  destruct c as [[] [] [] [] [] [] [] []]; vm_compute; try done; try intuition congruence.

Lemma char_eqb_eq a b : (a =c? b) = true <-> a = b.
Proof. apply Ascii.eqb_eq. Qed.

Lemma char_eqb_neq a b : (a =c? b) = false <-> a <> b.
Proof. apply Ascii.eqb_neq. Qed.

Lemma toupper_is_Q c : (Char.toupper c =c? "Q") = is_Q c.
Proof. by_cases_on_ascii c. Qed.

Lemma toupper_letter i : i < 26 -> Char.toupper (Char.letter i) = Char.letter i.
Proof.
  intros H. do 26 (destruct i as [|i]; [reflexivity|]). lia.
Qed.

Lemma letter_not_wild i : i < 26 -> (Char.letter i =c? "?") = false.
Proof.
  intros H. do 26 (destruct i as [|i]; [reflexivity|]). lia.
Qed.

Lemma letter_inj i j : i < 26 -> j < 26 -> Char.letter i = Char.letter j -> i = j.
Proof.
  intros Hi Hj H.
  assert (Char.code (Char.letter i) = Char.code (Char.letter j)) as Hc by (by rewrite H).
  unfold Char.code, Char.letter in Hc.
  rewrite !nat_ascii_embedding in Hc by lia. lia.
Qed.

(** ** The scorer: the word and its length *)

Lemma q_count_cons l ls : q_count (l :: ls) = (if is_Q l then 1 else 0) + q_count ls.
Proof.
  unfold q_count. rewrite filter_cons.
  destruct (is_Q l); case_decide; simpl; congruence.
Qed.

Lemma expand_word_cons qu l ls :
  expand_word qu (l :: ls) = expand_letter qu l ++ expand_word qu ls.
Proof. reflexivity. Qed.

Lemma expand_word_app qu a b :
  expand_word qu (a ++ b) = expand_word qu a ++ expand_word qu b.
Proof. unfold expand_word. apply bind_app. Qed.

Lemma score_letter_spec s chosen acc c :
  let r := score_letter s chosen acc c in
  let l := if c =c? "?" then chosen else c in
  la_word r = la_word acc ++ expand_letter (q_is_qu s) l /\
  la_word_len r =
    (la_word_len acc + 1 +
     (if q_is_qu s && (qu_length s =? 2)%Z then (if is_Q l then 1 else 0) else 0))%Z.
Proof.
  unfold score_letter, expand_letter, is_Q; simpl.
  destruct (c =c? "?"); simpl;
  match goal with |- context [(?x =c? "Q") || (?x =c? "q")] =>
    destruct ((x =c? "Q") || (x =c? "q")) end; simpl;
  destruct (q_is_qu s); simpl; rewrite <- ?app_assoc; simpl;
  (split; [done|]); try destruct (qu_length s =? 2)%Z; lia.
Qed.

Lemma fold_score_letter s chosen cs acc :
  let r := fold_left (score_letter s chosen) cs acc in
  let ls := map (fun c => if c =c? "?" then chosen else c) cs in
  la_word r = la_word acc ++ expand_word (q_is_qu s) ls /\
  la_word_len r =
    (la_word_len acc + Z.of_nat (length ls) +
     (if q_is_qu s && (qu_length s =? 2)%Z then Z.of_nat (q_count ls) else 0))%Z.
Proof.
  revert acc. induction cs as [|c cs IH]; intros acc.
  - cbn. rewrite app_nil_r. split; [done|]. destruct (_ && _); lia.
  - destruct (IH (score_letter s chosen acc c)) as [Hw Hl].
    destruct (score_letter_spec s chosen acc c) as [Hw1 Hl1].
    cbn [fold_left map] in *. cbv zeta in *.
    rewrite Hw, Hl, Hw1, Hl1, expand_word_cons, q_count_cons, <- app_assoc.
    split; [done|]. cbn [length].
    destruct (q_is_qu s && (qu_length s =? 2)%Z);
      destruct (is_Q (if c =c? "?" then chosen else c)); lia.
Qed.

Lemma score_tile_spec wc b s acc p :
  let r := score_tile wc b s acc p in
  let ls := tile_letters wc b p in
  pa_word r = pa_word acc ++ expand_word (q_is_qu s) ls /\
  pa_word_len r =
    (pa_word_len acc + Z.of_nat (length ls) +
     (if q_is_qu s && (qu_length s =? 2)%Z then Z.of_nat (q_count ls) else 0))%Z.
Proof.
  unfold score_tile; simpl.
  pose proof (fold_score_letter s (default Char.NUL (wc !! p)) (tile b p)
    {| la_word_len := pa_word_len acc; la_word := pa_word acc; la_tile_value := 0 |})
    as H.
  simpl in H. exact H.
Qed.

Lemma q_count_app a b : q_count (a ++ b) = q_count a + q_count b.
Proof. unfold q_count. by rewrite filter_app, length_app. Qed.

Lemma path_letters_cons wc b p ps :
  path_letters wc b (p :: ps) = tile_letters wc b p ++ path_letters wc b ps.
Proof. reflexivity. Qed.

Lemma path_letters_app wc b ps qs :
  path_letters wc b (ps ++ qs) = path_letters wc b ps ++ path_letters wc b qs.
Proof. unfold path_letters. apply bind_app. Qed.

Lemma fold_score_tile wc b s ps acc :
  let r := fold_left (score_tile wc b s) ps acc in
  let ls := path_letters wc b ps in
  pa_word r = pa_word acc ++ expand_word (q_is_qu s) ls /\
  pa_word_len r =
    (pa_word_len acc + Z.of_nat (length ls) +
     (if q_is_qu s && (qu_length s =? 2)%Z then Z.of_nat (q_count ls) else 0))%Z.
Proof.
  revert acc. induction ps as [|p ps IH]; intros acc.
  - cbn. rewrite app_nil_r. split; [done|]. destruct (_ && _); lia.
  - destruct (IH (score_tile wc b s acc p)) as [Hw Hl].
    destruct (score_tile_spec wc b s acc p) as [Hw1 Hl1].
    cbn [fold_left] in *. cbv zeta in *.
    rewrite Hw, Hl, Hw1, Hl1, path_letters_cons, expand_word_app.
    rewrite length_app, q_count_app, <- app_assoc.
    split; [done|]. destruct (q_is_qu s && (qu_length s =? 2)%Z); lia.
Qed.

Lemma score_solution_word wc b s ps :
  word (score_solution wc b s ps) = spell s wc b ps.
Proof.
  unfold score_solution.
  destruct (fold_score_tile wc b s ps
    {| pa_word_len := 0; pa_word := []; pa_letter_points := 0;
       pa_word_multiplier := 1 |}) as [Hw _].
  simpl in Hw. fold (score_path wc b s ps) in Hw.
  repeat case_match; simpl; exact Hw.
Qed.

Lemma score_solution_positions wc b s ps :
  positions (score_solution wc b s ps) = ps.
Proof. unfold score_solution. repeat case_match; reflexivity. Qed.

Lemma score_solution_word_length wc b s ps :
  let ls := path_letters wc b ps in
  word_length (score_solution wc b s ps) =
    (Z.of_nat (length ls) +
     (if q_is_qu s && (qu_length s =? 2)%Z then Z.of_nat (q_count ls) else 0))%Z.
Proof.
  unfold score_solution.
  destruct (fold_score_tile wc b s ps
    {| pa_word_len := 0; pa_word := []; pa_letter_points := 0;
       pa_word_multiplier := 1 |}) as [_ Hl].
  simpl in Hl. fold (score_path wc b s ps) in Hl.
  repeat case_match; simpl; exact Hl.
Qed.

(** ** The scorer: Qu and the length bonus *)

(** C4.  Under [qIsQu], the emitted word is the consumed letters in upper
    case with a [U] right after every [Q] (a wildcard resolved to [Q]
    included), and the word length counts that [U] exactly when
    [quLength == 2]. *)
Theorem score_solution_qu wc b s ps :
  q_is_qu s = true ->
  let sol := score_solution wc b s ps in
  let ls := path_letters wc b ps in
  word sol = expand_word true ls /\
  (forall l, expand_letter true l =
     if is_Q l then ["Q"%char; "U"%char] else [Char.toupper l]) /\
  word_length sol =
    (Z.of_nat (length ls) +
     (if (qu_length s =? 2)%Z then Z.of_nat (q_count ls) else 0))%Z.
Proof.
  intros Hq sol ls. subst sol ls.
  rewrite score_solution_word, score_solution_word_length.
  unfold spell. rewrite Hq. repeat split.
  intros l. unfold expand_letter. rewrite <- toupper_is_Q.
  destruct (Char.toupper l =c? "Q") eqn:E; simpl; [|done].
  apply char_eqb_eq in E. by rewrite E.
Qed.

Lemma score_solution_qu_witness :
  let sol := score_solution [Char.NUL; "Q"%char] (Board_new (str "Q?IT") None)
               (qu_rules 2) [0; 1; 2; 3] in
  word sol = str "QUQUIT" /\ word_length sol = 6%Z.
Proof.
  destruct (score_solution_qu [Char.NUL; "Q"%char] (Board_new (str "Q?IT") None)
              (qu_rules 2) [0; 1; 2; 3] eq_refl) as (Hw & _ & Hl).
  split; [exact Hw | exact Hl].
Defined.

(** ** The board parser *)

Lemma tile_ok_snoc t c : tile_ok t -> c <> "?"%char -> tile_ok (t ++ [c]).
Proof.
  unfold tile_ok. destruct t as [|x t]; simpl; [intros _ _; apply not_elem_of_nil|].
  intros H Hc. rewrite elem_of_app, list_elem_of_singleton. intros [?|?]; [done|].
  congruence.
Qed.

Lemma islower_not_wild c : Char.islower c = true -> c <> "?"%char.
Proof. intros H ->. discriminate. Qed.

Lemma parse_place_inv n st t :
  tile_ok t -> parse_inv n st -> parse_inv n (parse_place st t).
Proof.
  intros Ht [Hl Hf]. split; simpl.
  - by rewrite length_insert.
  - by apply Forall_insert.
Qed.

Lemma parse_step_inv n st c : parse_inv n st -> parse_inv n (parse_step st c).
Proof.
  intros H. unfold parse_step.
  repeat case_match; try done; try (apply parse_place_inv; [|done]).
  - destruct H as [Hl Hf]. split; simpl.
    + by rewrite length_alter.
    + apply Forall_alter; [done|]. intros t _ Ht. apply tile_ok_snoc; [done|].
      apply islower_not_wild.
      match goal with H : _ && _ = true |- _ => apply andb_prop in H as [? _] end.
      done.
  - apply not_elem_of_nil.
  - apply not_elem_of_nil.
Qed.

Lemma parse_board_inv ls :
  parse_inv (length (filter (fun c => is_tile_start c = true) ls)) (parse_board ls).
Proof.
  unfold parse_board.
  set (n := length _).
  assert (parse_inv n
    {| p_letter_multiplier := 1; p_word_multiplier := 1; p_pos := 0;
       p_tiles := replicate n []; p_letter_mult := replicate n 0;
       p_word_mult := replicate n 0 |}) as H0.
  { split; simpl; [by rewrite length_replicate|].
    apply Forall_replicate. apply not_elem_of_nil. }
  destruct (n =? 0); [done|].
  revert H0. generalize (mkParse 1 1 0 (replicate n []) (replicate n 0) (replicate n 0)).
  clearbody n.
  induction ls as [|c ls IH]; intros st Hst; simpl; [done|].
  apply IH. by apply parse_step_inv.
Qed.

Lemma Board_new_wf ls g : wf_board (Board_new ls g).
Proof. exact (parse_board_inv ls). Qed.

(** ** The trie descent of [_solve] *)

Lemma descend_app t a b :
  descend t (a ++ b) = descend t a ≫= (fun t' => descend t' b).
Proof.
  revert t. induction a as [|c a IH]; intros t; simpl; [done|].
  destruct (child t c); simpl; [apply IH|done].
Qed.

Lemma walk_spec sr t cs :
  "?"%char ∉ cs ->
  walk sr t cs =
    match descend t (expand_word (q_is_qu sr) cs) with
    | Some t' => WalkDone t'
    | None => WalkFail
    end.
Proof.
  revert t. induction cs as [|c cs IH]; intros t Hq; [done|].
  apply not_elem_of_cons in Hq as [Hc Hq].
  rewrite expand_word_cons. unfold expand_letter.
  cbn [walk app descend].
  assert ((c =c? "?") = false) as -> by (by apply char_eqb_neq).
  destruct (child t (Char.toupper c)) as [t1|]; [|done].
  rewrite toupper_is_Q, andb_comm.
  destruct (is_Q c && q_is_qu sr); cbn [app descend].
  - destruct (child t1 "U") as [t2|]; [by apply IH|done].
  - by apply IH.
Qed.

Lemma walk_wild sr t c cs : (c =c? "?") = true -> walk sr t (c :: cs) = WalkWild t.
Proof. intros H. simpl. by rewrite H. Qed.

(** ** Letters and wildcard arrays *)

Lemma tile_letters_ext wq wc b p :
  wq !! p = wc !! p -> tile_letters wq b p = tile_letters wc b p.
Proof.
  intros H. unfold tile_letters, chosen_letter. by rewrite H.
Qed.

Lemma tile_letters_plain wc b p :
  "?"%char ∉ tile b p -> tile_letters wc b p = tile b p.
Proof.
  unfold tile_letters. induction (tile b p) as [|c l IH]; [done|].
  intros [Hc Hl]%not_elem_of_cons. simpl. rewrite IH by done.
  unfold chosen_letter.
  by assert ((c =c? "?") = false) as -> by (by apply char_eqb_neq).
Qed.

Lemma map_chosen_plain wc p l :
  "?"%char ∉ l -> map (chosen_letter wc p) l = l.
Proof.
  induction l as [|c l IH]; [done|].
  intros [Hc Hl]%not_elem_of_cons. simpl. rewrite IH by done.
  unfold chosen_letter.
  by assert ((c =c? "?") = false) as -> by (by apply char_eqb_neq).
Qed.

Lemma agree_path_letters b P wq wc :
  agree b P wq wc -> path_letters wq b P = path_letters wc b P.
Proof.
  induction P as [|p P IH]; intros H; [done|].
  rewrite !path_letters_cons. f_equal.
  - apply H. apply list_elem_of_here.
  - apply IH. intros q Hq. apply H. by apply list_elem_of_further.
Qed.

Lemma agree_lookup b P wq wc :
  (forall p, p ∈ P -> wq !! p = wc !! p) -> agree b P wq wc.
Proof. intros H p Hp. apply tile_letters_ext. by apply H. Qed.

Lemma agree_trans b P w1 w2 w3 :
  agree b P w1 w2 -> agree b P w2 w3 -> agree b P w1 w3.
Proof. intros H1 H2 p Hp. rewrite H1 by done. by apply H2. Qed.

Lemma agree_snoc b P pos wq wc :
  agree b P wq wc -> tile_letters wq b pos = tile_letters wc b pos ->
  agree b (P ++ [pos]) wq wc.
Proof.
  intros H1 H2 p [Hp| ->%list_elem_of_singleton]%elem_of_app; [by apply H1|done].
Qed.

Lemma spell_app sr wc b P Q :
  spell sr wc b (P ++ Q) = spell sr wc b P ++ spell sr wc b Q.
Proof. unfold spell. by rewrite path_letters_app, expand_word_app. Qed.

Lemma spell_agree sr b P wq wc :
  agree b P wq wc -> spell sr wq b P = spell sr wc b P.
Proof. intros H. unfold spell. by rewrite (agree_path_letters b P wq wc). Qed.

Lemma spell_single sr wc b p :
  spell sr wc b [p] = expand_word (q_is_qu sr) (tile_letters wc b p).
Proof. unfold spell. rewrite path_letters_cons. cbn. by rewrite app_nil_r. Qed.

Lemma word_length_agree sr b P wq wc :
  agree b P wq wc ->
  word_length (score_solution wq b sr P) = word_length (score_solution wc b sr P).
Proof.
  intros H. rewrite !score_solution_word_length.
  by rewrite (agree_path_letters b P wq wc).
Qed.

(** ** Loops *)

Lemma for_each_seq {St : Type} (body : nat -> St -> option St)
    (Inv : nat -> St -> Prop) (m : nat) (s : St) :
  Inv 0 s ->
  (forall k s1, k < m -> Inv k s1 -> exists s2, body k s1 = Some s2 /\ Inv (S k) s2) ->
  exists s', for_each body (seq 0 m) s = Some s' /\ Inv m s'.
Proof.
  intros H0 Hstep.
  assert (forall j k s1, j + k = m -> Inv k s1 ->
            exists s', for_each body (seq k j) s1 = Some s' /\ Inv m s') as H.
  { induction j as [|j IH]; intros k s1 Hm Hk; simpl.
    - exists s1. split; [done|]. by replace m with k by lia.
    - destruct (Hstep k s1) as (s2 & -> & H2); [lia|done|].
      apply IH; [lia|done]. }
  apply (H m 0 s); [lia|done].
Qed.

(** ** Counting solutions *)

Lemma count_solutions_app ps w l1 l2 :
  count_solutions ps w (l1 ++ l2) = count_solutions ps w l1 + count_solutions ps w l2.
Proof. unfold count_solutions. by rewrite filter_app, length_app. Qed.

Lemma count_solutions_nil ps w : count_solutions ps w [] = 0.
Proof. reflexivity. Qed.

Lemma count_solutions_none ps w l :
  (forall sol, sol ∈ l -> ~ (positions sol = ps /\ word sol = w)) ->
  count_solutions ps w l = 0.
Proof.
  intros H. unfold count_solutions.
  induction l as [|x l IH]; [done|].
  rewrite filter_cons. case_decide as Hd.
  - exfalso. eapply H; [apply list_elem_of_here|done].
  - apply IH. intros sol Hs. apply H. by apply list_elem_of_further.
Qed.

Lemma count_solutions_one ps w sol :
  positions sol = ps -> word sol = w -> count_solutions ps w [sol] = 1.
Proof.
  intros H1 H2. unfold count_solutions. rewrite filter_cons.
  case_decide as Hd; [done|]. by destruct Hd.
Qed.

(** ** Walks *)

Lemma chain_app_l b P Q : chain b (P ++ Q) -> chain b P.
Proof.
  induction P as [|p P IH]; [done|].
  destruct P as [|q P]; [done|].
  simpl. intros [H1 H2]. split; [done|]. by apply IH.
Qed.

Lemma chain_app_r b P Q : chain b (P ++ Q) -> chain b Q.
Proof.
  induction P as [|p P IH]; [done|].
  simpl. destruct (P ++ Q) eqn:E.
  - destruct P, Q; try done.
  - intros [_ H]. by apply IH.
Qed.

Lemma chain_snoc b P p q :
  chain b (P ++ [p]) -> is_adjacent b p q = true -> chain b ((P ++ [p]) ++ [q]).
Proof.
  intros H Hadj. induction P as [|x P IH]; [done|].
  simpl in *. destruct (P ++ [p]) eqn:E; [by destruct P|].
  simpl. destruct H as [H1 H2]. split; [done|]. by apply IH.
Qed.

Lemma chain_mid b P p q R : chain b (P ++ p :: q :: R) -> is_adjacent b p q = true.
Proof. intros H. apply chain_app_r in H. by destruct H. Qed.

Lemma nat_list_bound (l : list nat) n :
  NoDup l -> (forall x, x ∈ l -> x < n) -> length l <= n.
Proof.
  intros Hnd Hb.
  replace n with (length (seq 0 n)) at 1 by apply length_seq. apply submseteq_length.
  apply NoDup_submseteq; [done|].
  intros x Hx. apply elem_of_seq. specialize (Hb x Hx). lia.
Qed.

Lemma extends_length b P pos : extends b P pos -> length P < board_size b.
Proof.
  intros (Hnd & Hr & _).
  pose proof (nat_list_bound _ _ Hnd Hr) as H.
  rewrite length_app in H. simpl in H. lia.
Qed.

Lemma extends_fresh b P pos : extends b P pos -> pos ∉ P.
Proof.
  intros (Hnd & _). apply NoDup_app in Hnd as (_ & H & _).
  intros Hin. apply (H pos Hin). apply list_elem_of_here.
Qed.

Lemma extends_bound b P pos : extends b P pos -> pos < board_size b.
Proof.
  intros (_ & Hr & _). apply Hr. apply elem_of_app. right. apply list_elem_of_here.
Qed.

Lemma is_walk_extends b P pos R : is_walk b (P ++ pos :: R) -> extends b P pos.
Proof.
  intros (Hnd & Hr & Hc).
  replace (P ++ pos :: R) with ((P ++ [pos]) ++ R) in * by (by rewrite <- app_assoc).
  split; [by apply NoDup_app in Hnd as (? & _)|].
  split; [intros p Hp; apply Hr; apply elem_of_app; by left|].
  split; [intros p Hp; apply Hr; apply elem_of_app; left; apply elem_of_app; by left|].
  by apply chain_app_l in Hc.
Qed.

Lemma extends_is_walk b P pos :
  extends b P pos -> tile b pos <> [] -> is_walk b (P ++ [pos]).
Proof.
  intros (Hnd & Hr & Ht & Hc) Hpos. split; [done|]. split; [|done].
  intros p Hp. split; [by apply Hr|].
  apply elem_of_app in Hp as [Hp| ->%list_elem_of_singleton]; [by apply Ht|done].
Qed.

Lemma extends_snoc b P pos i :
  extends b P pos -> tile b pos <> [] -> i < board_size b -> i ∉ P ++ [pos] ->
  is_adjacent b pos i = true -> extends b (P ++ [pos]) i.
Proof.
  intros (Hnd & Hr & Ht & Hc) Hpos Hi Hfresh Hadj.
  split.
  { apply NoDup_app. split; [done|]. split; [|apply NoDup_singleton].
    intros x Hx ->%list_elem_of_singleton. done. }
  split.
  { intros p [Hp| ->%list_elem_of_singleton]%elem_of_app; [by apply Hr|done]. }
  split.
  { intros p [Hp| ->%list_elem_of_singleton]%elem_of_app; [by apply Ht|done]. }
  by apply chain_snoc.
Qed.

(** ** The solver's arrays *)

Lemma Rep_used b s P i :
  Rep b s P -> i < board_size b ->
  (default 0 (used s !! i) =? 0) = bool_decide (i ∉ P).
Proof.
  intros (_ & _ & _ & _ & _ & Hu) Hi. rewrite (Hu i Hi). simpl.
  destruct (decide (i ∈ P)) as [Hin|Hin].
  - rewrite bool_decide_eq_true_2 by done. by rewrite bool_decide_eq_false_2 by auto.
  - rewrite bool_decide_eq_false_2 by done. by rewrite bool_decide_eq_true_2 by done.
Qed.

Lemma Rep_set_wildcard b s P pos c :
  Rep b s P -> Rep b (set_wildcard pos c s) P.
Proof.
  intros (H1 & H2 & H3 & H4 & H5 & H6). repeat split; simpl; try done.
  by rewrite length_insert.
Qed.

Lemma Rep_enter b s P pos :
  board_size b <= 256 -> Rep b s P -> extends b P pos ->
  Rep b (enter pos s) (P ++ [pos]).
Proof.
  intros Hsmall (H1 & H2 & H3 & H4 & H5 & H6) Hext.
  pose proof (extends_length _ _ _ Hext) as Hlen.
  pose proof (extends_bound _ _ _ Hext) as Hpos.
  repeat split; cbn -[Nat.modulo].
  - rewrite length_app. simpl. lia.
  - rewrite H1, length_app. cbn -[Nat.modulo].
    rewrite Nat.mod_small by lia.
    replace (length P + 1) with (S (length P)) by lia.
    rewrite (take_S_r _ _ pos).
    + rewrite take_insert_ge by lia. by rewrite H2.
    + apply list_lookup_insert_eq. lia.
  - by rewrite length_insert.
  - by rewrite length_insert.
  - done.
  - intros i Hi. destruct (decide (i = pos)) as [->|Hne].
    + rewrite list_lookup_insert_eq by lia.
      rewrite bool_decide_eq_true_2; [done|]. apply elem_of_app. right. apply list_elem_of_here.
    + rewrite list_lookup_insert_ne by done. rewrite (H6 i Hi).
      rewrite (bool_decide_ext (i ∈ P) (i ∈ P ++ [pos])); [done|].
      rewrite elem_of_app, list_elem_of_singleton. intuition.
Qed.

Lemma Rep_leave b s P pos :
  Rep b s (P ++ [pos]) -> pos ∉ P -> pos < board_size b ->
  Rep b (leave pos s) P.
Proof.
  intros (H1 & H2 & H3 & H4 & H5 & H6) Hfresh Hpos.
  rewrite length_app in *. simpl in *.
  repeat split; simpl.
  - lia.
  - replace (length P) with (Nat.min (length P) (length P + 1)) at 1 by lia.
    rewrite <- take_take, H2. by rewrite take_app_length.
  - done.
  - by rewrite length_insert.
  - done.
  - intros i Hi. destruct (decide (i = pos)) as [->|Hne].
    + rewrite list_lookup_insert_eq by lia. by rewrite bool_decide_eq_false_2.
    + rewrite list_lookup_insert_ne by done. rewrite (H6 i Hi).
      rewrite (bool_decide_ext (i ∈ P ++ [pos]) (i ∈ P)); [done|].
      rewrite elem_of_app, list_elem_of_singleton. intuition.
Qed.

(** ** The contract of [_solve] *)

Lemma snoc_app {A} (P : list A) x l : (P ++ [x]) ++ l = P ++ x :: l.
Proof. by rewrite <- app_assoc. Qed.

Lemma sol_ok_positions b sr root wc P pos tl sol :
  sol_ok b sr root wc P pos tl sol ->
  exists R, positions sol = P ++ pos :: R.
Proof.
  intros (R & wq & -> & _). exists R. apply score_solution_positions.
Qed.

Lemma sol_ok_transfer b sr root wc1 wc2 P pos tl sol :
  (forall p, p ∈ P -> wc1 !! p = wc2 !! p) ->
  sol_ok b sr root wc1 P pos tl sol -> sol_ok b sr root wc2 P pos tl sol.
Proof.
  intros Hwc (R & wq & H1 & H2 & H3 & H4 & H5 & H6).
  exists R, wq. split; [done|]. split; [done|]. split; [|done].
  eapply agree_trans; [exact H3|]. by apply agree_lookup.
Qed.

Lemma target_ok_transfer b sr root wc1 wc2 P pos tl R wq :
  (forall p, p ∈ P -> wc2 !! p = wc1 !! p) ->
  target_ok b sr root wc1 P pos tl R wq -> target_ok b sr root wc2 P pos tl R wq.
Proof.
  intros Hwc (H1 & H2 & H3 & H4 & H5 & H6).
  split; [done|]. split; [|done].
  eapply agree_trans; [exact H2|]. apply agree_lookup.
  intros p Hp. symmetry. by apply Hwc.
Qed.

Lemma emit_spec b sr t s P :
  Rep b s P ->
  let sol0 := score_solution (wildcard s) b sr P in
  let E := if is_word t && (min_word_length sr <=? word_length sol0)%Z
           then [sol0] else [] in
  Rep b (emit b sr t s) P /\
  dict (emit b sr t s) = dict s /\
  wildcard (emit b sr t s) = wildcard s /\
  used (emit b sr t s) = used s /\
  solutions (emit b sr t s) = solutions s ++ E.
Proof.
  intros HRep sol0 E. subst sol0 E.
  pose proof HRep as (H1 & H2 & _).
  unfold emit. rewrite H1, H2.
  destruct (is_word t); simpl; [|by rewrite app_nil_r].
  destruct (_ <=? _)%Z; simpl; [|by rewrite app_nil_r].
  repeat split; try done; apply HRep.
Qed.

Lemma tiles_loop b sr fuel' (body : nat -> Solver -> option Solver)
    (g : Solver -> nat -> bool) s0 P t1 :
  frame_spec b sr fuel' ->
  Rep b s0 P ->
  2 * (board_size b - length P) <= fuel' ->
  descend (dict s0) (spell sr (wildcard s0) b P) = Some t1 ->
  (forall k s, k < board_size b -> tiles_inv b sr s0 P k s ->
     body k s = if g s k then _solve fuel' b sr k (Some t1) (tile b k) s else Some s) ->
  (forall k s, k < board_size b -> Rep b s P -> g s k = true -> extends b P k) ->
  (forall k s R, Rep b s P -> is_walk b (P ++ k :: R) -> g s k = true) ->
  exists s', for_each body (seq 0 (board_size b)) s0 = Some s' /\
             tiles_inv b sr s0 P (board_size b) s'.
Proof.
  intros IHf HRep0 Hfuel Hdesc Hbody Hg1 Hg2.
  apply (for_each_seq body (tiles_inv b sr s0 P)).
  { split; [done|]. split; [done|]. split; [done|].
    exists []. rewrite app_nil_r. split; [done|].
    split; [by intros sol ?%elem_of_nil|]. intros; lia. }
  intros k s1 Hk Hinv. rewrite (Hbody k s1 Hk Hinv).
  destruct Hinv as (HRep & Hdict & Hwc & acc & Hsol & HS & HC).
  assert (forall i R sol, k <= i -> sol ∈ acc -> positions sol <> P ++ i :: R) as Hacc.
  { intros i R sol Hi Hin Hpos. destruct (HS sol Hin) as (i' & Hi' & Hok).
    apply sol_ok_positions in Hok as (R' & Hp'). rewrite Hp' in Hpos.
    apply app_inv_head in Hpos. injection Hpos as ? _. lia. }
  destruct (g s1 k) eqn:G.
  - destruct (IHf s1 P k t1 (tile b k)) as (s2 & Hrun & HRep2 & Hdict2 & Hwc2 & new & Hsol2 & HS2 & HC2).
    + done.
    + by eapply Hg1.
    + rewrite Hdict. rewrite (spell_agree sr b P (wildcard s1) (wildcard s0)); [done|].
      by apply agree_lookup.
    + left. done.
    + exists s2. split; [done|].
      split; [done|]. split; [congruence|].
      split; [intros p Hp; rewrite Hwc2 by done; by apply Hwc|].
      exists (acc ++ new). split; [by rewrite Hsol2, Hsol, app_assoc|].
      split.
      * intros sol [Hin|Hin]%elem_of_app.
        -- destruct (HS sol Hin) as (i & Hi & Hok). exists i. split; [lia|done].
        -- exists k. split; [lia|]. rewrite <- Hdict.
           eapply sol_ok_transfer; [|by apply HS2]. done.
      * intros i R wq Hi Htar. rewrite count_solutions_app.
        destruct (decide (i = k)) as [->|Hne].
        -- rewrite (count_solutions_none _ _ acc).
           2:{ intros sol Hin [Hp _]. by eapply (Hacc k R sol). }
           rewrite HC2; [done|]. rewrite Hdict.
           eapply target_ok_transfer; [|exact Htar]. done.
        -- rewrite HC by (done || lia).
           rewrite (count_solutions_none _ _ new); [done|].
           intros sol Hin [Hp _]. apply HS2 in Hin.
           apply sol_ok_positions in Hin as (R' & Hp'). rewrite Hp' in Hp.
           apply app_inv_head in Hp. injection Hp as ? _. done.
  - exists s1. split; [done|]. split; [done|]. split; [done|]. split; [done|].
    exists acc. split; [done|]. split.
    + intros sol Hin. destruct (HS sol Hin) as (i & Hi & Hok). exists i. split; [lia|done].
    + intros i R wq Hi Htar. destruct (decide (i = k)) as [->|Hne].
      * destruct Htar as (Hw & _). rewrite (Hg2 k s1 R HRep Hw) in G. done.
      * apply HC; [lia|done].
Qed.

Lemma spell_head sr wq b pos R c rest :
  tile_letters wq b pos = c :: rest ->
  exists w, spell sr wq b (pos :: R) = Char.toupper c :: w.
Proof.
  intros H. unfold spell. rewrite path_letters_cons, H.
  rewrite <- app_comm_cons, expand_word_cons. unfold expand_letter.
  rewrite <- app_comm_cons. eauto.
Qed.

Lemma letters_separate b sr P pos R rest wc wq1 wq2 i k :
  i < 26 -> k < 26 ->
  agree b P wq1 wc -> agree b P wq2 wc ->
  tile_letters wq1 b pos = Char.letter i :: rest ->
  tile_letters wq2 b pos = Char.letter k :: rest ->
  spell sr wq1 b (P ++ pos :: R) = spell sr wq2 b (P ++ pos :: R) ->
  i = k.
Proof.
  intros Hi Hk H1 H2 T1 T2 Heq.
  rewrite !spell_app in Heq.
  rewrite (spell_agree sr b P wq1 wc), (spell_agree sr b P wq2 wc) in Heq by done.
  apply app_inv_head in Heq.
  destruct (spell_head sr wq1 b pos R _ _ T1) as (w1 & E1).
  destruct (spell_head sr wq2 b pos R _ _ T2) as (w2 & E2).
  rewrite E1, E2 in Heq. injection Heq as Heq _.
  rewrite !toupper_letter in Heq by done. by apply letter_inj.
Qed.

Lemma tile_letters_wild wc b pos rest c :
  tile b pos = "?"%char :: rest -> "?"%char ∉ rest ->
  wc !! pos = Some c ->
  tile_letters wc b pos = c :: rest.
Proof.
  intros Ht Hr Hc. unfold tile_letters. rewrite Ht. simpl.
  rewrite map_chosen_plain by done. unfold chosen_letter. simpl. by rewrite Hc.
Qed.

Lemma letters_loop b sr fuel' s P pos t rest :
  frame_spec b sr fuel' ->
  Rep b s P ->
  extends b P pos ->
  descend (dict s) (spell sr (wildcard s) b P) = Some t ->
  tile b pos = "?"%char :: rest ->
  "?"%char ∉ rest ->
  2 * (board_size b - length P) <= S fuel' ->
  exists s',
    for_each
      (fun i s1 =>
         _solve fuel' b sr pos (Some t) (Char.letter i :: rest)
           (set_wildcard pos (Char.letter i) s1))
      (seq 0 ALPHABET_SIZE) s = Some s' /\
    letters_inv b sr s P pos rest ALPHABET_SIZE s'.
Proof.
  intros IHf HRep0 Hext Hdesc Htile Hrest Hfuel.
  pose proof (extends_fresh _ _ _ Hext) as Hfresh.
  pose proof (extends_bound _ _ _ Hext) as Hpos.
  apply (for_each_seq _ (letters_inv b sr s P pos rest)).
  { split; [done|]. split; [done|]. split; [done|].
    exists []. rewrite app_nil_r. split; [done|].
    split; [by intros sol ?%elem_of_nil|]. intros; lia. }
  intros k s1 Hk (HRep & Hdict & Hwc & acc & Hsol & HS & HC).
  unfold ALPHABET_SIZE in Hk.
  set (s1' := set_wildcard pos (Char.letter k) s1).
  assert (forall p, p ∈ P -> wildcard s1' !! p = wildcard s !! p) as Hwc'.
  { intros p Hp. simpl. rewrite list_lookup_insert_ne by (by intros ->). by apply Hwc. }
  assert (wildcard s1' !! pos = Some (Char.letter k)) as Hk'.
  { simpl. apply list_lookup_insert_eq. destruct HRep as (_ & _ & _ & _ & -> & _). done. }
  assert ("?"%char ∉ Char.letter k :: rest) as Hnw.
  { apply not_elem_of_cons. split; [|done]. intros E.
    pose proof (letter_not_wild k Hk) as E'. rewrite <- E in E'. done. }
  destruct (IHf s1' P pos t (Char.letter k :: rest))
    as (s2 & Hrun & HRep2 & Hdict2 & Hwc2 & new & Hsol2 & HS2 & HC2).
  { by apply Rep_set_wildcard. }
  { done. }
  { change (dict s1') with (dict s1). rewrite Hdict.
    rewrite (spell_agree sr b P (wildcard s1') (wildcard s)); [done|].
    by apply agree_lookup. }
  { right. split; [|done].
    symmetry. by apply tile_letters_wild. }
  exists s2. split; [done|].
  split; [done|]. split; [rewrite Hdict2; exact Hdict|].
  split; [intros p Hp; rewrite Hwc2 by done; by apply Hwc'|].
  exists (acc ++ new).
  split; [rewrite Hsol2; change (solutions s1') with (solutions s1); by rewrite Hsol, app_assoc|].
  assert (forall sol i R wq, sol ∈ acc -> k <= i -> i < 26 ->
            target_ok b sr (dict s) (wildcard s) P pos (Char.letter i :: rest) R wq ->
            ~ (positions sol = P ++ pos :: R /\ word sol = spell sr wq b (P ++ pos :: R)))
    as Hacc.
  { intros sol i R wq Hin Hi Hi26 (_ & Ha & Ht & _) [Hp Hw].
    destruct (HS sol Hin) as (i' & Hi' & R' & wq' & -> & _ & Ha' & Ht' & _).
    rewrite score_solution_positions in Hp. apply app_inv_head in Hp. injection Hp as ->.
    rewrite score_solution_word in Hw.
    assert (i' = i); [|lia].
    eapply (letters_separate b sr P pos R rest (wildcard s) wq' wq); try done.
    - lia.
    - apply Ht'. apply not_elem_of_cons. split; [|done]. intros E.
      pose proof (letter_not_wild i' ltac:(lia)) as E'. rewrite <- E in E'. done.
    - apply Ht. apply not_elem_of_cons. split; [|done]. intros E.
      pose proof (letter_not_wild i Hi26) as E'. rewrite <- E in E'. done. }
  split.
  - intros sol [Hin|Hin]%elem_of_app.
    + destruct (HS sol Hin) as (i & Hi & Hok). exists i. split; [lia|done].
    + exists k. split; [lia|].
      apply HS2 in Hin. change (dict s1') with (dict s1) in Hin. rewrite Hdict in Hin.
      eapply sol_ok_transfer; [|exact Hin]. done.
  - intros i R wq Hi Htar. rewrite count_solutions_app.
    destruct (decide (i = k)) as [->|Hne].
    + rewrite (count_solutions_none _ _ acc).
      2:{ intros sol Hin. by apply (Hacc sol k R wq). }
      rewrite HC2; [done|]. change (dict s1') with (dict s1). rewrite Hdict.
      eapply target_ok_transfer; [|exact Htar]. done.
    + rewrite (HC i R wq) by (done || lia).
      rewrite (count_solutions_none _ _ new); [done|].
      intros sol Hin [Hp Hw]. apply HS2 in Hin.
      destruct Hin as (R' & wq' & -> & _ & Ha' & Ht' & _).
      destruct Htar as (_ & Ha & Ht & _).
      rewrite score_solution_positions in Hp. apply app_inv_head in Hp. injection Hp as ->.
      rewrite score_solution_word in Hw.
      apply Hne. symmetry.
      eapply (letters_separate b sr P pos R rest (wildcard s) wq' wq); try done.
      * lia.
      * eapply agree_trans; [exact Ha'|]. by apply agree_lookup.
      * by apply Ht'.
      * apply Ht. apply not_elem_of_cons. split; [|done]. intros E.
        pose proof (letter_not_wild i ltac:(lia)) as E'. rewrite <- E in E'. done.
Qed.

Lemma wf_tile_ok b pos : wf_board b -> tile_ok (tile b pos).
Proof.
  intros [_ Hf]. unfold tile. destruct (tile_grid b !! pos) as [t|] eqn:E; simpl.
  - by eapply Forall_lookup_1 in Hf.
  - apply not_elem_of_nil.
Qed.

Lemma trie_contains_app root a t c :
  descend root a = Some t ->
  trie_contains root (a ++ c) = trie_contains t c.
Proof. intros H. unfold trie_contains. rewrite descend_app, H. done. Qed.

(** The branch of [_solve] that consumes a tile without wildcard. *)
Lemma frame_plain b sr fuel' s P pos t tl :
  board_size b <= 256 ->
  frame_spec b sr fuel' ->
  Rep b s P ->
  extends b P pos ->
  descend (dict s) (spell sr (wildcard s) b P) = Some t ->
  tl <> [] ->
  tl = tile_letters (wildcard s) b pos ->
  "?"%char ∉ tl ->
  2 * (board_size b - length P) <= S (S fuel') ->
  exists s', _solve (S fuel') b sr pos (Some t) tl s = Some s' /\
             Post b sr s P pos tl s'.
Proof.
  intros Hsmall IHf HRep Hext Hdesc Hne Htl Hplain Hfuel.
  pose proof (extends_fresh _ _ _ Hext) as Hfresh.
  pose proof (extends_bound _ _ _ Hext) as Hpos.
  pose proof (extends_length _ _ _ Hext) as Hlen.
  assert (tile b pos <> []) as Htile.
  { intros E. apply Hne. rewrite Htl. unfold tile_letters. by rewrite E. }
  destruct tl as [|c rest]; [done|]. clear Hne.
  cbn [_solve]. rewrite (walk_spec sr t (c :: rest) Hplain).
  destruct (descend t (expand_word (q_is_qu sr) (c :: rest))) as [t1|] eqn:Hd.
  2:{ (* the descent fails *)
    exists s. split; [done|].
    split; [done|]. split; [done|]. split; [done|].
    exists []. rewrite app_nil_r. split; [done|].
    split; [by intros sol ?%elem_of_nil|].
    intros R wq (Hw & Ha & Ht & _ & Hin & _). exfalso.
    rewrite spell_app, (spell_agree sr b P wq (wildcard s)) in Hin by done.
    rewrite (trie_contains_app _ _ _ _ Hdesc) in Hin.
    change (pos :: R) with ([pos] ++ R) in Hin.
    rewrite spell_app, spell_single, (Ht Hplain) in Hin.
    unfold trie_contains in Hin. rewrite descend_app, Hd in Hin. done. }
  (* the tile is consumed *)
  pose proof (Rep_enter b s P pos Hsmall HRep Hext) as HRep1.
  destruct (emit_spec b sr t1 (enter pos s) (P ++ [pos]) HRep1)
    as (HRepe & Hdicte & Hwce & Huse & Hsole).
  set (se := emit b sr t1 (enter pos s)) in *.
  change (wildcard (enter pos s)) with (wildcard s) in *.
  change (dict (enter pos s)) with (dict s) in *.
  change (solutions (enter pos s)) with (solutions s) in *.
  set (sol0 := score_solution (wildcard s) b sr (P ++ [pos])) in *.
  set (E := if is_word t1 && (min_word_length sr <=? word_length sol0)%Z
            then [sol0] else []) in *.
  assert (descend (dict s) (spell sr (wildcard s) b (P ++ [pos])) = Some t1) as Hdesc1.
  { rewrite spell_app, descend_app, Hdesc. simpl.
    by rewrite spell_single, <- Htl. }
  destruct (tiles_loop b sr fuel'
    (fun i s2 =>
       if (default 0 (used s2 !! i) =? 0) && is_adjacent b pos i
       then _solve fuel' b sr i (Some t1) (tile b i) s2 else Some s2)
    (fun s2 i => (default 0 (used s2 !! i) =? 0) && is_adjacent b pos i)
    se (P ++ [pos]) t1) as (s3 & Hrun & HRep3 & Hdict3 & Hwc3 & acc & Hsol3 & HS3 & HC3).
  { done. }
  { done. }
  { rewrite length_app. simpl. lia. }
  { by rewrite Hdicte, Hwce. }
  { done. }
  { intros k s2 Hk HRep2 [Hu Hadj]%andb_prop.
    rewrite (Rep_used b s2 (P ++ [pos]) k HRep2 Hk) in Hu.
    apply bool_decide_eq_true in Hu. by apply extends_snoc. }
  { intros k s2 R HRep2 Hw.
    pose proof Hw as (Hnd & Hr & Hc).
    assert (k < board_size b) as Hk.
    { apply Hr. apply elem_of_app. right. apply list_elem_of_here. }
    rewrite (Rep_used b s2 (P ++ [pos]) k HRep2 Hk).
    apply andb_true_intro. split.
    - apply bool_decide_eq_true. apply NoDup_app in Hnd as (_ & Hnd & _).
      intros Hin. apply (Hnd k Hin). apply list_elem_of_here.
    - rewrite snoc_app in Hc. by apply chain_mid in Hc. }
  unfold get_board_size. rewrite Hrun.
  exists (leave pos s3). split; [done|].
  split; [by apply Rep_leave|].
  split; [simpl; congruence|].
  split.
  { intros p Hp. simpl. rewrite Hwc3 by (apply elem_of_app; by left). by rewrite Hwce. }
  exists (E ++ acc).
  split; [simpl; by rewrite Hsol3, Hsole, app_assoc|].
  assert (forall sol, sol ∈ acc -> exists i R', positions sol = P ++ pos :: i :: R') as Hacc.
  { intros sol Hin. destruct (HS3 sol Hin) as (i & _ & Hok).
    apply sol_ok_positions in Hok as (R' & Hp). exists i, R'. by rewrite Hp, snoc_app. }
  split.
  - intros sol [Hin|Hin]%elem_of_app.
    + assert (sol = sol0 /\ is_word t1 = true /\
              (min_word_length sr <= word_length sol0)%Z) as (-> & Hw & Hm).
      { subst E. destruct (is_word t1); simpl in Hin; [|by apply elem_of_nil in Hin].
        destruct (_ <=? _)%Z eqn:Em; [|by apply elem_of_nil in Hin].
        apply list_elem_of_singleton in Hin. apply Z.leb_le in Em. done. }
      exists [], (wildcard s). split; [done|].
      split; [by apply extends_is_walk|]. split; [done|].
      split; [by intros _|]. split; [|done].
      unfold trie_contains. by rewrite Hdesc1.
    + destruct (HS3 sol Hin) as (i & _ & R' & wq & -> & Hw & Ha & _ & Hin' & Hm).
      rewrite Hwce in Ha. rewrite Hdicte in Hin'.
      rewrite snoc_app in *.
      exists (i :: R'), wq. split; [done|]. split; [done|].
      split; [intros p Hp; apply Ha; apply elem_of_app; by left|].
      split; [|done].
      intros _. rewrite Htl. apply Ha. apply elem_of_app. right. apply list_elem_of_here.
  - intros R wq (Hw & Ha & Ht & Hv & Hin & Hm). rewrite count_solutions_app.
    specialize (Ht Hplain).
    assert (agree b (P ++ [pos]) wq (wildcard s)) as Ha1.
    { apply agree_snoc; [done|]. by rewrite Ht. }
    destruct R as [|i R'].
    + rewrite (count_solutions_none _ _ acc).
      2:{ intros sol Hs [Hp _]. destruct (Hacc sol Hs) as (i & R' & Hp').
          rewrite Hp' in Hp. apply app_inv_head in Hp. done. }
      rewrite (spell_agree sr b _ _ _ Ha1) in *.
      rewrite (word_length_agree sr b _ _ _ Ha1) in Hm.
      unfold trie_contains in Hin. rewrite Hdesc1 in Hin.
      subst E. fold sol0 in Hm. rewrite Hin. apply Z.leb_le in Hm. rewrite Hm. simpl.
      rewrite count_solutions_one; [done|apply score_solution_positions|apply score_solution_word].
    + rewrite (count_solutions_none _ _ E).
      2:{ intros sol Hs [Hp _]. subst E.
          destruct (_ && _); [|by apply elem_of_nil in Hs].
          apply list_elem_of_singleton in Hs. subst sol. unfold sol0 in Hp.
          rewrite score_solution_positions in Hp.
          apply app_inv_head in Hp. done. }
      rewrite <- (snoc_app P pos (i :: R')) in *.
      rewrite (HC3 i R' wq); [done| |].
      * destruct Hw as (_ & Hr & _). apply Hr. apply elem_of_app. right. apply list_elem_of_here.
      * split; [done|]. split; [by rewrite Hwce|].
        split; [intros Hq; by apply tile_letters_plain|].
        split; [intros p Hp; apply Hv; by apply list_elem_of_further|].
        split; [by rewrite Hdicte|done].
Qed.

(** [_solve] meets its contract at every recursion bound. *)
Lemma frame_all b sr :
  wf_board b -> board_size b <= 256 -> forall fuel, frame_spec b sr fuel.
Proof.
  intros Hwf Hsmall fuel. induction fuel as [|fuel' IH];
    intros s P pos t tl HRep Hext Hdesc Hentry;
    pose proof (extends_length _ _ _ Hext) as Hlen.
  { exfalso. destruct Hentry as [[_ H]|(_ & _ & H)]; lia. }
  destruct tl as [|c rest].
  { (* an empty tile *)
    exists s. split; [done|].
    split; [done|]. split; [done|]. split; [done|].
    exists []. rewrite app_nil_r. split; [done|].
    split; [by intros sol ?%elem_of_nil|].
    intros R wq ((_ & Hr & _) & _). exfalso.
    destruct (Hr pos) as [_ Hne].
    { apply elem_of_app. right. apply list_elem_of_here. }
    apply Hne. destruct Hentry as [[H _]|(H & _)]; [done|].
    unfold tile_letters in H. symmetry in H. by apply map_eq_nil in H. }
  destruct (c =c? "?") eqn:Ec.
  - (* a wildcard *)
    apply char_eqb_eq in Ec. subst c.
    destruct Hentry as [[Htl Hfuel]|(_ & Hq & _)];
      [|exfalso; apply Hq; apply list_elem_of_here].
    assert ("?"%char ∉ rest) as Hrest.
    { pose proof (wf_tile_ok b pos Hwf) as Hok. unfold tile_ok in Hok.
      by rewrite <- Htl in Hok. }
    destruct (letters_loop b sr fuel' s P pos t rest IH HRep Hext Hdesc
                (eq_sym Htl) Hrest Hfuel)
      as (s' & Hrun & HRep' & Hdict' & Hwc' & acc & Hsol & HS & HC).
    exists s'. split; [exact Hrun|].
    split; [done|]. split; [done|]. split; [done|].
    exists acc. split; [done|]. split.
    + intros sol Hin. destruct (HS sol Hin) as (i & _ & R & wq & H1 & H2 & H3 & _ & H5 & H6).
      exists R, wq. split; [done|]. split; [done|]. split; [done|].
      split; [|done]. intros Hq. exfalso. apply Hq. apply list_elem_of_here.
    + intros R wq (H1 & H2 & _ & H4 & H5 & H6).
      destruct (H4 pos) as (i & Hi & Hwq).
      { apply list_elem_of_here. }
      { rewrite <- Htl. apply list_elem_of_here. }
      apply (HC i R wq Hi).
      split; [done|]. split; [done|]. split; [|done].
      intros _. by apply tile_letters_wild.
  - (* no wildcard at the head of the tile *)
    apply char_eqb_neq in Ec.
    assert (("?"%char ∉ c :: rest) /\ c :: rest = tile_letters (wildcard s) b pos /\
            2 * (board_size b - length P) <= S (S fuel')) as (Hplain & Htl & Hfuel).
    { destruct Hentry as [[Htl Hfuel]|(Htl & Hq & Hfuel)]; [|done].
      assert ("?"%char ∉ c :: rest) as Hq.
      { apply not_elem_of_cons. split; [done|].
        pose proof (wf_tile_ok b pos Hwf) as Hok. unfold tile_ok in Hok.
        by rewrite <- Htl in Hok. }
      split; [done|]. split; [|lia].
      rewrite tile_letters_plain; [done|]. by rewrite <- Htl. }
    by apply frame_plain.
Qed.

Lemma Rep_reset b s : Rep b (reset b s) [].
Proof.
  unfold reset, get_board_size. repeat split; simpl.
  - by rewrite length_replicate.
  - by rewrite length_replicate.
  - by rewrite length_replicate.
  - intros i Hi. by rewrite lookup_replicate_2.
Qed.

(** The loop of [solve] over the starting tiles. *)
Lemma solve_spec b sr s :
  wf_board b -> board_size b <= 256 ->
  exists s', solve (Some b) sr s = Some s' /\
             tiles_inv b sr (reset b s) [] (board_size b) s'.
Proof.
  intros Hwf Hsmall. unfold solve, get_board_size.
  apply (tiles_loop b sr (2 * board_size b) _ (fun _ _ => true) (reset b s) []
           (dict s)).
  - by apply frame_all.
  - apply Rep_reset.
  - simpl. lia.
  - done.
  - intros k s1 Hk (_ & Hdict & _). by rewrite Hdict.
  - intros k s1 Hk _ _. split; [apply NoDup_singleton|].
    split; [by intros p ->%list_elem_of_singleton|].
    split; [by intros p ?%elem_of_nil|done].
  - done.
Qed.

Lemma chain_lookup b ps :
  chain b ps <->
  forall i p q, ps !! i = Some p -> ps !! S i = Some q -> is_adjacent b p q = true.
Proof.
  induction ps as [|p ps IH]; [split; [intros _ i ? ? H|]; done|].
  destruct ps as [|q ps].
  { split; [|done]. intros _ [|i] ? ? ? H; done. }
  cbn [chain]. rewrite IH. split.
  - intros [H1 H2] [|i] x y Hx Hy.
    + simpl in Hx, Hy. congruence.
    + by apply (H2 i).
  - intros H. split; [by apply (H 0)|]. intros i x y Hx Hy. by apply (H (S i)).
Qed.

(** ** The solver: soundness and completeness *)

(** C1, for boards of at most 256 tiles.  [solve] returns, and every
    solution it lists has a path without repeated tile, whose consecutive
    tiles are adjacent, and a word that is the spelling of the path under
    some choice of wildcard letters and is stored in the trie. *)
Theorem solve_sound ls g sr s :
  let b := Board_new ls g in
  board_size b <= 256 ->
  exists s', solve (Some b) sr s = Some s' /\
    forall sol, sol ∈ get_solutions s' ->
      NoDup (positions sol) /\
      (forall i p q, positions sol !! i = Some p ->
         positions sol !! S i = Some q -> is_adjacent b p q = true) /\
      (exists wq, word sol = spell sr wq b (positions sol)) /\
      trie_contains (dict s) (word sol) = true.
Proof.
  intros b Hsmall.
  destruct (solve_spec b sr s (Board_new_wf ls g) Hsmall)
    as (s' & Hrun & _ & _ & _ & acc & Hsol & HS & _).
  exists s'. split; [done|].
  intros sol Hin. unfold get_solutions in Hin. rewrite Hsol in Hin. simpl in Hin.
  destruct (HS sol Hin) as (i & _ & R & wq & -> & (Hnd & _ & Hc) & _ & _ & Ht & _).
  rewrite score_solution_positions, score_solution_word.
  split; [done|]. split; [by apply chain_lookup|]. split; [by exists wq|done].
Qed.

Lemma solve_sound_witness :
  exists s', solve (Some cat_board) default_rules (solver_with ["CAT"; "CATS"]%string) = Some s' /\
    forall sol, sol ∈ get_solutions s' ->
      NoDup (positions sol) /\
      (forall i p q, positions sol !! i = Some p ->
         positions sol !! S i = Some q -> is_adjacent cat_board p q = true) /\
      (exists wq, word sol = spell default_rules wq cat_board (positions sol)) /\
      trie_contains (dict (solver_with ["CAT"; "CATS"]%string)) (word sol) = true.
Proof.
  apply (solve_sound (str "CATSXXXXXXXXXXXX") (Some (square_grid 4 "Straight"))
           default_rules (solver_with ["CAT"; "CATS"]%string)).
  vm_compute. lia.
Defined.

(** On a board of 257 tiles the path, stored in bytes, lists tile 0 twice
    and the word is read from the wrong tile. *)
Lemma solve_unsound_long_board :
  exists s' sol,
    solve (Some long_board) default_rules (solver_with ["AB"]%string) = Some s' /\
    sol ∈ get_solutions s' /\
    ~ NoDup (positions sol) /\
    trie_contains (dict (solver_with ["AB"]%string)) (word sol) = false.
Proof.
  eexists. eexists. split; [vm_compute; reflexivity|].
  split; [apply list_elem_of_here|]. split; [|reflexivity].
  simpl. intros H. apply NoDup_cons in H as [H _]. apply H. apply list_elem_of_here.
Qed.

(** C2, for boards of at most 256 tiles and with the length the scorer
    computes.  For every walk and every choice of wildcard letters that spell
    a dictionary word whose scored length reaches the minimum, [solve]
    returns a list with exactly one solution of that path and that word. *)
Theorem solve_complete ls g sr s P wq :
  let b := Board_new ls g in
  board_size b <= 256 ->
  P <> [] ->
  is_walk b P ->
  (forall p, p ∈ P -> valid_choice wq b p) ->
  trie_contains (dict s) (spell sr wq b P) = true ->
  (min_word_length sr <= scored_length sr (path_letters wq b P))%Z ->
  exists s', solve (Some b) sr s = Some s' /\
    count_solutions P (spell sr wq b P) (get_solutions s') = 1.
Proof.
  intros b Hsmall Hne Hw Hv Ht Hm.
  destruct (solve_spec b sr s (Board_new_wf ls g) Hsmall)
    as (s' & Hrun & _ & _ & _ & acc & Hsol & _ & HC).
  exists s'. split; [done|].
  unfold get_solutions. rewrite Hsol. simpl.
  destruct P as [|i R]; [done|].
  apply (HC i R wq).
  - destruct Hw as (_ & Hr & _). apply Hr. apply list_elem_of_here.
  - split; [done|]. split; [by intros p ?%elem_of_nil|].
    split; [intros Hq; by apply tile_letters_plain|].
    split; [done|]. split; [done|].
    simpl. by rewrite score_solution_word_length.
Qed.

Lemma solve_complete_witness :
  exists s', solve (Some cat_board) (min_rules 3) (solver_with ["CAT"; "CATS"]%string) = Some s' /\
    count_solutions [0; 1; 2] (str "CAT") (get_solutions s') = 1.
Proof.
  apply (solve_complete (str "CATSXXXXXXXXXXXX") (Some (square_grid 4 "Straight"))
           (min_rules 3) (solver_with ["CAT"; "CATS"]%string) [0; 1; 2] []).
  - vm_compute. lia.
  - done.
  - split; [|split].
    + by apply (bool_decide_unpack (NoDup _)).
    + intros p Hp. repeat (apply elem_of_cons in Hp as [->|Hp]; [vm_compute; split; [lia|done]|]).
      by apply elem_of_nil in Hp.
    + vm_compute. done.
  - intros p Hp Hq. exfalso.
    repeat (apply elem_of_cons in Hp as [->|Hp];
            [vm_compute in Hq; repeat (apply elem_of_cons in Hq as [Hq|Hq]; [discriminate|]);
             by apply elem_of_nil in Hq|]).
    by apply elem_of_nil in Hp.
  - reflexivity.
  - vm_compute. discriminate.
Defined.

(** With [quLength = 1] the word QUA counts two letters and is not listed
    under a minimum of three; and on a board of 257 tiles the walk from the
    first to the last tile, which spells AB, is not listed. *)
Lemma solve_incomplete :
  (let b := Board_new (str "QA") None in
   let s := solver_with ["QUA"]%string in
   is_walk b [0; 1] /\
   spell (min_rules 3) [] b [0; 1] = str "QUA" /\
   trie_contains (dict s) (str "QUA") = true /\
   (min_word_length (min_rules 3) <= Z.of_nat (length (str "QUA")))%Z /\
   exists s', solve (Some b) (min_rules 3) s = Some s' /\
     count_solutions [0; 1] (str "QUA") (get_solutions s') = 0) /\
  (let s := solver_with ["AB"]%string in
   is_walk long_board [0; 256] /\
   spell default_rules [] long_board [0; 256] = str "AB" /\
   trie_contains (dict s) (str "AB") = true /\
   exists s', solve (Some long_board) default_rules s = Some s' /\
     count_solutions [0; 256] (str "AB") (get_solutions s') = 0).
Proof.
  split.
  - split.
    { split; [|split].
      + by apply (bool_decide_unpack (NoDup _)).
      + intros p Hp. repeat (apply elem_of_cons in Hp as [->|Hp]; [vm_compute; split; [lia|done]|]).
        by apply elem_of_nil in Hp.
      + vm_compute. done. }
    split; [reflexivity|]. split; [reflexivity|]. split; [vm_compute; discriminate|].
    eexists. split; [vm_compute; reflexivity|]. reflexivity.
  - split.
    { split; [|split].
      + by apply (bool_decide_unpack (NoDup _)).
      + intros p Hp. repeat (apply elem_of_cons in Hp as [->|Hp]; [vm_compute; split; [lia|done]|]).
        by apply elem_of_nil in Hp.
      + vm_compute. done. }
    split; [vm_compute; reflexivity|]. split; [reflexivity|].
    eexists. split; [vm_compute; reflexivity|]. vm_compute. reflexivity.
Qed.

(** ** The solver: state across calls *)

Lemma for_each_preserves {A St B : Type} (f : St -> B)
    (body : A -> St -> option St) l s s' :
  (forall x s1 s2, body x s1 = Some s2 -> f s2 = f s1) ->
  for_each body l s = Some s' -> f s' = f s.
Proof.
  intros Hb. revert s. induction l as [|x l IH]; intros s H; simpl in H.
  - by injection H as ->.
  - destruct (body x s) as [s1|] eqn:E; [|done].
    rewrite (IH s1 H). by eapply Hb.
Qed.

Lemma emit_dict b sr t s : dict (emit b sr t s) = dict s.
Proof. unfold emit. repeat case_match; reflexivity. Qed.

Lemma _solve_dict fuel b sr pos t tl s s' :
  _solve fuel b sr pos t tl s = Some s' -> dict s' = dict s.
Proof.
  revert pos t tl s s'. induction fuel as [|fuel IH]; intros pos t tl s s' H; [done|].
  cbn [_solve] in H. destruct t as [t0|]; [|by injection H as ->].
  destruct tl as [|c rest]; [by injection H as ->|].
  destruct (walk sr t0 (c :: rest)) as [|t1|t1].
  - by injection H as ->.
  - apply (for_each_preserves dict) in H; [done|].
    intros i s1 s2 H2. by rewrite (IH _ _ _ _ _ H2).
  - match type of H with match ?X with _ => _ end = _ => destruct X as [s3|] eqn:E end; [|done].
    injection H as <-. change (dict (leave pos s3)) with (dict s3).
    apply (for_each_preserves dict) in E.
    + by rewrite E, emit_dict.
    + intros i s1 s2 H2. destruct (_ && _); [by eapply IH|by injection H2 as ->].
Qed.

Lemma solve_dict b sr s s' : solve b sr s = Some s' -> dict s' = dict s.
Proof.
  destruct b as [b|]; simpl; [|by intros [= ->]].
  intros H. apply (for_each_preserves dict) in H; [done|].
  intros i s1 s2 H2. by eapply _solve_dict.
Qed.

(** C5.  The outcome of [solve] on a board depends on the solver only
    through its dictionary: two solvers with the same dictionary, whatever
    their earlier calls left in them, end in the same state, with the same
    solutions in the same order; calling [solve] again with the same
    arguments gives the same state again; the state the walks start from is
    rebuilt from the board alone; and a wildcard runs through the letters
    from A to Z in this order.  On a board of at most 256 tiles the calls
    return. *)
Theorem solve_deterministic ls g sr s1 s2 :
  let b := Board_new ls g in
  dict s1 = dict s2 ->
  solve (Some b) sr s1 = solve (Some b) sr s2 /\
  (forall s', solve (Some b) sr s1 = Some s' -> solve (Some b) sr s' = Some s') /\
  reset b s1 = reset b s2 /\
  (get_solutions (reset b s1) = [] /\ cur_len (reset b s1) = 0 /\
   used (reset b s1) = replicate (board_size b) 0 /\
   path (reset b s1) = replicate (board_size b) 0 /\
   wildcard (reset b s1) = replicate (board_size b) Char.NUL) /\
  map Char.letter (seq 0 ALPHABET_SIZE) = str "ABCDEFGHIJKLMNOPQRSTUVWXYZ" /\
  (board_size b <= 256 ->
   exists s', solve (Some b) sr s1 = Some s' /\ solve (Some b) sr s2 = Some s').
Proof.
  intros b Hd.
  assert (reset b s1 = reset b s2) as Hr by (unfold reset; by rewrite Hd).
  assert (solve (Some b) sr s1 = solve (Some b) sr s2) as Heq.
  { unfold solve. by rewrite Hr. }
  split; [done|]. split.
  { intros s' H. pose proof (solve_dict _ _ _ _ H) as Hd'.
    rewrite <- H. unfold solve, reset. by rewrite Hd'. }
  split; [done|]. split; [done|]. split; [reflexivity|].
  intros Hsmall.
  destruct (solve_spec b sr s1 (Board_new_wf ls g) Hsmall) as (s' & H & _).
  exists s'. by rewrite <- Heq.
Qed.

Lemma solve_deterministic_witness :
  solve (Some (Board_new (str "?") None)) plain_rules
    (used_solver (dict_of alphabet_words) [] None) =
  solve (Some (Board_new (str "?") None)) plain_rules
    (used_solver (dict_of alphabet_words)
       [mkSolution (str "OLD") [7] 3 1 1 1 dzero] (Some cat_board)) /\
  (map (fun sol => (word sol, positions sol)) <$>
     (get_solutions <$>
        solve (Some (Board_new (str "?") None)) plain_rules
          (used_solver (dict_of alphabet_words) [] None))) =
  Some (map (fun i => ([Char.letter i], [0])) (seq 0 ALPHABET_SIZE)).
Proof.
  split.
  - destruct (solve_deterministic (str "?") None plain_rules
      (used_solver (dict_of alphabet_words) [] None)
      (used_solver (dict_of alphabet_words)
         [mkSolution (str "OLD") [7] 3 1 1 1 dzero] (Some cat_board)))
      as [H _]; [vm_compute; reflexivity|exact H].
  - vm_compute. reflexivity.
Defined.

(** C10.  With a null board [solve] returns at once and the solver,
    its list of solutions included, is as before; with a board the list is
    emptied before the walks start, so nothing of the earlier list
    remains. *)
Theorem solve_null_board sr s :
  solve None sr s = Some s /\
  (get_solutions <$> solve None sr s) = Some (get_solutions s) /\
  (forall b, get_solutions (reset b s) = []) /\
  (forall b, solve (Some b) sr s = solve (Some b) sr (reset b s)).
Proof. repeat split. Qed.

(** ** The validator: propensity boards *)

Lemma list_find_eq_Some {A} `{EqDecision A} (t : A) (pool : list A) i x :
  list_find (fun y => y = t) pool = Some (i, x) -> pool !! i = Some t.
Proof. intros H. apply list_find_Some in H as (H1 & -> & _). done. Qed.

Lemma list_find_eq_None {A} `{EqDecision A} (t : A) (pool : list A) :
  list_find (fun y => y = t) pool = None <-> t ∉ pool.
Proof.
  rewrite list_find_None, Forall_forall. split.
  - intros H Hin. by apply (H t).
  - intros H x Hx ->. done.
Qed.

Lemma validate_tiles_without pool tiles :
  validate_tiles pool tiles true = true <-> tiles ⊆+ pool.
Proof.
  revert pool. induction tiles as [|t tiles IH]; intros pool; simpl.
  - split; [intros _; apply submseteq_nil_l|done].
  - destruct (list_find (fun x => x = t) pool) as [[i x]|] eqn:E.
    + apply list_find_eq_Some in E.
      rewrite IH. rewrite (submseteq_cons_l t tiles pool). split.
      * intros H. exists (delete i pool). split; [by apply delete_Permutation|done].
      * intros (k & Hp & Hk).
        assert (t :: delete i pool ≡ₚ t :: k) as Hp'.
        { rewrite <- Hp. symmetry. by apply delete_Permutation. }
        apply Permutation_cons_inv in Hp'. by rewrite Hp'.
    + apply list_find_eq_None in E. split; [done|].
      intros H. exfalso. apply E.
      eapply elem_of_submseteq; [|exact H]. apply list_elem_of_here.
Qed.

Lemma validate_tiles_with pool tiles :
  validate_tiles pool tiles false = true <-> forall t, t ∈ tiles -> t ∈ pool.
Proof.
  induction tiles as [|t tiles IH]; simpl.
  - split; [intros _ t ?%elem_of_nil|]; done.
  - destruct (list_find (fun x => x = t) pool) as [[i x]|] eqn:E.
    + apply list_find_eq_Some in E. rewrite IH. split.
      * intros H u [->|Hu]%elem_of_cons; [by eapply list_elem_of_lookup_2|by apply H].
      * intros H u Hu. apply H. by apply list_elem_of_further.
    + apply list_find_eq_None in E. split; [done|].
      intros H. exfalso. apply E, H. apply list_elem_of_here.
Qed.

Lemma validate_tiles_prefix pool pre rest swr :
  validate_tiles pool pre swr = false ->
  validate_tiles pool (pre ++ rest) swr = false.
Proof.
  revert pool. induction pre as [|t pre IH]; intros pool; simpl; [done|].
  destruct (list_find _ pool) as [[i x]|]; [apply IH|done].
Qed.

(** C9.  [validatePropensityBoard] accepts exactly when the board tiles
    form a sub-multiset of the pool (sampling without replacement) or all
    occur in the pool (with replacement); a prefix of tiles that is rejected
    makes every board starting with it rejected, so the first tile without a
    match decides; and the caller's pool is handed back as it was. *)
Theorem validatePropensityBoard_spec prop_letters board_tiles :
  ((validatePropensityBoard prop_letters board_tiles true).1 = true <->
     board_tiles ⊆+ prop_letters) /\
  ((validatePropensityBoard prop_letters board_tiles false).1 = true <->
     forall t, t ∈ board_tiles -> t ∈ prop_letters) /\
  (forall swr pre t rest,
     board_tiles = pre ++ t :: rest ->
     (validatePropensityBoard prop_letters pre swr).1 = true ->
     (validatePropensityBoard prop_letters (pre ++ [t]) swr).1 = false ->
     (validatePropensityBoard prop_letters board_tiles swr).1 = false) /\
  (forall swr, (validatePropensityBoard prop_letters board_tiles swr).2 = prop_letters).
Proof.
  unfold validatePropensityBoard; simpl.
  split; [apply validate_tiles_without|].
  split; [apply validate_tiles_with|].
  split; [|done].
  intros swr pre t rest -> _ H.
  replace (pre ++ t :: rest) with ((pre ++ [t]) ++ rest) by (by rewrite <- app_assoc).
  by apply validate_tiles_prefix.
Qed.

(** ** The generator's acceptance test *)

Lemma int_of_size_t_small d :
  (0 <= d < 2 ^ 31)%Z -> int_of_size_t (size_t d) = d.
Proof.
  intros H. unfold int_of_size_t, size_t.
  rewrite (Z.mod_small d (2 ^ 64)) by lia.
  rewrite (Z.mod_small d (2 ^ 32)) by lia.
  destruct (d <? 2 ^ 31)%Z eqn:E; [done|]. apply Z.ltb_ge in E. lia.
Qed.

Lemma quot_250 chg : (1 <= chg)%Z -> (250 ÷ chg = 250 / chg)%Z.
Proof. intros H. apply Z.quot_div_nonneg; lia. Qed.

Lemma accepts_max bs bp bst bpt chg :
  (1 <= chg)%Z -> (bst - bs < 2 ^ 31)%Z ->
  accepts false bs bp bst bpt chg = true <->
  (bst < bs \/ bpt < bp \/ bst - bs < 250 / chg)%Z.
Proof.
  intros Hc Hd. unfold accepts. simpl. rewrite quot_250 by done.
  rewrite !orb_true_iff, !Z.ltb_lt.
  destruct (Z.lt_ge_cases bst bs) as [Hlt|Hge]; [tauto|].
  rewrite int_of_size_t_small by lia. tauto.
Qed.

Lemma accepts_min bs bp bst bpt chg :
  (1 <= chg)%Z -> (bs - bst < 2 ^ 31)%Z ->
  accepts true bs bp bst bpt chg = true <->
  (bs < bst \/ bp < bpt \/ bs - bst < 250 / chg)%Z.
Proof.
  intros Hc Hd. unfold accepts. simpl. rewrite orb_false_r, quot_250 by done.
  rewrite !orb_true_iff, !Z.ltb_lt.
  destruct (Z.lt_ge_cases bs bst) as [Hlt|Hge]; [tauto|].
  rewrite int_of_size_t_small by lia. tauto.
Qed.

Lemma changes_after {B : Type} rev (st : gen_state B) cands :
  changes (fold_left (trial rev) cands st) =
    (changes st +
     Z.of_nat (length (filter (fun d => d = true) (decisions rev st cands))))%Z.
Proof.
  revert st. induction cands as [|c cs IH]; intros st; simpl; [lia|].
  rewrite IH. rewrite filter_cons. unfold trial.
  destruct (accepts rev _ _ _ _ _); case_decide; try done; simpl; lia.
Qed.

(** C8, for counts that differ by less than [2^31].  Before any trial the
    local [changes] is one plus the number of moves accepted so far.  In
    maximizing mode the candidate is accepted exactly when its word count
    or its point total exceeds the best so far or the best word count
    exceeds its own by less than [250 / changes]; minimizing mode is the
    same with the comparisons and the difference turned round. *)
Theorem accepts_spec {B : Type} (reverse_target : bool) (b0 : B)
    (pre : list (candidate B)) (c : candidate B) :
  let st := after_trials reverse_target b0 pre in
  let chg := (1 + accepted_moves reverse_target b0 pre)%Z in
  changes st = chg /\
  ((if reverse_target
    then board_score c - best_score st < 2 ^ 31
    else best_score st - board_score c < 2 ^ 31)%Z ->
   accepts reverse_target (board_score c) (board_points c)
     (best_score st) (best_points st) (changes st) = true <->
   (if reverse_target
    then board_score c < best_score st \/ board_points c < best_points st \/
         board_score c - best_score st < 250 / chg
    else best_score st < board_score c \/ best_points st < board_points c \/
         best_score st - board_score c < 250 / chg)%Z).
Proof.
  intros st chg.
  assert (changes st = chg) as Hchg.
  { subst st chg. unfold after_trials, accepted_moves. rewrite changes_after.
    simpl. lia. }
  split; [done|]. intros Hd. rewrite Hchg.
  assert (1 <= chg)%Z as H1 by (subst chg; unfold accepted_moves; lia).
  destruct reverse_target; [by apply accepts_min|by apply accepts_max].
Qed.

Lemma accepts_spec_witness :
  accepts false 40 100 50 200 2 = true /\
  accepts true 60 300 50 200 2 = true.
Proof.
  split.
  - apply (proj2 (accepts_spec false tt [mkCandidate tt 50 200] (mkCandidate tt 40 100))).
    + vm_compute. reflexivity.
    + vm_compute. right. right. reflexivity.
  - apply (proj2 (accepts_spec true tt [mkCandidate tt 50 200] (mkCandidate tt 60 300))).
    + vm_compute. reflexivity.
    + vm_compute. right. right. reflexivity.
Defined.

(** After a board of [2^31] words, a board without any word is accepted
    although it loses far more than the tolerance. *)
Lemma accepts_wraps :
  let pre := [mkCandidate tt (2 ^ 31)%Z 0%Z] in
  let c := mkCandidate tt 0%Z 0%Z in
  let st := after_trials false tt pre in
  best_score st = (2 ^ 31)%Z /\ best_points st = 0%Z /\ changes st = 2%Z /\
  accepts false (board_score c) (board_points c)
    (best_score st) (best_points st) (changes st) = true /\
  ~ (best_score st < board_score c \/ best_points st < board_points c \/
     best_score st - board_score c < 250 / changes st)%Z.
Proof.
  vm_compute. repeat split; try reflexivity.
  intros [H|[H|H]]; discriminate.
Qed.

(** ** The order on words *)

Lemma str_ltb_irrefl a : str_ltb a a = false.
Proof.
  induction a as [|x a IH]; [done|]. simpl.
  by rewrite Nat.ltb_irrefl.
Qed.

Lemma code_inj x y : Char.code x = Char.code y -> x = y.
Proof.
  unfold Char.code. intros H.
  rewrite <- (ascii_nat_embedding x), <- (ascii_nat_embedding y). by rewrite H.
Qed.

Lemma str_ltb_total a b : str_ltb a b = false -> str_ltb b a = false -> a = b.
Proof.
  revert b. induction a as [|x a IH]; intros [|y b]; simpl; try done.
  destruct (Char.code x <? Char.code y) eqn:E1; [done|].
  destruct (Char.code y <? Char.code x) eqn:E2; [done|].
  apply Nat.ltb_ge in E1, E2.
  intros H1 H2. f_equal; [apply code_inj; lia|by apply IH].
Qed.

Lemma str_ltb_trans a b c :
  str_ltb a b = true -> str_ltb c b = false -> str_ltb a c = true.
Proof.
  revert b c. induction a as [|x a IH]; intros [|y b] [|z c]; simpl; try done.
  destruct (Char.code x <? Char.code y) eqn:E1.
  - apply Nat.ltb_lt in E1. intros _.
    destruct (Char.code z <? Char.code y) eqn:E2; [done|].
    apply Nat.ltb_ge in E2.
    destruct (Char.code x <? Char.code z) eqn:E3; [done|].
    apply Nat.ltb_ge in E3. lia.
  - destruct (Char.code y <? Char.code x) eqn:E2; [done|].
    apply Nat.ltb_ge in E1, E2. assert (Char.code x = Char.code y) as -> by lia.
    destruct (Char.code z <? Char.code y) eqn:E3; [done|].
    destruct (Char.code y <? Char.code z) eqn:E4; [done|].
    apply IH.
Qed.

Lemma Solution_ltb_words a b :
  Solution_ltb b a = false -> str_ltb (word b) (word a) = false.
Proof. unfold Solution_ltb. by destruct (str_ltb (word b) (word a)). Qed.

Lemma sorted_grouped lw l :
  sorted_solutions l ->
  (forall y, y ∈ l -> str_ltb (word y) lw = false) ->
  grouped lw l.
Proof.
  revert lw. induction l as [|x l IH]; intros lw Hs Hlw; [done|].
  destruct Hs as [Hx Hs]. simpl. split.
  - intros Hne y Hy Heq.
    assert (str_ltb lw (word x) = true) as Hlt.
    { destruct (str_ltb lw (word x)) eqn:E; [done|]. exfalso. apply Hne.
      apply str_ltb_total; [|done]. apply Hlw. apply list_elem_of_here. }
    rewrite Forall_forall in Hx. specialize (Hx y Hy). apply Solution_ltb_words in Hx.
    pose proof (str_ltb_trans _ _ _ Hlt Hx) as Ht.
    rewrite Heq, str_ltb_irrefl in Ht. done.
  - apply IH; [done|]. intros y Hy. rewrite Forall_forall in Hx.
    by apply Solution_ltb_words, Hx.
Qed.

Lemma sorted_grouped_nil l : sorted_solutions l -> grouped [] l.
Proof. intros H. apply sorted_grouped; [done|]. intros y _. by destruct (word y). Qed.

(** ** The analyzer *)

Lemma str_eqb_eq a b : str_eqb a b = true <-> a = b.
Proof. unfold str_eqb. apply bool_decide_eq_true. Qed.

Lemma analyze_step_last_word a x : last_word (analyze_step a x) = word x.
Proof. reflexivity. Qed.

Lemma analyze_step_lengths a x :
  length_aggregates (analyze_step a x) =
    if str_eqb (word x) (last_word a) then length_aggregates a
    else count_word (length_aggregates a) x.
Proof.
  unfold analyze_step, length_aggregates, count_word. simpl.
  by destruct (str_eqb (word x) (last_word a)).
Qed.

Lemma analyze_fold_lengths l a :
  length_aggregates (fold_left analyze_step l a) =
    count_words (last_word a) (length_aggregates a) l.
Proof.
  revert a. induction l as [|x l IH]; intros a; [done|].
  cbn [fold_left count_words]. rewrite IH, analyze_step_last_word.
  by rewrite analyze_step_lengths.
Qed.

Lemma count_words_dedup lw seen m l :
  grouped lw l ->
  (forall w, w ∈ seen -> w <> lw -> forall y, y ∈ l -> word y <> w) ->
  count_words lw m l = count_words lw m (dedup_words seen l).
Proof.
  revert lw seen m. induction l as [|x l IH]; intros lw seen m Hg Hs; [done|].
  destruct Hg as [Hg1 Hg2]. cbn [count_words dedup_words].
  destruct (str_eqb (word x) lw) eqn:E.
  - apply str_eqb_eq in E. rewrite E in *.
    case_bool_decide as Hin.
    + apply IH; [done|]. intros w Hw Hne y Hy. apply (Hs w Hw Hne). by apply list_elem_of_further.
    + cbn [count_words]. rewrite E.
      assert (str_eqb lw lw = true) as -> by (by apply str_eqb_eq).
      apply IH; [done|]. intros w [->|Hw]%elem_of_cons Hne y Hy; [done|].
      apply (Hs w Hw Hne). by apply list_elem_of_further.
  - assert (word x <> lw) as Hne.
    { intros H. apply str_eqb_eq in H. congruence. }
    rewrite bool_decide_eq_false_2.
    2:{ intros Hin. apply (Hs (word x) Hin Hne x); [apply list_elem_of_here|done]. }
    cbn [count_words]. rewrite E.
    apply IH; [done|]. intros w [->|Hw]%elem_of_cons Hne' y Hy; [done|].
    destruct (decide (w = lw)) as [->|Hne2].
    + by apply Hg1.
    + apply (Hs w Hw Hne2). by apply list_elem_of_further.
Qed.

Lemma credits_credited p lw has seen l :
  grouped lw l ->
  (has = true <-> lw ∈ seen) ->
  (forall w, w ∈ seen -> w <> lw -> forall y, y ∈ l -> word y <> w) ->
  credits p lw has l = credited p seen l.
Proof.
  revert lw has seen. induction l as [|x l IH]; intros lw has seen Hg Hh Hs; [done|].
  destruct Hg as [Hg1 Hg2]. cbn [credits credited].
  assert (forall w, w ∈ seen -> w <> word x -> forall y, y ∈ l -> word y <> w) as Hs'.
  { intros w Hw Hne y Hy. destruct (decide (w = lw)) as [->|Hne2].
    - apply Hg1; [congruence|done].
    - apply (Hs w Hw Hne2). by apply list_elem_of_further. }
  assert ((if str_eqb (word x) lw then has else false) =
          bool_decide (word x ∈ seen)) as ->.
  { destruct (str_eqb (word x) lw) eqn:E.
    - apply str_eqb_eq in E. rewrite E. destruct has.
      + rewrite bool_decide_eq_true_2; [done|]. by apply Hh.
      + rewrite bool_decide_eq_false_2; [done|]. intros Hin. apply Hh in Hin. done.
    - assert (word x <> lw) as Hne.
      { intros H. apply str_eqb_eq in H. congruence. }
      rewrite bool_decide_eq_false_2; [done|].
      intros Hin. apply (Hs (word x) Hin Hne x); [apply list_elem_of_here|done]. }
  destruct (touches p x && negb (bool_decide (word x ∈ seen))) eqn:E.
  - f_equal. apply IH; [done| |].
    + split; [intros _; apply list_elem_of_here|done].
    + intros w [->|Hw]%elem_of_cons Hne y Hy; [done|]. by apply Hs'.
  - apply IH; [done| |done].
    rewrite bool_decide_eq_true. done.
Qed.

Lemma credited_words p seen l :
  NoDup (map word (credited p seen l)) /\
  (forall w, w ∈ map word (credited p seen l) -> w ∉ seen) /\
  (forall x, x ∈ l -> touches p x = true ->
     word x ∈ seen \/ word x ∈ map word (credited p seen l)).
Proof.
  revert seen. induction l as [|x l IH]; intros seen.
  { split; [apply NoDup_nil_2|]. split; [by intros w ?%elem_of_nil|by intros y ?%elem_of_nil]. }
  cbn [credited].
  destruct (touches p x) eqn:Et; case_bool_decide as Hin; cbn [andb negb].
  - destruct (IH seen) as (H1 & H2 & H3). split; [done|]. split; [done|].
    intros y [->|Hy]%elem_of_cons Ht; [by left|by apply H3].
  - destruct (IH (word x :: seen)) as (H1 & H2 & H3). cbn [map]. split.
    { apply NoDup_cons. split; [|done]. intros Hw. apply (H2 _ Hw). apply list_elem_of_here. }
    split.
    { intros w [->|Hw]%elem_of_cons; [done|]. intros Hs. apply (H2 _ Hw). by apply list_elem_of_further. }
    intros y [->|Hy]%elem_of_cons Ht; [right; apply list_elem_of_here|].
    destruct (H3 y Hy Ht) as [[Heq|H]%elem_of_cons|H].
    + right. rewrite Heq. apply list_elem_of_here.
    + by left.
    + right. by apply list_elem_of_further.
  - destruct (IH seen) as (H1 & H2 & H3). split; [done|]. split; [done|].
    intros y [->|Hy]%elem_of_cons Ht; [congruence|by apply H3].
  - destruct (IH seen) as (H1 & H2 & H3). split; [done|]. split; [done|].
    intros y [->|Hy]%elem_of_cons Ht; [congruence|by apply H3].
Qed.

Lemma size_t_idem z : size_t (size_t z) = size_t z.
Proof. unfold size_t. apply Z.mod_mod. lia. Qed.

Lemma size_t_add_l a c : size_t (size_t a + c) = size_t (a + c).
Proof. unfold size_t. apply Zplus_mod_idemp_l. Qed.

Lemma at_key_add_at k v m p :
  at_key (add_at k v m) p = if decide (k = p) then size_t (at_key m p + v) else at_key m p.
Proof.
  unfold add_at, at_key. case_decide as E.
  - subst. by rewrite lookup_insert_eq.
  - by rewrite lookup_insert_ne.
Qed.

Lemma in_range_empty : in_range ∅.
Proof. intros k. unfold at_key. by rewrite lookup_empty. Qed.

Lemma in_range_add_at k v m : in_range m -> in_range (add_at k v m).
Proof.
  intros H p. rewrite at_key_add_at. case_decide; [apply size_t_idem|apply H].
Qed.

Lemma credit_position_range sc acc pos :
  in_range acc.1.1 -> in_range acc.1.2 ->
  in_range (credit_position sc acc pos).1.1 /\ in_range (credit_position sc acc pos).1.2.
Proof.
  intros H1 H2. unfold credit_position. case_bool_decide; [done|].
  simpl. split; by apply in_range_add_at.
Qed.

Lemma credit_fold_range sc ps acc :
  in_range acc.1.1 -> in_range acc.1.2 ->
  in_range (fold_left (credit_position sc) ps acc).1.1 /\
  in_range (fold_left (credit_position sc) ps acc).1.2.
Proof.
  revert acc. induction ps as [|pos ps IH]; intros acc H1 H2; [done|].
  simpl. destruct (credit_position_range sc acc pos H1 H2). by apply IH.
Qed.

Lemma analyze_fold_range l a :
  in_range (position_words a) -> in_range (position_points a) ->
  in_range (position_words (fold_left analyze_step l a)) /\
  in_range (position_points (fold_left analyze_step l a)).
Proof.
  revert a. induction l as [|x l IH]; intros a H1 H2; [done|].
  cbn [fold_left]. apply IH; unfold analyze_step; cbn [position_words position_points];
    apply credit_fold_range; destruct (negb _); simpl; try done; by apply in_range_add_at.
Qed.

Lemma credit_fold sc ps acc p :
  let r := fold_left (credit_position sc) ps acc in
  let T := bool_decide (p ∈ map (fun pos => (pos + 1) mod 256) ps) in
  let has := bool_decide (p ∈ acc.2) in
  bool_decide (p ∈ r.2) = has || T /\
  at_key r.1.1 p =
    (if T && negb has then size_t (at_key acc.1.1 p + 1) else at_key acc.1.1 p) /\
  at_key r.1.2 p =
    (if T && negb has then size_t (at_key acc.1.2 p + sc) else at_key acc.1.2 p).
Proof.
  revert acc. induction ps as [|pos ps IH]; intros acc.
  { cbn [fold_left map].
    rewrite (bool_decide_eq_false_2 (p ∈ [])) by apply not_elem_of_nil.
    by rewrite orb_false_r. }
  cbn [fold_left map] in *. cbv zeta in *.
  specialize (IH (credit_position sc acc pos)).
  destruct IH as (I1 & I2 & I3). rewrite I1, I2, I3. clear I1 I2 I3.
  set (q := (pos + 1) mod 256).
  set (T' := bool_decide (p ∈ map (fun pos0 => (pos0 + 1) mod 256) ps)).
  assert (bool_decide (p ∈ q :: map (fun pos0 => (pos0 + 1) mod 256) ps) =
          bool_decide (p = q) || T') as ->.
  { subst T'. rewrite <- bool_decide_or. apply bool_decide_ext. apply elem_of_cons. }
  unfold credit_position. fold q.
  destruct (decide (q ∈ acc.2)) as [Hq|Hq].
  - rewrite (bool_decide_eq_true_2 (q ∈ acc.2) Hq).
    destruct (decide (p = q)) as [->|Hne].
    + rewrite (bool_decide_eq_true_2 (q = q)) by done.
      rewrite (bool_decide_eq_true_2 (q ∈ acc.2) Hq). cbn [orb andb negb].
      by rewrite andb_false_r.
    + by rewrite (bool_decide_eq_false_2 (p = q)) by done.
  - rewrite (bool_decide_eq_false_2 (q ∈ acc.2) Hq). cbn [fst snd].
    destruct (decide (p = q)) as [->|Hne].
    + rewrite (bool_decide_eq_true_2 (q = q)) by done.
      rewrite (bool_decide_eq_false_2 (q ∈ acc.2) Hq).
      rewrite (bool_decide_eq_true_2 (q ∈ {[q]} ∪ acc.2))
        by (apply elem_of_union; left; by apply elem_of_singleton).
      cbn [orb andb negb]. rewrite andb_false_r.
      rewrite !at_key_add_at, !decide_True by done. done.
    + rewrite (bool_decide_eq_false_2 (p = q)) by done. cbn [orb].
      rewrite !at_key_add_at, !decide_False by done.
      rewrite (bool_decide_ext (p ∈ {[q]} ∪ acc.2) (p ∈ acc.2))
        by (rewrite elem_of_union, elem_of_singleton; tauto).
      done.
Qed.

Lemma analyze_step_positions a x p :
  let has := if str_eqb (word x) (last_word a)
             then bool_decide (p ∈ last_word_positions a) else false in
  let tot := negb (str_eqb (word x) (last_word a)) && (p =? 0) in
  let a' := analyze_step a x in
  bool_decide (p ∈ last_word_positions a') = has || touches p x /\
  size_t (at_key (position_words a') p) =
    size_t (at_key (position_words a) p +
            (if tot then 1 else 0) +
            (if touches p x && negb has then 1 else 0)) /\
  size_t (at_key (position_points a') p) =
    size_t (at_key (position_points a) p +
            (if tot then score x else 0) +
            (if touches p x && negb has then score x else 0)).
Proof.
  intros has tot a'. subst has tot a'. unfold analyze_step, touches.
  cbn [position_words position_points last_word_positions].
  match goal with |- context [fold_left (credit_position ?sc) ?ps ?acc] =>
    destruct (credit_fold sc ps acc p) as (H1 & H2 & H3) end.
  rewrite H1, H2, H3. clear H1 H2 H3. cbn [fst snd].
  destruct (str_eqb (word x) (last_word a)); cbn [negb andb].
  - split; [done|].
    destruct (bool_decide (p ∈ map _ (positions x)) && negb _);
      rewrite ?size_t_idem, ?Z.add_0_r; done.
  - rewrite (bool_decide_eq_false_2 (p ∈ ∅)) by apply not_elem_of_empty.
    cbn [negb]. rewrite !andb_true_r. split; [done|].
    rewrite !at_key_add_at.
    destruct (Nat.eqb_spec p 0) as [->|Hp].
    + rewrite !decide_True by done.
      destruct (bool_decide (0 ∈ map _ (positions x)));
        rewrite ?size_t_idem, ?size_t_add_l, ?Z.add_0_r; done.
    + rewrite !decide_False by lia.
      destruct (bool_decide (p ∈ map _ (positions x)));
        rewrite ?size_t_idem, ?Z.add_0_r; done.
Qed.

Lemma analyze_fold_positions l a p :
  let cs := credits p (last_word a) (bool_decide (p ∈ last_word_positions a)) l in
  let fs := if p =? 0 then firsts (last_word a) l else [] in
  let a' := fold_left analyze_step l a in
  size_t (at_key (position_words a') p) =
    size_t (at_key (position_words a) p + Z.of_nat (length cs)
            + Z.of_nat (length fs)) /\
  size_t (at_key (position_points a') p) =
    size_t (at_key (position_points a) p + total_score cs + total_score fs).
Proof.
  revert a. induction l as [|x l IH]; intros a.
  { cbn. destruct (p =? 0); cbn; by rewrite !Z.add_0_r. }
  cbn [fold_left credits firsts]. cbv zeta.
  destruct (analyze_step_positions a x p) as (H1 & H2 & H3). cbv zeta in H1, H2, H3.
  specialize (IH (analyze_step a x)). cbv zeta in IH.
  rewrite analyze_step_last_word, H1 in IH. destruct IH as [I1 I2].
  rewrite I1, I2. clear I1 I2 H1.
  set (has := if str_eqb (word x) (last_word a)
              then bool_decide (p ∈ last_word_positions a) else false) in *.
  split.
  - match goal with |- size_t (?X + ?c + ?d) = _ =>
      transitivity (size_t (size_t X + (c + d)));
        [rewrite size_t_add_l; f_equal; lia|] end.
    rewrite H2, size_t_add_l.
    destruct (p =? 0); destruct (str_eqb (word x) (last_word a));
      destruct (touches p x); destruct has;
      cbn [andb negb orb length]; f_equal; lia.
  - match goal with |- size_t (?X + ?c + ?d) = _ =>
      transitivity (size_t (size_t X + (c + d)));
        [rewrite size_t_add_l; f_equal; lia|] end.
    rewrite H3, size_t_add_l.
    destruct (p =? 0); destruct (str_eqb (word x) (last_word a));
      destruct (touches p x); destruct has;
      unfold total_score; cbn [andb negb orb fold_right]; f_equal; lia.
Qed.

Lemma firsts_subset lw l x : x ∈ firsts lw l -> x ∈ l.
Proof.
  revert lw. induction l as [|y l IH]; intros lw; cbn [firsts]; [done|].
  destruct (str_eqb (word y) lw).
  - intros H. apply list_elem_of_further. by eapply IH.
  - intros [->|H]%elem_of_cons; [apply list_elem_of_here|].
    apply list_elem_of_further. by eapply IH.
Qed.

Lemma firsts_words lw l :
  grouped lw l ->
  NoDup (map word (firsts lw l)) /\ forall y, y ∈ firsts lw l -> word y <> lw.
Proof.
  revert lw. induction l as [|x l IH]; intros lw Hg; cbn [firsts].
  { split; [constructor|]. by intros y ?%elem_of_nil. }
  destruct Hg as [Hout Hg]. destruct (IH (word x) Hg) as [Hnd Hne].
  destruct (str_eqb (word x) lw) eqn:E.
  - apply str_eqb_eq in E. split; [done|]. intros y Hy. rewrite <- E. by apply Hne.
  - assert (word x <> lw) as Hx.
    { intros H. apply str_eqb_eq in H. congruence. }
    split.
    + cbn [map]. apply NoDup_cons. split; [|done].
      intros Hin. apply list_elem_of_In in Hin.
      apply in_map_iff in Hin as (y & Ey & Hy). apply list_elem_of_In in Hy.
      by apply (Hne y Hy).
    + intros y [->|Hy]%elem_of_cons; [done|].
      apply Hout; [done|]. by eapply firsts_subset.
Qed.

(** C6.  On a sorted list the four mappings keyed by word length are
    those of the list without its duplicate words.  For every key [p] of
    the two position mappings, the words and points credited to the tile
    [p - 1] are those of the solutions that are the first of their word to
    pass through it: no word is credited twice for one tile, and every word
    that passes through the tile is credited there.  The position is a
    byte, so the tile 255 is credited at the key 0; that key also holds the
    totals, one count for every solution that starts a new word, and no
    word is counted twice in the totals. *)
Theorem analyze_dedup b l :
  sorted_solutions l ->
  let a := analyze b l in
  let a' := analyze b (dedup_words [] l) in
  (word_length_counts a = word_length_counts a' /\
   point_length_counts a = point_length_counts a' /\
   word_lengthp_counts a = word_lengthp_counts a' /\
   point_lengthp_counts a = point_lengthp_counts a') /\
  forall p,
    let cs := credited p [] l in
    let fs := if p =? 0 then firsts [] l else [] in
    at_key (position_words a) p =
      size_t (Z.of_nat (length cs) + Z.of_nat (length fs)) /\
    at_key (position_points a) p = size_t (total_score cs + total_score fs) /\
    NoDup (map word cs) /\ NoDup (map word fs) /\
    (forall x, x ∈ l -> touches p x = true -> word x ∈ map word cs).
Proof.
  intros Hs a a'. pose proof (sorted_grouped_nil l Hs) as Hg. split.
  - assert (length_aggregates a = length_aggregates a') as H.
    { subst a a'. unfold analyze. rewrite !analyze_fold_lengths.
      cbn [last_word]. apply count_words_dedup; [done|]. by intros w ?%elem_of_nil. }
    unfold length_aggregates in H. by injection H.
  - intros p cs fs.
    destruct (analyze_fold_positions l (analyze b []) p) as [H1 H2].
    cbv zeta in H1, H2. change (fold_left analyze_step l (analyze b [])) with a in H1, H2.
    cbn [analyze fold_left last_word last_word_positions position_words position_points] in H1, H2.
    rewrite (bool_decide_eq_false_2 (p ∈ ∅)) in H1, H2 by apply not_elem_of_empty.
    assert (credits p [] false l = credited p [] l) as Hc.
    { apply credits_credited; [done| |by intros w ?%elem_of_nil].
      split; [done|by intros ?%elem_of_nil]. }
    rewrite Hc in H1, H2.
    destruct (analyze_fold_range l (analyze b []) in_range_empty in_range_empty) as [R1 R2].
    change (fold_left analyze_step l (analyze b [])) with a in R1, R2.
    rewrite (R1 p) in H1. rewrite (R2 p) in H2.
    destruct (credited_words p [] l) as (N1 & _ & N3).
    split; [exact H1|]. split; [exact H2|]. split; [done|]. split.
    + subst fs. destruct (p =? 0); [|constructor]. by apply firsts_words.
    + intros x Hx Ht. destruct (N3 x Hx Ht) as [H|H]; [by apply elem_of_nil in H|done].
Qed.

Lemma analyze_dedup_witness :
  word_length_counts (analyze cat_board cat_solutions) =
    word_length_counts (analyze cat_board (dedup_words [] cat_solutions)) /\
  at_key (position_words (analyze cat_board cat_solutions)) 2 = 2%Z /\
  at_key (position_points (analyze cat_board cat_solutions)) 5 = 3%Z /\
  at_key (position_words (analyze cat_board cat_solutions)) 0 = 2%Z.
Proof.
  assert (sorted_solutions cat_solutions) as Hs.
  { repeat split; repeat (apply Forall_cons; split); try apply Forall_nil; reflexivity. }
  destruct (analyze_dedup cat_board cat_solutions Hs) as [(H1 & _) H2].
  split; [exact H1|]. split; [|split].
  - destruct (H2 2) as (H & _). exact H.
  - destruct (H2 5) as (_ & H & _). exact H.
  - destruct (H2 0) as (H & _). exact H.
Defined.

(** A word on one path through the tile 255: the key 0 counts it as a word
    of the totals and as a word of that tile. *)
Example analyze_tile_255 :
  at_key (position_words
            (analyze cat_board [mkSolution (str "AB") [254; 255] 2 7 7 1 dzero])) 0
    = 2%Z /\
  at_key (position_points
            (analyze cat_board [mkSolution (str "AB") [254; 255] 2 7 7 1 dzero])) 0
    = 14%Z.
Proof. split; vm_compute; reflexivity. Qed.

(** ** Exact binary64 arithmetic *)

Section exact_arith.
Local Open Scope Z_scope.





















(** The conversion at the ends of its range and outside it: 4294967295.5,
    -0.5, 5000000000, -1, 10^20, infinity and NaN. *)
Example unsigned_of_double_values :
  map unsigned_of_double
    [double_of 8589934591 (-1); double_of (-1) (-1); double_of_Z 5000000000;
     double_of_Z (-1); double_of_Z (10 ^ 20); S754_infinity false; S754_nan] =
  [4294967295; 0; 705032704; 4294967295; 0; 0; 0].
Proof. vm_compute. reflexivity. Qed.


End exact_arith.

(** ** The scorer: the length bonus *)





(** ** Dancing links: the arena *)

Module DLX_arena.
Import DLX.
Lemma get_lt h a : a < length h -> h !! a = Some (get h a).
Proof.
  intros H. unfold get. destruct (lookup_lt_is_Some_2 h a H) as [e ->]. done.
Qed.

Lemma get_ge (h : arena) a : length h <= a -> get h a = fresh.
Proof. intros H. unfold get. by rewrite lookup_ge_None_2. Qed.

Lemma arena_ext (h h' : arena) :
  length h = length h' ->
  (forall a, a < length h -> get h a = get h' a) -> h = h'.
Proof.
  intros Hl H. apply list_eq. intros a.
  destruct (decide (a < length h)) as [Hlt|Hge].
  - rewrite (get_lt h a Hlt), (get_lt h' a) by lia. f_equal. by apply H.
  - rewrite !lookup_ge_None_2; [done|lia|lia].
Qed.

Lemma element_ext (e e' : element) :
  L e = L e' -> R e = R e' -> U e = U e' -> D e = D e' -> C e = C e' ->
  Sz e = Sz e' -> e = e'.
Proof. destruct e, e'. simpl. by intros -> -> -> -> -> ->. Qed.

Lemma length_set_L a v h : length (set_L a v h) = length h.
Proof. unfold set_L. apply length_alter. Qed.

Lemma get_set_L_eq a v h :
  a < length h -> get (set_L a v h) a = mkElement v (R (get h a)) (U (get h a)) (D (get h a)) (C (get h a)) (Sz (get h a)).
Proof.
  intros H. unfold get, set_L. rewrite list_lookup_alter.
  rewrite decide_True by done.
  by destruct (lookup_lt_is_Some_2 h a H) as [e ->].
Qed.

Lemma get_set_L_ne a b v h : a <> b -> get (set_L a v h) b = get h b.
Proof.
  intros H. unfold get, set_L. by rewrite list_lookup_alter_ne.
Qed.

Lemma L_set_L a b v h :
  a < length h ->
  L (get (set_L a v h) b) = if decide (b = a) then v else L (get h b).
Proof.
  intros H. case_decide as E.
  - subst. by rewrite get_set_L_eq.
  - by rewrite get_set_L_ne.
Qed.

Lemma R_set_L a b v h : R (get (set_L a v h) b) = R (get h b).
Proof.
  destruct (decide (a = b)) as [->|E]; [|by rewrite get_set_L_ne].
  destruct (decide (b < length h)) as [H|H]; [by rewrite get_set_L_eq|].
  rewrite !get_ge; [done|lia|rewrite length_set_L; lia].
Qed.

Lemma U_set_L a b v h : U (get (set_L a v h) b) = U (get h b).
Proof.
  destruct (decide (a = b)) as [->|E]; [|by rewrite get_set_L_ne].
  destruct (decide (b < length h)) as [H|H]; [by rewrite get_set_L_eq|].
  rewrite !get_ge; [done|lia|rewrite length_set_L; lia].
Qed.

Lemma D_set_L a b v h : D (get (set_L a v h) b) = D (get h b).
Proof.
  destruct (decide (a = b)) as [->|E]; [|by rewrite get_set_L_ne].
  destruct (decide (b < length h)) as [H|H]; [by rewrite get_set_L_eq|].
  rewrite !get_ge; [done|lia|rewrite length_set_L; lia].
Qed.

Lemma C_set_L a b v h : C (get (set_L a v h) b) = C (get h b).
Proof.
  destruct (decide (a = b)) as [->|E]; [|by rewrite get_set_L_ne].
  destruct (decide (b < length h)) as [H|H]; [by rewrite get_set_L_eq|].
  rewrite !get_ge; [done|lia|rewrite length_set_L; lia].
Qed.

Lemma Sz_set_L a b v h : Sz (get (set_L a v h) b) = Sz (get h b).
Proof.
  destruct (decide (a = b)) as [->|E]; [|by rewrite get_set_L_ne].
  destruct (decide (b < length h)) as [H|H]; [by rewrite get_set_L_eq|].
  rewrite !get_ge; [done|lia|rewrite length_set_L; lia].
Qed.

Lemma length_set_R a v h : length (set_R a v h) = length h.
Proof. unfold set_R. apply length_alter. Qed.

Lemma get_set_R_eq a v h :
  a < length h -> get (set_R a v h) a = mkElement (L (get h a)) v (U (get h a)) (D (get h a)) (C (get h a)) (Sz (get h a)).
Proof.
  intros H. unfold get, set_R. rewrite list_lookup_alter.
  rewrite decide_True by done.
  by destruct (lookup_lt_is_Some_2 h a H) as [e ->].
Qed.

Lemma get_set_R_ne a b v h : a <> b -> get (set_R a v h) b = get h b.
Proof.
  intros H. unfold get, set_R. by rewrite list_lookup_alter_ne.
Qed.

Lemma L_set_R a b v h : L (get (set_R a v h) b) = L (get h b).
Proof.
  destruct (decide (a = b)) as [->|E]; [|by rewrite get_set_R_ne].
  destruct (decide (b < length h)) as [H|H]; [by rewrite get_set_R_eq|].
  rewrite !get_ge; [done|lia|rewrite length_set_R; lia].
Qed.

Lemma R_set_R a b v h :
  a < length h ->
  R (get (set_R a v h) b) = if decide (b = a) then v else R (get h b).
Proof.
  intros H. case_decide as E.
  - subst. by rewrite get_set_R_eq.
  - by rewrite get_set_R_ne.
Qed.

Lemma U_set_R a b v h : U (get (set_R a v h) b) = U (get h b).
Proof.
  destruct (decide (a = b)) as [->|E]; [|by rewrite get_set_R_ne].
  destruct (decide (b < length h)) as [H|H]; [by rewrite get_set_R_eq|].
  rewrite !get_ge; [done|lia|rewrite length_set_R; lia].
Qed.

Lemma D_set_R a b v h : D (get (set_R a v h) b) = D (get h b).
Proof.
  destruct (decide (a = b)) as [->|E]; [|by rewrite get_set_R_ne].
  destruct (decide (b < length h)) as [H|H]; [by rewrite get_set_R_eq|].
  rewrite !get_ge; [done|lia|rewrite length_set_R; lia].
Qed.

Lemma C_set_R a b v h : C (get (set_R a v h) b) = C (get h b).
Proof.
  destruct (decide (a = b)) as [->|E]; [|by rewrite get_set_R_ne].
  destruct (decide (b < length h)) as [H|H]; [by rewrite get_set_R_eq|].
  rewrite !get_ge; [done|lia|rewrite length_set_R; lia].
Qed.

Lemma Sz_set_R a b v h : Sz (get (set_R a v h) b) = Sz (get h b).
Proof.
  destruct (decide (a = b)) as [->|E]; [|by rewrite get_set_R_ne].
  destruct (decide (b < length h)) as [H|H]; [by rewrite get_set_R_eq|].
  rewrite !get_ge; [done|lia|rewrite length_set_R; lia].
Qed.

Lemma length_set_U a v h : length (set_U a v h) = length h.
Proof. unfold set_U. apply length_alter. Qed.

Lemma get_set_U_eq a v h :
  a < length h -> get (set_U a v h) a = mkElement (L (get h a)) (R (get h a)) v (D (get h a)) (C (get h a)) (Sz (get h a)).
Proof.
  intros H. unfold get, set_U. rewrite list_lookup_alter.
  rewrite decide_True by done.
  by destruct (lookup_lt_is_Some_2 h a H) as [e ->].
Qed.

Lemma get_set_U_ne a b v h : a <> b -> get (set_U a v h) b = get h b.
Proof.
  intros H. unfold get, set_U. by rewrite list_lookup_alter_ne.
Qed.

Lemma L_set_U a b v h : L (get (set_U a v h) b) = L (get h b).
Proof.
  destruct (decide (a = b)) as [->|E]; [|by rewrite get_set_U_ne].
  destruct (decide (b < length h)) as [H|H]; [by rewrite get_set_U_eq|].
  rewrite !get_ge; [done|lia|rewrite length_set_U; lia].
Qed.

Lemma R_set_U a b v h : R (get (set_U a v h) b) = R (get h b).
Proof.
  destruct (decide (a = b)) as [->|E]; [|by rewrite get_set_U_ne].
  destruct (decide (b < length h)) as [H|H]; [by rewrite get_set_U_eq|].
  rewrite !get_ge; [done|lia|rewrite length_set_U; lia].
Qed.

Lemma U_set_U a b v h :
  a < length h ->
  U (get (set_U a v h) b) = if decide (b = a) then v else U (get h b).
Proof.
  intros H. case_decide as E.
  - subst. by rewrite get_set_U_eq.
  - by rewrite get_set_U_ne.
Qed.

Lemma D_set_U a b v h : D (get (set_U a v h) b) = D (get h b).
Proof.
  destruct (decide (a = b)) as [->|E]; [|by rewrite get_set_U_ne].
  destruct (decide (b < length h)) as [H|H]; [by rewrite get_set_U_eq|].
  rewrite !get_ge; [done|lia|rewrite length_set_U; lia].
Qed.

Lemma C_set_U a b v h : C (get (set_U a v h) b) = C (get h b).
Proof.
  destruct (decide (a = b)) as [->|E]; [|by rewrite get_set_U_ne].
  destruct (decide (b < length h)) as [H|H]; [by rewrite get_set_U_eq|].
  rewrite !get_ge; [done|lia|rewrite length_set_U; lia].
Qed.

Lemma Sz_set_U a b v h : Sz (get (set_U a v h) b) = Sz (get h b).
Proof.
  destruct (decide (a = b)) as [->|E]; [|by rewrite get_set_U_ne].
  destruct (decide (b < length h)) as [H|H]; [by rewrite get_set_U_eq|].
  rewrite !get_ge; [done|lia|rewrite length_set_U; lia].
Qed.

Lemma length_set_D a v h : length (set_D a v h) = length h.
Proof. unfold set_D. apply length_alter. Qed.

Lemma get_set_D_eq a v h :
  a < length h -> get (set_D a v h) a = mkElement (L (get h a)) (R (get h a)) (U (get h a)) v (C (get h a)) (Sz (get h a)).
Proof.
  intros H. unfold get, set_D. rewrite list_lookup_alter.
  rewrite decide_True by done.
  by destruct (lookup_lt_is_Some_2 h a H) as [e ->].
Qed.

Lemma get_set_D_ne a b v h : a <> b -> get (set_D a v h) b = get h b.
Proof.
  intros H. unfold get, set_D. by rewrite list_lookup_alter_ne.
Qed.

Lemma L_set_D a b v h : L (get (set_D a v h) b) = L (get h b).
Proof.
  destruct (decide (a = b)) as [->|E]; [|by rewrite get_set_D_ne].
  destruct (decide (b < length h)) as [H|H]; [by rewrite get_set_D_eq|].
  rewrite !get_ge; [done|lia|rewrite length_set_D; lia].
Qed.

Lemma R_set_D a b v h : R (get (set_D a v h) b) = R (get h b).
Proof.
  destruct (decide (a = b)) as [->|E]; [|by rewrite get_set_D_ne].
  destruct (decide (b < length h)) as [H|H]; [by rewrite get_set_D_eq|].
  rewrite !get_ge; [done|lia|rewrite length_set_D; lia].
Qed.

Lemma U_set_D a b v h : U (get (set_D a v h) b) = U (get h b).
Proof.
  destruct (decide (a = b)) as [->|E]; [|by rewrite get_set_D_ne].
  destruct (decide (b < length h)) as [H|H]; [by rewrite get_set_D_eq|].
  rewrite !get_ge; [done|lia|rewrite length_set_D; lia].
Qed.

Lemma D_set_D a b v h :
  a < length h ->
  D (get (set_D a v h) b) = if decide (b = a) then v else D (get h b).
Proof.
  intros H. case_decide as E.
  - subst. by rewrite get_set_D_eq.
  - by rewrite get_set_D_ne.
Qed.

Lemma C_set_D a b v h : C (get (set_D a v h) b) = C (get h b).
Proof.
  destruct (decide (a = b)) as [->|E]; [|by rewrite get_set_D_ne].
  destruct (decide (b < length h)) as [H|H]; [by rewrite get_set_D_eq|].
  rewrite !get_ge; [done|lia|rewrite length_set_D; lia].
Qed.

Lemma Sz_set_D a b v h : Sz (get (set_D a v h) b) = Sz (get h b).
Proof.
  destruct (decide (a = b)) as [->|E]; [|by rewrite get_set_D_ne].
  destruct (decide (b < length h)) as [H|H]; [by rewrite get_set_D_eq|].
  rewrite !get_ge; [done|lia|rewrite length_set_D; lia].
Qed.

Lemma length_set_C a v h : length (set_C a v h) = length h.
Proof. unfold set_C. apply length_alter. Qed.

Lemma get_set_C_eq a v h :
  a < length h -> get (set_C a v h) a = mkElement (L (get h a)) (R (get h a)) (U (get h a)) (D (get h a)) v (Sz (get h a)).
Proof.
  intros H. unfold get, set_C. rewrite list_lookup_alter.
  rewrite decide_True by done.
  by destruct (lookup_lt_is_Some_2 h a H) as [e ->].
Qed.

Lemma get_set_C_ne a b v h : a <> b -> get (set_C a v h) b = get h b.
Proof.
  intros H. unfold get, set_C. by rewrite list_lookup_alter_ne.
Qed.

Lemma L_set_C a b v h : L (get (set_C a v h) b) = L (get h b).
Proof.
  destruct (decide (a = b)) as [->|E]; [|by rewrite get_set_C_ne].
  destruct (decide (b < length h)) as [H|H]; [by rewrite get_set_C_eq|].
  rewrite !get_ge; [done|lia|rewrite length_set_C; lia].
Qed.

Lemma R_set_C a b v h : R (get (set_C a v h) b) = R (get h b).
Proof.
  destruct (decide (a = b)) as [->|E]; [|by rewrite get_set_C_ne].
  destruct (decide (b < length h)) as [H|H]; [by rewrite get_set_C_eq|].
  rewrite !get_ge; [done|lia|rewrite length_set_C; lia].
Qed.

Lemma U_set_C a b v h : U (get (set_C a v h) b) = U (get h b).
Proof.
  destruct (decide (a = b)) as [->|E]; [|by rewrite get_set_C_ne].
  destruct (decide (b < length h)) as [H|H]; [by rewrite get_set_C_eq|].
  rewrite !get_ge; [done|lia|rewrite length_set_C; lia].
Qed.

Lemma D_set_C a b v h : D (get (set_C a v h) b) = D (get h b).
Proof.
  destruct (decide (a = b)) as [->|E]; [|by rewrite get_set_C_ne].
  destruct (decide (b < length h)) as [H|H]; [by rewrite get_set_C_eq|].
  rewrite !get_ge; [done|lia|rewrite length_set_C; lia].
Qed.

Lemma C_set_C a b v h :
  a < length h ->
  C (get (set_C a v h) b) = if decide (b = a) then v else C (get h b).
Proof.
  intros H. case_decide as E.
  - subst. by rewrite get_set_C_eq.
  - by rewrite get_set_C_ne.
Qed.

Lemma Sz_set_C a b v h : Sz (get (set_C a v h) b) = Sz (get h b).
Proof.
  destruct (decide (a = b)) as [->|E]; [|by rewrite get_set_C_ne].
  destruct (decide (b < length h)) as [H|H]; [by rewrite get_set_C_eq|].
  rewrite !get_ge; [done|lia|rewrite length_set_C; lia].
Qed.

Lemma length_set_Sz a v h : length (set_Sz a v h) = length h.
Proof. unfold set_Sz. apply length_alter. Qed.

Lemma get_set_Sz_eq a v h :
  a < length h -> get (set_Sz a v h) a = mkElement (L (get h a)) (R (get h a)) (U (get h a)) (D (get h a)) (C (get h a)) v.
Proof.
  intros H. unfold get, set_Sz. rewrite list_lookup_alter.
  rewrite decide_True by done.
  by destruct (lookup_lt_is_Some_2 h a H) as [e ->].
Qed.

Lemma get_set_Sz_ne a b v h : a <> b -> get (set_Sz a v h) b = get h b.
Proof.
  intros H. unfold get, set_Sz. by rewrite list_lookup_alter_ne.
Qed.

Lemma L_set_Sz a b v h : L (get (set_Sz a v h) b) = L (get h b).
Proof.
  destruct (decide (a = b)) as [->|E]; [|by rewrite get_set_Sz_ne].
  destruct (decide (b < length h)) as [H|H]; [by rewrite get_set_Sz_eq|].
  rewrite !get_ge; [done|lia|rewrite length_set_Sz; lia].
Qed.

Lemma R_set_Sz a b v h : R (get (set_Sz a v h) b) = R (get h b).
Proof.
  destruct (decide (a = b)) as [->|E]; [|by rewrite get_set_Sz_ne].
  destruct (decide (b < length h)) as [H|H]; [by rewrite get_set_Sz_eq|].
  rewrite !get_ge; [done|lia|rewrite length_set_Sz; lia].
Qed.

Lemma U_set_Sz a b v h : U (get (set_Sz a v h) b) = U (get h b).
Proof.
  destruct (decide (a = b)) as [->|E]; [|by rewrite get_set_Sz_ne].
  destruct (decide (b < length h)) as [H|H]; [by rewrite get_set_Sz_eq|].
  rewrite !get_ge; [done|lia|rewrite length_set_Sz; lia].
Qed.

Lemma D_set_Sz a b v h : D (get (set_Sz a v h) b) = D (get h b).
Proof.
  destruct (decide (a = b)) as [->|E]; [|by rewrite get_set_Sz_ne].
  destruct (decide (b < length h)) as [H|H]; [by rewrite get_set_Sz_eq|].
  rewrite !get_ge; [done|lia|rewrite length_set_Sz; lia].
Qed.

Lemma C_set_Sz a b v h : C (get (set_Sz a v h) b) = C (get h b).
Proof.
  destruct (decide (a = b)) as [->|E]; [|by rewrite get_set_Sz_ne].
  destruct (decide (b < length h)) as [H|H]; [by rewrite get_set_Sz_eq|].
  rewrite !get_ge; [done|lia|rewrite length_set_Sz; lia].
Qed.

Lemma Sz_set_Sz a b v h :
  a < length h ->
  Sz (get (set_Sz a v h) b) = if decide (b = a) then v else Sz (get h b).
Proof.
  intros H. case_decide as E.
  - subst. by rewrite get_set_Sz_eq.
  - by rewrite get_set_Sz_ne.
Qed.

Create Rewrite HintDb arena.
#[global] Hint Rewrite length_set_L length_set_R length_set_U length_set_D length_set_C length_set_Sz : arena.
#[global] Hint Rewrite R_set_L U_set_L D_set_L C_set_L Sz_set_L L_set_R U_set_R D_set_R C_set_R Sz_set_R L_set_U R_set_U D_set_U C_set_U Sz_set_U L_set_D R_set_D U_set_D C_set_D Sz_set_D L_set_C R_set_C U_set_C D_set_C Sz_set_C L_set_Sz R_set_Sz U_set_Sz D_set_Sz C_set_Sz : arena.
#[global] Hint Rewrite L_set_L R_set_R U_set_U D_set_D C_set_C Sz_set_Sz using (autorewrite with arena; lia) : arena.

End DLX_arena.

(** ** Dancing links: circular lists *)

Module DLX_ring.

#[local] Set Warnings "-clear-no-such-hyp".

Lemma linked_ext nx pv nx' pv' x l z :
  (forall a, a ∈ x :: l -> nx' a = nx a) ->
  (forall a, a ∈ l ++ [z] -> pv' a = pv a) ->
  linked nx pv x l z -> linked nx' pv' x l z.
Proof.
  revert x. induction l as [|y l IH]; intros x Hn Hp; simpl.
  - intros [H1 H2]. rewrite Hn, Hp by set_solver. done.
  - intros (H1 & H2 & H3). rewrite Hn, Hp by set_solver. split_and!; try done.
    apply IH; [| |done]; intros a Hin; [apply Hn|apply Hp]; set_solver.
Qed.

Lemma linked_app nx pv x l1 y l2 z :
  linked nx pv x (l1 ++ y :: l2) z <->
  linked nx pv x l1 y /\ linked nx pv y l2 z.
Proof.
  revert x; induction l1 as [|a l1 IH]; intros x; simpl; [tauto|].
  rewrite IH. tauto.
Qed.

Lemma linked_rev nx pv x l z :
  linked nx pv x l z -> linked pv nx z (reverse l) x.
Proof.
  revert x. induction l as [|y l IH]; intros x; simpl.
  - tauto.
  - intros (H1 & H2 & H3). rewrite reverse_cons. apply linked_app.
    split; [by apply IH|]. done.
Qed.

Lemma ring_rev nx pv hd l : ring nx pv hd l -> ring pv nx hd (reverse l).
Proof.
  intros [H1 H2]. split; [by apply linked_rev|].
  apply NoDup_cons. apply NoDup_cons in H2 as [H2 H3].
  split; [by rewrite elem_of_reverse|by rewrite reverse_Permutation].
Qed.

Lemma ring_rotate nx pv a l1 b l2 :
  ring nx pv a (l1 ++ b :: l2) -> ring nx pv b (l2 ++ a :: l1).
Proof.
  intros [H1 H2]. apply linked_app in H1 as [H1 H3]. split.
  - apply linked_app. done.
  - assert (b :: l2 ++ a :: l1 ≡ₚ a :: l1 ++ b :: l2) as ->; [|done].
    rewrite <- !Permutation_middle. rewrite (Permutation_app_comm l1 l2).
    apply perm_swap.
Qed.

(** The neighbours of a member. *)
Lemma linked_prev nx pv x l1 j l2 z :
  linked nx pv x (l1 ++ j :: l2) z ->
  pv j ∈ x :: l1 /\ nx (pv j) = j /\ last (x :: l1) = Some (pv j).
Proof.
  revert x. induction l1 as [|y l1 IH]; intros x; simpl.
  - intros (H1 & H2 & _). rewrite H2. split; [set_solver|done].
  - intros (H1 & H2 & H3). destruct (IH _ H3) as (H4 & H5 & H6).
    split; [set_solver|]. split; [done|]. done.
Qed.

Lemma linked_next nx pv x l1 j l2 z :
  linked nx pv x (l1 ++ j :: l2) z ->
  nx j ∈ l2 ++ [z] /\ pv (nx j) = j /\ head (l2 ++ [z]) = Some (nx j).
Proof.
  intros H. apply linked_app in H as [_ H]. destruct l2 as [|y l2]; simpl in *.
  - destruct H as [H1 H2]. rewrite H1. split; [set_solver|done].
  - destruct H as (H1 & H2 & _). rewrite H1. split; [set_solver|done].
Qed.

(** Taking [j] out of a chain by redirecting its neighbours. *)
Lemma linked_remove nx pv nx' pv' x l1 j l2 z :
  linked nx pv x (l1 ++ j :: l2) z ->
  NoDup (x :: l1 ++ j :: l2) -> z ∉ l1 ++ j :: l2 ->
  nx' (pv j) = nx j -> pv' (nx j) = pv j ->
  (forall a, a <> pv j -> nx' a = nx a) ->
  (forall a, a <> nx j -> pv' a = pv a) ->
  linked nx' pv' x (l1 ++ l2) z.
Proof.
  revert x. induction l1 as [|y l1 IH]; intros x H Hnd Hz E1 E2 Hn Hp.
  - simpl in *. destruct H as (H1 & H2 & H3). rewrite H2 in *.
    apply NoDup_cons in Hnd as [Hx Hnd]. apply NoDup_cons in Hnd as [Hj Hnd].
    destruct l2 as [|s l2]; simpl in *.
    + destruct H3 as [H3 H4]. rewrite H3 in *. done.
    + destruct H3 as (H3 & H4 & H5). rewrite H3 in *. split_and!; try done.
      apply NoDup_cons in Hnd as [Hs Hnd].
      eapply linked_ext; [| |exact H5].
      * intros a Ha. apply Hn. intros ->. set_solver.
      * intros a Ha. apply Hp. intros ->. apply elem_of_app in Ha as [Ha|Ha]; [done|].
        apply list_elem_of_singleton in Ha. subst. set_solver.
  - pose proof (linked_prev _ _ _ _ _ _ _ H) as (P1 & P2 & P3).
    pose proof (linked_next _ _ _ _ _ _ _ H) as (N1 & N2 & N3).
    simpl in H. destruct H as (H1 & H2 & H3).
    change ((y :: l1) ++ l2) with (y :: (l1 ++ l2)). simpl.
    assert (Hnd' := Hnd). apply NoDup_cons in Hnd as [Hx Hnd].
    split_and!.
    + rewrite Hn; [done|]. intros ->.
      assert (pv j ∈ y :: l1) as Hin.
      { clear -H3. destruct (linked_prev _ _ _ _ _ _ _ H3) as [? _]. done. }
      apply Hx. simpl. set_solver.
    + rewrite Hp; [done|]. intros ->.
      apply NoDup_cons in Hnd as [Hy _].
      apply elem_of_app in N1 as [N1|N1]; [set_solver|].
      apply list_elem_of_singleton in N1. rewrite <- N1 in Hz. set_solver.
    + apply IH; try done. set_solver.
Qed.

Lemma ring_remove nx pv nx' pv' hd l1 j l2 :
  ring nx pv hd (l1 ++ j :: l2) ->
  nx' (pv j) = nx j -> pv' (nx j) = pv j ->
  (forall a, a <> pv j -> nx' a = nx a) ->
  (forall a, a <> nx j -> pv' a = pv a) ->
  ring nx' pv' hd (l1 ++ l2).
Proof.
  intros [H1 H2] E1 E2 Hn Hp. split.
  - eapply linked_remove; try done. by apply NoDup_cons in H2 as [? _].
  - apply NoDup_cons in H2 as [H2 H3]. apply NoDup_cons. split.
    + set_solver.
    + apply NoDup_app in H3 as (H4 & H5 & H6). apply NoDup_cons in H6 as [_ H6].
      apply NoDup_app. split_and!; try done. set_solver.
Qed.

(** What a member of a ring knows about itself. *)
Lemma ring_member nx pv hd l j :
  ring nx pv hd l -> j ∈ l ->
  nx j <> j /\ pv j <> j /\ nx (pv j) = j /\ pv (nx j) = j /\
  nx j ∈ hd :: l /\ pv j ∈ hd :: l.
Proof.
  intros [H1 H2] Hj. apply list_elem_of_split in Hj as (l1 & l2 & ->).
  pose proof (linked_prev _ _ _ _ _ _ _ H1) as (P1 & P2 & _).
  pose proof (linked_next _ _ _ _ _ _ _ H1) as (N1 & N2 & _).
  apply NoDup_cons in H2 as [H2 H3].
  apply NoDup_app in H3 as (H4 & H5 & H6). apply NoDup_cons in H6 as [H6 _].
  split_and!; try done.
  - intros E. rewrite E in N1. apply elem_of_app in N1 as [N1|N1]; [done|].
    apply list_elem_of_singleton in N1. subst. set_solver.
  - intros E. rewrite E in P1. apply elem_of_cons in P1 as [->|P1]; [set_solver|].
    apply (H5 j P1). apply list_elem_of_here.
  - set_solver.
  - set_solver.
Qed.

Lemma ring_head nx pv hd l :
  ring nx pv hd l -> nx hd = default hd (head l).
Proof. intros [H _]. destruct l; simpl in *; tauto. Qed.

Lemma ring_next nx pv hd l1 x l2 :
  ring nx pv hd (l1 ++ x :: l2) -> nx x = default hd (head l2).
Proof.
  intros [H _]. apply linked_app in H as [_ H]. destruct l2; simpl in *; tauto.
Qed.

(** Putting a new member at the end of a ring. *)
Lemma linked_snoc nx pv nx' pv' x l z c :
  linked nx pv x l z -> c ∉ x :: l -> z ∉ l -> c <> z ->
  nx' c = z -> pv' c = pv z -> nx' (pv z) = c -> pv' z = c ->
  (forall a, a <> pv z -> a <> c -> nx' a = nx a) ->
  (forall a, a <> z -> a <> c -> pv' a = pv a) ->
  NoDup (x :: l) ->
  linked nx' pv' x (l ++ [c]) z.
Proof.
  revert x. induction l as [|y l IH]; intros x H Hc Hz Hcz E1 E2 E3 E4 Hn Hp Hnd.
  - simpl in *. destruct H as [H1 H2]. rewrite H2 in *. done.
  - simpl in H. destruct H as (H1 & H2 & H3).
    assert (pv z ∈ y :: l) as Hin.
    { clear -H3. revert y H3. induction l as [|y' l IH]; intros y; simpl.
      - intros [_ ->]. set_solver.
      - intros (_ & _ & H). specialize (IH _ H). set_solver. }
    apply NoDup_cons in Hnd as [Hx Hnd].
    simpl. split_and!.
    + rewrite Hn; [done| |]; intros ->; set_solver.
    + rewrite Hp; [done| |]; intros ->; set_solver.
    + apply IH; try done; set_solver.
Qed.

Lemma ring_snoc nx pv nx' pv' hd l c :
  ring nx pv hd l -> c ∉ hd :: l ->
  nx' c = hd -> pv' c = pv hd -> nx' (pv hd) = c -> pv' hd = c ->
  (forall a, a <> pv hd -> a <> c -> nx' a = nx a) ->
  (forall a, a <> hd -> a <> c -> pv' a = pv a) ->
  ring nx' pv' hd (l ++ [c]).
Proof.
  intros [H1 H2] Hc E1 E2 E3 E4 Hn Hp. split.
  - eapply linked_snoc; try done.
    + by apply NoDup_cons in H2 as [? _].
    + set_solver.
  - apply NoDup_cons in H2 as [H2 H3]. apply NoDup_cons. split; [set_solver|].
    apply NoDup_app. split_and!; [done|set_solver|apply NoDup_singleton].
Qed.

End DLX_ring.

(** ** Dancing links: the loops and the rows *)

Module DLX_rows.
Import DLX DLX_arena DLX_ring.

#[local] Set Warnings "-clear-no-such-hyp".

(** The rule of the loop [for (x = start; x != stop; x = next(x))] over
    the members [l] of a ring. *)
Lemma iter_inv (J : list nat -> list nat -> arena -> Prop) next stop body l :
  stop ∉ l ->
  (forall l1 x l2 hk, l = l1 ++ x :: l2 -> J l1 (x :: l2) hk ->
     exists h', body x hk = Some h' /\ J (l1 ++ [x]) l2 h' /\
                next (get h' x) = default stop (head l2)) ->
  forall h fuel, J [] l h -> length l < fuel ->
  exists h', iter fuel next stop body (default stop (head l)) h = Some h' /\
             J l [] h'.
Proof.
  intros Hstop Hbody.
  assert (forall l2 l1 h fuel, l = l1 ++ l2 -> J l1 l2 h -> length l2 < fuel ->
    exists h', iter fuel next stop body (default stop (head l2)) h = Some h' /\
               J l [] h') as Hgen.
  { induction l2 as [|x l2 IH]; intros l1 h fuel El HJ Hf.
    - destruct fuel as [|fuel]; [simpl in Hf; lia|]. simpl.
      rewrite Nat.eqb_refl. exists h. rewrite app_nil_r in El. by subst.
    - destruct fuel as [|fuel]; [simpl in Hf; lia|]. simpl.
      destruct (Nat.eqb_spec x stop) as [->|Hne].
      { exfalso. apply Hstop. rewrite El. apply elem_of_app. right.
        apply list_elem_of_here. }
      destruct (Hbody l1 x l2 h El HJ) as (h' & -> & HJ' & ->).
      apply (IH (l1 ++ [x])); [by rewrite <- app_assoc|done|simpl in Hf; lia]. }
  intros h fuel HJ Hf. by apply (Hgen l []).
Qed.

(** Rows and their nodes. *)
Lemma elem_of_concat {A} (x : A) (ls : list (list A)) :
  x ∈ concat ls <-> exists l, l ∈ ls /\ x ∈ l.
Proof.
  induction ls as [|l0 ls IH]; simpl.
  - split; [intros Hx; by apply elem_of_nil in Hx|].
    intros (l & Hl & _). by apply elem_of_nil in Hl.
  - rewrite elem_of_app, IH. split.
    + intros [Hx|(l & Hl & Hx)].
      * exists l0. split; [apply list_elem_of_here|done].
      * exists l. split; [by apply list_elem_of_further|done].
    + intros (l & Hl & Hx). apply elem_of_cons in Hl as [->|Hl]; [by left|].
      right. by exists l.
Qed.

Lemma row_of_spec rows ρ a :
  NoDup (concat rows).*1 -> ρ ∈ rows -> a ∈ ρ.*1 -> row_of rows a = ρ.
Proof.
  unfold row_of. induction rows as [|ρ0 rows IH]; intros Hnd Hr Ha.
  - by apply elem_of_nil in Hr.
  - simpl in Hnd. rewrite fmap_app in Hnd.
    apply NoDup_app in Hnd as (H1 & H2 & H3).
    apply elem_of_cons in Hr as [->|Hr].
    + rewrite filter_cons_True by done. done.
    + rewrite filter_cons_False.
      * by apply IH.
      * intros Hin. apply (H2 a Hin). apply list_elem_of_fmap.
        apply list_elem_of_fmap in Ha as (p & -> & Hp). exists p. split; [done|].
        apply elem_of_concat. by exists ρ.
Qed.

Lemma row_NoDup (rows : list (list (nat * nat))) ρ :
  NoDup (concat rows).*1 -> ρ ∈ rows -> NoDup ρ.*1.
Proof.
  induction rows as [|ρ0 rows IH]; intros Hnd Hr.
  - by apply elem_of_nil in Hr.
  - simpl in Hnd. rewrite fmap_app in Hnd.
    apply NoDup_app in Hnd as (H1 & H2 & H3).
    apply elem_of_cons in Hr as [->|Hr]; [done|by apply IH].
Qed.

Lemma row_unique (rows : list (list (nat * nat))) ρ ρ' a c c' :
  NoDup (concat rows).*1 -> ρ ∈ rows -> ρ' ∈ rows ->
  (a, c) ∈ ρ -> (a, c') ∈ ρ' -> ρ = ρ' /\ c = c'.
Proof.
  intros Hnd Hr Hr' Ha Ha'.
  assert (ρ = ρ') as <-.
  { rewrite <- (row_of_spec rows ρ a), <- (row_of_spec rows ρ' a); try done.
    - apply list_elem_of_fmap. by exists (a, c').
    - apply list_elem_of_fmap. by exists (a, c). }
  split; [done|].
  pose proof (row_NoDup _ _ Hnd Hr) as Hρ.
  apply list_elem_of_lookup in Ha as [i Hi]. apply list_elem_of_lookup in Ha' as [i' Hi'].
  assert (i = i') as <-.
  { eapply (NoDup_lookup _ i i' a Hρ); rewrite list_lookup_fmap.
    - by rewrite Hi. - by rewrite Hi'. }
  congruence.
Qed.

Lemma index_of_app a l1 l2 :
  a ∉ l1 -> index_of a (l1 ++ a :: l2) = length l1.
Proof.
  induction l1 as [|x l1 IH]; intros Hn; simpl.
  - by rewrite decide_True.
  - rewrite decide_False; [|intros ->; apply Hn; apply list_elem_of_here].
    rewrite IH; [done|]. intros Hin. apply Hn. by apply list_elem_of_further.
Qed.

Lemma others_spec rows l1 a c l2 :
  NoDup (concat rows).*1 -> l1 ++ (a, c) :: l2 ∈ rows ->
  others rows a = l2 ++ l1.
Proof.
  intros Hnd Hr. unfold others.
  rewrite (row_of_spec rows (l1 ++ (a, c) :: l2) a Hnd Hr).
  2:{ rewrite fmap_app. apply elem_of_app. right. apply list_elem_of_here. }
  pose proof (row_NoDup _ _ Hnd Hr) as Hρ.
  rewrite fmap_app in *. simpl in *.
  apply NoDup_app in Hρ as (_ & Hρ & _).
  rewrite index_of_app.
  2:{ intros Hin. apply (Hρ a Hin). apply list_elem_of_here. }
  rewrite length_fmap.
  rewrite take_app_length. f_equal.
  replace (S (length l1)) with (length l1 + 1) by lia.
  rewrite <- drop_drop. rewrite drop_app_length. done.
Qed.

End DLX_rows.

(** ** Dancing links: taking a node out of its column and putting it back *)

Module DLX_node.
Import DLX DLX_arena DLX_ring DLX_rows.

#[local] Set Warnings "-clear-no-such-hyp".

Lemma unlink_node_unlk j h : unlink_node j h = Some (unlk h j).
Proof. done. Qed.

Lemma relink_node_relk j h : relink_node j h = Some (relk j h).
Proof. done. Qed.

Lemma length_unlk h j : length (unlk h j) = length h.
Proof. unfold unlk, unlink_node. simpl. by autorewrite with arena. Qed.

Lemma length_relk h j : length (relk j h) = length h.
Proof. unfold relk, relink_node. simpl. by autorewrite with arena. Qed.

Lemma L_unlk h j a : L (get (unlk h j) a) = L (get h a).
Proof. unfold unlk, unlink_node. simpl. by autorewrite with arena. Qed.

Lemma R_unlk h j a : R (get (unlk h j) a) = R (get h a).
Proof. unfold unlk, unlink_node. simpl. by autorewrite with arena. Qed.

Lemma C_unlk h j a : C (get (unlk h j) a) = C (get h a).
Proof. unfold unlk, unlink_node. simpl. by autorewrite with arena. Qed.

Lemma L_relk h j a : L (get (relk j h) a) = L (get h a).
Proof. unfold relk, relink_node. simpl. by autorewrite with arena. Qed.

Lemma R_relk h j a : R (get (relk j h) a) = R (get h a).
Proof. unfold relk, relink_node. simpl. by autorewrite with arena. Qed.

Lemma C_relk h j a : C (get (relk j h) a) = C (get h a).
Proof. unfold relk, relink_node. simpl. by autorewrite with arena. Qed.

Section node.
Variables (h : arena) (j : nat).
Hypothesis Hd : D (get h j) <> j.
Hypothesis Bu : U (get h j) < length h.
Hypothesis Bd : D (get h j) < length h.
Hypothesis Bc : C (get h j) < length h.

Lemma U_unlk a :
  U (get (unlk h j) a) =
  if decide (a = D (get h j)) then U (get h j) else U (get h a).
Proof. unfold unlk, unlink_node. simpl. by autorewrite with arena. Qed.

Lemma D_unlk a :
  D (get (unlk h j) a) =
  if decide (a = U (get h j)) then D (get h j) else D (get h a).
Proof.
  unfold unlk, unlink_node. simpl. autorewrite with arena.
  destruct (decide (j = D (get h j))) as [E|_]; [by symmetry in E|].
  by autorewrite with arena.
Qed.

Lemma Sz_unlk a :
  Sz (get (unlk h j) a) =
  if decide (a = C (get h j)) then (Sz (get h a) - 1)%Z else Sz (get h a).
Proof.
  unfold unlk, unlink_node. simpl. autorewrite with arena.
  case_decide; by subst.
Qed.

Lemma U_relk a :
  U (get (relk j h) a) = if decide (a = D (get h j)) then j else U (get h a).
Proof. unfold relk, relink_node. simpl. by autorewrite with arena. Qed.

Lemma D_relk a :
  D (get (relk j h) a) = if decide (a = U (get h j)) then j else D (get h a).
Proof.
  unfold relk, relink_node. simpl. autorewrite with arena.
  destruct (decide (j = D (get h j))) as [E|_]; [by symmetry in E|].
  by autorewrite with arena.
Qed.

Lemma Sz_relk a :
  Sz (get (relk j h) a) =
  if decide (a = C (get h j)) then (Sz (get h a) + 1)%Z else Sz (get h a).
Proof.
  unfold relk, relink_node. simpl. autorewrite with arena.
  case_decide; by subst.
Qed.

End node.

(** Putting back the node that was taken out last restores the arena. *)
Lemma relk_unlk h j :
  U (get h j) <> j -> D (get h j) <> j ->
  U (get h (D (get h j))) = j -> D (get h (U (get h j))) = j ->
  U (get h j) < length h -> D (get h j) < length h ->
  C (get h j) < length h ->
  relk j (unlk h j) = h.
Proof.
  intros Hu Hd E1 E2 Bu Bd Bc.
  assert (U (get (unlk h j) j) = U (get h j)) as EU.
  { rewrite U_unlk by done. by rewrite decide_False. }
  assert (D (get (unlk h j) j) = D (get h j)) as ED.
  { rewrite D_unlk by done. by rewrite decide_False. }
  assert (C (get (unlk h j) j) = C (get h j)) as EC by apply C_unlk.
  apply arena_ext; [by rewrite length_relk, length_unlk|].
  intros a _. apply element_ext.
  - by rewrite L_relk, L_unlk.
  - by rewrite R_relk, R_unlk.
  - rewrite U_relk; rewrite ?length_unlk, ?ED, ?EU, ?EC; try done.
    rewrite U_unlk by done. by case_decide; subst.
  - rewrite D_relk; rewrite ?length_unlk, ?ED, ?EU, ?EC; try done.
    rewrite D_unlk by done. by case_decide; subst.
  - by rewrite C_relk, C_unlk.
  - rewrite Sz_relk; rewrite ?length_unlk, ?ED, ?EU, ?EC; try done.
    rewrite Sz_unlk by done. case_decide; [lia|done].
Qed.

End DLX_node.

(** ** Dancing links: the invariant inside [cover] *)

Module DLX_mid.
Import DLX DLX_arena DLX_ring DLX_rows DLX_node.

#[local] Set Warnings "-clear-no-such-hyp".

Lemma ring_ext nx pv nx' pv' hd l :
  (forall a, a ∈ hd :: l -> nx' a = nx a /\ pv' a = pv a) ->
  ring nx pv hd l -> ring nx' pv' hd l.
Proof.
  intros H [H1 H2]. split; [|done]. eapply linked_ext; [| |exact H1].
  - intros a Hin. by apply H.
  - intros a Hin. apply H. set_solver.
Qed.

Lemma Static_node h cols rows ρ a c :
  Static h cols rows -> ρ ∈ rows -> (a, c) ∈ ρ ->
  a ∈ (concat rows).*1 /\ a < length h /\ c < length h /\
  C (get h a) = c /\ c ∈ cols /\ (a ∉ cols) /\ a <> root.
Proof.
  intros (Hnd & Hb & Hrows) Hr Ha.
  assert (a ∈ (concat rows).*1) as Hin.
  { apply list_elem_of_fmap. exists (a, c). split; [done|].
    apply elem_of_concat. by exists ρ. }
  rewrite Forall_forall in Hrows. destruct (Hrows ρ Hr) as (_ & _ & Hc).
  destruct (Hc a c Ha) as [Hc1 Hc2].
  apply NoDup_cons in Hnd as [Hroot Hnd].
  apply NoDup_app in Hnd as (_ & Hdisj & _).
  split_and!; try done.
  - apply Hb. set_solver.
  - apply Hb. set_solver.
  - intros Hin'. by apply (Hdisj a).
  - intros ->. set_solver.
Qed.

Lemma Static_col h cols rows c :
  Static h cols rows -> c ∈ cols ->
  c < length h /\ c <> root /\ c ∉ (concat rows).*1.
Proof.
  intros (Hnd & Hb & Hrows) Hc.
  apply NoDup_cons in Hnd as [Hroot Hnd].
  apply NoDup_app in Hnd as (_ & Hdisj & _).
  split_and!.
  - apply Hb. set_solver.
  - intros ->. set_solver.
  - by apply Hdisj.
Qed.

Lemma Static_nodes_NoDup h cols rows :
  Static h cols rows -> NoDup (concat rows).*1.
Proof.
  intros (Hnd & _). apply NoDup_cons in Hnd as [_ Hnd].
  by apply NoDup_app in Hnd as (_ & _ & ?).
Qed.

(** The links of the rows are not touched by an operation that keeps the
    fields [L], [R] and [C] of the nodes. *)
Lemma Static_frame h h' cols rows :
  Static h cols rows -> length h' = length h ->
  (forall a, a ∈ (concat rows).*1 ->
     L (get h' a) = L (get h a) /\ R (get h' a) = R (get h a) /\
     C (get h' a) = C (get h a)) ->
  Static h' cols rows.
Proof.
  intros (Hnd & Hb & Hrows) Hl Hf. split_and!; [done|by rewrite Hl|].
  rewrite Forall_forall in *. intros ρ Hr.
  destruct (Hrows ρ Hr) as (H1 & H2 & H3). split_and!; [|done|].
  - assert (forall a, a ∈ ρ.*1 -> a ∈ (concat rows).*1) as Hsub.
    { intros a Hin. apply list_elem_of_fmap in Hin as (p & -> & Hp).
      apply list_elem_of_fmap. exists p. split; [done|].
      apply elem_of_concat. by exists ρ. }
    destruct (ρ.*1) as [|a l]; [done|].
    eapply ring_ext; [|exact H1].
    intros b Hin. destruct (Hf b (Hsub b Hin)) as (? & ? & ?). done.
  - intros a c Hin. destruct (H3 a c Hin) as [H4 H5]. split; [|done].
    rewrite <- H4. apply Hf. apply list_elem_of_fmap. exists (a, c).
    split; [done|]. apply elem_of_concat. by exists ρ.
Qed.

Lemma in_col_inj h cols rows d d' x :
  Static h cols rows -> d ∈ cols -> d' ∈ cols ->
  in_col rows d x -> in_col rows d' x -> d = d'.
Proof.
  intros HS Hd Hd' [->|(ρ & Hr & Hx)] [E|(ρ' & Hr' & Hx')].
  - done.
  - destruct (Static_node _ _ _ _ _ _ HS Hr' Hx') as (_ & _ & _ & _ & _ & Hn & _).
    done.
  - subst. destruct (Static_node _ _ _ _ _ _ HS Hr Hx) as (_ & _ & _ & _ & _ & Hn & _).
    done.
  - by destruct (row_unique rows ρ ρ' x d d' (Static_nodes_NoDup _ _ _ HS) Hr Hr' Hx Hx').
Qed.

Lemma in_col_lt h cols rows d x :
  Static h cols rows -> d ∈ cols -> in_col rows d x -> x < length h.
Proof.
  intros HS Hd [->|(ρ & Hr & Hx)].
  - by destruct (Static_col _ _ _ _ HS Hd).
  - by destruct (Static_node _ _ _ _ _ _ HS Hr Hx) as (_ & ? & _).
Qed.

Lemma Mid_unlk h cols rows A c Vc X ρ j d :
  Mid h cols rows A c Vc X -> ρ ∈ rows -> (j, d) ∈ ρ ->
  active (c :: A) ρ -> d <> c -> j ∉ X ->
  Mid (unlk h j) cols rows A c Vc (X ++ [j]) /\ relk j (unlk h j) = h.
Proof.
  intros (HS & HR & HA & Hc & HcA & HVc & HVcn & HC) Hr Hj Hact Hdc HjX.
  assert (d ∈ A) as HdA.
  { assert (d ∈ c :: A) as Hin.
    { apply Hact. apply list_elem_of_fmap. by exists (j, d). }
    apply elem_of_cons in Hin as [?|?]; done. }
  assert (d ∈ cols) as Hdcols by by apply HA.
  pose proof (Static_nodes_NoDup _ _ _ HS) as Hnd.
  destruct (Static_node _ _ _ _ _ _ HS Hr Hj) as (Hjn & Bj & Bd & HCj & _ & _ & _).
  destruct (HC d HdA) as (V & HV & HSz & HVm).
  assert (j ∈ V) as HjV by (apply HVm; by exists ρ).
  assert (forall x, x ∈ d :: V -> in_col rows d x) as HVcol.
  { intros x Hx. apply elem_of_cons in Hx as [->|Hx]; [by left|].
    right. apply HVm in Hx as (ρ' & ? & ? & _). by exists ρ'. }
  assert (forall x, x ∈ c :: Vc -> in_col rows c x) as HVccol.
  { intros x Hx. apply elem_of_cons in Hx as [->|Hx]; [by left|].
    right. by apply HVcn. }
  destruct (ring_member _ _ _ _ _ HV HjV) as (M1 & M2 & M3 & M4 & M5 & M6).
  cbv beta in *.
  assert (U (get h j) < length h) as BU.
  { eapply in_col_lt; [done|exact Hdcols|]. by apply HVcol. }
  assert (D (get h j) < length h) as BD.
  { eapply in_col_lt; [done|exact Hdcols|]. by apply HVcol. }
  assert (C (get h j) < length h) as BC by by rewrite HCj.
  split; [|by apply relk_unlk].
  split_and!; try done.
  - apply (Static_frame h); [done|apply length_unlk|].
    intros a _. by rewrite L_unlk, R_unlk, C_unlk.
  - eapply ring_ext; [|exact HR]. intros a _. cbv beta.
    by rewrite L_unlk, R_unlk.
  - eapply ring_ext; [|exact HVc]. intros a Hin. cbv beta.
    rewrite U_unlk, D_unlk by done.
    rewrite !decide_False; [done| |].
    + intros ->. apply Hdc. symmetry.
      eapply (in_col_inj h cols rows c d); eauto.
    + intros ->. apply Hdc. symmetry.
      eapply (in_col_inj h cols rows c d); eauto.
  - intros d' Hd'. destruct (decide (d' = d)) as [->|Hne].
    + apply list_elem_of_split in HjV as (l1 & l2 & ->).
      exists (l1 ++ l2). split_and!.
      * eapply ring_remove; [exact HV|..]; cbv beta.
        -- rewrite D_unlk by done. by rewrite decide_True.
        -- rewrite U_unlk by done. by rewrite decide_True.
        -- intros a Hne. rewrite D_unlk by done. by rewrite decide_False.
        -- intros a Hne. rewrite U_unlk by done. by rewrite decide_False.
      * rewrite Sz_unlk by done. rewrite decide_True by done.
        rewrite HSz, !length_app. simpl. lia.
      * destruct HV as [_ HVnd]. apply NoDup_cons in HVnd as [_ HVnd].
        apply NoDup_app in HVnd as (N1 & N2 & N3).
        apply NoDup_cons in N3 as [N3 N4].
        intros a. split.
        -- intros Hin.
           assert (a ∈ l1 ++ j :: l2) as Hin' by set_solver.
           apply HVm in Hin' as (ρ' & R1 & R2 & R3 & R4).
           exists ρ'. split_and!; try done.
           intros Hx. apply elem_of_app in Hx as [Hx|Hx]; [done|].
           apply list_elem_of_singleton in Hx. subst a.
           apply elem_of_app in Hin as [Hin|Hin]; [|done].
           apply (N2 j Hin). apply list_elem_of_here.
        -- intros (ρ' & R1 & R2 & R3 & R4).
           assert (a ∈ l1 ++ j :: l2) as Hin.
           { apply HVm. exists ρ'. split_and!; try done.
             intros Hx. apply R4. apply elem_of_app. by left. }
           assert (a <> j) as Haj.
           { intros ->. apply R4. apply elem_of_app. right. apply list_elem_of_here. }
           set_solver.
    + destruct (HC d' Hd') as (V' & HV' & HSz' & HVm').
      assert (forall x, x ∈ d' :: V' -> in_col rows d' x) as HVcol'.
      { intros x Hx. apply elem_of_cons in Hx as [->|Hx]; [by left|].
        right. apply HVm' in Hx as (ρ' & ? & ? & _). by exists ρ'. }
      exists V'. split_and!.
      * eapply ring_ext; [|exact HV']. intros a Hin. cbv beta.
        rewrite U_unlk, D_unlk by done.
        rewrite !decide_False; [done| |].
        -- intros ->. apply Hne.
           eapply (in_col_inj h cols rows d' d); eauto.
        -- intros ->. apply Hne.
           eapply (in_col_inj h cols rows d' d); eauto.
      * rewrite Sz_unlk by done. rewrite decide_False; [done|].
        rewrite HCj. done.
      * intros a. rewrite HVm'. split.
        -- intros (ρ' & R1 & R2 & R3 & R4). exists ρ'. split_and!; try done.
           intros Hx. apply elem_of_app in Hx as [Hx|Hx]; [done|].
           apply list_elem_of_singleton in Hx. subst a.
           by destruct (row_unique rows ρ ρ' j d d' Hnd Hr R1 Hj R2).
        -- intros (ρ' & R1 & R2 & R3 & R4). exists ρ'. split_and!; try done.
           intros Hx. apply R4. apply elem_of_app. by left.
Qed.

End DLX_mid.

(** ** Dancing links: [cover] and [uncover] *)

Module DLX_cover.
Import DLX DLX_arena DLX_ring DLX_rows DLX_node DLX_mid.

#[local] Set Warnings "-clear-no-such-hyp".

Lemma Good_lt h cols rows A a :
  Good h cols rows A -> a ∈ root :: A -> a < length h.
Proof.
  intros (HS & HR & HA & HC) Hin. destruct HS as (_ & Hb & _). apply Hb.
  apply elem_of_cons in Hin as [->|Hin]; [apply list_elem_of_here|].
  apply list_elem_of_further. apply elem_of_app. left. by apply HA.
Qed.

Lemma filter_all {A} (P : A -> Prop) `{forall x, Decision (P x)} (l : list A) :
  Forall P l -> filter P l = l.
Proof.
  induction 1 as [|x l Hx Hl IH]; [done|]. by rewrite filter_cons_True, IH.
Qed.

Lemma filter_remove (c : nat) l1 l2 :
  NoDup (l1 ++ c :: l2) -> filter (fun x => x <> c) (l1 ++ c :: l2) = l1 ++ l2.
Proof.
  intros Hnd. apply NoDup_app in Hnd as (H1 & H2 & H3).
  apply NoDup_cons in H3 as [H3 H4].
  rewrite filter_app, filter_cons_False by (intros E; by apply E).
  rewrite !filter_all; [done| |].
  - rewrite Forall_forall. intros x Hx ->. done.
  - rewrite Forall_forall. intros x Hx ->. apply (H2 c Hx). apply list_elem_of_here.
Qed.

(** Taking the header of [c] out of the header ring. *)
Lemma hdr_out_Mid h cols rows l1 c l2 :
  Good h cols rows (l1 ++ c :: l2) ->
  exists Vc,
    Mid (hdr_out c h) cols rows (l1 ++ l2) c Vc [] /\
    (forall a, a ∈ Vc <->
       exists ρ, ρ ∈ rows /\ (a, c) ∈ ρ /\ active (l1 ++ c :: l2) ρ) /\
    hdr_in c (hdr_out c h) = h /\ length (hdr_out c h) = length h.
Proof.
  intros HG. pose proof HG as (HS & HR & HA & HC).
  assert (c ∈ l1 ++ c :: l2) as Hc.
  { apply elem_of_app. right. apply list_elem_of_here. }
  destruct (HC c Hc) as (Vc & HVc & HSz & HVm).
  destruct (ring_member _ _ _ _ _ HR Hc) as (M1 & M2 & M3 & M4 & M5 & M6).
  cbv beta in *.
  pose proof (Good_lt _ _ _ _ _ HG M5) as BR.
  pose proof (Good_lt _ _ _ _ _ HG M6) as BL.
  assert (forall a, L (get (hdr_out c h) a) =
    if decide (a = R (get h c)) then L (get h c) else L (get h a)) as EL.
  { intros a. unfold hdr_out. cbv zeta. by autorewrite with arena. }
  assert (forall a, R (get (hdr_out c h) a) =
    if decide (a = L (get h c)) then R (get h c) else R (get h a)) as ER.
  { intros a. unfold hdr_out. cbv zeta. autorewrite with arena.
    destruct (decide (c = R (get h c))) as [E|_]; [by symmetry in E|].
    by autorewrite with arena. }
  assert (length (hdr_out c h) = length h) as Elen.
  { unfold hdr_out. cbv zeta. by autorewrite with arena. }
  assert (forall a, a ∈ (concat rows).*1 -> a ∉ root :: l1 ++ c :: l2) as Hnode.
  { intros a Hin Hin'. destruct HS as (Hnd & _).
    apply NoDup_cons in Hnd as [Hroot Hnd].
    apply NoDup_app in Hnd as (_ & Hdisj & _).
    apply elem_of_cons in Hin' as [->|Hin'].
    - apply Hroot. apply elem_of_app. by right.
    - apply (Hdisj a); [by apply HA|done]. }
  exists Vc. split_and!; [|done| |done].
  - split_and!.
    + apply (Static_frame h); [done|done|].
      intros a Hin. rewrite EL, ER. unfold hdr_out. cbv zeta.
      autorewrite with arena.
      rewrite !decide_False; [done| |]; intros ->; by apply (Hnode _ Hin).
    + eapply ring_remove; [exact HR|..]; cbv beta.
      * rewrite ER. by rewrite decide_True.
      * rewrite EL. by rewrite decide_True.
      * intros a Hne. rewrite ER. by rewrite decide_False.
      * intros a Hne. rewrite EL. by rewrite decide_False.
    + intros x Hx. apply HA. set_solver.
    + by apply HA.
    + destruct HR as [_ Hnd]. apply NoDup_cons in Hnd as [_ Hnd].
      apply NoDup_app in Hnd as (N1 & N2 & N3). apply NoDup_cons in N3 as [N3 N4].
      intros Hin. apply elem_of_app in Hin as [Hin|Hin]; [|done].
      apply (N2 c Hin). apply list_elem_of_here.
    + eapply ring_ext; [|exact HVc]. intros a _. cbv beta.
      unfold hdr_out. cbv zeta. by autorewrite with arena.
    + intros a Hin. apply HVm in Hin as (ρ & ? & ? & _). by exists ρ.
    + intros d Hd. assert (d ∈ l1 ++ c :: l2) as Hd' by set_solver.
      destruct (HC d Hd') as (V & HV & HSzd & HVmd). exists V. split_and!.
      * eapply ring_ext; [|exact HV]. intros a _. cbv beta.
        unfold hdr_out. cbv zeta. by autorewrite with arena.
      * unfold hdr_out. cbv zeta. by autorewrite with arena.
      * intros a. rewrite HVmd. split.
        -- intros (ρ & R1 & R2 & R3). exists ρ. split_and!; try done.
           ++ intros x Hx. specialize (R3 x Hx). set_solver.
           ++ apply not_elem_of_nil.
        -- intros (ρ & R1 & R2 & R3 & _). exists ρ. split_and!; try done.
           intros x Hx. specialize (R3 x Hx). set_solver.
  - apply arena_ext; [unfold hdr_in; cbv zeta; by autorewrite with arena|].
    intros a _.
    assert (R (get (hdr_out c h) c) = R (get h c)) as ERc.
    { rewrite ER. by rewrite decide_False. }
    assert (L (get (hdr_out c h) c) = L (get h c)) as ELc.
    { rewrite EL. by rewrite decide_False. }
    unfold hdr_in. cbv zeta.
    assert (L (get (set_L (R (get (hdr_out c h) c)) c (hdr_out c h)) c)
            = L (get h c)) as ELc'.
    { rewrite L_set_L by (rewrite ERc, Elen; done).
      rewrite ERc. by rewrite decide_False. }
    rewrite ELc', ERc.
    apply element_ext.
    + rewrite L_set_R, L_set_L by (rewrite Elen; done).
      rewrite EL. by case_decide; subst.
    + rewrite R_set_R by (rewrite length_set_L, Elen; done).
      rewrite R_set_L, ER. by case_decide; subst.
    + unfold hdr_out. cbv zeta. by autorewrite with arena.
    + unfold hdr_out. cbv zeta. by autorewrite with arena.
    + unfold hdr_out. cbv zeta. by autorewrite with arena.
    + unfold hdr_out. cbv zeta. by autorewrite with arena.
Qed.

(** The states between the operations of the inner loop of [cover]. *)
Lemma unlinks_Mid h0 cols rows A c Vc ops :
  Mid h0 cols rows A c Vc [] -> valid_ops rows A c ops ->
  forall l1 l2, ops = l1 ++ l2 ->
    Mid (fold_left unlk l1 h0) cols rows A c Vc l1.
Proof.
  intros HM [Hnd Hops]. induction l1 as [|j l1 IH] using rev_ind; intros l2 E.
  - done.
  - rewrite fold_left_app. cbn [fold_left].
    rewrite <- app_assoc in E. cbn [app] in E.
    specialize (IH (j :: l2) E).
    destruct (Hops j) as (ρ & d & Hr & Hj & Hact & Hdc).
    { rewrite E. apply elem_of_app. right. apply list_elem_of_here. }
    eapply Mid_unlk; eauto.
    rewrite E in Hnd. apply NoDup_app in Hnd as (_ & Hdisj & _).
    intros Hin. apply (Hdisj j Hin). apply list_elem_of_here.
Qed.

Lemma unlinks_restore h0 cols rows A c Vc ops :
  Mid h0 cols rows A c Vc [] -> valid_ops rows A c ops ->
  forall l1 j l2, ops = l1 ++ j :: l2 ->
    relk j (unlk (fold_left unlk l1 h0) j) = fold_left unlk l1 h0.
Proof.
  intros HM Hv l1 j l2 E.
  pose proof (unlinks_Mid _ _ _ _ _ _ _ HM Hv l1 (j :: l2) E) as HM1.
  destruct Hv as [Hnd Hops].
  destruct (Hops j) as (ρ & d & Hr & Hj & Hact & Hdc).
  { rewrite E. apply elem_of_app. right. apply list_elem_of_here. }
  eapply Mid_unlk; eauto.
  rewrite E in Hnd. apply NoDup_app in Hnd as (_ & Hdisj & _).
  intros Hin. apply (Hdisj j Hin). apply list_elem_of_here.
Qed.

Lemma length_unlinks l h : length (fold_left unlk l h) = length h.
Proof.
  revert h. induction l as [|j l IH]; intros h; [done|].
  cbn [fold_left]. by rewrite IH, length_unlk.
Qed.

(** Putting the nodes back in the reverse order undoes the loop. *)
Lemma relinks_unlinks h0 cols rows A c Vc ops :
  Mid h0 cols rows A c Vc [] -> valid_ops rows A c ops ->
  forall l1 l2, ops = l1 ++ l2 ->
    foldr relk (fold_left unlk (l1 ++ l2) h0) l2 = fold_left unlk l1 h0.
Proof.
  intros HM Hv l1 l2. revert l1. induction l2 as [|j l2 IH]; intros l1 E.
  - by rewrite app_nil_r.
  - cbn [foldr].
    replace (l1 ++ j :: l2) with ((l1 ++ [j]) ++ l2) by (by rewrite <- app_assoc).
    rewrite IH by (by rewrite <- app_assoc).
    rewrite fold_left_app. cbn [fold_left].
    eapply unlinks_restore; eauto.
Qed.

Lemma pair_unique (ρ : list (nat * nat)) a a' c :
  NoDup ρ.*2 -> (a, c) ∈ ρ -> (a', c) ∈ ρ -> a = a'.
Proof.
  intros Hnd Ha Ha'.
  apply list_elem_of_lookup in Ha as [i Hi]. apply list_elem_of_lookup in Ha' as [i' Hi'].
  assert (i = i') as <-.
  { eapply (NoDup_lookup _ i i' c Hnd); rewrite list_lookup_fmap.
    - by rewrite Hi. - by rewrite Hi'. }
  congruence.
Qed.

Lemma elem_of_ops_of rows Vc j :
  j ∈ ops_of rows Vc <-> exists i, i ∈ Vc /\ j ∈ (others rows i).*1.
Proof.
  unfold ops_of. rewrite elem_of_concat. split.
  - intros (l & Hl & Hj). apply list_elem_of_fmap in Hl as (i & -> & Hi).
    by exists i.
  - intros (i & Hi & Hj). exists ((others rows i).*1). split; [|done].
    apply list_elem_of_fmap. by exists i.
Qed.

(** The nodes of the other columns in the rows of the column [c]. *)
Lemma others_node h cols rows ρ i c j :
  Static h cols rows -> ρ ∈ rows -> (i, c) ∈ ρ -> j ∈ (others rows i).*1 ->
  exists d, (j, d) ∈ ρ /\ d <> c /\ j <> i.
Proof.
  intros HS Hr Hi Hj. pose proof (Static_nodes_NoDup _ _ _ HS) as Hnd.
  apply list_elem_of_split in Hi as (r1 & r2 & ->).
  rewrite (others_spec rows r1 i c r2 Hnd Hr) in Hj.
  apply list_elem_of_fmap in Hj as ([j' d] & -> & Hin). cbn [fst].
  destruct HS as (_ & _ & Hrows). rewrite Forall_forall in Hrows.
  destruct (Hrows _ Hr) as (_ & Hnd2 & _).
  pose proof (row_NoDup _ _ Hnd Hr) as Hnd1.
  exists d. split_and!.
  - apply elem_of_app in Hin as [Hin|Hin]; apply elem_of_app;
      [right; by apply list_elem_of_further|by left].
  - intros ->. rewrite fmap_app in Hnd2. cbn in Hnd2.
    apply NoDup_app in Hnd2 as (N1 & N2 & N3). apply NoDup_cons in N3 as [N3 N4].
    apply elem_of_app in Hin as [Hin|Hin].
    + apply N3. apply list_elem_of_fmap. by exists (j', c).
    + apply (N2 c); [|apply list_elem_of_here].
      apply list_elem_of_fmap. by exists (j', c).
  - intros ->. rewrite fmap_app in Hnd1. cbn in Hnd1.
    apply NoDup_app in Hnd1 as (N1 & N2 & N3). apply NoDup_cons in N3 as [N3 N4].
    apply elem_of_app in Hin as [Hin|Hin].
    + apply N3. apply list_elem_of_fmap. by exists (i, d).
    + apply (N2 i); [|apply list_elem_of_here].
      apply list_elem_of_fmap. by exists (i, d).
Qed.

Lemma others_NoDup h cols rows ρ i c :
  Static h cols rows -> ρ ∈ rows -> (i, c) ∈ ρ -> NoDup (others rows i).*1.
Proof.
  intros HS Hr Hi. pose proof (Static_nodes_NoDup _ _ _ HS) as Hnd.
  apply list_elem_of_split in Hi as (r1 & r2 & ->).
  rewrite (others_spec rows r1 i c r2 Hnd Hr).
  pose proof (row_NoDup _ _ Hnd Hr) as Hnd1.
  rewrite fmap_app in *. cbn in Hnd1.
  apply NoDup_app in Hnd1 as (N1 & N2 & N3). apply NoDup_cons in N3 as [N3 N4].
  apply NoDup_app. split_and!; [done| |done].
  intros x Hx Hx'. apply (N2 x Hx'). by apply list_elem_of_further.
Qed.

Lemma ops_valid h cols rows A c Vc :
  Static h cols rows -> NoDup Vc ->
  (forall a, a ∈ Vc -> exists ρ, ρ ∈ rows /\ (a, c) ∈ ρ /\ active (c :: A) ρ) ->
  valid_ops rows A c (ops_of rows Vc).
Proof.
  intros HS HndV HV. pose proof (Static_nodes_NoDup _ _ _ HS) as Hnd. split.
  - induction Vc as [|i Vc IH]; [constructor|].
    apply NoDup_cons in HndV as [Hi HndV].
    unfold ops_of. cbn [map concat]. fold (ops_of rows Vc).
    destruct (HV i) as (ρ & Hr & Hic & _); [apply list_elem_of_here|].
    apply NoDup_app. split_and!.
    + by eapply others_NoDup.
    + intros j Hj Hj'. apply elem_of_ops_of in Hj' as (i' & Hi' & Hj').
      destruct (HV i') as (ρ' & Hr' & Hic' & _); [by apply list_elem_of_further|].
      destruct (others_node _ _ _ _ _ _ _ HS Hr Hic Hj) as (d & Hd & _).
      destruct (others_node _ _ _ _ _ _ _ HS Hr' Hic' Hj') as (d' & Hd' & _).
      destruct (row_unique rows ρ ρ' j d d' Hnd Hr Hr' Hd Hd') as [<- _].
      destruct HS as (_ & _ & Hrows). rewrite Forall_forall in Hrows.
      destruct (Hrows _ Hr) as (_ & Hnd2 & _).
      assert (i = i') as <- by (by eapply pair_unique). done.
    + apply IH; [done|]. intros a Ha. apply HV. by apply list_elem_of_further.
  - intros j Hj. apply elem_of_ops_of in Hj as (i & Hi & Hj).
    destruct (HV i Hi) as (ρ & Hr & Hic & Hact).
    destruct (others_node _ _ _ _ _ _ _ HS Hr Hic Hj) as (d & Hd & Hdc & _).
    by exists ρ, d.
Qed.

Lemma ops_of_app rows a b : ops_of rows (a ++ b) = ops_of rows a ++ ops_of rows b.
Proof. unfold ops_of. by rewrite map_app, concat_app. Qed.

Lemma ops_of_single rows i : ops_of rows [i] = (others rows i).*1.
Proof. unfold ops_of. cbn. by rewrite app_nil_r. Qed.

(** The ring of a row, read from any of its nodes. *)
Lemma row_ring h cols rows ρ i c :
  Static h cols rows -> ρ ∈ rows -> (i, c) ∈ ρ ->
  hring h i (others rows i).*1.
Proof.
  intros HS Hr Hi. pose proof (Static_nodes_NoDup _ _ _ HS) as Hnd.
  apply list_elem_of_split in Hi as (r1 & r2 & ->).
  rewrite (others_spec rows r1 i c r2 Hnd Hr).
  destruct HS as (_ & _ & Hrows). rewrite Forall_forall in Hrows.
  destruct (Hrows _ Hr) as (Hring & _).
  rewrite !fmap_app in *. cbn [fmap list_fmap fst] in Hring.
  destruct r1 as [|[a ca] r1].
  - cbn in Hring. by rewrite app_nil_r.
  - cbn in Hring. apply ring_rotate in Hring. exact Hring.
Qed.

Lemma Mid_nodes_lt h cols rows A c Vc X l :
  Mid h cols rows A c Vc X -> NoDup l ->
  (forall a, a ∈ l -> a ∈ (concat rows).*1) -> length l < S (length h).
Proof.
  intros (HS & _) Hnd Hl. apply Nat.lt_succ_r. apply nat_list_bound; [done|].
  intros a Ha. destruct HS as (_ & Hb & _). apply Hb.
  apply list_elem_of_further. apply elem_of_app. right. by apply Hl.
Qed.

Lemma others_nodes h cols rows ρ i c a :
  Static h cols rows -> ρ ∈ rows -> (i, c) ∈ ρ -> a ∈ (others rows i).*1 ->
  a ∈ (concat rows).*1.
Proof.
  intros HS Hr Hi Ha.
  destruct (others_node _ _ _ _ _ _ _ HS Hr Hi Ha) as (d & Hd & _).
  by destruct (Static_node _ _ _ _ _ _ HS Hr Hd).
Qed.

(** The loops of [cover] and [uncover] once the header is out. *)
Section loops.
Variables (h0 : arena) (cols : list nat) (rows : list (list (nat * nat))).
Variables (A : list nat) (c : nat) (Vc : list nat).
Hypothesis HM : Mid h0 cols rows A c Vc [].
Hypothesis HV :
  forall a, a ∈ Vc -> exists ρ, ρ ∈ rows /\ (a, c) ∈ ρ /\ active (c :: A) ρ.

Lemma loops_Static : Static h0 cols rows.
Proof. by destruct HM. Qed.

Lemma loops_NoDup : NoDup Vc.
Proof.
  destruct HM as (_ & _ & _ & _ & _ & [_ Hnd] & _).
  by apply NoDup_cons in Hnd as [_ ?].
Qed.

Lemma loops_valid : valid_ops rows A c (ops_of rows Vc).
Proof. eapply ops_valid; [apply loops_Static|apply loops_NoDup|apply HV]. Qed.

Lemma loops_prefix p q :
  ops_of rows Vc = p ++ q -> Mid (fold_left unlk p h0) cols rows A c Vc p.
Proof. intros E. eapply unlinks_Mid; [exact HM|apply loops_valid|exact E]. Qed.

Lemma loops_split v1 i v2 :
  Vc = v1 ++ i :: v2 ->
  ops_of rows Vc =
  ops_of rows v1 ++ (others rows i).*1 ++ ops_of rows v2.
Proof.
  intros ->. rewrite ops_of_app. change (i :: v2) with ([i] ++ v2).
  by rewrite ops_of_app, ops_of_single.
Qed.

Lemma inner_cover v1 i v2 :
  Vc = v1 ++ i :: v2 ->
  iter (S (length h0)) R i unlink_node
    (R (get (fold_left unlk (ops_of rows v1) h0) i))
    (fold_left unlk (ops_of rows v1) h0) =
  Some (fold_left unlk (ops_of rows (v1 ++ [i])) h0).
Proof.
  intros E. pose proof (loops_split _ _ _ E) as Eops.
  destruct (HV i) as (ρ & Hr & Hic & Hact).
  { rewrite E. apply elem_of_app. right. apply list_elem_of_here. }
  set (os := (others rows i).*1) in *.
  pose proof (loops_prefix _ _ Eops) as HMk.
  assert (R (get (fold_left unlk (ops_of rows v1) h0) i) = default i (head os))
    as ->.
  { destruct HMk as (HSk & _).
    apply (ring_head _ _ _ _ (row_ring _ _ _ _ _ _ HSk Hr Hic)). }
  destruct (iter_inv
    (fun m1 m2 hx => hx = fold_left unlk (ops_of rows v1 ++ m1) h0)
    R i unlink_node os) with (h := fold_left unlk (ops_of rows v1) h0)
    (fuel := S (length h0)) as (h' & Hit & HJ).
  - intros Hin. destruct (others_node _ _ _ _ _ _ _ loops_Static Hr Hic Hin)
      as (_ & _ & _ & Hne). done.
  - intros m1 x m2 hx Eos ->. exists (unlk (fold_left unlk (ops_of rows v1 ++ m1) h0) x).
    split; [apply unlink_node_unlk|]. split.
    + by rewrite app_assoc, (fold_left_app _ (ops_of rows v1 ++ m1) [x]).
    + rewrite R_unlk.
      assert (ops_of rows Vc =
        (ops_of rows v1 ++ m1) ++ (x :: m2) ++ ops_of rows v2) as Eops'.
      { rewrite Eops, Eos. by rewrite <- !app_assoc. }
      destruct (loops_prefix _ _ Eops') as (HSx & _).
      pose proof (row_ring _ _ _ _ _ _ HSx Hr Hic) as Hring.
      fold os in Hring. rewrite Eos in Hring.
      apply (ring_next _ _ _ _ _ _ Hring).
  - by rewrite app_nil_r.
  - eapply Mid_nodes_lt; [exact HM| |].
    + eapply others_NoDup; [apply loops_Static|exact Hr|exact Hic].
    + intros a Ha. eapply others_nodes; [apply loops_Static|exact Hr|exact Hic|exact Ha].
  - rewrite Hit, HJ. by rewrite ops_of_app, ops_of_single.
Qed.

Lemma outer_cover :
  iter (S (length h0)) D c
    (fun i h => iter (S (length h0)) R i unlink_node (R (get h i)) h)
    (D (get h0 c)) h0 =
  Some (fold_left unlk (ops_of rows Vc) h0).
Proof.
  pose proof HM as (HS & _ & _ & _ & _ & HVc & HVcn & _).
  rewrite (ring_head _ _ _ _ HVc).
  destruct (iter_inv
    (fun v1 v2 hx => hx = fold_left unlk (ops_of rows v1) h0)
    D c (fun i h => iter (S (length h0)) R i unlink_node (R (get h i)) h) Vc)
    with (h := h0) (fuel := S (length h0)) as (h' & Hit & HJ).
  - destruct HVc as [_ Hnd]. by apply NoDup_cons in Hnd as [? _].
  - intros v1 i v2 hx E ->. eexists. split; [by eapply inner_cover|]. split; [done|].
    pose proof (loops_split _ _ _ E) as Eops.
    assert (ops_of rows Vc = ops_of rows (v1 ++ [i]) ++ ops_of rows v2) as Eops'.
    { rewrite Eops, ops_of_app, ops_of_single. by rewrite <- app_assoc. }
    destruct (loops_prefix _ _ Eops') as (_ & _ & _ & _ & _ & HVc' & _).
    rewrite E in HVc'. apply (ring_next _ _ _ _ _ _ HVc').
  - done.
  - eapply Mid_nodes_lt; [exact HM|apply loops_NoDup|].
    intros a Ha. destruct (HVcn a Ha) as (ρ & Hr & Hin).
    by destruct (Static_node _ _ _ _ _ _ HS Hr Hin).
  - by rewrite Hit, HJ.
Qed.

Lemma inner_uncover v1 i v2 :
  reverse Vc = v1 ++ i :: v2 ->
  iter (S (length h0)) L i relink_node
    (L (get (fold_left unlk (ops_of rows (reverse (i :: v2))) h0) i))
    (fold_left unlk (ops_of rows (reverse (i :: v2))) h0) =
  Some (fold_left unlk (ops_of rows (reverse v2)) h0).
Proof.
  intros E.
  assert (Vc = reverse v2 ++ i :: reverse v1) as EV.
  { rewrite <- (reverse_involutive Vc), E, reverse_app, reverse_cons.
    by rewrite <- app_assoc. }
  pose proof (loops_split _ _ _ EV) as Eops.
  destruct (HV i) as (ρ & Hr & Hic & Hact).
  { rewrite EV. apply elem_of_app. right. apply list_elem_of_here. }
  set (os := (others rows i).*1) in *.
  rewrite reverse_cons, ops_of_app, ops_of_single. fold os.
  set (P := ops_of rows (reverse v2)) in *.
  assert (ops_of rows Vc = (P ++ os) ++ ops_of rows (reverse v1)) as Eops1
    by (by rewrite Eops, <- app_assoc).
  pose proof (loops_prefix _ _ Eops1) as HMk.
  assert (L (get (fold_left unlk (P ++ os) h0) i) = default i (head (reverse os)))
    as ->.
  { destruct HMk as (HSk & _).
    apply (ring_head _ _ _ _ (ring_rev _ _ _ _ (row_ring _ _ _ _ _ _ HSk Hr Hic))). }
  destruct (iter_inv
    (fun m1 m2 hx => hx = fold_left unlk (P ++ reverse m2) h0)
    L i relink_node (reverse os)) with (h := fold_left unlk (P ++ os) h0)
    (fuel := S (length h0)) as (h' & Hit & HJ).
  - rewrite elem_of_reverse. intros Hin.
    destruct (others_node _ _ _ _ _ _ _ loops_Static Hr Hic Hin)
      as (_ & _ & _ & Hne). done.
  - intros m1 x m2 hx Eos ->.
    assert (os = reverse m2 ++ x :: reverse m1) as Eos'.
    { rewrite <- (reverse_involutive os), Eos, reverse_app, reverse_cons.
      by rewrite <- app_assoc. }
    assert (ops_of rows Vc =
      (P ++ reverse m2) ++ x :: (reverse m1 ++ ops_of rows (reverse v1))) as Eops'.
    { rewrite Eops, Eos'. by rewrite <- !app_assoc. }
    exists (fold_left unlk (P ++ reverse m2) h0). split_and!.
    + rewrite relink_node_relk. f_equal.
      rewrite reverse_cons, app_assoc, (fold_left_app _ (P ++ reverse m2) [x]).
      cbn [fold_left].
      eapply unlinks_restore; [exact HM|apply loops_valid|exact Eops'].
    + by rewrite app_nil_r || done.
    + destruct (loops_prefix _ _ Eops') as (HSx & _).
      pose proof (ring_rev _ _ _ _ (row_ring _ _ _ _ _ _ HSx Hr Hic)) as Hring.
      fold os in Hring. rewrite Eos in Hring.
      apply (ring_next _ _ _ _ _ _ Hring).
  - by rewrite reverse_involutive.
  - rewrite length_reverse. eapply Mid_nodes_lt; [exact HM| |].
    + eapply others_NoDup; [apply loops_Static|exact Hr|exact Hic].
    + intros a Ha. eapply others_nodes; [apply loops_Static|exact Hr|exact Hic|exact Ha].
  - rewrite Hit, HJ. by rewrite app_nil_r.
Qed.

Lemma outer_uncover :
  iter (S (length h0)) U c
    (fun i h => iter (S (length h0)) L i relink_node (L (get h i)) h)
    (U (get (fold_left unlk (ops_of rows Vc) h0) c))
    (fold_left unlk (ops_of rows Vc) h0) =
  Some h0.
Proof.
  pose proof HM as (HS & _ & _ & _ & _ & _ & HVcn & _).
  assert (ops_of rows Vc = ops_of rows Vc ++ []) as E0 by (by rewrite app_nil_r).
  destruct (loops_prefix _ _ E0) as (_ & _ & _ & _ & _ & HVc & _).
  rewrite (ring_head _ _ _ _ (ring_rev _ _ _ _ HVc)).
  destruct (iter_inv
    (fun v1 v2 hx => hx = fold_left unlk (ops_of rows (reverse v2)) h0)
    U c (fun i h => iter (S (length h0)) L i relink_node (L (get h i)) h)
    (reverse Vc))
    with (h := fold_left unlk (ops_of rows Vc) h0) (fuel := S (length h0))
    as (h' & Hit & HJ).
  - rewrite elem_of_reverse. destruct HVc as [_ Hnd].
    by apply NoDup_cons in Hnd as [? _].
  - intros v1 i v2 hx E ->. eexists. split; [by eapply inner_uncover|].
    split; [done|].
    assert (Vc = reverse v2 ++ i :: reverse v1) as EV.
    { rewrite <- (reverse_involutive Vc), E, reverse_app, reverse_cons.
      by rewrite <- app_assoc. }
    pose proof (loops_split _ _ _ EV) as Eops.
    destruct (loops_prefix _ _ Eops) as (_ & _ & _ & _ & _ & HVc' & _).
    apply ring_rev in HVc'. rewrite E in HVc'.
    apply (ring_next _ _ _ _ _ _ HVc').
  - by rewrite reverse_involutive.
  - rewrite length_reverse. eapply Mid_nodes_lt; [exact HM|apply loops_NoDup|].
    intros a Ha. destruct (HVcn a Ha) as (ρ & Hr & Hin).
    by destruct (Static_node _ _ _ _ _ _ HS Hr Hin).
  - by rewrite Hit, HJ.
Qed.

End loops.

Lemma others_elem rows ρ i c a d :
  NoDup (concat rows).*1 -> ρ ∈ rows -> (i, c) ∈ ρ -> (a, d) ∈ ρ -> a <> i ->
  a ∈ (others rows i).*1.
Proof.
  intros Hnd Hr Hi Ha Hne. apply list_elem_of_split in Hi as (r1 & r2 & ->).
  rewrite (others_spec rows r1 i c r2 Hnd Hr).
  apply list_elem_of_fmap. exists (a, d). split; [done|].
  apply elem_of_app in Ha as [Ha|Ha]; apply elem_of_app; [by right|].
  apply elem_of_cons in Ha as [[= -> ->]|Ha]; [done|by left].
Qed.

(** [cover c] on a state of the search: the column leaves the header ring
    and the rows that use it leave the other columns; [uncover c] undoes
    it exactly. *)
Lemma cover_spec h cols rows l1 c l2 :
  Good h cols rows (l1 ++ c :: l2) ->
  exists h' Vc,
    cover c h = Some h' /\ Good h' cols rows (l1 ++ l2) /\
    vring h' c Vc /\
    (forall a, a ∈ Vc <->
       exists ρ, ρ ∈ rows /\ (a, c) ∈ ρ /\ active (l1 ++ c :: l2) ρ) /\
    uncover c h' = Some h /\ length h' = length h.
Proof.
  intros HG. destruct (hdr_out_Mid _ _ _ _ _ _ HG) as (Vc & HM & HVm & Hin & Elen).
  assert (forall a, a ∈ Vc ->
    exists ρ, ρ ∈ rows /\ (a, c) ∈ ρ /\ active (c :: l1 ++ l2) ρ) as HV.
  { intros a Ha. apply HVm in Ha as (ρ & Hr & Hac & Hact).
    exists ρ. split_and!; try done. intros x Hx. specialize (Hact x Hx). set_solver. }
  pose proof (outer_cover _ _ _ _ _ _ HM HV) as Hcov.
  pose proof (outer_uncover _ _ _ _ _ _ HM HV) as Hunc.
  assert (ops_of rows Vc = ops_of rows Vc ++ []) as E0 by (by rewrite app_nil_r).
  pose proof (loops_prefix _ _ _ _ _ _ HM HV _ _ E0) as HM'.
  set (h' := fold_left unlk (ops_of rows Vc) (hdr_out c h)) in *.
  assert (length h' = length h) as Elen' by (unfold h'; by rewrite length_unlinks).
  exists h', Vc. split_and!; try done.
  - unfold cover. cbv zeta. fold (hdr_out c h). rewrite <- Elen. exact Hcov.
  - destruct HM' as (HS & HR & HA & Hc & HcA & HVc & HVcn & HC).
    pose proof (Static_nodes_NoDup _ _ _ HS) as Hnd.
    split_and!; try done.
    intros d Hd. destruct (HC d Hd) as (V & HV1 & HSz & HVm1).
    exists V. split_and!; try done. intros a. rewrite HVm1.
    split; intros (ρ & Hr & Had & Hlive); exists ρ; (split; [done|split; [done|]]).
    + destruct Hlive as [Hact Hops]. intros x Hx.
      pose proof (Hact x Hx) as Hxin. apply elem_of_cons in Hxin as [->|?]; [|done].
      exfalso. apply list_elem_of_fmap in Hx as ([i c'] & Ec & Hi).
      cbn in Ec. subst c'. apply Hops. apply elem_of_ops_of. exists i. split.
      * apply HVm. exists ρ. split_and!; try done. intros y Hy.
        specialize (Hact y Hy). set_solver.
      * eapply others_elem; eauto. intros ->.
        destruct (row_unique rows ρ ρ i c d Hnd Hr Hr Hi Had) as [_ <-]. done.
    + split.
      * intros x Hx. apply list_elem_of_further. by apply Hlive.
      * intros Hops. apply elem_of_ops_of in Hops as (i & Hi & Hai).
        destruct (HVcn i Hi) as (ρ' & Hr' & Hic).
        destruct (others_node _ _ _ _ _ _ _ HS Hr' Hic Hai) as (d' & Had' & _).
        destruct (row_unique rows ρ ρ' a d d' Hnd Hr Hr' Had Had') as [<- _].
        apply HcA. apply Hlive. apply list_elem_of_fmap. by exists (i, c).
  - by destruct HM' as (_ & _ & _ & _ & _ & ? & _).
  - unfold uncover. cbv zeta. rewrite Elen', <- Elen, Hunc.
    unfold hdr_in in Hin. cbv zeta in Hin. by rewrite Hin.
Qed.

End DLX_cover.

(** ** Dancing links: entering the matrix *)

Module DLX_build.
Import DLX DLX_arena DLX_ring DLX_rows DLX_node DLX_mid DLX_cover.

#[local] Set Warnings "-clear-no-such-hyp".

Lemma get_app_l (h : arena) e a : a < length h -> get (h ++ [e]) a = get h a.
Proof. intros H. unfold get. by rewrite lookup_app_l. Qed.

Lemma get_app_new (h : arena) e : get (h ++ [e]) (length h) = e.
Proof.
  unfold get. rewrite lookup_app_r by done. by rewrite Nat.sub_diag.
Qed.

Lemma ring_last nx pv hd l : ring nx pv hd l -> pv hd = default hd (last l).
Proof.
  intros [H _].
  assert (forall x z, linked nx pv x l z -> pv z = default x (last l)) as Hgen.
  { clear H. induction l as [|y l IH]; intros x z; simpl.
    - by intros [_ ->].
    - intros (_ & _ & H). rewrite (IH _ _ H). rewrite (last_cons y l). by destruct (last l). }
  by apply Hgen.
Qed.

Lemma Static_active h cols rows ρ :
  Static h cols rows -> ρ ∈ rows -> active cols ρ.
Proof.
  intros (_ & _ & Hrows) Hr c Hc. rewrite Forall_forall in Hrows.
  destruct (Hrows _ Hr) as (_ & _ & H).
  apply list_elem_of_fmap in Hc as ([a c'] & -> & Hin). by apply (H a c').
Qed.

Lemma Static_lt h cols rows a :
  Static h cols rows -> a ∈ root :: cols ++ (concat rows).*1 -> a < length h.
Proof. intros (_ & Hb & _). apply Hb. Qed.

Lemma elem_all_snoc (r c a : nat) cols nodes :
  a ∈ r :: (cols ++ [c]) ++ nodes -> a = c \/ a ∈ r :: cols ++ nodes.
Proof.
  set_solver.
Qed.

Lemma elem_all_head (r a : nat) cols nodes :
  a ∈ r :: cols -> a ∈ r :: cols ++ nodes.
Proof. set_solver. Qed.

(** [addColumn] on a matrix that was entered so far. *)
Lemma addColumn_Built d cols rows :
  Built d cols rows -> length cols < MAX_COLUMNS ->
  exists d', addColumn d = Some d' /\
    Built d' (cols ++ [length (heap d)]) rows /\
    length (heap d') = S (length (heap d)).
Proof.
  intros (HG & Hca & Hla) Hlen. pose proof HG as (HS & HR & HA & HC).
  unfold addColumn. rewrite Hca.
  destruct (Nat.leb_spec MAX_COLUMNS (length cols)) as [?|_]; [lia|].
  eexists. split; [reflexivity|]. cbv zeta.
  set (h := heap d) in *. set (c := length h). set (la := last_added d) in *.
  assert (la ∈ root :: cols) as Hlain.
  { rewrite Hla. destruct (last cols) as [x|] eqn:El; simpl.
    - apply list_elem_of_further. apply last_Some in El as (l' & ->).
      apply elem_of_app. right. apply list_elem_of_here.
    - apply list_elem_of_here. }
  assert (forall a, a ∈ root :: cols ++ (concat rows).*1 -> a < c) as Hb.
  { intros a Ha. by apply (Static_lt _ _ _ _ HS). }
  assert (la < c) as Hlac.
  { apply Hb. apply elem_of_cons in Hlain as [->|?]; [apply list_elem_of_here|].
    apply list_elem_of_further. apply elem_of_app. by left. }
  assert (root < c) as Hrc by (apply Hb; apply list_elem_of_here).
  set (h1 := h ++ [fresh]).
  assert (length h1 = S c) as Hl1 by (unfold h1; rewrite length_app; simpl; lia).
  set (h7 := set_Sz c 0 (set_D c c (set_U c c (set_R c root (set_L c la
              (set_L root c (set_R la c h1))))))).
  assert (length h7 = S c) as Hl7 by (unfold h7; by autorewrite with arena).
  assert (forall a, a < c -> get h1 a = get h a) as Hold.
  { intros a Ha. by apply get_app_l. }
  assert (forall a, R (get h7 a) =
    if decide (a = c) then root else if decide (a = la) then c
    else R (get h a)) as ER.
  { intros a. unfold h7. autorewrite with arena.
    repeat case_decide; try done; try lia.
    destruct (decide (a < c)); [by rewrite Hold|].
    rewrite !get_ge; [done|lia|lia]. }
  assert (forall a, L (get h7 a) =
    if decide (a = c) then la else if decide (a = root) then c
    else L (get h a)) as EL.
  { intros a. unfold h7. autorewrite with arena.
    repeat case_decide; try done; try lia.
    destruct (decide (a < c)); [by rewrite Hold|].
    rewrite !get_ge; [done|lia|lia]. }
  assert (forall a, a <> c -> U (get h7 a) = U (get h a) /\
    D (get h7 a) = D (get h a) /\ Sz (get h7 a) = Sz (get h a) /\
    C (get h7 a) = C (get h a)) as EO.
  { intros a Ha. unfold h7. autorewrite with arena.
    rewrite !decide_False by done.
    destruct (decide (a < c)); [by rewrite Hold|].
    rewrite !get_ge; [done|lia|lia]. }
  assert (U (get h7 c) = c /\ D (get h7 c) = c /\ Sz (get h7 c) = 0%Z) as Ec.
  { unfold h7. autorewrite with arena. by rewrite !decide_True. }
  assert (c ∉ root :: cols ++ (concat rows).*1) as Hfresh.
  { intros Hin. specialize (Hb c Hin). lia. }
  split; [|done]. split; [|split; [done|by rewrite last_snoc]].
  cbn [heap]. fold h1. fold h7.
  assert (Static h7 (cols ++ [c]) rows) as HS7.
  { pose proof HS as HS0. destruct HS as (Hnd & Hbd & Hrows). split_and!.
    - apply NoDup_cons in Hnd as [Hroot Hnd]. apply NoDup_cons. split.
      + intros Hin. rewrite <- app_assoc in Hin.
        apply elem_of_app in Hin as [Hin|Hin];
          [apply Hroot; apply elem_of_app; by left|].
        apply elem_of_cons in Hin as [E|Hin]; [lia|].
        apply Hroot, elem_of_app. by right.
      + rewrite <- app_assoc. apply NoDup_app in Hnd as (N1 & N2 & N3).
        apply NoDup_app. split_and!; [done| |].
        * intros x Hx Hx'. apply elem_of_cons in Hx' as [->|Hx'];
            [|by apply (N2 x)].
          apply Hfresh. apply list_elem_of_further. apply elem_of_app. by left.
        * apply NoDup_cons. split; [|done]. intros Hin. apply Hfresh.
          apply list_elem_of_further. apply elem_of_app. by right.
    - intros a Ha. rewrite Hl7.
      destruct (elem_all_snoc _ _ _ _ _ Ha) as [->|Ha']; [lia|].
      specialize (Hb a Ha'). lia.
    - rewrite Forall_forall in *. intros ρ Hr.
      destruct (Hrows ρ Hr) as (H1 & H2 & H3).
      assert (forall a, a ∈ ρ.*1 -> a <> c /\ a <> la /\ a <> root) as Hnode.
      { intros a Ha. apply list_elem_of_fmap in Ha as ([a' ca] & -> & Hin).
        cbn [fst].
        destruct (Static_node h cols rows ρ a' ca) as (N1 & N2 & _ & _ & _ & N6 & N7);
          [exact HS0|done|done|].
        split_and!; [lia| |done].
        intros ->. apply elem_of_cons in Hlain as [?|?]; done. }
      split_and!; [|done|].
      + destruct (ρ.*1) as [|a l] eqn:Eρ; [done|].
        eapply ring_ext; [|exact H1]. intros b Hb'. cbv beta.
        destruct (Hnode b Hb') as (? & ? & ?).
        rewrite ER, EL. by rewrite !decide_False.
      + intros a ca Hin. destruct (H3 a ca Hin) as [H4 H5].
        destruct (Hnode a) as (? & _).
        { apply list_elem_of_fmap. by exists (a, ca). }
        destruct (EO a) as (_ & _ & _ & ->); [done|].
        split; [done|]. apply elem_of_app. by left. }
  split_and!; [done| |done|].
  - eapply ring_snoc; [exact HR|..]; cbv beta.
    + intros Hin. apply Hfresh. by apply elem_all_head.
    + rewrite ER. by rewrite decide_True.
    + rewrite EL, decide_True by done.
      rewrite (ring_last _ _ _ _ HR). cbv beta. by rewrite Hla.
    + rewrite (ring_last _ _ _ _ HR). cbv beta. rewrite <- Hla. fold la.
      rewrite ER. rewrite decide_False by lia. by rewrite decide_True.
    + rewrite EL. rewrite decide_False by (unfold root in *; lia).
      by rewrite decide_True.
    + intros a Ha1 Ha2. rewrite (ring_last _ _ _ _ HR) in Ha1. cbv beta in Ha1.
      rewrite <- Hla in Ha1. fold la in Ha1. rewrite ER.
      by rewrite !decide_False.
    + intros a Ha1 Ha2. rewrite EL. by rewrite !decide_False.
  - intros d0 Hd0. apply elem_of_app in Hd0 as [Hd0|Hd0].
    + destruct (HC d0 Hd0) as (V & HV & HSz & HVm). exists V. split_and!.
      * eapply ring_ext; [|exact HV]. intros a Ha. cbv beta.
        assert (a <> c) as Hne.
        { intros ->. apply Hfresh. apply elem_of_cons in Ha as [->|Ha].
          - apply list_elem_of_further. apply elem_of_app. by left.
          - apply HVm in Ha as (ρ & Hr & Hin & _).
            apply list_elem_of_further. apply elem_of_app. right.
            by destruct (Static_node _ _ _ _ _ _ HS Hr Hin). }
        by destruct (EO a Hne) as (-> & -> & _).
      * assert (d0 <> c) as Hne.
        { intros ->. apply Hfresh. apply list_elem_of_further.
          apply elem_of_app. by left. }
        by destruct (EO d0 Hne) as (_ & _ & -> & _).
      * intros a. rewrite HVm. split; intros (ρ & Hr & Hin & Hact);
          exists ρ; split_and!; try done.
        -- intros x Hx. apply elem_of_app. left. by apply Hact.
        -- eapply Static_active; eauto.
    + apply list_elem_of_singleton in Hd0. subst d0. exists []. split_and!.
      * destruct Ec as (E1 & E2 & _). split; [by split|].
        apply NoDup_singleton.
      * by destruct Ec as (_ & _ & ->).
      * intros a. split; [by intros ?%elem_of_nil|].
        intros (ρ & Hr & Hin & _). exfalso. apply Hfresh.
        destruct (Static_node _ _ _ _ _ _ HS Hr Hin) as (_ & _ & _ & _ & Hc & _).
        apply list_elem_of_further. apply elem_of_app. by left.
Qed.


Lemma addRow_step_eq cols h first last k tmp :
  cols !! k = Some tmp ->
  addRow_step cols
    (Some {| rs_heap := h; rs_first := first; rs_last := last |}) k =
  Some {| rs_heap :=
            (let c := length h in
             let h := new_node tmp h in
             let h := match last with
                      | Some l => set_R l c (set_L c l h)
                      | None => h
                      end in
             match first with
             | Some f => set_L f c (set_R c f h)
             | None => h
             end);
          rs_first := match first with Some f => Some f | None => Some (length h) end;
          rs_last := Some (length h) |}.
Proof. intros E. unfold addRow_step. rewrite E. reflexivity. Qed.

(** The fields after [new_node]. *)
Lemma new_node_fields h tmp :
  tmp < length h -> U (get h tmp) < length h ->
  let c := length h in
  let u := U (get h tmp) in
  let h' := new_node tmp h in
  length h' = S c /\
  (forall a, U (get h' a) =
     if decide (a = tmp) then c else if decide (a = c) then u else U (get h a)) /\
  (forall a, D (get h' a) =
     if decide (a = u) then c else if decide (a = c) then tmp else D (get h a)) /\
  (forall a, a <> c -> Sz (get h' a) =
     if decide (a = tmp) then (Sz (get h a) + 1)%Z else Sz (get h a)) /\
  (forall a, C (get h' a) = if decide (a = c) then tmp else C (get h a)) /\
  (forall a, L (get h' a) = if decide (a = c) then c else L (get h a)) /\
  (forall a, R (get h' a) = if decide (a = c) then c else R (get h a)).
Proof.
  intros Ht Hu c u h'.
  set (h1 := h ++ [fresh]).
  assert (length h1 = S c) as Hl1 by (unfold h1; rewrite length_app; simpl; lia).
  assert (forall a, a <> c -> get h1 a = get h a) as Hold.
  { intros a Ha. destruct (decide (a < c)); [by apply get_app_l|].
    rewrite !get_ge; [done|lia|lia]. }
  assert (get h1 c = fresh) as Hnew by apply get_app_new.
  assert (Sz (get (set_D c tmp h1) tmp) = Sz (get h tmp)) as ESz.
  { autorewrite with arena. rewrite Hold by lia. done. }
  assert (U (get (set_C c tmp (set_R c c (set_L c c
            (set_Sz tmp (Sz (get h tmp) + 1) (set_D c tmp h1)))))
          tmp) = u) as EU.
  { autorewrite with arena. rewrite Hold by lia. done. }
  assert (h' = set_D u c (set_U tmp c (set_U c u (set_C c tmp (set_R c c
            (set_L c c (set_Sz tmp (Sz (get h tmp) + 1) (set_D c tmp h1)))))))) as ->.
  { unfold h', new_node. cbv zeta. fold c. fold h1. rewrite ESz, EU.
    f_equal. autorewrite with arena. rewrite decide_False by lia.
    by rewrite decide_True. }
  split_and!.
  - by autorewrite with arena.
  - intros a. autorewrite with arena. repeat case_decide; try done; try lia.
    by rewrite Hold.
  - intros a. autorewrite with arena. repeat case_decide; try done; try lia.
    by rewrite Hold.
  - intros a Ha. autorewrite with arena. rewrite Hold by done.
    case_decide; by subst.
  - intros a. autorewrite with arena. repeat case_decide; try done; try lia.
    by rewrite Hold.
  - intros a. autorewrite with arena. case_decide; [done|]. by rewrite Hold.
  - intros a. autorewrite with arena. case_decide; [done|]. by rewrite Hold.
Qed.


Lemma concat_cur_rows rows part : concat (cur_rows rows part) = concat rows ++ part.
Proof.
  destruct part as [|p part]; simpl; [by rewrite app_nil_r|].
  rewrite concat_app. simpl. by rewrite app_nil_r.
Qed.

Lemma elem_cur_rows rows part ρ :
  ρ ∈ cur_rows rows part <-> ρ ∈ rows \/ (part <> [] /\ ρ = part).
Proof.
  destruct part as [|p part]; simpl.
  - split; [by left|]. by intros [?|[? _]].
  - rewrite elem_of_app, list_elem_of_singleton. split.
    + intros [?|?]; [by left|by right].
    + intros [?|[_ ?]]; [by left|by right].
Qed.

Lemma cur_rows_snoc rows part x : cur_rows rows (part ++ [x]) = rows ++ [part ++ [x]].
Proof. unfold cur_rows. by destruct part. Qed.

(** The links that the body of the loop of [addRow] leaves alone. *)
Lemma node_frame h h' cols rows part tmp :
  Good h cols (cur_rows rows part) cols -> tmp ∈ cols -> (tmp ∉ part.*2) ->
  length h' = S (length h) ->
  (forall a, U (get h' a) =
     if decide (a = tmp) then length h
     else if decide (a = length h) then U (get h tmp) else U (get h a)) ->
  (forall a, D (get h' a) =
     if decide (a = U (get h tmp)) then length h
     else if decide (a = length h) then tmp else D (get h a)) ->
  (forall a, a <> length h -> Sz (get h' a) =
     if decide (a = tmp) then (Sz (get h a) + 1)%Z else Sz (get h a)) ->
  (forall a, C (get h' a) = if decide (a = length h) then tmp else C (get h a)) ->
  (forall a, (a ∉ part.*1) -> a <> length h ->
     L (get h' a) = L (get h a) /\ R (get h' a) = R (get h a)) ->
  row_ok h' cols (part ++ [(length h, tmp)]) ->
  Good h' cols (cur_rows rows (part ++ [(length h, tmp)])) cols.
Proof.
  intros HG Htmp Hpart Hl EU ED ESz EC ELR Hrow.
  pose proof HG as (HS & HR & HA & HC). set (c := length h) in *.
  set (rows0 := cur_rows rows part) in *.
  rewrite cur_rows_snoc.
  pose proof (Static_nodes_NoDup _ _ _ HS) as Hnd0.
  assert (forall a, a ∈ root :: cols ++ (concat rows0).*1 -> a < c) as Hb.
  { intros a Ha. by apply (Static_lt _ _ _ _ HS). }
  assert ((concat rows0).*1 = (concat rows).*1 ++ part.*1) as Enodes.
  { unfold rows0. by rewrite concat_cur_rows, fmap_app. }
  assert ((concat (rows ++ [part ++ [(c, tmp)]])).*1 = (concat rows0).*1 ++ [c])
    as Enodes1.
  { rewrite concat_app. simpl. rewrite app_nil_r, Enodes, !fmap_app.
    by rewrite <- app_assoc. }
  assert (forall ρ, ρ ∈ rows -> ρ ∈ rows0) as Hsub.
  { intros ρ Hr. apply elem_cur_rows. by left. }
  assert (forall ρ a, ρ ∈ rows -> a ∈ ρ.*1 -> (a ∉ part.*1) /\ a <> c) as Hother.
  { intros ρ a Hr Ha. split.
    - rewrite Enodes in Hnd0. apply NoDup_app in Hnd0 as (_ & Hdisj & _).
      apply Hdisj. apply list_elem_of_fmap in Ha as (p & -> & Hp).
      apply list_elem_of_fmap. exists p. split; [done|].
      apply elem_of_concat. by exists ρ.
    - intros ->. assert (c < c); [|lia]. apply Hb.
      apply list_elem_of_further. apply elem_of_app. right. rewrite Enodes.
      apply elem_of_app. left. apply list_elem_of_fmap in Ha as (p & -> & Hp).
      apply list_elem_of_fmap. exists p. split; [done|].
      apply elem_of_concat. by exists ρ. }
  assert (forall a, a ∈ root :: cols -> (a ∉ part.*1) /\ a <> c) as Hhead.
  { intros a Ha. split.
    - intros Hin. destruct HS as (Hnd & _).
      assert (a ∈ (concat rows0).*1) as Hin'.
      { rewrite Enodes. apply elem_of_app. by right. }
      apply NoDup_cons in Hnd as [Hroot Hnd].
      apply elem_of_cons in Ha as [->|Ha].
      + apply Hroot. apply elem_of_app. by right.
      + apply NoDup_app in Hnd as (_ & Hdisj & _). by apply (Hdisj a).
    - intros ->. assert (c < c); [|lia]. apply Hb. by apply elem_all_head. }
  assert (Static h' cols (rows ++ [part ++ [(c, tmp)]])) as HS'.
  { pose proof HS as (Hnd & Hbd & Hrows). split_and!.
    - rewrite Enodes1.
      replace (root :: cols ++ (concat rows0).*1 ++ [c])
        with ((root :: cols ++ (concat rows0).*1) ++ [c])
        by (simpl; by rewrite <- app_assoc).
      apply NoDup_app. split_and!; [done| |apply NoDup_singleton].
      intros x Hx Hx'. apply list_elem_of_singleton in Hx'. subst x.
      specialize (Hb c Hx). lia.
    - intros a Ha. rewrite Enodes1 in Ha. rewrite Hl.
      replace (root :: cols ++ (concat rows0).*1 ++ [c])
        with ((root :: cols ++ (concat rows0).*1) ++ [c]) in Ha
        by (simpl; by rewrite <- app_assoc).
      apply elem_of_app in Ha as [Ha|Ha]; [specialize (Hb a Ha); lia|].
      apply list_elem_of_singleton in Ha. lia.
    - apply Forall_app. split; [|by apply Forall_singleton].
      rewrite Forall_forall in *. intros ρ Hr.
      destruct (Hrows ρ (Hsub ρ Hr)) as (H1 & H2 & H3). split_and!; [|done|].
      + destruct (ρ.*1) as [|a l] eqn:Eρ; [done|].
        eapply ring_ext; [|exact H1]. intros b Hb'. cbv beta.
        destruct (Hother ρ b Hr) as [N1 N2]; [by rewrite Eρ|].
        destruct (ELR b N1 N2) as [-> ->]. done.
      + intros a ca Hin. destruct (H3 a ca Hin) as [H4 H5]. split; [|done].
        destruct (Hother ρ a Hr) as [N1 N2].
        { apply list_elem_of_fmap. by exists (a, ca). }
        rewrite EC. by rewrite decide_False. }
  split_and!; [done| |done|].
  - eapply ring_ext; [|exact HR]. intros a Ha. cbv beta.
    destruct (Hhead a Ha) as [N1 N2]. destruct (ELR a N1 N2) as [-> ->]. done.
  - destruct (HC tmp Htmp) as (V & HV & HSzV & HVm).
    assert (forall x, x ∈ tmp :: V -> in_col rows0 tmp x) as HVcol.
    { intros x Hx. apply elem_of_cons in Hx as [->|Hx]; [by left|].
      right. apply HVm in Hx as (ρ' & ? & ? & _). by exists ρ'. }
    assert (U (get h tmp) ∈ tmp :: V) as Hu.
    { pose proof (ring_last _ _ _ _ HV) as E. cbv beta in E. rewrite E.
      destruct (last V) as [x|] eqn:El; simpl; [|apply list_elem_of_here].
      apply list_elem_of_further. apply last_Some in El as (l' & ->).
      apply elem_of_app. right. apply list_elem_of_here. }
    assert (forall x d, in_col rows0 d x -> d ∈ cols -> x < c) as Hcol_lt.
    { intros x d Hx Hd. by eapply (in_col_lt h cols rows0 d). }
    assert (U (get h tmp) < c) as Huc by (eapply Hcol_lt; [by apply HVcol|done]).
    assert (tmp < c) as Htc.
    { apply Hb. apply list_elem_of_further. apply elem_of_app. by left. }
    intros d Hd. destruct (decide (d = tmp)) as [->|Hne].
    + exists (V ++ [c]). split_and!.
      * eapply ring_snoc; [exact HV|..]; cbv beta.
        -- intros Hin. pose proof (Hcol_lt c tmp (HVcol c Hin) Htmp). lia.
        -- rewrite ED. rewrite decide_False by lia. by rewrite decide_True.
        -- rewrite EU. rewrite decide_False by lia. by rewrite decide_True.
        -- rewrite ED. by rewrite decide_True.
        -- rewrite EU. by rewrite decide_True.
        -- intros a Ha1 Ha2. rewrite ED. by rewrite !decide_False.
        -- intros a Ha1 Ha2. rewrite EU. by rewrite !decide_False.
      * rewrite ESz by lia. rewrite decide_True by done.
        rewrite HSzV, length_app. simpl. lia.
      * intros a. rewrite elem_of_app, list_elem_of_singleton, HVm. split.
        -- intros [(ρ & Hr & Hin & Hact)| ->].
           ++ apply elem_cur_rows in Hr as [Hr|[_ ->]].
              ** exists ρ. split_and!; [|done|done]. apply elem_of_app. by left.
              ** exfalso. apply Hpart. apply list_elem_of_fmap. by exists (a, tmp).
           ++ exists (part ++ [(c, tmp)]). split_and!.
              ** apply elem_of_app. right. apply list_elem_of_here.
              ** apply elem_of_app. right. apply list_elem_of_here.
              ** eapply Static_active; [exact HS'|].
                 apply elem_of_app. right. apply list_elem_of_here.
        -- intros (ρ & Hr & Hin & Hact).
           apply elem_of_app in Hr as [Hr|Hr].
           ++ left. exists ρ. split_and!; [by apply Hsub|done|].
              eapply Static_active; [exact HS|by apply Hsub].
           ++ apply list_elem_of_singleton in Hr. subst ρ.
              apply elem_of_app in Hin as [Hin|Hin].
              ** exfalso. apply Hpart. apply list_elem_of_fmap. by exists (a, tmp).
              ** apply list_elem_of_singleton in Hin. injection Hin as E. by right.
    + destruct (HC d Hd) as (Vd & HVd & HSzd & HVmd).
      assert (forall x, x ∈ d :: Vd -> in_col rows0 d x) as HVdcol.
      { intros x Hx. apply elem_of_cons in Hx as [->|Hx]; [by left|].
        right. apply HVmd in Hx as (ρ' & ? & ? & _). by exists ρ'. }
      exists Vd. split_and!.
      * eapply ring_ext; [|exact HVd]. intros a Ha. cbv beta.
        assert (a <> c) as N1.
        { intros ->. pose proof (Hcol_lt c d (HVdcol c Ha) Hd). lia. }
        assert (a <> tmp) as N2.
        { intros ->. apply Hne.
          eapply (in_col_inj h cols rows0 d tmp tmp); eauto. by left. }
        assert (a <> U (get h tmp)) as N3.
        { intros ->. apply Hne.
          eapply (in_col_inj h cols rows0 d tmp (U (get h tmp))); eauto. }
        rewrite EU, ED. by rewrite !decide_False.
      * assert (d <> c) as N1.
        { intros ->. pose proof (Hcol_lt c c (or_introl eq_refl) Hd). lia. }
        rewrite ESz by done. by rewrite decide_False.
      * intros a. rewrite HVmd. split.
        -- intros (ρ & Hr & Hin & Hact).
           apply elem_cur_rows in Hr as [Hr|[Hne' ->]].
           ++ exists ρ. split_and!; [|done|done]. apply elem_of_app. by left.
           ++ exists (part ++ [(c, tmp)]). split_and!.
              ** apply elem_of_app. right. apply list_elem_of_here.
              ** apply elem_of_app. by left.
              ** eapply Static_active; [exact HS'|].
                 apply elem_of_app. right. apply list_elem_of_here.
        -- intros (ρ & Hr & Hin & Hact).
           apply elem_of_app in Hr as [Hr|Hr].
           ++ exists ρ. split_and!; [by apply Hsub|done|].
              eapply Static_active; [exact HS|by apply Hsub].
           ++ apply list_elem_of_singleton in Hr. subst ρ.
              apply elem_of_app in Hin as [Hin|Hin].
              ** exists part. split_and!; [|done|].
                 --- apply elem_cur_rows. right. split; [|done].
                     intros ->. by apply elem_of_nil in Hin.
                 --- eapply Static_active; [exact HS|].
                     apply elem_cur_rows. right. split; [|done].
                     intros ->. by apply elem_of_nil in Hin.
              ** apply list_elem_of_singleton in Hin. injection Hin as E1 E2. done.
Qed.


Lemma Good_col_up h cols rows tmp :
  Good h cols rows cols -> tmp ∈ cols ->
  tmp < length h /\ U (get h tmp) < length h.
Proof.
  intros (HS & HR & HA & HC) Htmp.
  destruct (HC tmp Htmp) as (V & HV & _ & HVm).
  assert (tmp < length h) as Ht.
  { apply (Static_lt _ _ _ _ HS). apply list_elem_of_further.
    apply elem_of_app. by left. }
  split; [done|].
  pose proof (ring_last _ _ _ _ HV) as E. cbv beta in E. rewrite E.
  destruct (last V) as [x|] eqn:El; simpl; [|done].
  apply last_Some in El as (l' & ->).
  assert (x ∈ l' ++ [x]) as Hx by (apply elem_of_app; right; apply list_elem_of_here).
  apply HVm in Hx as (ρ & Hr & Hin & _).
  eapply (in_col_lt h cols rows tmp); [done|done|]. right. by exists ρ.
Qed.

Lemma last_cons_default {A} (x : A) l : last (x :: l) = Some (default x (last l)).
Proof. rewrite last_cons. by destruct (last l). Qed.

(** One turn of the loop of [addRow]: the node of the column [tmp] is added to
    the row that is being entered. *)
Lemma addRow_step_Good h cols rows part k tmp :
  Good h cols (cur_rows rows part) cols -> cols !! k = Some tmp ->
  (tmp ∉ part.*2) ->
  exists st',
    addRow_step cols (Some {| rs_heap := h; rs_first := head part.*1;
                              rs_last := last part.*1 |}) k = Some st' /\
    Good (rs_heap st') cols (cur_rows rows (part ++ [(length h, tmp)])) cols /\
    rs_first st' = head (part ++ [(length h, tmp)]).*1 /\
    rs_last st' = last (part ++ [(length h, tmp)]).*1 /\
    length (rs_heap st') = S (length h).
Proof.
  intros HG Hk Hpart. rewrite (addRow_step_eq _ _ _ _ _ _ Hk).
  eexists. split; [reflexivity|]. cbn [rs_heap rs_first rs_last].
  assert (tmp ∈ cols) as Htmp by (by eapply list_elem_of_lookup_2).
  destruct (Good_col_up _ _ _ _ HG Htmp) as [Ht Hu].
  destruct (new_node_fields h tmp Ht Hu) as (Hl & EU & ED & ESz & EC & EL & ER).
  cbv zeta in Hl, EU, ED, ESz, EC, EL, ER.
  set (c := length h) in *. set (h8 := new_node tmp h) in *.
  destruct part as [|[f cf] rest]; cbn [head last fmap list_fmap fst app].
  - split_and!; [|done|done|done].
    apply (node_frame h h8 cols rows [] tmp); try done.
    + intros a _ Ha. rewrite EL, ER. by rewrite !decide_False.
    + split_and!.
      * simpl. split; [|apply NoDup_singleton]. simpl.
        rewrite EL, ER. by rewrite !decide_True.
      * apply NoDup_singleton.
      * intros a ca Hin. apply list_elem_of_singleton in Hin.
        injection Hin as E1 E2. subst. rewrite EC. by rewrite decide_True.
  - pose proof HG as (HS & _).
    assert ((f, cf) :: rest ∈ cur_rows rows ((f, cf) :: rest)) as Hin0.
    { apply elem_cur_rows. by right. }
    pose proof HS as (_ & _ & Hrows). rewrite Forall_forall in Hrows.
    destruct (Hrows _ Hin0) as (Hring & Hnd & HCs).
    cbn [fmap list_fmap fst] in Hring.
    pose proof (ring_last _ _ _ _ Hring) as Elast. cbv beta in Elast.
    rewrite last_cons_default. rewrite <- Elast.
    set (l := L (get h f)) in *.
    assert (forall a, a ∈ ((f, cf) :: rest).*1 -> a < c) as Hnodes.
    { intros a Ha. apply (Static_lt _ _ _ _ HS). apply list_elem_of_further.
      apply elem_of_app. right. rewrite concat_cur_rows, fmap_app.
      apply elem_of_app. by right. }
    assert (f ∈ ((f, cf) :: rest).*1) as Hf by apply list_elem_of_here.
    assert (l ∈ ((f, cf) :: rest).*1) as Hlin.
    { cbn [fmap list_fmap fst]. subst l. rewrite Elast.
      destruct (last rest.*1) as [x|] eqn:El; simpl; [|apply list_elem_of_here].
      apply list_elem_of_further. apply last_Some in El as (l' & ->).
      apply elem_of_app. right. apply list_elem_of_here. }
    pose proof (Hnodes f Hf) as Hfc. pose proof (Hnodes l Hlin) as Hlc.
    set (h' := set_L f c (set_R c f (set_R l c (set_L c l h8)))).
    assert (length h' = S c) as Hl' by (unfold h'; by autorewrite with arena).
    assert (forall a, L (get h' a) =
              if decide (a = f) then c else if decide (a = c) then l
              else L (get h a)) as EL'.
    { intros a. unfold h'. autorewrite with arena.
      repeat case_decide; try done; try lia. rewrite EL. by rewrite decide_False. }
    assert (forall a, R (get h' a) =
              if decide (a = c) then f else if decide (a = l) then c
              else R (get h a)) as ER'.
    { intros a. unfold h'. autorewrite with arena.
      repeat case_decide; try done; try lia. rewrite ER. by rewrite decide_False. }
    split_and!.
    + apply (node_frame h h' cols rows ((f, cf) :: rest) tmp); try done.
      * intros a. unfold h'. autorewrite with arena. apply EU.
      * intros a. unfold h'. autorewrite with arena. apply ED.
      * intros a Ha. unfold h'. autorewrite with arena. by apply ESz.
      * intros a. unfold h'. autorewrite with arena. apply EC.
      * intros a Ha1 Ha2. rewrite EL', ER'.
        assert (a <> f) by (intros ->; by apply Ha1).
        assert (a <> l) by (intros ->; by apply Ha1).
        by rewrite !decide_False.
      * split_and!.
        -- cbn [app fmap list_fmap fst]. rewrite fmap_app. cbn [fmap list_fmap fst].
           eapply ring_snoc; [exact Hring|..]; cbv beta.
           ++ intros Hin. pose proof (Hnodes c Hin). lia.
           ++ rewrite ER'. by rewrite decide_True.
           ++ rewrite EL'. rewrite decide_False by lia. by rewrite decide_True.
           ++ fold l. rewrite ER'. rewrite decide_False by lia. by rewrite decide_True.
           ++ rewrite EL'. by rewrite decide_True.
           ++ fold l. intros a Ha1 Ha2. rewrite ER'. by rewrite !decide_False.
           ++ intros a Ha1 Ha2. rewrite EL'. by rewrite !decide_False.
        -- change (((f, cf) :: rest) ++ [(c, tmp)]) with (((f, cf) :: rest) ++ [(c, tmp)]).
           rewrite fmap_app. apply NoDup_app. split_and!; [done| |apply NoDup_singleton].
           intros x Hx Hx'. apply list_elem_of_singleton in Hx'. by subst.
        -- intros a ca Hin.
           change ((f, cf) :: rest ++ [(c, tmp)]) with (((f, cf) :: rest) ++ [(c, tmp)]) in Hin.
           apply elem_of_app in Hin as [Hin|Hin].
           ++ destruct (HCs a ca Hin) as [H1 H2]. split; [|done].
              assert (a < c) as Hac.
              { apply Hnodes. apply list_elem_of_fmap. by exists (a, ca). }
              unfold h'. autorewrite with arena. rewrite EC.
              by rewrite decide_False by lia.
           ++ apply list_elem_of_singleton in Hin. injection Hin as E1 E2. subst.
              unfold h'. autorewrite with arena. rewrite EC. by rewrite decide_True.
    + done.
    + rewrite fmap_app. cbn [fmap list_fmap fst].
      change (f :: rest.*1 ++ [c]) with ((f :: rest.*1) ++ [c]).
      by rewrite last_snoc.
    + done.
Qed.


Lemma Good_cols_NoDup h cols rows A : Good h cols rows A -> NoDup cols.
Proof.
  intros ((Hnd & _) & _). apply NoDup_cons in Hnd as [_ Hnd].
  by apply NoDup_app in Hnd as (? & _).
Qed.

(** The loop of [addRow] from any turn on. *)
Lemma addRow_fold cols rows values :
  forall part h,
  Good h cols (cur_rows rows part) cols ->
  NoDup values -> (forall k, k ∈ values -> k < length cols) ->
  (forall k, k ∈ values -> default 0 (cols !! k) ∉ part.*2) ->
  exists st',
    fold_left (addRow_step cols) values
      (Some {| rs_heap := h; rs_first := head part.*1; rs_last := last part.*1 |})
    = Some st' /\
    Good (rs_heap st') cols
      (cur_rows rows
         (part ++ zip (seq (length h) (length values))
                      (map (fun k => default 0 (cols !! k)) values))) cols /\
    length (rs_heap st') = length h + length values.
Proof.
  induction values as [|k vs IH]; intros part h HG Hnd Hlt Hfresh.
  - eexists. split; [reflexivity|]. simpl. rewrite app_nil_r.
    split; [done|lia].
  - apply NoDup_cons in Hnd as [Hk Hnd].
    destruct (lookup_lt_is_Some_2 cols k) as [tmp Etmp].
    { apply Hlt. apply list_elem_of_here. }
    assert (tmp ∉ part.*2) as Htmp.
    { specialize (Hfresh k (list_elem_of_here _ _)). by rewrite Etmp in Hfresh. }
    destruct (addRow_step_Good _ _ _ _ _ _ HG Etmp Htmp)
      as (st1 & E1 & HG1 & Ef & El & Hl1).
    destruct st1 as [h1 f1 l1]. cbn [rs_heap rs_first rs_last] in *. subst f1 l1.
    destruct (IH (part ++ [(length h, tmp)]) h1 HG1 Hnd) as (st' & E' & HG' & Hl').
    { intros k' Hk'. apply Hlt. by apply list_elem_of_further. }
    { intros k' Hk'. rewrite fmap_app. intros Hin.
      apply elem_of_app in Hin as [Hin|Hin].
      - apply (Hfresh k'); [by apply list_elem_of_further|done].
      - apply list_elem_of_singleton in Hin.
        destruct (lookup_lt_is_Some_2 cols k') as [tmp' Etmp'].
        { apply Hlt. by apply list_elem_of_further. }
        rewrite Etmp' in Hin. simpl in Hin. subst tmp'.
        pose proof (Good_cols_NoDup _ _ _ _ HG) as Hc.
        pose proof (NoDup_lookup _ _ _ _ Hc Etmp Etmp'). by subst. }
    exists st'. split_and!.
    + cbn [fold_left]. rewrite E1. exact E'.
    + rewrite Hl1 in HG'. cbn [length seq map zip zip_with].
      rewrite Etmp. cbn [default]. rewrite <- app_assoc in HG'. exact HG'.
    + rewrite Hl', Hl1. simpl. lia.
Qed.

Lemma row_values_ok_spec n values :
  row_values_ok n values = true ->
  NoDup values /\ (forall k, k ∈ values -> k < n) /\ values <> [].
Proof.
  unfold row_values_ok. rewrite !andb_true_iff, negb_true_iff.
  intros [[H1 H2] H3]. apply bool_decide_eq_true in H1.
  apply bool_decide_eq_false in H3. split_and!; [done| |done].
  intros k Hk. rewrite forallb_forall in H2.
  apply Nat.ltb_lt. apply H2. by apply list_elem_of_In.
Qed.

(** [addRow] enters one more row. *)
Lemma addRow_Built d cols rows values :
  Built d cols rows -> row_values_ok (length cols) values = true ->
  exists d',
    addRow values d = Some d' /\
    Built d' cols
      (rows ++ [zip (seq (length (heap d)) (length values))
                    (map (fun k => default 0 (cols !! k)) values)]) /\
    length (heap d') = length (heap d) + length values /\
    O d' = O d.
Proof.
  intros (HG & Hc & Hla) Hok.
  apply row_values_ok_spec in Hok as (Hnd & Hlt & Hne).
  destruct (addRow_fold cols rows values [] (heap d)) as (st' & E & HG' & Hl);
    try done.
  { intros k _. apply not_elem_of_nil. }
  unfold addRow. rewrite Hc. cbn [fmap list_fmap head last] in E. rewrite E.
  eexists. split; [reflexivity|]. cbn [app] in HG'.
  split_and!; [|done|done].
  split_and!; [|done|done]. cbn [heap with_heap].
  destruct values as [|k vs]; [done|]. exact HG'.
Qed.

Lemma new_Built : Built new [] [].
Proof.
  split_and!; [|done|done]. split_and!.
  - split_and!.
    + simpl. apply NoDup_singleton.
    + intros a Ha. simpl in Ha. apply list_elem_of_singleton in Ha. subst. unfold root. simpl. lia.
    + constructor.
  - split; [|apply NoDup_singleton]. by split.
  - done.
  - intros d Hd. by apply elem_of_nil in Hd.
Qed.

Lemma add_columns_None n : fold_left (fun d _ => d ≫= addColumn) (seq 0 n) None = None.
Proof. generalize 0. induction n as [|n IH]; intros s; [done|]. simpl. apply IH. Qed.

Lemma add_columns_shift n : forall s s' (x : option t),
  fold_left (fun d (_ : nat) => d ≫= addColumn) (seq s n) x =
  fold_left (fun d (_ : nat) => d ≫= addColumn) (seq s' n) x.
Proof.
  induction n as [|n IH]; intros s s' x; [done|]. simpl. apply IH.
Qed.

(** [n] calls of [addColumn]. *)
Lemma add_columns_Built n : forall d cols rows,
  Built d cols rows -> length cols + n <= MAX_COLUMNS ->
  exists d',
    add_columns n d = Some d' /\
    Built d' (cols ++ seq (length (heap d)) n) rows /\
    length (heap d') = length (heap d) + n /\ O d' = O d.
Proof.
  induction n as [|n IH]; intros d cols rows HB Hn.
  - exists d. split; [done|]. simpl. rewrite app_nil_r. split; [done|]. split; [lia|done].
  - destruct (addColumn_Built d cols rows HB) as (d1 & E1 & HB1 & Hl1); [lia|].
    destruct (IH d1 _ rows HB1) as (d' & E' & HB' & Hl' & HO').
    { rewrite length_app. simpl. lia. }
    exists d'. split_and!.
    + unfold add_columns in *. cbn [seq fold_left]. cbn [mbind option_bind].
      rewrite E1. rewrite (add_columns_shift n 1 0). exact E'.
    + rewrite Hl1 in HB'. rewrite <- app_assoc in HB'. exact HB'.
    + lia.
    + rewrite HO'. unfold addColumn in E1. destruct (MAX_COLUMNS <=? _); [done|].
      injection E1 as <-. done.
Qed.

(** One [addRow] for each list of column numbers. *)
Lemma add_rows_Built cols valss : forall d rows,
  Built d cols rows -> forallb (row_values_ok (length cols)) valss = true ->
  exists d',
    add_rows valss d = Some d' /\
    Built d' cols (rows ++ number_rows cols (length (heap d)) valss) /\
    O d' = O d.
Proof.
  induction valss as [|values rest IH]; intros d rows HB Hok.
  - exists d. split; [done|]. simpl. by rewrite app_nil_r.
  - simpl in Hok. apply andb_true_iff in Hok as [Hok1 Hok2].
    destruct (addRow_Built d cols rows values HB Hok1) as (d1 & E1 & HB1 & Hl1 & HO1).
    destruct (IH d1 _ HB1 Hok2) as (d' & E' & HB' & HO').
    exists d'. split_and!.
    + unfold add_rows in *. cbn [fold_left]. cbn [mbind option_bind].
      rewrite E1. exact E'.
    + rewrite Hl1 in HB'. rewrite <- app_assoc in HB'. exact HB'.
    + by rewrite HO'.
Qed.

(** The matrix of [n] columns and the rows [valss] as the calls of
    [addColumn] and [addRow] leave it. *)
Lemma build_matrix_Built n valss :
  n <= MAX_COLUMNS -> forallb (row_values_ok n) valss = true ->
  exists d,
    build_matrix n valss = Some d /\
    Built d (seq 1 n) (number_rows (seq 1 n) (S n) valss) /\
    O d = replicate MAX_ROW_BUF 0.
Proof.
  intros Hn Hok.
  destruct (add_columns_Built n new [] [] new_Built) as (d1 & E1 & HB1 & Hl1 & HO1);
    [simpl; lia|].
  cbn [app heap new length] in HB1, Hl1.
  destruct (add_rows_Built (seq 1 n) valss d1 [] HB1) as (d & E & HB & HO).
  { by rewrite length_seq. }
  exists d. split_and!.
  - unfold build_matrix. rewrite E1. exact E.
  - rewrite Hl1 in HB. exact HB.
  - by rewrite HO, HO1.
Qed.

End DLX_build.

(** ** Dancing links: the search *)

Module DLX_search.
Import DLX DLX_arena DLX_ring DLX_rows DLX_node DLX_mid DLX_cover DLX_build.

#[local] Set Warnings "-clear-no-such-hyp".

Lemma Good_NoDup h cols rows A : Good h cols rows A -> NoDup (root :: A).
Proof. by intros (_ & [_ ?] & _). Qed.

(** A sequence of calls of [cover] and the calls of [uncover] that undo
    it. *)
Lemma covers_spec cols rows ds : forall h B,
  Good h cols rows B -> NoDup ds -> (forall d, d ∈ ds -> d ∈ B) ->
  exists h', covers ds h = Some h' /\
    Good h' cols rows (filter (fun x => x ∉ ds) B) /\
    uncovers ds h' = Some h /\ length h' = length h.
Proof.
  induction ds as [|d ds IH]; intros h B HG Hnd Hsub.
  - exists h. split_and!; try done. rewrite filter_all; [done|].
    apply Forall_forall. intros x _. apply not_elem_of_nil.
  - apply NoDup_cons in Hnd as [Hd Hnd].
    destruct (list_elem_of_split B d) as (l1 & l2 & ->);
      [apply Hsub, list_elem_of_here|].
    pose proof (Good_NoDup _ _ _ _ HG) as HndB.
    apply NoDup_cons in HndB as [_ HndB].
    destruct (cover_spec _ _ _ _ _ _ HG) as (h1 & Vc & E1 & HG1 & _ & _ & Hun & Hl1).
    destruct (IH h1 (l1 ++ l2) HG1 Hnd) as (h' & E' & HG' & Hun' & Hl').
    { intros d' Hd'. specialize (Hsub d' (list_elem_of_further _ _ _ Hd')).
      rewrite <- (filter_remove d l1 l2 HndB). apply list_elem_of_filter.
      split; [|done]. intros ->. done. }
    exists h'. split_and!.
    + simpl. rewrite E1. exact E'.
    + rewrite <- (filter_remove d l1 l2 HndB), list_filter_filter in HG'.
      erewrite list_filter_iff; [exact HG'|].
      intros x. cbv beta. rewrite not_elem_of_cons. tauto.
    + simpl. rewrite Hun'. exact Hun.
    + lia.
Qed.

Lemma covers_app ds1 : forall ds2 h,
  covers (ds1 ++ ds2) h = covers ds1 h ≫= covers ds2.
Proof.
  induction ds1 as [|d ds1 IH]; intros ds2 h; [done|]. simpl.
  destruct (cover d h) as [h1|]; [|done]. simpl. apply IH.
Qed.


Lemma fst_split (os : list (nat * nat)) l1 x l2 :
  os.*1 = l1 ++ x :: l2 ->
  exists o1 d o2, os = o1 ++ (x, d) :: o2 /\ o1.*1 = l1 /\ o2.*1 = l2.
Proof.
  intros E. apply fmap_app_inv in E as (o1 & o2' & -> & E2 & ->).
  symmetry in E2. apply fmap_cons_inv in E2 as ([x' d] & o2 & -> & -> & ->).
  by exists o1, d, o2.
Qed.

(** The loops of [_search] over the other nodes of the row of [r]. *)
Section row_loops.
Variables (h : arena) (cols : list nat) (rows : list (list (nat * nat))).
Variables (B : list nat) (ρ : list (nat * nat)) (r c : nat).
Hypothesis HG : Good h cols rows B.
Hypothesis Hρ : ρ ∈ rows.
Hypothesis Hr : (r, c) ∈ ρ.
Hypothesis Hsub : forall d, d ∈ (others rows r).*2 -> d ∈ B.

Lemma others_in o1 x d o2 :
  others rows r = o1 ++ (x, d) :: o2 -> (x, d) ∈ ρ.
Proof.
  intros E. pose proof HG as (HS & _).
  pose proof (Static_nodes_NoDup _ _ _ HS) as Hnd.
  destruct (list_elem_of_split _ _ Hr) as (r1 & r2 & ->).
  rewrite (others_spec rows r1 r c r2 Hnd Hρ) in E.
  assert ((x, d) ∈ r2 ++ r1) as Hin.
  { rewrite E. apply elem_of_app. right. apply list_elem_of_here. }
  apply elem_of_app in Hin as [Hin|Hin].
  - apply elem_of_app. right. by apply list_elem_of_further.
  - apply elem_of_app. by left.
Qed.

Lemma others_cols_NoDup : NoDup (others rows r).*2.
Proof.
  pose proof HG as (HS & _).
  pose proof (Static_nodes_NoDup _ _ _ HS) as Hnd.
  destruct (list_elem_of_split _ _ Hr) as (r1 & r2 & E). subst ρ.
  rewrite (others_spec rows r1 r c r2 Hnd Hρ).
  destruct HS as (_ & _ & Hrows). rewrite Forall_forall in Hrows.
  destruct (Hrows _ Hρ) as (_ & Hnd2 & _).
  rewrite fmap_app in Hnd2. cbn [fmap list_fmap snd] in Hnd2.
  rewrite fmap_app. apply NoDup_app in Hnd2 as (N1 & N2 & N3).
  apply NoDup_cons in N3 as [N3 N4].
  apply NoDup_app. split_and!; [done| |done].
  intros x Hx1 Hx2. apply (N2 x Hx2). by apply list_elem_of_further.
Qed.

Lemma prefix_Good o1 o2 :
  others rows r = o1 ++ o2 ->
  exists hk, covers o1.*2 h = Some hk /\
    Good hk cols rows (filter (fun x => x ∉ o1.*2) B) /\
    uncovers o1.*2 hk = Some h /\ length hk = length h.
Proof.
  intros E. apply covers_spec; [done| |].
  - pose proof others_cols_NoDup as Hnd. rewrite E, fmap_app in Hnd.
    by apply NoDup_app in Hnd as (? & _).
  - intros d Hd. apply Hsub. rewrite E, fmap_app. apply elem_of_app. by left.
Qed.

Lemma prefix_step o1 x d o2 :
  others rows r = o1 ++ (x, d) :: o2 ->
  exists hm hk,
    covers o1.*2 h = Some hm /\ covers (o1 ++ [(x, d)]).*2 h = Some hk /\
    cover d hm = Some hk /\ uncover d hk = Some hm /\
    Static hm cols rows /\ Static hk cols rows /\
    length hm = length h /\ length hk = length h.
Proof.
  intros E.
  destruct (prefix_Good o1 ((x, d) :: o2) E) as (hm & Em & HGm & _ & Hlm).
  destruct (prefix_Good (o1 ++ [(x, d)]) o2) as (hk & Ek & HGk & _ & Hlk).
  { by rewrite <- app_assoc. }
  exists hm, hk.
  assert (cover d hm = Some hk) as Ec.
  { rewrite fmap_app, covers_app, Em in Ek. simpl in Ek.
    destruct (cover d hm); [|done]. exact Ek. }
  split_and!; try done; [|by destruct HGm|by destruct HGk].
  destruct (covers_spec cols rows [d] hm _ HGm) as (h' & E' & _ & Hun & _).
  - apply NoDup_singleton.
  - intros d' Hd'. apply list_elem_of_singleton in Hd'. subst d'.
    apply list_elem_of_filter. split.
    + pose proof others_cols_NoDup as Hnd. rewrite E, fmap_app in Hnd.
      apply NoDup_app in Hnd as (_ & Hnd & _). intros Hin. apply (Hnd d Hin).
      apply list_elem_of_here.
    + apply Hsub. rewrite E, fmap_app. apply elem_of_app. right.
      apply list_elem_of_here.
  - simpl in E', Hun. rewrite Ec in E'. simpl in E'.
    injection E' as <-. exact Hun.
Qed.

Lemma others_length : length (others rows r).*1 < S (length h).
Proof.
  pose proof HG as (HS & _).
  apply Nat.lt_succ_r. apply nat_list_bound.
  - eapply others_NoDup; eauto.
  - intros a Ha. destruct HS as (_ & Hb & _). apply Hb.
    apply list_elem_of_further. apply elem_of_app. right.
    eapply others_nodes; eauto. by destruct HG.
Qed.

Lemma cover_row_covers :
  exists h', cover_row r h = Some h' /\ covers (others rows r).*2 h = Some h'.
Proof.
  pose proof HG as (HS & _).
  pose proof (row_ring _ _ _ _ _ _ HS Hρ Hr) as Hring.
  unfold cover_row. rewrite (ring_head _ _ _ _ Hring).
  set (os := others rows r) in *.
  destruct (iter_inv
    (fun l1 l2 hk => covers (take (length l1) os).*2 h = Some hk)
    R r (fun j h => cover (C (get h j)) h) os.*1)
    with (h := h) (fuel := S (length h)) as (h' & Hit & HJ).
  - destruct Hring as [_ Hnd]. by apply NoDup_cons in Hnd as [? _].
  - intros l1 x l2 hk E HJ. apply fst_split in E as (o1 & d & o2 & E & <- & <-).
    destruct (prefix_step _ _ _ _ E) as (hm & hk' & Em & Ek & Ec & _ & HSm & HSk & _).
    rewrite length_fmap, E, take_app_length in HJ.
    rewrite Em in HJ. injection HJ as <-.
    pose proof (others_in _ _ _ _ E) as Hxd.
    destruct (Static_node _ _ _ _ _ _ HSm Hρ Hxd) as (_ & _ & _ & -> & _).
    exists hk'. split_and!; [done| |].
    + rewrite length_app, length_fmap. simpl. rewrite E.
      replace (o1 ++ (x, d) :: o2) with ((o1 ++ [(x, d)]) ++ o2)
        by (by rewrite <- app_assoc).
      rewrite take_app_length'; [done|]. rewrite length_app. simpl. lia.
    + pose proof (row_ring _ _ _ _ _ _ HSk Hρ Hr) as Hringk. fold os in Hringk.
      rewrite E, fmap_app in Hringk. cbn [fmap list_fmap fst] in Hringk.
      apply (ring_next _ _ _ _ _ _ Hringk).
  - done.
  - apply others_length.
  - exists h'. split; [done|]. rewrite take_ge in HJ; [done|].
    by rewrite length_fmap.
Qed.

Lemma uncover_row_covers h' :
  covers (others rows r).*2 h = Some h' -> uncover_row r h' = Some h.
Proof.
  intros Hcov. set (os := others rows r) in *.
  destruct (prefix_Good os []) as (h'' & E'' & HG' & _ & Hl'); [by rewrite app_nil_r|].
  rewrite Hcov in E''. injection E'' as <-.
  pose proof HG' as (HS' & _).
  pose proof (row_ring _ _ _ _ _ _ HS' Hρ Hr) as Hring. fold os in Hring.
  apply ring_rev in Hring.
  unfold uncover_row. rewrite (ring_head _ _ _ _ Hring), Hl'.
  destruct (iter_inv
    (fun l1 l2 hk => covers (take (length l2) os).*2 h = Some hk)
    L r (fun j h => uncover (C (get h j)) h) (reverse os.*1))
    with (h := h') (fuel := S (length h)) as (h2 & Hit & HJ).
  - destruct Hring as [_ Hnd]. by apply NoDup_cons in Hnd as [? _].
  - intros l1 x l2 hk E HJ.
    assert (os.*1 = reverse l2 ++ x :: reverse l1) as E1.
    { rewrite <- (reverse_involutive os.*1), E, reverse_app, reverse_cons.
      by rewrite <- app_assoc. }
    apply fst_split in E1 as (o1 & d & o2 & E1 & El2 & El1).
    assert (length l2 = length o1) as Hlen.
    { rewrite <- (length_reverse l2), <- El2. by rewrite length_fmap. }
    destruct (prefix_step _ _ _ _ E1) as (hm & hk' & Em & Ek & Ec & Hun & HSm & HSk & _).
    cbn [length] in HJ. rewrite Hlen, E1 in HJ.
    replace (o1 ++ (x, d) :: o2) with ((o1 ++ [(x, d)]) ++ o2) in HJ
      by (by rewrite <- app_assoc).
    rewrite take_app_length' in HJ by (rewrite length_app; simpl; lia).
    rewrite Ek in HJ. injection HJ as <-.
    pose proof (others_in _ _ _ _ E1) as Hxd.
    destruct (Static_node _ _ _ _ _ _ HSk Hρ Hxd) as (_ & _ & _ & -> & _).
    exists hm. split_and!; [done| |].
    + by rewrite Hlen, E1, take_app_length.
    + pose proof (row_ring _ _ _ _ _ _ HSm Hρ Hr) as Hringm. fold os in Hringm.
      apply ring_rev in Hringm. rewrite E in Hringm.
      apply (ring_next _ _ _ _ _ _ Hringm).
  - rewrite length_reverse, length_fmap, take_ge by done. exact Hcov.
  - rewrite length_reverse. apply others_length.
  - simpl in HJ. injection HJ as <-. exact Hit.
Qed.

End row_loops.


(** The column that [_search] chooses is one of the uncovered columns. *)
Lemma choose_spec h cols rows A :
  Good h cols rows A -> A <> [] -> exists c, choose h = Some c /\ c ∈ A.
Proof.
  intros HG HA. pose proof HG as (HS & HR & _).
  assert (forall l2 l1 c size fuel, A = l1 ++ l2 -> c ∈ A -> length l2 < fuel ->
    exists c', choose_loop fuel h (default root (head l2)) c size = Some c' /\
               c' ∈ A) as Hgen.
  { induction l2 as [|x l2 IH]; intros l1 c size fuel E Hc Hf.
    - destruct fuel as [|fuel]; [simpl in Hf; lia|].
      cbn [head default from_option id choose_loop]. rewrite Nat.eqb_refl. by exists c.
    - destruct fuel as [|fuel]; [simpl in Hf; lia|]. cbn [head default from_option id choose_loop].
      assert (x ∈ A) as Hx.
      { rewrite E. apply elem_of_app. right. apply list_elem_of_here. }
      destruct (Nat.eqb_spec x root) as [->|Hne].
      { exfalso. destruct HR as [_ Hnd]. by apply NoDup_cons in Hnd as [? _]. }
      assert (R (get h x) = default root (head l2)) as ->.
      { rewrite E in HR. apply (ring_next _ _ _ _ _ _ HR). }
      assert (A = (l1 ++ [x]) ++ l2) as E' by (by rewrite <- app_assoc).
      simpl in Hf.
      destruct (Sz (get h x) <? size)%Z; eapply IH; eauto; lia. }
  unfold choose. rewrite (ring_head _ _ _ _ HR).
  apply (Hgen A []); [done| |].
  - destruct A as [|a A']; [done|]. apply list_elem_of_here.
  - apply Nat.lt_succ_r. apply nat_list_bound.
    + destruct HR as [_ Hnd]. by apply NoDup_cons in Hnd as [_ ?].
    + intros a Ha. eapply Good_lt; [exact HG|]. by apply list_elem_of_further.
Qed.

(** Any column can be taken first in the search for an exact cover. *)
Lemma EC_choose rows A c :
  EC rows A -> c ∈ A ->
  exists ρ, ρ ∈ rows /\ c ∈ ρ /\ (forall d, d ∈ ρ -> d ∈ A) /\
    EC rows (filter (fun x => x ∉ ρ) A).
Proof.
  intros H. induction H as [|A ρ0 Hin Hne Hsub HEC IH]; intros Hc.
  - by apply elem_of_nil in Hc.
  - destruct (decide (c ∈ ρ0)) as [Hc0|Hc0]; [by exists ρ0|].
    destruct IH as (ρ & Hρ & Hcρ & Hρsub & HEC').
    { by apply list_elem_of_filter. }
    exists ρ. split_and!; [done|done| |].
    + intros d Hd. by apply Hρsub, list_elem_of_filter in Hd as [_ ?].
    + apply (EC_row rows _ ρ0); [done|done| |].
      * intros d Hd. apply list_elem_of_filter. split; [|by apply Hsub].
        intros Hd'. by apply Hρsub, list_elem_of_filter in Hd' as [? _].
      * rewrite list_filter_filter in *.
        erewrite list_filter_iff; [exact HEC'|]. intros x. cbv beta. tauto.
Qed.

Lemma others_cols h cols rows ρ r c x :
  Static h cols rows -> ρ ∈ rows -> (r, c) ∈ ρ ->
  x ∈ ρ.*2 <-> x = c \/ x ∈ (others rows r).*2.
Proof.
  intros HS Hρ Hr. pose proof (Static_nodes_NoDup _ _ _ HS) as Hnd.
  destruct (list_elem_of_split _ _ Hr) as (r1 & r2 & ->).
  rewrite (others_spec rows r1 r c r2 Hnd Hρ). rewrite !fmap_app.
  cbn [fmap list_fmap snd]. rewrite !elem_of_app, elem_of_cons. tauto.
Qed.


Lemma others_cols_ne h cols rows ρ r c :
  Static h cols rows -> ρ ∈ rows -> (r, c) ∈ ρ -> c ∉ (others rows r).*2.
Proof.
  intros HS Hρ Hr. pose proof (Static_nodes_NoDup _ _ _ HS) as Hnd.
  destruct (list_elem_of_split _ _ Hr) as (r1 & r2 & E). subst ρ.
  rewrite (others_spec rows r1 r c r2 Hnd Hρ).
  destruct HS as (_ & _ & Hrows). rewrite Forall_forall in Hrows.
  destruct (Hrows _ Hρ) as (_ & Hnd2 & _).
  rewrite fmap_app in Hnd2. cbn [fmap list_fmap snd] in Hnd2.
  apply NoDup_app in Hnd2 as (N1 & N2 & N3).
  apply NoDup_cons in N3 as [N3 N4].
  rewrite fmap_app. intros Hin. apply elem_of_app in Hin as [Hin|Hin]; [done|].
  apply (N2 c Hin). apply list_elem_of_here.
Qed.

Lemma filter_row h cols rows ρ r c l1 l2 :
  Static h cols rows -> ρ ∈ rows -> (r, c) ∈ ρ -> NoDup (l1 ++ c :: l2) ->
  filter (fun x => x ∉ (others rows r).*2) (l1 ++ l2) =
  filter (fun x => x ∉ ρ.*2) (l1 ++ c :: l2).
Proof.
  intros HS Hρ Hr Hnd. rewrite <- (filter_remove c l1 l2 Hnd).
  rewrite list_filter_filter. apply list_filter_iff. intros x. cbv beta.
  rewrite (others_cols _ _ _ _ _ _ x HS Hρ Hr).
  destruct (decide (x = c)); tauto.
Qed.

Lemma length_remove_lt {X} (l1 l2 : list X) c : length (l1 ++ l2) < length (l1 ++ c :: l2).
Proof. rewrite !length_app. simpl. lia. Qed.

Section search.
Variables (cols : list nat) (rows : list (list (nat * nat))).

(** The loop of [_search] over the rows of the chosen column. *)
Lemma rows_loop_spec (search : nat -> t -> option t) l1 c l2 h1 Vc k :
  NoDup (l1 ++ c :: l2) ->
  Good h1 cols rows (l1 ++ l2) -> vring h1 c Vc ->
  (forall a, a ∈ Vc <->
     exists ρ, ρ ∈ rows /\ (a, c) ∈ ρ /\ active (l1 ++ c :: l2) ρ) ->
  k + length (l1 ++ c :: l2) <= MAX_ROW_BUF ->
  (forall k' d A', length A' < length (l1 ++ c :: l2) ->
     search_pre cols rows A' k' d ->
     exists d', search k' d = Some d' /\ search_post rows A' k' d d') ->
  forall v2 v1 d fuel,
  Vc = v1 ++ v2 -> heap d = h1 -> length (O d) = MAX_ROW_BUF ->
  (all_solutions d = true \/ solutions d = 0%Z) -> length v2 < fuel ->
  exists d',
    rows_loop search fuel k c (default c (head v2)) d = Some d' /\
    heap d' = h1 /\ take k (O d') = take k (O d) /\
    length (O d') = length (O d) /\
    last_added d' = last_added d /\ column_array d' = column_array d /\
    all_solutions d' = all_solutions d /\
    (solutions d <= solutions d')%Z /\
    ((solutions d < solutions d')%Z <->
     exists r, r ∈ v2 /\
       EC (row_cols rows)
          (filter (fun x => x ∉ (row_of rows r).*2) (l1 ++ c :: l2))) /\
    (all_solutions d = false -> (solutions d' <= solutions d + 1)%Z).
Proof.
  intros HndA HG1 HVc HVm Hk Hsearch.
  pose proof HG1 as (HS1 & _).
  pose proof (Static_nodes_NoDup _ _ _ HS1) as Hnodes.
  induction v2 as [|r v2 IH]; intros v1 d fuel EV Hh HO Hmode Hf.
  - destruct fuel as [|fuel]; [simpl in Hf; lia|].
    cbn [head default from_option id rows_loop]. rewrite Nat.eqb_refl.
    exists d. split_and!; try done; try lia.
    split; [lia|]. intros (r & Hr & _). by apply elem_of_nil in Hr.
  - destruct fuel as [|fuel]; [simpl in Hf; lia|].
    cbn [head default from_option id rows_loop].
    assert (r ∈ Vc) as HrV.
    { rewrite EV. apply elem_of_app. right. apply list_elem_of_here. }
    destruct (Nat.eqb_spec r c) as [->|Hrc].
    { exfalso. destruct HVc as [_ Hnd]. by apply NoDup_cons in Hnd as [? _]. }
    assert (k < MAX_ROW_BUF) as Hk'.
    { rewrite length_app in Hk. simpl in Hk. lia. }
    destruct (Nat.leb_spec MAX_ROW_BUF k) as [?|_]; [lia|].
    destruct (proj1 (HVm r) HrV) as (ρ & Hρ & Hr & Hact).
    assert (row_of rows r = ρ) as Erow.
    { apply row_of_spec; [done|done|]. apply list_elem_of_fmap. by exists (r, c). }
    assert (forall d0, d0 ∈ (others rows r).*2 -> d0 ∈ l1 ++ l2) as Hsub.
    { intros d0 Hd0. rewrite <- (filter_remove c l1 l2 HndA).
      apply list_elem_of_filter. split.
      - intros ->. by apply (others_cols_ne _ _ _ _ _ _ HS1 Hρ Hr).
      - apply Hact. apply (others_cols _ _ _ _ _ _ d0 HS1 Hρ Hr). by right. }
    cbn [heap]. rewrite Hh.
    destruct (cover_row_covers h1 cols rows (l1 ++ l2) ρ r c HG1 Hρ Hr Hsub)
      as (h2 & Ecr & Ecov).
    rewrite Ecr.
    destruct (prefix_Good h1 cols rows (l1 ++ l2) ρ r c HG1 Hρ Hr Hsub
                (others rows r) []) as (h2' & E2' & HG2 & _ & Hl2);
      [by rewrite app_nil_r|].
    rewrite Ecov in E2'. injection E2' as <-.
    pose proof (uncover_row_covers h1 cols rows (l1 ++ l2) ρ r c HG1 Hρ Hr Hsub
                  h2 Ecov) as Eun.
    set (d0 := with_heap h2 _).
    set (A2 := filter (fun x => x ∉ (others rows r).*2) (l1 ++ l2)) in *.
    assert (length A2 < length (l1 ++ c :: l2)) as HlA2.
    { eapply Nat.le_lt_trans; [apply length_filter|apply length_remove_lt]. }
    destruct (Hsearch (S k) d0 A2 HlA2) as (d1 & Es & Hpost).
    { split_and!.
      - exact HG2.
      - lia.
      - unfold d0. cbn [with_heap O]. by rewrite length_insert.
      - unfold d0. cbn [with_heap all_solutions solutions]. exact Hmode. }
    rewrite Es.
    destruct Hpost as (Eh1 & EO1 & ElO1 & Ela1 & Eca1 & Eall1 & Hmono1 & Hiff1 & Hone1).
    unfold d0 in Eh1, EO1, ElO1, Ela1, Eca1, Eall1, Hmono1, Hiff1, Hone1.
    cbn [with_heap heap O last_added column_array all_solutions solutions]
      in Eh1, EO1, ElO1, Ela1, Eca1, Eall1, Hmono1, Hiff1, Hone1.
    assert (O d1 !! k = Some r) as EOk.
    { rewrite <- (lookup_take_lt (O d1) (S k) k) by lia. rewrite EO1.
      rewrite lookup_take_lt by lia. apply list_lookup_insert_eq. lia. }
    rewrite EOk. cbn [default from_option id]. rewrite Eh1, Eun.
    assert (take k (O d1) = take k (O d)) as EOk'.
    { assert (take k (take (S k) (O d1)) = take k (take (S k) (<[k:=r]> (O d))))
        as E by (by rewrite EO1).
      rewrite !take_take in E. replace (k `min` S k) with k in E by lia.
      rewrite E. apply take_insert_ge. lia. }
    rewrite length_insert in ElO1.
    unfold A2 in Hiff1. rewrite (filter_row _ _ _ _ _ _ _ _ HS1 Hρ Hr HndA) in Hiff1.
    cbn [with_heap solutions all_solutions].
    destruct (negb (solutions d1 =? 0)%Z && negb (all_solutions d1)) eqn:Ebr.
    + apply andb_true_iff in Ebr as [Eb1 Eb2].
      apply negb_true_iff in Eb1, Eb2. apply Z.eqb_neq in Eb1.
      rewrite Eall1 in Eb2.
      assert (solutions d = 0%Z) as Ez by (destruct Hmode; congruence).
      eexists. split; [reflexivity|].
      cbn [with_heap heap O last_added column_array all_solutions solutions].
      split_and!; try done; try lia.
      split; [|lia]. intros _. exists r. split; [apply list_elem_of_here|].
      rewrite Erow. apply Hiff1. lia.
    + destruct (IH (v1 ++ [r]) (with_heap h1 d1) fuel)
        as (d' & E' & Eh' & EO' & ElO' & Ela' & Eca' & Eall' & Hmono' & Hiff' & Hone').
      { by rewrite <- app_assoc. }
      { done. }
      { cbn [with_heap O]. lia. }
      { cbn [with_heap all_solutions solutions].
        apply andb_false_iff in Ebr as [Eb|Eb]; apply negb_false_iff in Eb.
        - right. by apply Z.eqb_eq.
        - by left. }
      { simpl in Hf. lia. }
      cbn [with_heap heap O last_added column_array all_solutions solutions]
        in Eh', EO', ElO', Ela', Eca', Eall', Hmono', Hiff', Hone'.
      assert (D (get h1 r) = default c (head v2)) as ->.
      { rewrite EV in HVc. apply (ring_next _ _ _ _ _ _ HVc). }
      exists d'. split; [exact E'|].
      split_and!; try congruence; try lia.
      * split.
        -- intros Hlt. destruct (decide (solutions d < solutions d1)%Z) as [H1|H1].
           ++ exists r. split; [apply list_elem_of_here|]. rewrite Erow.
              by apply Hiff1.
           ++ destruct (proj1 Hiff') as (r' & Hr' & HEC); [lia|].
              exists r'. split; [by apply list_elem_of_further|done].
        -- intros (r' & Hr' & HEC). apply elem_of_cons in Hr' as [->|Hr'].
           ++ rewrite Erow in HEC. apply Hiff1 in HEC. lia.
           ++ assert (solutions d1 < solutions d')%Z; [|lia].
              apply Hiff'. by exists r'.
      * intros Hall. rewrite Eall1 in Hone'. specialize (Hone' Hall).
        assert (solutions d = 0%Z) as Ez by (destruct Hmode; congruence).
        apply andb_false_iff in Ebr as [Eb|Eb]; apply negb_false_iff in Eb.
        -- apply Z.eqb_eq in Eb. lia.
        -- congruence.
Qed.


(** An exact cover of [A] has exactly one row through the column [c]. *)
Lemma EC_rows_iff h c (A Vc : list nat) :
  Static h cols rows -> c ∈ A ->
  (forall a, a ∈ Vc <-> exists ρ, ρ ∈ rows /\ (a, c) ∈ ρ /\ active A ρ) ->
  (exists r, r ∈ Vc /\
     EC (row_cols rows) (filter (fun x => x ∉ (row_of rows r).*2) A)) <->
  EC (row_cols rows) A.
Proof.
  intros HS Hc HVm. pose proof (Static_nodes_NoDup _ _ _ HS) as Hnodes. split.
  - intros (r & Hr & HEC). apply HVm in Hr as (ρ & Hρ & Hrc & Hact).
    assert (row_of rows r = ρ) as Erow.
    { apply row_of_spec; [done|done|]. apply list_elem_of_fmap. by exists (r, c). }
    rewrite Erow in HEC. apply (EC_row _ _ ρ.*2); [|  |done|done].
    + apply list_elem_of_fmap. by exists ρ.
    + intros E. assert (c ∈ ρ.*2) as Hin.
      { apply list_elem_of_fmap. by exists (r, c). }
      rewrite E in Hin. by apply elem_of_nil in Hin.
  - intros HEC. destruct (EC_choose _ _ _ HEC Hc) as (ρc & Hin & Hcρ & Hsub & HEC').
    apply list_elem_of_fmap in Hin as (ρ & -> & Hρ).
    apply list_elem_of_fmap in Hcρ as ([a c'] & Ec & Ha). simpl in Ec. subst c'.
    exists a. split.
    + apply HVm. by exists ρ.
    + assert (row_of rows a = ρ) as ->; [|done].
      apply row_of_spec; [done|done|]. apply list_elem_of_fmap. by exists (a, c).
Qed.

(** [_search]: the links are left as they were found, the entries of [O]
    below the depth are kept, and a solution is counted exactly when the
    uncovered columns have an exact cover. *)
Lemma search_spec fuel : forall k d A,
  length A < fuel -> search_pre cols rows A k d ->
  exists d', _search fuel k d = Some d' /\ search_post rows A k d d'.
Proof.
  induction fuel as [|fuel IH]; intros k d A Hf (HG & Hk & HO & Hmode); [lia|].
  pose proof HG as (HS & HR & HA & HC).
  cbn [_search]. rewrite (ring_head _ _ _ _ HR).
  destruct A as [|a0 A'].
  - cbn [head default from_option id]. rewrite Nat.eqb_refl.
    eexists. split; [reflexivity|].
    unfold search_post. cbn [heap O last_added column_array all_solutions solutions].
    split_and!; try done; try lia.
    split; [intros _; constructor|lia].
  - cbn [head default from_option id].
    destruct (Nat.eqb_spec a0 root) as [->|Hne].
    { exfalso. destruct HR as [_ Hnd]. apply NoDup_cons in Hnd as [Hnd _].
      apply Hnd, list_elem_of_here. }
    destruct (choose_spec _ _ _ _ HG) as (c & -> & Hc); [done|].
    destruct (list_elem_of_split _ _ Hc) as (l1 & l2 & EA).
    set (A := a0 :: A') in *. clearbody A. subst A.
    destruct (cover_spec _ _ _ _ _ _ HG) as (h1 & Vc & -> & HG1 & HVc & HVm & Hun & Hl1).
    pose proof HG1 as (HS1 & _).
    assert (NoDup (l1 ++ c :: l2)) as HndA.
    { destruct HR as [_ Hnd]. by apply NoDup_cons in Hnd as [_ ?]. }
    destruct (rows_loop_spec (_search fuel) l1 c l2 h1 Vc k HndA HG1 HVc HVm Hk)
      with (v2 := Vc) (v1 := @nil nat) (d := with_heap h1 d) (fuel := S (length h1))
      as (d2 & E2 & Eh2 & EO2 & ElO2 & Ela2 & Eca2 & Eall2 & Hmono2 & Hiff2 & Hone2).
    { intros k' d' B' HlB' Hpre. apply IH; [|done]. simpl in Hf. lia. }
    { done. }
    { done. }
    { done. }
    { done. }
    { apply Nat.lt_succ_r. apply nat_list_bound.
      - destruct HVc as [_ Hnd]. by apply NoDup_cons in Hnd as [_ ?].
      - intros a Ha. apply HVm in Ha as (ρ & Hρ & Hin & _).
        by destruct (Static_node _ _ _ _ _ _ HS1 Hρ Hin) as (_ & ? & _). }
    rewrite (ring_head _ _ _ _ HVc). rewrite E2, Eh2, Hun.
    eexists. split; [reflexivity|].
    cbn [with_heap heap O last_added column_array all_solutions solutions]
      in EO2, ElO2, Ela2, Eca2, Eall2, Hmono2, Hiff2, Hone2.
    unfold search_post.
    cbn [with_heap heap O last_added column_array all_solutions solutions].
    split_and!; try done.
    rewrite Hiff2. by apply (EC_rows_iff (heap d) c _ Vc).
Qed.

End search.


Lemma filter_none {X} (P : X -> Prop) `{forall x, Decision (P x)} (l : list X) :
  (forall x, x ∈ l -> ~ P x) -> filter P l = [].
Proof.
  induction l as [|x l IH]; intros Hl; [done|].
  rewrite filter_cons_False by (apply Hl, list_elem_of_here).
  apply IH. intros y Hy. by apply Hl, list_elem_of_further.
Qed.

(** An exact cover is a choice of rows whose columns, put together, are the
    columns to cover, each once. *)
Lemma EC_perm (rows : list (list nat)) :
  (forall ρ, ρ ∈ rows -> NoDup ρ) ->
  forall A, NoDup A ->
  EC rows A <->
  exists sel, (forall ρ, ρ ∈ sel -> ρ ∈ rows) /\ concat sel ≡ₚ A.
Proof.
  intros Hrows A HA. split.
  - intros H. induction H as [|A ρ Hin Hne Hsub HEC IH].
    + exists []. split; [|done]. intros ρ Hρ. by apply elem_of_nil in Hρ.
    + destruct (IH (NoDup_filter _ _ HA)) as (sel & Hsel & HP).
      exists (ρ :: sel). split.
      * intros ρ' Hρ'. apply elem_of_cons in Hρ' as [->|?]; [done|by apply Hsel].
      * simpl. rewrite HP.
        rewrite <- (filter_app_complement (fun x => x ∈ ρ) A) at 2.
        apply Permutation_app; [|done].
        apply NoDup_Permutation; [by apply Hrows|by apply NoDup_filter|].
        intros x. rewrite list_elem_of_filter. split; [|tauto].
        intros Hx. split; [done|by apply Hsub].
  - intros (sel & Hsel & HP). revert A HA HP.
    induction sel as [|ρ sel IH]; intros A HA HP.
    + simpl in HP. symmetry in HP. apply Permutation_nil_r in HP. subst.
      constructor.
    + simpl in HP. destruct (decide (ρ = [])) as [->|Hne].
      { apply IH; [|done|done]. intros ρ' Hρ'. by apply Hsel, list_elem_of_further. }
      assert (NoDup (ρ ++ concat sel)) as Hnd by (by rewrite HP).
      apply NoDup_app in Hnd as (N1 & N2 & N3).
      apply (EC_row _ _ ρ); [apply Hsel, list_elem_of_here|done| |].
      * intros d Hd. rewrite <- HP. apply elem_of_app. by left.
      * apply IH.
        -- intros ρ' Hρ'. by apply Hsel, list_elem_of_further.
        -- by apply NoDup_filter.
        -- rewrite <- HP, filter_app.
           rewrite (filter_none (fun x => x ∉ ρ) ρ) by (intros x Hx Hn; done).
           simpl. rewrite filter_all; [done|].
           apply Forall_forall. intros x Hx Hx'. by apply (N2 x).
Qed.

Lemma concat_fmap {X Y} (f : X -> Y) (l : list (list X)) :
  concat (fmap (M:=list) f <$> l) = f <$> concat l.
Proof.
  induction l as [|x l IH]; [done|]. rewrite fmap_cons. cbn [concat].
  by rewrite fmap_app, IH.
Qed.

Lemma row_cols_app rows1 rows2 :
  row_cols (rows1 ++ rows2) = row_cols rows1 ++ row_cols rows2.
Proof. unfold row_cols. apply fmap_app. Qed.

(** The columns of the rows that [addRow] enters are the headers of the
    numbers it is given. *)
Lemma number_rows_cols n valss : forall a0,
  forallb (row_values_ok n) valss = true ->
  row_cols (number_rows (seq 1 n) a0 valss) = fmap (M:=list) S <$> valss.
Proof.
  induction valss as [|values rest IH]; intros a0 Hok; [done|].
  simpl in Hok. apply andb_true_iff in Hok as [Hok1 Hok2].
  apply row_values_ok_spec in Hok1 as (_ & Hlt & _).
  cbn [number_rows]. unfold row_cols in *. cbn [fmap list_fmap]. f_equal.
  - rewrite snd_zip by (by rewrite length_map, length_seq).
    clear -Hlt. induction values as [|k vs IHv]; [done|].
    cbn [map fmap list_fmap]. f_equal.
    + rewrite lookup_seq_lt; [done|]. apply Hlt, list_elem_of_here.
    + apply IHv. intros k' Hk'. by apply Hlt, list_elem_of_further.
  - apply (IH _ Hok2).
Qed.

Lemma fmap_pred_S (l : list nat) : pred <$> (S <$> l) = l.
Proof. induction l as [|x l IH]; [done|]. rewrite !fmap_cons, IH. done. Qed.

Lemma exact_cover_shift n valss :
  exact_cover n valss <->
  exists sel, (forall ρ, ρ ∈ sel -> ρ ∈ fmap (M:=list) S <$> valss) /\
    concat sel ≡ₚ seq 1 n.
Proof.
  split.
  - intros (sel & Hsel & HP). exists (fmap (M:=list) S <$> sel). split.
    + intros ρ Hρ. apply list_elem_of_fmap in Hρ as (ρ0 & -> & Hρ0).
      apply list_elem_of_fmap. exists ρ0. split; [done|by apply Hsel].
    + rewrite concat_fmap, HP. by rewrite fmap_S_seq.
  - intros (sel & Hsel & HP). exists (fmap (M:=list) pred <$> sel). split.
    + intros ρ Hρ. apply list_elem_of_fmap in Hρ as (ρ1 & -> & Hρ1).
      apply Hsel, list_elem_of_fmap in Hρ1 as (ρ0 & -> & Hρ0).
      by rewrite fmap_pred_S.
    + rewrite concat_fmap, HP, <- fmap_S_seq. by rewrite fmap_pred_S.
Qed.

(** [solve(false)] on the matrix as it was entered. *)
Lemma solve_Built d cols rows :
  Built d cols rows -> length cols <= MAX_ROW_BUF ->
  length (O d) = MAX_ROW_BUF ->
  exists s d', solve false d = Some (s, d') /\ heap d' = heap d /\
    (0 <= s <= 1)%Z /\ (s = 1%Z <-> EC (row_cols rows) cols).
Proof.
  intros (HG & Hc & _) Hn HO. unfold solve.
  destruct (search_spec cols rows (S (length (column_array d))) 0
    {| heap := heap d; O := O d; last_added := last_added d;
       column_array := column_array d; solutions := 0;
       all_solutions := false |} cols) as (d' & -> & Hpost).
  { rewrite Hc. lia. }
  { split_and!; [done|simpl; lia|done|by right]. }
  destruct Hpost as (Eh & _ & _ & _ & _ & _ & Hmono & Hiff & Hone).
  cbn [heap solutions all_solutions] in *. specialize (Hone eq_refl).
  exists (solutions d'), d'. split_and!; [done|done|lia|lia|].
  rewrite <- Hiff. lia.
Qed.

End DLX_search.

(** ** The order on solutions *)

Lemma str_ltb_asym a b : str_ltb a b = true -> str_ltb b a = false.
Proof.
  revert b. induction a as [|x a IH]; intros [|y b]; simpl; try done.
  destruct (Char.code x <? Char.code y) eqn:E1.
  - apply Nat.ltb_lt in E1. intros _.
    destruct (Char.code y <? Char.code x) eqn:E2; [apply Nat.ltb_lt in E2; lia|].
    done.
  - destruct (Char.code y <? Char.code x) eqn:E2; [done|]. apply IH.
Qed.

(** X1: [operator<] on solutions is a strict weak order: it is irreflexive
    and transitive, and two solutions are unordered exactly when they have
    the same word and the same score. *)
Theorem Solution_ltb_strict_weak_order a b c :
  Solution_ltb a a = false /\
  (Solution_ltb a b = true -> Solution_ltb b c = true ->
   Solution_ltb a c = true) /\
  (Solution_ltb a b = false /\ Solution_ltb b a = false <->
   word a = word b /\ score a = score b).
Proof.
  unfold Solution_ltb. split_and!.
  - rewrite str_ltb_irrefl. apply Z.ltb_irrefl.
  - destruct (str_ltb (word a) (word b)) eqn:Eab.
    + intros _. destruct (str_ltb (word b) (word c)) eqn:Ebc.
      * intros _. pose proof (str_ltb_asym _ _ Ebc) as Hcb.
        by rewrite (str_ltb_trans _ _ _ Eab Hcb).
      * destruct (str_ltb (word c) (word b)) eqn:Ecb; [done|].
        rewrite (str_ltb_total _ _ Ebc Ecb) in Eab. by rewrite Eab.
    + destruct (str_ltb (word b) (word a)) eqn:Eba; [done|].
      rewrite (str_ltb_total _ _ Eab Eba).
      intros Hs. destruct (str_ltb (word b) (word c)); [done|].
      destruct (str_ltb (word c) (word b)); [done|].
      intros Hs'. apply Z.ltb_lt in Hs, Hs'. apply Z.ltb_lt. lia.
  - split.
    + destruct (str_ltb (word a) (word b)) eqn:Eab; [by intros [? _]|].
      destruct (str_ltb (word b) (word a)) eqn:Eba; [by intros [_ ?]|].
      intros [H1 H2]. apply Z.ltb_ge in H1, H2.
      split; [by apply str_ltb_total|lia].
    + intros [-> ->]. rewrite str_ltb_irrefl, Z.ltb_irrefl. done.
Qed.

(** ** The trie *)

Lemma wf_trie_unfold t :
  wf_trie t <->
  node_ok t /\
  (forall s, child_ptr t = Some s -> wf_trie s) /\
  (forall arr, children t = Some arr ->
     Forall (fun o => forall s, o = Some s -> wf_trie s) arr).
Proof.
  destruct t as [cp ch cl iw]. simpl.
  assert (forall l : list (option Trie),
    (fix all (l : list (option Trie)) : Prop :=
       match l with
       | [] => True
       | o :: l' => match o with Some s => wf_trie s | None => True end /\ all l'
       end) l <-> Forall (fun o => forall s, o = Some s -> wf_trie s) l) as Hall.
  { induction l as [|o l IH]; [by split|]. rewrite Forall_cons, <- IH.
    destruct o as [s|]; split; intros [H1 H2]; split; try done.
    - by intros ? [= <-].
    - by apply H1. }
  split.
  - intros (H1 & H2 & H3). split_and!; [done| |].
    + intros s ->. done.
    + intros arr ->. by apply Hall.
  - intros (H1 & H2 & H3). split_and!; [done| |].
    + destruct cp; [by apply H2|done].
    + destruct ch as [arr|]; [|done]. apply Hall. by apply H3.
Qed.

Lemma wf_new_Trie : wf_trie new_Trie.
Proof. apply wf_trie_unfold. split_and!; [by left|done|done]. Qed.

Lemma upper_idx l : Char.isupper l = true -> Char.code l - 65 < 26.
Proof. unfold Char.isupper. intros H. apply andb_true_iff in H as [H1 H2].
  apply Nat.leb_le in H1, H2. lia. Qed.

Lemma upper_idx_inj x l :
  Char.isupper x = true -> Char.isupper l = true ->
  Char.code x - 65 = Char.code l - 65 -> x = l.
Proof.
  unfold Char.isupper. intros H1 H2 E.
  apply andb_true_iff in H1 as [H1 _]. apply andb_true_iff in H2 as [H2 _].
  apply Nat.leb_le in H1, H2. apply code_inj. lia.
Qed.

Lemma upper_not_NUL l : Char.isupper l = true -> (l =c? Char.NUL) = false.
Proof. by_cases_on_ascii l. Qed.

Lemma toupper_alpha c :
  Char.isupper (Char.toupper c) = Char.isalpha c.
Proof. by_cases_on_ascii c. Qed.

Lemma toupper_NUL c : (Char.toupper c =c? Char.NUL) = (c =c? Char.NUL).
Proof. by_cases_on_ascii c. Qed.

Lemma wf_child t x s : wf_trie t -> child t x = Some s -> wf_trie s.
Proof.
  intros Hwf. apply wf_trie_unfold in Hwf as (H1 & H2 & H3). unfold child.
  destruct (Char.isupper x); simpl; [|done].
  destruct (children t) as [arr|] eqn:E.
  - specialize (H3 arr eq_refl). rewrite Forall_forall in H3.
    destruct (arr !! (Char.code x - 65)) as [o|] eqn:El; [|done]. simpl.
    intros ->. apply (H3 (Some s)); [|done]. by eapply list_elem_of_lookup_2.
  - destruct (negb (child_letter t =c? Char.NUL) && (child_letter t =c? x));
      [|done]. apply H2.
Qed.

(** The children of a node after a word was added below it. *)
Lemma child_add_word c rest t x :
  wf_trie t -> Char.isalpha c = true ->
  child (add_word (c :: rest) t) x =
  if bool_decide (x = Char.toupper c)
  then Some (add_word rest (default new_Trie (child t x)))
  else child t x.
Proof.
  intros Hwf Hc. apply wf_trie_unfold in Hwf as (H1 & H2 & H3).
  pose proof (toupper_alpha c) as Hup. rewrite Hc in Hup.
  pose proof (upper_not_NUL _ Hup) as Hnn.
  cbn [add_word]. rewrite Hnn, Hup. cbn [negb].
  unfold node_ok in H1. unfold child.
  destruct (Char.isupper x) eqn:Hx; cbn [negb].
  2:{ case_bool_decide as E; [|by destruct (children t), (child_letter t =c? Char.toupper c), (child_letter t =c? Char.NUL)].
      subst. congruence. }
  destruct (children t) as [arr|] eqn:Ech.
  - destruct H1 as [Hlen _]. cbn [children].
    case_bool_decide as E.
    + subst x. rewrite list_lookup_insert_eq by (rewrite Hlen; by apply upper_idx).
      done.
    + rewrite list_lookup_insert_ne; [done|].
      intros E'. apply E. symmetry. by apply upper_idx_inj.
  - destruct (child_letter t =c? Char.toupper c) eqn:E1.
    + apply char_eqb_eq in E1. cbn [children child_letter child_ptr].
      rewrite E1, Hnn. cbn [negb andb].
      case_bool_decide as E.
      * subst x. rewrite (proj2 (char_eqb_eq _ _) eq_refl). done.
      * rewrite (proj2 (char_eqb_neq _ _)); [done|]. by intros <-.
    + destruct (child_letter t =c? Char.NUL) eqn:E2.
      * cbn [children child_letter child_ptr]. rewrite Hnn. cbn [negb andb].
        case_bool_decide as E.
        -- subst x. rewrite (proj2 (char_eqb_eq _ _) eq_refl). done.
        -- rewrite (proj2 (char_eqb_neq _ _)); [done|]. by intros <-.
      * cbn [children child_letter child_ptr negb andb].
        destruct H1 as [H1|[Hcl Hcp]].
        { apply char_eqb_neq in E2. done. }
        apply char_eqb_neq in E1.
        pose proof (upper_idx _ Hup) as Hi. pose proof (upper_idx _ Hcl) as Hi'.
        assert (Char.code (child_letter t) - 65 <> Char.code (Char.toupper c) - 65)
          as Hne by (intros E'; apply E1; by apply upper_idx_inj).
        case_bool_decide as E.
        -- subst x. rewrite list_lookup_insert_eq.
           2:{ rewrite length_insert, length_replicate. done. }
           rewrite (proj2 (char_eqb_neq _ _) E1). done.
        -- rewrite list_lookup_insert_ne.
           2:{ intros E'. apply E. symmetry. by apply upper_idx_inj. }
           destruct (child_letter t =c? x) eqn:E3.
           ++ apply char_eqb_eq in E3. subst x.
              rewrite list_lookup_insert_eq by (by rewrite length_replicate).
              done.
           ++ apply char_eqb_neq in E3. rewrite list_lookup_insert_ne.
              2:{ intros E'. apply E3. by apply upper_idx_inj. }
              rewrite lookup_replicate_2 by (by apply upper_idx). done.
Qed.

Lemma wf_mark t :
  wf_trie t ->
  wf_trie {| child_ptr := child_ptr t; children := children t;
             child_letter := child_letter t; is_word := true |}.
Proof.
  intros Hwf. apply wf_trie_unfold in Hwf as (H1 & H2 & H3).
  apply wf_trie_unfold. split_and!; done.
Qed.

Lemma add_word_wf w t : wf_trie t -> wf_trie (add_word w t).
Proof.
  revert t. induction w as [|c rest IH]; intros t Hwf; [by apply wf_mark|].
  cbn [add_word].
    destruct (Char.toupper c =c? Char.NUL) eqn:Hnn.
    { by apply wf_mark. }
    destruct (Char.isupper (Char.toupper c)) eqn:Hup; cbn [negb]; [|done].
    pose proof (upper_idx _ Hup) as Hi.
    pose proof Hwf as Hwf'.
    apply wf_trie_unfold in Hwf as (H1 & H2 & H3). unfold node_ok in H1.
    destruct (children t) as [arr|] eqn:Ech.
    - destruct H1 as [Hlen Hcl]. apply wf_trie_unfold. unfold node_ok.
      cbn [children child_letter child_ptr]. split_and!.
      + by rewrite length_insert.
      + done.
      + exact H2.
      + intros ? [= <-]. specialize (H3 arr eq_refl).
        rewrite Forall_forall in *. intros o Ho s ->.
        apply list_elem_of_lookup in Ho as [i Ho].
        destruct (decide (i = Char.code (Char.toupper c) - 65)) as [->|Hne].
        * rewrite list_lookup_insert_eq in Ho by (rewrite Hlen; exact Hi).
          injection Ho as <-.
          apply IH. destruct (arr !! (Char.code (Char.toupper c) - 65)) as [[s'|]|] eqn:El;
            simpl; try apply wf_new_Trie.
          apply (H3 (Some s')); [|done]. by eapply list_elem_of_lookup_2.
        * rewrite list_lookup_insert_ne in Ho by done.
          apply (H3 (Some s)); [|done]. by eapply list_elem_of_lookup_2.
    - destruct (child_letter t =c? Char.toupper c) eqn:E1.
      + apply char_eqb_eq in E1. apply wf_trie_unfold. unfold node_ok.
        cbn [children child_letter child_ptr]. split_and!.
        * right. rewrite E1. split; [done|by eexists].
        * intros ? [= <-]. apply IH.
          destruct (child_ptr t) as [s'|]; simpl; [by apply H2|apply wf_new_Trie].
        * done.
      + destruct (child_letter t =c? Char.NUL) eqn:E2.
        * apply wf_trie_unfold. unfold node_ok.
          cbn [children child_letter child_ptr]. split_and!.
          -- right. split; [done|by eexists].
          -- intros ? [= <-]. apply IH, wf_new_Trie.
          -- done.
        * destruct H1 as [H1|[Hcl Hcp]].
          { apply char_eqb_neq in E2. done. }
          pose proof (upper_idx _ Hcl) as Hi'.
          apply wf_trie_unfold. unfold node_ok.
          cbn [children child_letter child_ptr]. split_and!.
          -- by rewrite !length_insert, length_replicate.
          -- done.
          -- done.
          -- intros arr' Harr. apply (inj Some) in Harr. subst arr'.
             rewrite Forall_forall. intros o Ho s ->.
             apply list_elem_of_lookup in Ho as [i Ho].
             destruct (decide (i = Char.code (Char.toupper c) - 65)) as [->|Hne].
             ++ rewrite list_lookup_insert_eq in Ho
                  by (rewrite length_insert, length_replicate; done).
                injection Ho as <-. apply IH, wf_new_Trie.
             ++ rewrite list_lookup_insert_ne in Ho by done.
                destruct (decide (i = Char.code (child_letter t) - 65)) as [->|Hne'].
                ** rewrite list_lookup_insert_eq in Ho by (by rewrite length_replicate).
                   injection Ho as Ho. by apply H2.
                ** rewrite list_lookup_insert_ne in Ho by done.
                   apply lookup_replicate in Ho as [Ho _]. done.
Qed.

Lemma trie_contains_nil t : trie_contains t [] = is_word t.
Proof. done. Qed.

Lemma trie_contains_cons t x v :
  trie_contains t (x :: v) =
  match child t x with Some s => trie_contains s v | None => false end.
Proof. unfold trie_contains. simpl. by destruct (child t x). Qed.

Lemma trie_contains_new v : trie_contains new_Trie v = false.
Proof.
  destruct v as [|x v]; [done|]. rewrite trie_contains_cons.
  unfold child. simpl. by destruct (Char.isupper x).
Qed.

Lemma trie_contains_default t x v :
  trie_contains (default new_Trie (child t x)) v = trie_contains t (x :: v).
Proof.
  rewrite trie_contains_cons. destruct (child t x); [done|]. apply trie_contains_new.
Qed.

Lemma is_word_add_word c rest t :
  (Char.toupper c =c? Char.NUL) = false ->
  is_word (add_word (c :: rest) t) = is_word t.
Proof.
  intros Hnn. cbn [add_word]. rewrite Hnn.
  destruct (Char.isupper (Char.toupper c)); cbn [negb]; [|done].
  destruct (children t); [done|].
  destruct (child_letter t =c? Char.toupper c); [done|].
  by destruct (child_letter t =c? Char.NUL).
Qed.

Lemma child_mark t x :
  child {| child_ptr := child_ptr t; children := children t;
           child_letter := child_letter t; is_word := true |} x = child t x.
Proof. done. Qed.

(** The words of the trie after [add_word]. *)
Lemma trie_contains_add_word w t v :
  wf_trie t ->
  trie_contains (add_word w t) v =
  match stored_word w with
  | Some u => bool_decide (v = u) || trie_contains t v
  | None => trie_contains t v
  end.
Proof.
  revert t v. induction w as [|c rest IH]; intros t v Hwf.
  - cbn [add_word stored_word]. destruct v as [|x v]; [done|].
    rewrite !trie_contains_cons, child_mark. done.
  - cbn [stored_word]. destruct (c =c? Char.NUL) eqn:Hc0.
    { cbn [add_word]. rewrite toupper_NUL, Hc0. destruct v as [|x v]; [done|].
      rewrite !trie_contains_cons, child_mark. done. }
    destruct (Char.isalpha c) eqn:Hal.
    2:{ cbn [add_word]. rewrite toupper_NUL, Hc0, toupper_alpha, Hal. done. }
    destruct v as [|x v].
    + rewrite !trie_contains_nil, is_word_add_word by (by rewrite toupper_NUL).
      by destruct (stored_word rest).
    + rewrite trie_contains_cons, child_add_word by done.
      case_bool_decide as E.
      * subst x. rewrite IH.
        2:{ destruct (child t (Char.toupper c)) eqn:Ech; simpl;
              [by eapply wf_child|apply wf_new_Trie]. }
        rewrite trie_contains_default.
        destruct (stored_word rest) as [u|]; simpl; [|done].
        f_equal. apply bool_decide_ext. split; [by intros ->|by intros [= ->]].
      * rewrite <- trie_contains_cons.
        destruct (stored_word rest) as [u|]; simpl; [|done].
        rewrite bool_decide_eq_false_2; [done|]. by intros [= -> _].
Qed.

Lemma fold_add_word_wf ws t :
  wf_trie t -> wf_trie (fold_left (fun t w => add_word (str w) t) ws t).
Proof.
  revert t. induction ws as [|w ws IH]; intros t Hwf; [done|].
  simpl. apply IH. by apply add_word_wf.
Qed.

Lemma dict_of_wf ws : wf_trie (dict_of ws).
Proof. apply fold_add_word_wf, wf_new_Trie. Qed.

Lemma fold_add_word_contains ws t v :
  wf_trie t ->
  trie_contains (fold_left (fun t w => add_word (str w) t) ws t) v = true <->
  (exists w, w ∈ ws /\ stored_word (str w) = Some v) \/
  trie_contains t v = true.
Proof.
  revert t. induction ws as [|w ws IH]; intros t Hwf.
  - simpl. split; [by right|]. intros [(w & Hw & _)|H]; [|done].
    by apply elem_of_nil in Hw.
  - simpl. rewrite IH by (by apply add_word_wf).
    rewrite trie_contains_add_word by done. split.
    + intros [(w' & Hw' & Hs)|H].
      * left. exists w'. split; [by apply list_elem_of_further|done].
      * destruct (stored_word (str w)) as [u|] eqn:Es; [|by right].
        apply orb_true_iff in H as [H|H]; [|by right].
        apply bool_decide_eq_true in H. subst. left. exists w.
        split; [apply list_elem_of_here|done].
    + intros [(w' & Hw' & Hs)|H].
      * apply elem_of_cons in Hw' as [->|Hw'].
        -- right. rewrite Hs. apply orb_true_iff. left. by apply bool_decide_eq_true.
        -- left. by exists w'.
      * right. destruct (stored_word (str w)); [|done].
        apply orb_true_iff. by right.
Qed.

(** X2: the dictionary built by adding words holds exactly the words
    that [add_word] stores: for each added C string made of letters only,
    its upper-case form; a string with another character adds nothing. *)
Theorem dict_of_contains ws v :
  trie_contains (dict_of ws) v = true <->
  exists w, w ∈ ws /\ stored_word (str w) = Some v.
Proof.
  unfold dict_of. rewrite fold_add_word_contains by apply wf_new_Trie.
  rewrite trie_contains_new. split; [|by left]. by intros [H|H].
Qed.

(** [is_a_word] against the descent by [child]. *)
Lemma is_a_word_sound v t b :
  wf_trie t -> Char.NUL ∉ v -> is_a_word v t = Some b -> trie_contains t v = b.
Proof.
  revert t. induction v as [|x v IH]; intros t Hwf Hv.
  - simpl. by intros [= <-].
  - assert ((x =c? Char.NUL) = false) as Hx.
    { apply char_eqb_neq. intros ->. apply Hv. apply list_elem_of_here. }
    assert (Char.NUL ∉ v) as Hv'.
    { intros Hin. apply Hv. by apply list_elem_of_further. }
    cbn [is_a_word]. rewrite Hx, trie_contains_cons.
    pose proof Hwf as Hwf'. apply wf_trie_unfold in Hwf' as (H1 & H2 & H3).
    unfold node_ok in H1. unfold child.
    destruct (Char.isupper x) eqn:Hup; cbn [negb]; [|by intros [= <-]].
    destruct (children t) as [arr|] eqn:Ech.
    + destruct H1 as [Hlen Hcl]. rewrite Hcl.
      rewrite (proj2 (char_eqb_eq _ _) eq_refl). cbn [negb].
      destruct (arr !! (Char.code x - 65)) as [[s|]|] eqn:El; simpl.
      * apply IH; [|done]. apply (wf_child t x); [done|].
        unfold child. rewrite Hup, Ech, El. done.
      * by intros [= <-].
      * done.
    + destruct (child_letter t =c? Char.NUL) eqn:E0; cbn [negb andb]; [done|].
      destruct (child_letter t =c? x) eqn:E1.
      * destruct (child_ptr t) as [s|] eqn:Ecp; [|done].
        apply IH; [by apply H2|done].
      * by intros [= <-].
Qed.

Lemma is_a_word_complete v t :
  wf_trie t -> trie_contains t v = true -> is_a_word v t = Some true.
Proof.
  revert t. induction v as [|x v IH]; intros t Hwf.
  - rewrite trie_contains_nil. simpl. by intros ->.
  - rewrite trie_contains_cons. destruct (child t x) as [s|] eqn:Ech; [|done].
    intros Hs. pose proof (wf_child _ _ _ Hwf Ech) as Hwfs.
    specialize (IH s Hwfs Hs).
    apply wf_trie_unfold in Hwf as (H1 & H2 & H3).
    unfold node_ok in H1. unfold child in Ech.
    destruct (Char.isupper x) eqn:Hup; cbn [negb] in Ech; [|done].
    cbn [is_a_word]. rewrite (upper_not_NUL _ Hup), Hup. cbn [negb].
    destruct (children t) as [arr|] eqn:Ec.
    + destruct H1 as [Hlen Hcl]. rewrite Hcl.
      rewrite (proj2 (char_eqb_eq _ _) eq_refl). cbn [negb].
      destruct (arr !! (Char.code x - 65)) as [[s'|]|] eqn:El; simpl in Ech;
        try done. by injection Ech as ->.
    + destruct (child_letter t =c? Char.NUL) eqn:E0; cbn [negb andb] in *; [done|].
      destruct (child_letter t =c? x) eqn:E1; [|done]. by rewrite Ech.
Qed.

(** X3: on a dictionary built by [add_word], the lookup [is_a_word]
    answers as the descent by [child] does whenever it answers, and it
    answers [true] for every stored word. *)
Theorem is_a_word_dict_of ws v :
  Char.NUL ∉ v ->
  (forall b, is_a_word v (dict_of ws) = Some b ->
     trie_contains (dict_of ws) v = b) /\
  (trie_contains (dict_of ws) v = true ->
     is_a_word v (dict_of ws) = Some true).
Proof.
  intros Hv. split.
  - intros b. apply is_a_word_sound; [apply dict_of_wf|done].
  - apply is_a_word_complete, dict_of_wf.
Qed.

Lemma is_a_word_dict_of_witness :
(Char.NUL ∉ str "CAT") /\
  is_a_word (str "CAT") (dict_of ["CAT"%string; "CAR"%string]) = Some true.
Proof.
  assert (Char.NUL ∉ str "CAT") as H.
  { apply (bool_decide_unpack (Char.NUL ∉ str "CAT")). vm_compute. reflexivity. }
  split; [exact H|].
  apply (proj2 (is_a_word_dict_of ["CAT"%string; "CAR"%string] (str "CAT") H)).
  vm_compute. reflexivity.
Defined.

(** A word that is not stored can lead the lookup to a node without
    children, where it reads the null array. *)
Lemma is_a_word_null_children :
  is_a_word (str "AB") (dict_of ["A"%string]) = None.
Proof. vm_compute. reflexivity. Qed.

(** ** Letter values *)

Lemma toupper_idem c : Char.toupper (Char.toupper c) = Char.toupper c.
Proof. by_cases_on_ascii c. Qed.

Lemma toupper_not_lower c : Char.islower (Char.toupper c) = false.
Proof. by_cases_on_ascii c. Qed.

(** X4: letter values are looked up in upper case: a letter has the
    value of its upper-case form, [setLetterValue] changes the value of the
    letters whose upper-case form is the key, and a value stored under a
    lower-case key is never read. *)
Theorem letterValue_setLetterValue s c v x :
  letterValue s x = letterValue s (Char.toupper x) /\
  letterValue (setLetterValue c v s) x =
    (if bool_decide (Char.toupper x = c) then v else letterValue s x) /\
  (Char.islower c = true ->
   letterValue (setLetterValue c v s) x = letterValue s x).
Proof.
  unfold letterValue, setLetterValue. cbn [letter_values]. split_and!.
  - by rewrite toupper_idem.
  - case_bool_decide as E.
    + subst. by rewrite lookup_insert_eq.
    + by rewrite lookup_insert_ne.
  - intros Hc. rewrite lookup_insert_ne; [done|].
    intros ->. by rewrite toupper_not_lower in Hc.
Qed.

(** ** The scorer: points and multipliers *)

Lemma u32_add_r a b : u32 (a + u32 b) = u32 (a + b).
Proof. unfold u32. by rewrite Zplus_mod_idemp_r. Qed.

Lemma u32_add_l a b : u32 (u32 a + b) = u32 (a + b).
Proof. unfold u32. by rewrite Zplus_mod_idemp_l. Qed.

Lemma u32_mul_l a b : u32 (u32 a * b) = u32 (a * b).
Proof. unfold u32. by rewrite Zmult_mod_idemp_l. Qed.

Lemma u32_idem a : u32 (u32 a) = u32 a.
Proof. unfold u32. by rewrite Zmod_mod. Qed.

Lemma fold_score_letter_value wc s p cs acc :
  u32 (la_tile_value
         (fold_left (score_letter s (default Char.NUL (wc !! p))) cs acc)) =
  u32 (la_tile_value acc + foldr Z.add 0%Z (map (char_points wc s p) cs)).
Proof.
  revert acc. induction cs as [|c cs IH]; intros acc.
  - simpl. by rewrite Z.add_0_r.
  - cbn [fold_left map foldr]. rewrite IH.
    unfold score_letter, char_points, chosen_letter.
    cbn [la_tile_value].
    destruct (negb (c =c? "?") || wild_card_points s).
    + rewrite u32_add_l. f_equal; lia.
    + f_equal; lia.
Qed.

Lemma fold_score_tile_points wc b s ps acc :
  let r := fold_left (score_tile wc b s) ps acc in
  u32 (pa_letter_points r) =
    u32 (pa_letter_points acc + path_points wc b s ps) /\
  u32 (pa_word_multiplier r) =
    u32 (pa_word_multiplier acc * path_multiplier b ps).
Proof.
  revert acc. induction ps as [|p ps IH]; intros acc.
  - simpl. by rewrite Z.add_0_r, Z.mul_1_r.
  - cbn [fold_left]. cbv zeta. destruct (IH (score_tile wc b s acc p)) as [H1 H2].
    cbv zeta in H1, H2. rewrite H1, H2. clear H1 H2 IH.
    unfold path_points, path_multiplier. cbn [map foldr].
    unfold score_tile. cbn [pa_letter_points pa_word_multiplier].
    split.
    + pose proof (fold_score_letter_value wc s p (tile b p)
        {| la_word_len := pa_word_len acc; la_word := pa_word acc;
           la_tile_value := 0 |}) as HT.
      cbn [la_tile_value] in HT. rewrite Z.add_0_l in HT.
      fold (tile_points wc b s p) in HT.
      set (T := la_tile_value _) in *. set (S := foldr Z.add 0%Z _).
      set (m := Z.of_nat (letter_mult b p)). set (a := pa_letter_points acc).
      rewrite u32_add_l.
      replace (a + u32 (T * m) + S)%Z with ((a + S) + u32 (T * m))%Z by lia.
      rewrite u32_add_r, <- (u32_add_r _ (T * m)), <- u32_mul_l, HT.
      rewrite u32_mul_l, u32_add_r. f_equal; lia.
    + rewrite u32_mul_l. f_equal. lia.
Qed.

Lemma score_path_range wc b s ps :
  u32 (pa_letter_points (score_path wc b s ps)) =
    pa_letter_points (score_path wc b s ps) /\
  u32 (pa_word_multiplier (score_path wc b s ps)) =
    pa_word_multiplier (score_path wc b s ps).
Proof.
  unfold score_path.
  assert (forall acc,
    u32 (pa_letter_points acc) = pa_letter_points acc ->
    u32 (pa_word_multiplier acc) = pa_word_multiplier acc ->
    let r := fold_left (score_tile wc b s) ps acc in
    u32 (pa_letter_points r) = pa_letter_points r /\
    u32 (pa_word_multiplier r) = pa_word_multiplier r) as H.
  { induction ps as [|p ps IH]; intros acc H1 H2; [done|].
    cbn [fold_left]. apply IH; unfold score_tile; cbn; apply u32_idem. }
  by apply H.
Qed.

Lemma score_path_points wc b s ps :
  pa_letter_points (score_path wc b s ps) = u32 (path_points wc b s ps) /\
  pa_word_multiplier (score_path wc b s ps) = u32 (path_multiplier b ps).
Proof.
  destruct (score_path_range wc b s ps) as [R1 R2].
  destruct (fold_score_tile_points wc b s ps
    {| pa_word_len := 0; pa_word := []; pa_letter_points := 0;
       pa_word_multiplier := 1 |}) as [H1 H2].
  fold (score_path wc b s ps) in H1, H2. cbn in H1, H2.
  rewrite <- R1, <- R2, H1, H2. split; [done|]. f_equal.
  by destruct (path_multiplier b ps).
Qed.

Lemma score_path_word_len wc b s ps :
  pa_word_len (score_path wc b s ps) =
  scored_length s (path_letters wc b ps).
Proof.
  destruct (fold_score_tile wc b s ps
    {| pa_word_len := 0; pa_word := []; pa_letter_points := 0;
       pa_word_multiplier := 1 |}) as [_ Hl].
  fold (score_path wc b s ps) in Hl. cbn in Hl. exact Hl.
Qed.

(** X5: for a word that is neither too short nor under the short-word
    rule, the letter points are the sum over the tiles of the tile's
    letter values times its letter multiplier, a wildcard counting only
    under [wildCardPoints], and the word multiplier is the product of the
    tiles' word multipliers, both as [unsigned]. *)
Theorem score_solution_points wc b s ps :
  (min_word_length s <= scored_length s (path_letters wc b ps))%Z ->
  (short_word_length s < scored_length s (path_letters wc b ps))%Z ->
  letter_points (score_solution wc b s ps) = u32 (path_points wc b s ps) /\
  word_multiplier (score_solution wc b s ps) = u32 (path_multiplier b ps).
Proof.
  intros Hmin Hshort. unfold score_solution.
  rewrite score_path_word_len.
  destruct (Z.ltb_spec (scored_length s (path_letters wc b ps)) (min_word_length s));
    [lia|].
  destruct (Z.leb_spec (scored_length s (path_letters wc b ps)) (short_word_length s));
    [lia|].
  cbn [letter_points word_multiplier]. apply score_path_points.
Qed.

Lemma score_solution_points_witness :
  letter_points
    (score_solution [] (Board_new (str ":A;BBBBBB") None) (bonus_rules false false)
       [0; 1; 2; 3; 4; 5; 6]) = 10%Z /\
  word_multiplier
    (score_solution [] (Board_new (str ":A;BBBBBB") None) (bonus_rules false false)
       [0; 1; 2; 3; 4; 5; 6]) = 2%Z.
Proof.
  destruct (score_solution_points [] (Board_new (str ":A;BBBBBB") None)
              (bonus_rules false false) [0; 1; 2; 3; 4; 5; 6]) as [H1 H2];
    [vm_compute; discriminate|vm_compute; reflexivity|].
  rewrite H1, H2. split; vm_compute; reflexivity.
Defined.

(** X6: a word shorter than [minWordLength] scores nothing; a word not
    longer than [shortWordLength] scores [shortWordPoints], times the word
    multiplier only under [shortWordMultiplier], and has no length bonus. *)
Theorem score_solution_short wc b s ps :
  ((scored_length s (path_letters wc b ps) < min_word_length s)%Z ->
   score (score_solution wc b s ps) = 0%Z /\
   letter_points (score_solution wc b s ps) = 0%Z /\
   word_multiplier (score_solution wc b s ps) = 1%Z) /\
  ((min_word_length s <= scored_length s (path_letters wc b ps))%Z ->
   (scored_length s (path_letters wc b ps) <= short_word_length s)%Z ->
   letter_points (score_solution wc b s ps) = u32 (short_word_points s) /\
   score (score_solution wc b s ps) =
     (if short_word_multiplier s
      then u32 (u32 (path_multiplier b ps) * u32 (short_word_points s))
      else u32 (short_word_points s)) /\
   word_multiplier (score_solution wc b s ps) =
     (if short_word_multiplier s then u32 (path_multiplier b ps) else 1%Z) /\
   length_bonus (score_solution wc b s ps) = dzero).
Proof.
  unfold score_solution. rewrite score_path_word_len.
  destruct (score_path_points wc b s ps) as [_ Hm].
  split.
  - intros Hlt.
    destruct (Z.ltb_spec (scored_length s (path_letters wc b ps)) (min_word_length s));
      [done|lia].
  - intros Hmin Hshort.
    destruct (Z.ltb_spec (scored_length s (path_letters wc b ps)) (min_word_length s));
      [lia|].
    destruct (Z.leb_spec (scored_length s (path_letters wc b ps)) (short_word_length s));
      [|lia].
    destruct (short_word_multiplier s); cbn; rewrite <- ?Hm; done.
Qed.

(** ** The analyzer: the best words *)

Lemma update_best_key k w sc bw n :
  at_key (update_best k w sc bw).2 n =
    (if decide (k = n) then Z.max (at_key bw.2 n) sc else at_key bw.2 n) /\
  (update_best k w sc bw).1 !! n =
    (if decide (k = n) then
       if (at_key bw.2 n <? sc)%Z then Some w else bw.1 !! n
     else bw.1 !! n).
Proof.
  unfold update_best. destruct (decide (k = n)) as [->|Hne].
  - destruct (Z.ltb_spec (at_key bw.2 n) sc) as [Hlt|Hge]; cbn [fst snd].
    + split; [|by rewrite lookup_insert_eq]. unfold at_key at 1.
      rewrite lookup_insert_eq. cbn [default from_option id]. lia.
    + split; [|done]. unfold at_key at 1. rewrite lookup_insert_eq.
      cbn [default from_option id]. lia.
  - destruct (Z.ltb_spec (at_key bw.2 k) sc); cbn [fst snd]; unfold at_key;
      rewrite ?lookup_insert_ne by done; done.
Qed.

Lemma analyze_step_best a x n :
  at_key (best_word_points (analyze_step a x)) n =
    (if counts_for n x then Z.max (at_key (best_word_points a) n) (score x)
     else at_key (best_word_points a) n) /\
  best_words (analyze_step a x) !! n =
    (if counts_for n x && (at_key (best_word_points a) n <? score x)%Z
     then Some (word x) else best_words a !! n).
Proof.
  unfold analyze_step. cbn [best_word_points best_words].
  set (bw1 := update_best (length (word x)) (word x) (score x)
                (best_words a, best_word_points a)).
  destruct (update_best_key 0 (word x) (score x) bw1 n) as [H1 H2].
  destruct (update_best_key (length (word x)) (word x) (score x)
              (best_words a, best_word_points a) n) as [H3 H4].
  fold bw1 in H3, H4. cbn [fst snd] in H3, H4.
  rewrite H1, H2, H3, H4. clear H1 H2 H3 H4. unfold counts_for.
  destruct (decide (0 = n)) as [E0|Hn0];
    destruct (decide (length (word x) = n)) as [Hl|Hl].
  - subst n. rewrite Nat.eqb_refl. cbn [orb andb].
    split; [lia|].
    destruct (Z.ltb_spec (at_key (best_word_points a) 0) (score x));
      destruct (Z.ltb_spec (Z.max (at_key (best_word_points a) 0) (score x)) (score x));
      try done; lia.
  - subst n. rewrite Nat.eqb_refl. cbn [orb andb]. done.
  - rewrite (proj2 (Nat.eqb_neq n 0)) by done.
    rewrite (proj2 (Nat.eqb_eq _ _) Hl). cbn. done.
  - rewrite (proj2 (Nat.eqb_neq n 0)) by done.
    rewrite (proj2 (Nat.eqb_neq _ _) Hl). cbn. done.
Qed.

Lemma analyze_fold_best n l a P :
  let V a := at_key (best_word_points a) n in
  let Inv a P :=
    (0 <= V a)%Z /\
    (forall x, x ∈ P -> counts_for n x = true -> (score x <= V a)%Z) /\
    (V a = 0%Z \/
     exists x, x ∈ P /\ counts_for n x = true /\ score x = V a /\
               best_words a !! n = Some (word x)) in
  Inv a P -> Inv (fold_left analyze_step l a) (P ++ l).
Proof.
  intros V Inv. revert a P. induction l as [|x l IH]; intros a P HI.
  - by rewrite app_nil_r.
  - cbn [fold_left]. replace (P ++ x :: l) with ((P ++ [x]) ++ l)
      by (by rewrite <- app_assoc).
    apply IH. destruct HI as (H0 & Hub & Hatt).
    destruct (analyze_step_best a x n) as [E1 E2].
    unfold Inv, V. rewrite E1, E2. fold (V a).
    destruct (counts_for n x) eqn:Hc; cbn [andb].
    + split_and!.
      * lia.
      * intros y Hy Hcy. apply elem_of_app in Hy as [Hy|Hy].
        -- specialize (Hub y Hy Hcy). lia.
        -- apply list_elem_of_singleton in Hy. subst. lia.
      * destruct (Z.ltb_spec (V a) (score x)) as [Hlt|Hge].
        -- right. exists x. split_and!; [|done|lia|done].
           apply elem_of_app. right. apply list_elem_of_here.
        -- rewrite Z.max_l by lia. destruct Hatt as [Hz|(y & Hy & Hcy & Hs & Hb)];
             [by left|].
           right. exists y. split_and!; try done. apply elem_of_app. by left.
    + split_and!.
      * done.
      * intros y Hy Hcy. apply elem_of_app in Hy as [Hy|Hy]; [by apply Hub|].
        apply list_elem_of_singleton in Hy. subst. congruence.
      * destruct Hatt as [Hz|(y & Hy & Hcy & Hs & Hb)]; [by left|].
        right. exists y. split_and!; try done. apply elem_of_app. by left.
Qed.

(** X7: the entry [n] of [best_word_points] is the greatest score among
    the solutions that compete for it (all of them for [n = 0], those with
    a word of [n] characters otherwise), or 0 when none scores more; when
    it is not 0, [best_words] holds the word of a solution with that
    score. *)
Theorem analyze_best b l n :
  (0 <= at_key (best_word_points (analyze b l)) n)%Z /\
  (forall x, x ∈ l -> counts_for n x = true ->
     (score x <= at_key (best_word_points (analyze b l)) n)%Z) /\
  (at_key (best_word_points (analyze b l)) n = 0%Z \/
   exists x, x ∈ l /\ counts_for n x = true /\
     score x = at_key (best_word_points (analyze b l)) n /\
     best_words (analyze b l) !! n = Some (word x)).
Proof.
  pose proof (analyze_fold_best n l (analyze b []) []) as H.
  cbv zeta in H. apply H. cbn. split_and!; [done| |by left].
  intros x Hx. by apply elem_of_nil in Hx.
Qed.

(** ** The board parser: tiles and multipliers *)

Lemma concat_replicate_nil {A} n : concat (replicate n (@nil A)) = [].
Proof. induction n; [done|]. simpl. done. Qed.

Lemma concat_split_at {A} (l : list (list A)) i t :
  l !! i = Some t ->
  concat l = concat (take i l) ++ t ++ concat (drop (S i) l).
Proof.
  intros H. rewrite <- (take_drop_middle l i t H) at 1.
  rewrite concat_app. simpl. done.
Qed.

Lemma concat_insert_empty {A} (l : list (list A)) i t :
  drop i l = replicate (length l - i) [] -> i < length l ->
  concat (<[i := t]> l) = concat l ++ t /\
  drop (S i) (<[i := t]> l) = replicate (length l - S i) [].
Proof.
  intros Hd Hi.
  assert (drop (S i) l = replicate (length l - S i) []) as Hd'.
  { replace (S i) with (i + 1) by lia. rewrite <- drop_drop, Hd.
    rewrite drop_replicate. f_equal. lia. }
  assert (l !! i = Some []) as Hl.
  { rewrite <- (Nat.add_0_r i), <- lookup_drop, Hd.
    apply lookup_replicate_2. lia. }
  split.
  - rewrite (concat_split_at (<[i:=t]> l) i t) by (by apply list_lookup_insert_eq).
    rewrite (concat_split_at l i [] Hl).
    rewrite take_insert_ge by lia. rewrite drop_insert_lt by lia.
    rewrite Hd', concat_replicate_nil, !app_nil_r. done.
  - by rewrite drop_insert_lt by lia.
Qed.

Lemma concat_alter_last {A} (l : list (list A)) i (c : A) :
  drop (S i) l = replicate (length l - S i) [] -> i < length l ->
  concat (alter (fun t => t ++ [c]) i l) = concat l ++ [c] /\
  drop (S i) (alter (fun t => t ++ [c]) i l) = replicate (length l - S i) [].
Proof.
  intros Hd Hi. destruct (lookup_lt_is_Some_2 l i Hi) as [t Ht].
  split.
  - rewrite (concat_split_at (alter (fun t => t ++ [c]) i l) i (t ++ [c])).
    2:{ rewrite list_lookup_alter_eq. by rewrite Ht. }
    rewrite (concat_split_at l i t Ht).
    rewrite take_alter_ge by lia. rewrite drop_alter_lt by lia.
    rewrite Hd, concat_replicate_nil, !app_nil_r. by rewrite app_assoc.
  - by rewrite drop_alter_lt by lia.
Qed.

Lemma upper_not_lower c : Char.isupper c = true -> Char.islower c = false.
Proof. by_cases_on_ascii c. Qed.

Lemma tail_lower_snoc t c :
  tail_lower t -> Char.islower c = true -> tail_lower (t ++ [c]).
Proof.
  unfold tail_lower. destruct t as [|x t]; simpl; [intros _ _; constructor|].
  intros H Hc. apply Forall_app. split; [done|]. by apply Forall_singleton.
Qed.

Lemma tail_lower_single c : tail_lower [c].
Proof. unfold tail_lower. simpl. constructor. Qed.

Lemma tail_lower_nil : tail_lower [].
Proof. unfold tail_lower. simpl. constructor. Qed.

(** One step of the second loop of [parse_board]. *)
Lemma parse_step_text st c n :
  length (p_tiles st) = n ->
  length (p_letter_mult st) = n -> length (p_word_mult st) = n ->
  p_pos st + (if is_tile_start c then 1 else 0) <= n ->
  drop (p_pos st) (p_tiles st) = replicate (n - p_pos st) [] ->
  Forall tail_lower (p_tiles st) ->
  let st' := parse_step st c in
  length (p_tiles st') = n /\
  length (p_letter_mult st') = n /\ length (p_word_mult st') = n /\
  p_pos st' = p_pos st + (if is_tile_start c then 1 else 0) /\
  concat (p_tiles st') =
    concat (p_tiles st) ++
    (if is_tile_char c && ((0 <? p_pos st) || is_tile_start c) then [c] else []) /\
  drop (p_pos st') (p_tiles st') = replicate (n - p_pos st') [] /\
  Forall tail_lower (p_tiles st').
Proof.
  intros Hl Hlm Hwm Hpos Hd Hf. cbv zeta.
  assert (forall t, tail_lower t -> p_pos st < n ->
    length (p_tiles (parse_place st t)) = n /\
    length (p_letter_mult (parse_place st t)) = n /\
    length (p_word_mult (parse_place st t)) = n /\
    p_pos (parse_place st t) = p_pos st + 1 /\
    concat (p_tiles (parse_place st t)) = concat (p_tiles st) ++ t /\
    drop (p_pos (parse_place st t)) (p_tiles (parse_place st t)) =
      replicate (n - p_pos (parse_place st t)) [] /\
    Forall tail_lower (p_tiles (parse_place st t))) as Hplace.
  { intros t Ht Hlt. unfold parse_place. cbn.
    destruct (concat_insert_empty (p_tiles st) (p_pos st) t) as [C1 C2];
      [by rewrite Hl|lia|].
    rewrite !length_insert. split_and!; try done; try lia.
    - by rewrite C2, Hl.
    - by apply Forall_insert. }
  destruct (c =c? ":") eqn:E1.
  { apply char_eqb_eq in E1. subst c.
    change (parse_step st ":") with
      {| p_letter_multiplier := (p_letter_multiplier st + 1) mod 256;
         p_word_multiplier := p_word_multiplier st;
         p_pos := p_pos st; p_tiles := p_tiles st;
         p_letter_mult := p_letter_mult st; p_word_mult := p_word_mult st |}.
    cbn. rewrite app_nil_r, Nat.add_0_r. done. }
  destruct (c =c? ";") eqn:E2.
  { apply char_eqb_eq in E2. subst c.
    change (parse_step st ";") with
      {| p_letter_multiplier := p_letter_multiplier st;
         p_word_multiplier := (p_word_multiplier st + 1) mod 256;
         p_pos := p_pos st; p_tiles := p_tiles st;
         p_letter_mult := p_letter_mult st; p_word_mult := p_word_mult st |}.
    cbn. rewrite app_nil_r, Nat.add_0_r. done. }
  destruct (c =c? "?") eqn:E3.
  { apply char_eqb_eq in E3. subst c.
    change (parse_step st "?") with (parse_place st ["?"%char]).
    change (is_tile_start "?") with true in *. cbv iota in Hpos.
    change (is_tile_char "?") with true.
    rewrite orb_true_r. cbn [andb].
    apply Hplace; [apply tail_lower_single|lia]. }
  destruct (c =c? ".") eqn:E4.
  { apply char_eqb_eq in E4. subst c.
    change (parse_step st ".") with (parse_place st []).
    change (is_tile_start ".") with true in *. cbv iota in Hpos.
    change (is_tile_char ".") with false.
    cbn [andb].
    destruct (Hplace []) as (P1 & P2 & P3 & P4 & P5 & P6 & P7);
      [apply tail_lower_nil|lia|].
    rewrite app_nil_r in *. done. }
  unfold parse_step. rewrite E1, E2.
  unfold is_tile_start, is_tile_char, Char.isalpha in *. rewrite E3, E4 in *.
  rewrite !orb_false_r in *.
  destruct (Char.isupper c) eqn:Eu.
  - rewrite (upper_not_lower _ Eu). cbn [orb andb]. rewrite orb_true_r.
    apply Hplace; [apply tail_lower_single|lia].
  - cbn [orb] in *. destruct (Char.islower c) eqn:El; cbn [andb orb].
    + rewrite Nat.add_0_r in *. destruct (0 <? p_pos st) eqn:Ep; cbn [orb].
      * apply Nat.ltb_lt in Ep. cbn.
        destruct (concat_alter_last (p_tiles st) (p_pos st - 1) c) as [C1 C2].
        { replace (S (p_pos st - 1)) with (p_pos st) by lia. by rewrite Hl. }
        { lia. }
        replace (S (p_pos st - 1)) with (p_pos st) in C2 by lia.
        rewrite length_alter. split_and!; try done.
        -- by rewrite C2, Hl.
        -- apply Forall_alter; [done|]. intros t _ Ht. by apply tail_lower_snoc.
      * rewrite app_nil_r. done.
    + rewrite app_nil_r, Nat.add_0_r. done.
Qed.

Lemma count_tiles_cons c ls :
  count_tiles (c :: ls) = (if is_tile_start c then 1 else 0) + count_tiles ls.
Proof.
  unfold count_tiles. rewrite filter_cons.
  destruct (is_tile_start c); case_decide; simpl; congruence.
Qed.

Lemma filter_tile_char_cons c ls :
  filter (fun c => is_tile_char c = true) (c :: ls) =
  (if is_tile_char c then [c] else []) ++
  filter (fun c => is_tile_char c = true) ls.
Proof.
  rewrite filter_cons. destruct (is_tile_char c); case_decide; simpl; congruence.
Qed.

Lemma board_text_none ls : count_tiles ls = 0 -> board_text ls = [].
Proof.
  unfold board_text. induction ls as [|c ls IH]; [done|].
  rewrite count_tiles_cons. simpl. destruct (is_tile_start c); [done|]. apply IH.
Qed.

(** The second loop of [parse_board] from any of its states. *)
Lemma parse_fold_text rest st n :
  length (p_tiles st) = n ->
  length (p_letter_mult st) = n -> length (p_word_mult st) = n ->
  p_pos st + count_tiles rest <= n ->
  drop (p_pos st) (p_tiles st) = replicate (n - p_pos st) [] ->
  Forall tail_lower (p_tiles st) ->
  let st' := fold_left parse_step rest st in
  length (p_tiles st') = n /\
  length (p_letter_mult st') = n /\ length (p_word_mult st') = n /\
  p_pos st' = p_pos st + count_tiles rest /\
  concat (p_tiles st') =
    concat (p_tiles st) ++
    (if 0 <? p_pos st then filter (fun c => is_tile_char c = true) rest
     else board_text rest) /\
  Forall tail_lower (p_tiles st').
Proof.
  revert st. induction rest as [|c rest IH]; intros st Hl Hlm Hwm Hpos Hd Hf.
  - cbn [fold_left]. cbv zeta. change (count_tiles []) with 0.
    change (board_text []) with (@nil ascii).
    rewrite filter_nil, Nat.add_0_r.
    destruct (0 <? p_pos st); rewrite app_nil_r; done.
  - rewrite count_tiles_cons in Hpos.
    destruct (parse_step_text st c n Hl Hlm Hwm) as (S1 & S2 & S3 & S4 & S5 & S6 & S7);
      [lia|done|done|].
    cbn [fold_left]. cbv zeta.
    destruct (IH (parse_step st c)) as (I1 & I2 & I3 & I4 & I5 & I6);
      [done|done|done|lia|done|done|].
    cbv zeta in I1, I2, I3, I4, I5, I6.
    split_and!; try done.
    + rewrite I4, S4, count_tiles_cons. lia.
    + rewrite I5, S5, S4, <- app_assoc. f_equal.
      unfold board_text. cbn [from_first_tile]. rewrite filter_tile_char_cons.
      destruct (0 <? p_pos st) eqn:Ep.
      * apply Nat.ltb_lt in Ep. cbn [orb]. rewrite andb_true_r.
        rewrite (proj2 (Nat.ltb_lt 0 _)) by lia. done.
      * apply Nat.ltb_ge in Ep. cbn [orb].
        destruct (is_tile_start c) eqn:Es.
        -- rewrite andb_true_r. rewrite (proj2 (Nat.ltb_lt 0 _)) by lia.
           by rewrite filter_tile_char_cons.
        -- rewrite andb_false_r. cbn [app].
           rewrite (proj2 (Nat.ltb_ge 0 _)) by lia. done.
Qed.

(** X8: the board parser gives the three arrays as many entries as the
    text has tile starts (upper-case letters, [?] and [.]); read in order,
    the tiles hold the letters and wildcards of the text from its first
    tile on; and in every tile the characters after the first are lower
    case. *)
Theorem Board_new_tiles ls g :
  board_size (Board_new ls g) = count_tiles ls /\
  length (tile_grid (Board_new ls g)) = count_tiles ls /\
  length (letter_mult_grid (Board_new ls g)) = count_tiles ls /\
  length (word_mult_grid (Board_new ls g)) = count_tiles ls /\
  concat (tile_grid (Board_new ls g)) = board_text ls /\
  Forall tail_lower (tile_grid (Board_new ls g)).
Proof.
  unfold Board_new. cbn [board_size tile_grid letter_mult_grid word_mult_grid].
  unfold parse_board. fold (count_tiles ls).
  set (n := count_tiles ls).
  set (st0 := {| p_letter_multiplier := 1; p_word_multiplier := 1; p_pos := 0;
                 p_tiles := replicate n []; p_letter_mult := replicate n 0;
                 p_word_mult := replicate n 0 |}).
  destruct (Nat.eqb_spec n 0) as [E|E].
  - cbn. rewrite !length_replicate, concat_replicate_nil.
    rewrite board_text_none by done. split_and!; try done.
    apply Forall_replicate, tail_lower_nil.
  - destruct (parse_fold_text ls st0 n) as (I1 & I2 & I3 & I4 & I5 & I6).
    + apply length_replicate.
    + apply length_replicate.
    + apply length_replicate.
    + cbn. unfold n. lia.
    + cbn. by rewrite Nat.sub_0_r.
    + apply Forall_replicate, tail_lower_nil.
    + cbv zeta in *. cbn in I5. rewrite concat_replicate_nil in I5.
      split_and!; done.
Qed.

Lemma count_char_cons x c ls :
  count_char x (c :: ls) = (if c =c? x then 1 else 0) + count_char x ls.
Proof.
  unfold count_char. rewrite filter_cons. destruct (c =c? x) eqn:E.
  - apply char_eqb_eq in E. by rewrite decide_True.
  - apply char_eqb_neq in E. by rewrite decide_False.
Qed.

Lemma tile_start_kind c :
  is_tile_start c = true ->
  (c =c? ":") = false /\ (c =c? ";") = false /\ Char.islower c = false /\
  (Char.isalpha c || (c =c? "?") || (c =c? ".")) = true.
Proof. by_cases_on_ascii c. Qed.

Lemma parse_step_start st c :
  is_tile_start c = true ->
  parse_step st c = parse_place st (if c =c? "." then [] else [c]).
Proof.
  intros Hs. destruct (tile_start_kind c Hs) as (E1 & E2 & E3 & E4).
  unfold parse_step. rewrite E1, E2, E3, E4. cbn [andb].
  unfold is_tile_start in Hs.
  destruct (Char.isupper c || (c =c? "?")) eqn:E5.
  - destruct (c =c? ".") eqn:E6; [|done].
    apply char_eqb_eq in E6. subst c. discriminate.
  - cbn [orb] in Hs. by rewrite Hs.
Qed.

(** A step on a character that starts no tile keeps the arrays of
    multipliers and counts the marks. *)
Lemma parse_step_mark st c :
  is_tile_start c = false ->
  p_pos (parse_step st c) = p_pos st /\
  p_letter_mult (parse_step st c) = p_letter_mult st /\
  p_word_mult (parse_step st c) = p_word_mult st /\
  p_letter_multiplier (parse_step st c) =
    (if c =c? ":" then (p_letter_multiplier st + 1) mod 256
     else p_letter_multiplier st) /\
  p_word_multiplier (parse_step st c) =
    (if c =c? ";" then (p_word_multiplier st + 1) mod 256
     else p_word_multiplier st).
Proof.
  intros Hs. unfold parse_step.
  destruct (c =c? ":") eqn:E1.
  { apply char_eqb_eq in E1. by subst c. }
  destruct (c =c? ";") eqn:E2; [done|].
  unfold is_tile_start in Hs.
  apply orb_false_iff in Hs as [Hs E4]. rewrite Hs, E4.
  destruct (Char.isalpha c || (c =c? "?") || false); [|done].
  by destruct (Char.islower c && (0 <? p_pos st)).
Qed.

Lemma parse_fold_marks marks st :
  count_tiles marks = 0 ->
  p_letter_multiplier st < 256 -> p_word_multiplier st < 256 ->
  let st' := fold_left parse_step marks st in
  p_pos st' = p_pos st /\
  p_letter_mult st' = p_letter_mult st /\
  p_word_mult st' = p_word_mult st /\
  p_letter_multiplier st' =
    (p_letter_multiplier st + count_char ":" marks) mod 256 /\
  p_word_multiplier st' =
    (p_word_multiplier st + count_char ";" marks) mod 256.
Proof.
  revert st. induction marks as [|c marks IH]; intros st Hc Hl Hw.
  - cbn [fold_left]. cbv zeta. change (count_char ":" []) with 0.
    change (count_char ";" []) with 0.
    rewrite !Nat.add_0_r, !Nat.mod_small by done. done.
  - rewrite count_tiles_cons in Hc.
    destruct (is_tile_start c) eqn:Es; [lia|].
    destruct (parse_step_mark st c Es) as (S1 & S2 & S3 & S4 & S5).
    cbn [fold_left]. cbv zeta.
    destruct (IH (parse_step st c)) as (I1 & I2 & I3 & I4 & I5).
    + lia.
    + rewrite S4. destruct (c =c? ":"); [apply Nat.mod_upper_bound|]; lia.
    + rewrite S5. destruct (c =c? ";"); [apply Nat.mod_upper_bound|]; lia.
    + cbv zeta in I1, I2, I3, I4, I5.
      rewrite I1, I2, I3, I4, I5, S1, S2, S3, S4, S5, !count_char_cons.
      split_and!; try done.
      * destruct (c =c? ":"); [|done].
        rewrite Nat.Div0.add_mod_idemp_l. f_equal. lia.
      * destruct (c =c? ";"); [|done].
        rewrite Nat.Div0.add_mod_idemp_l. f_equal. lia.
Qed.

(** The entries of the multiplier arrays below [p_pos] are final. *)
Lemma parse_fold_below rest st i :
  i < p_pos st ->
  let st' := fold_left parse_step rest st in
  p_letter_mult st' !! i = p_letter_mult st !! i /\
  p_word_mult st' !! i = p_word_mult st !! i.
Proof.
  revert st. induction rest as [|c rest IH]; intros st Hi; [done|].
  cbn [fold_left]. cbv zeta.
  destruct (is_tile_start c) eqn:Es.
  - destruct (IH (parse_step st c)) as [I1 I2].
    { rewrite parse_step_start by done. cbn. lia. }
    cbv zeta in I1, I2. rewrite I1, I2, parse_step_start by done. cbn.
    rewrite !list_lookup_insert_ne by lia. done.
  - destruct (parse_step_mark st c Es) as (S1 & S2 & S3 & _).
    destruct (IH (parse_step st c)) as [I1 I2]; [lia|].
    cbv zeta in I1, I2. by rewrite I1, I2, S2, S3.
Qed.

Lemma count_tiles_app a b : count_tiles (a ++ b) = count_tiles a + count_tiles b.
Proof. unfold count_tiles. by rewrite filter_app, length_app. Qed.

Lemma parse_fold_reset pre st :
  (pre = [] \/ exists pre' s, pre = pre' ++ [s] /\ is_tile_start s = true) ->
  p_letter_multiplier st = 1 -> p_word_multiplier st = 1 ->
  p_letter_multiplier (fold_left parse_step pre st) = 1 /\
  p_word_multiplier (fold_left parse_step pre st) = 1.
Proof.
  intros [->|(pre' & s & -> & Hs)] Hl Hw; [done|].
  rewrite fold_left_app. cbn [fold_left]. by rewrite parse_step_start.
Qed.

(** X9: the multipliers of a tile count the marks between the tile
    before it and its own first character: the letter multiplier is one
    more than the number of [:] and the word multiplier one more than the
    number of [;], both as [unsigned char]. *)
Theorem Board_new_multipliers pre marks c post g :
  (pre = [] \/ exists pre' s, pre = pre' ++ [s] /\ is_tile_start s = true) ->
  count_tiles marks = 0 -> is_tile_start c = true ->
  letter_mult (Board_new (pre ++ marks ++ c :: post) g) (count_tiles pre) =
    (1 + count_char ":" marks) mod 256 /\
  word_mult (Board_new (pre ++ marks ++ c :: post) g) (count_tiles pre) =
    (1 + count_char ";" marks) mod 256.
Proof.
  intros Hpre Hmarks Hc.
  unfold letter_mult, word_mult, Board_new.
  cbn [letter_mult_grid word_mult_grid]. unfold parse_board.
  fold (count_tiles (pre ++ marks ++ c :: post)).
  set (n := count_tiles (pre ++ marks ++ c :: post)).
  assert (n = count_tiles pre + S (count_tiles post)) as Hn.
  { unfold n. rewrite !count_tiles_app, count_tiles_cons, Hmarks, Hc. lia. }
  destruct (Nat.eqb_spec n 0) as [E|_]; [lia|].
  set (st0 := {| p_letter_multiplier := 1; p_word_multiplier := 1; p_pos := 0;
                 p_tiles := replicate n []; p_letter_mult := replicate n 0;
                 p_word_mult := replicate n 0 |}).
  rewrite !fold_left_app. cbn [fold_left].
  set (st1 := fold_left parse_step pre st0).
  set (st2 := fold_left parse_step marks st1).
  destruct (parse_fold_text pre st0 n) as (A1 & A2 & A3 & A4 & _).
  { apply length_replicate. } { apply length_replicate. }
  { apply length_replicate. } { cbn. lia. }
  { cbn. by rewrite Nat.sub_0_r. }
  { apply Forall_replicate, tail_lower_nil. }
  cbv zeta in A1, A2, A3, A4. fold st1 in A1, A2, A3, A4. cbn in A4.
  destruct (parse_fold_reset pre st0 Hpre eq_refl eq_refl) as [B1 B2].
  fold st1 in B1, B2.
  destruct (parse_fold_marks marks st1 Hmarks) as (M1 & M2 & M3 & M4 & M5);
    [lia|lia|].
  cbv zeta in M1, M2, M3, M4, M5. fold st2 in M1, M2, M3, M4, M5.
  destruct (parse_fold_below post (parse_step st2 c) (count_tiles pre)) as [F1 F2].
  { rewrite parse_step_start by done. cbn. lia. }
  cbv zeta in F1, F2. rewrite F1, F2, parse_step_start by done. cbn.
  rewrite M1, A4, !list_lookup_insert_eq by (rewrite ?M2, ?M3, ?A2, ?A3; lia).
  cbn. by rewrite M4, M5, B1, B2.
Qed.

Lemma Board_new_multipliers_witness :
  letter_mult (Board_new (str "A::;Bc") None) 1 = 3 /\
  word_mult (Board_new (str "A::;Bc") None) 1 = 2.
Proof.
  apply (Board_new_multipliers (str "A") (str "::;") "B" (str "c") None).
  - right. exists [], "A"%char. split; reflexivity.
  - reflexivity.
  - reflexivity.
Defined.

(** ** The grid *)

Lemma isTileSet_setTile x y st x' y' :
  grid_shape (grid st) -> x < MAX_GRID_WIDTH -> y < MAX_GRID_WIDTH ->
  isTileSet (grid (setTile x y true st)) x' y' =
  bool_decide (x' = x /\ y' = y) || isTileSet (grid st) x' y'.
Proof.
  intros [Hl Hr] Hx Hy. unfold setTile.
  rewrite (proj2 (Nat.ltb_lt _ _) Hx), (proj2 (Nat.ltb_lt _ _) Hy). cbn [andb].
  destruct (default false (grid_tiles (grid st) !! x ≫= (fun r => r !! y))) eqn:E.
  - case_bool_decide as Hd; [|done]. destruct Hd as [-> ->]. cbn [orb].
    unfold isTileSet. rewrite (proj2 (Nat.ltb_lt _ _) Hx), (proj2 (Nat.ltb_lt _ _) Hy).
    done.
  - unfold isTileSet. cbn [grid grid_tiles].
    destruct ((x' <? MAX_GRID_WIDTH) && (y' <? MAX_GRID_WIDTH)) eqn:Eb.
    2:{ rewrite orb_false_r. symmetry. apply bool_decide_eq_false_2. intros [-> ->].
        rewrite (proj2 (Nat.ltb_lt _ _) Hx), (proj2 (Nat.ltb_lt _ _) Hy) in Eb.
        done. }
    destruct (decide (x' = x)) as [->|Hne].
    + rewrite list_lookup_alter_eq.
      destruct (lookup_lt_is_Some_2 (grid_tiles (grid st)) x) as [r Hrow]; [lia|].
      rewrite Hrow. cbn.
      assert (length r = MAX_GRID_WIDTH) as Hlr.
      { rewrite Forall_forall in Hr. apply Hr. by eapply list_elem_of_lookup_2. }
      destruct (decide (y' = y)) as [->|Hney].
      * rewrite list_lookup_insert_eq by lia. by rewrite bool_decide_eq_true_2.
      * rewrite list_lookup_insert_ne by done.
        rewrite bool_decide_eq_false_2 by (intros [_ ?]; done). done.
    + rewrite list_lookup_alter_ne by done.
      rewrite bool_decide_eq_false_2 by (intros [? _]; done). done.
Qed.

Lemma elem_of_grid_cells x y :
  (x, y) ∈ grid_cells <-> x < MAX_GRID_WIDTH /\ y < MAX_GRID_WIDTH.
Proof.
  unfold grid_cells. rewrite list_elem_of_bind. split.
  - intros (r & Hin & Hr). apply list_elem_of_bind in Hin as (c & Hin & Hc).
    apply list_elem_of_singleton in Hin. injection Hin as -> ->.
    apply elem_of_seq in Hr, Hc. lia.
  - intros [Hx Hy]. exists x. split; [|apply elem_of_seq; lia].
    apply list_elem_of_bind. exists y. split; [apply list_elem_of_here|].
    apply elem_of_seq. lia.
Qed.

Lemma NoDup_grid_cells : NoDup grid_cells.
Proof. apply (bool_decide_unpack (NoDup grid_cells)). vm_compute. reflexivity. Qed.

Lemma filter_one_more {A} `{EqDecision A} (f f' : A -> bool) a l :
  NoDup l -> a ∈ l -> f a = false ->
  (forall b, f' b = bool_decide (b = a) || f b) ->
  length (filter (fun b => f' b = true) l) =
  S (length (filter (fun b => f b = true) l)).
Proof.
  intros Hnd Ha Hfa Hf'.
  assert (forall l : list A, a ∉ l ->
    filter (fun b => f' b = true) l = filter (fun b => f b = true) l) as Hsame.
  { clear Hnd Ha l. induction l as [|b l IH]; intros Hn; [done|].
    rewrite !filter_cons, IH by (intros ?; apply Hn; by apply list_elem_of_further).
    rewrite Hf'. rewrite bool_decide_eq_false_2; [done|].
    intros ->. apply Hn. apply list_elem_of_here. }
  induction l as [|b l IH]; [by apply elem_of_nil in Ha|].
  apply NoDup_cons in Hnd as [Hb Hnd]. rewrite !filter_cons.
  apply elem_of_cons in Ha as [<-|Ha].
  - rewrite Hf', bool_decide_eq_true_2 by done. cbn [orb].
    rewrite decide_True by done. rewrite Hfa.
    rewrite decide_False by done. cbn [length]. by rewrite Hsame.
  - rewrite Hf'. rewrite bool_decide_eq_false_2 by (intros ->; done). cbn [orb].
    destruct (f b); case_decide; try done; cbn [length]; rewrite IH; done.
Qed.

Lemma setTile_shape x y v st :
  grid_shape (grid st) -> grid_shape (grid (setTile x y v st)).
Proof.
  intros [Hl Hr]. unfold setTile.
  destruct ((x <? MAX_GRID_WIDTH) && (y <? MAX_GRID_WIDTH)); [|done].
  destruct (default false _); [done|]. unfold grid_shape. cbn [grid grid_tiles].
  split.
  - by rewrite length_alter.
  - apply Forall_alter; [done|]. intros r _ Hlr. by rewrite length_insert.
Qed.

Lemma setTile_count x y st :
  grid_shape (grid st) ->
  tiles_set st = Z.of_nat (enabled_cells (grid st)) ->
  tiles_set (setTile x y true st) =
    Z.of_nat (enabled_cells (grid (setTile x y true st))).
Proof.
  intros Hsh Hc.
  destruct ((x <? MAX_GRID_WIDTH) && (y <? MAX_GRID_WIDTH)) eqn:Eb.
  2:{ unfold setTile. by rewrite Eb. }
  apply andb_true_iff in Eb as [Hx Hy]. apply Nat.ltb_lt in Hx, Hy.
  destruct (isTileSet (grid st) x y) eqn:Es.
  - unfold isTileSet in Es.
    rewrite (proj2 (Nat.ltb_lt _ _) Hx), (proj2 (Nat.ltb_lt _ _) Hy) in Es.
    cbn [andb] in Es. unfold setTile.
    rewrite (proj2 (Nat.ltb_lt _ _) Hx), (proj2 (Nat.ltb_lt _ _) Hy). cbn [andb].
    by rewrite Es.
  - unfold enabled_cells.
    rewrite (filter_one_more (fun rc => isTileSet (grid st) rc.1 rc.2)
               (fun rc => isTileSet (grid (setTile x y true st)) rc.1 rc.2)
               (x, y) grid_cells).
    + pose proof (length_filter (fun rc => isTileSet (grid st) rc.1 rc.2 = true)
                    grid_cells) as Hle.
      change (length grid_cells) with 100 in Hle.
      fold (enabled_cells (grid st)) in Hle |- *.
      pose proof Es as Es'. unfold isTileSet in Es'.
      rewrite (proj2 (Nat.ltb_lt _ _) Hx), (proj2 (Nat.ltb_lt _ _) Hy) in Es'.
      cbn [andb] in Es'. unfold setTile.
      rewrite (proj2 (Nat.ltb_lt _ _) Hx), (proj2 (Nat.ltb_lt _ _) Hy). cbn [andb].
      rewrite Es'. cbn [tiles_set]. rewrite Hc. unfold size_t.
      rewrite Z.mod_small; lia.
    + apply NoDup_grid_cells.
    + by apply elem_of_grid_cells.
    + done.
    + intros [x' y']. cbn [fst snd]. rewrite isTileSet_setTile by done.
      f_equal. apply bool_decide_ext. split; [by intros [-> ->]|by intros [= -> ->]].
Qed.

(** X10: after any sequence of [setTile(x, y, true)] on a new grid, a
    cell is enabled exactly when it is in range and in the sequence, and
    [tilesSet] is the number of enabled cells. *)
Theorem enable_all_spec cs :
  (forall x y, isTileSet (grid (enable_all cs)) x y = true <->
     (x, y) ∈ cs /\ x < MAX_GRID_WIDTH /\ y < MAX_GRID_WIDTH) /\
  tilesSet (enable_all cs) = Z.of_nat (enabled_cells (grid (enable_all cs))).
Proof.
  unfold enable_all, tilesSet.
  assert (forall st pre,
    grid_shape (grid st) ->
    (forall x y, isTileSet (grid st) x y = true <->
       (x, y) ∈ pre /\ x < MAX_GRID_WIDTH /\ y < MAX_GRID_WIDTH) ->
    tiles_set st = Z.of_nat (enabled_cells (grid st)) ->
    let st' := fold_left (fun st rc => setTile rc.1 rc.2 true st) cs st in
    (forall x y, isTileSet (grid st') x y = true <->
       (x, y) ∈ pre ++ cs /\ x < MAX_GRID_WIDTH /\ y < MAX_GRID_WIDTH) /\
    tiles_set st' = Z.of_nat (enabled_cells (grid st'))) as H.
  { induction cs as [|[x y] cs IH]; intros st pre Hsh Hm Hc.
    - cbn [fold_left]. cbv zeta. rewrite app_nil_r. done.
    - cbn [fold_left fst snd]. cbv zeta.
      replace (pre ++ (x, y) :: cs) with ((pre ++ [(x, y)]) ++ cs)
        by (by rewrite <- app_assoc).
      apply IH.
      + by apply setTile_shape.
      + intros x' y'.
        destruct ((x <? MAX_GRID_WIDTH) && (y <? MAX_GRID_WIDTH)) eqn:Eb.
        * apply andb_true_iff in Eb as [Hx Hy]. apply Nat.ltb_lt in Hx, Hy.
          rewrite isTileSet_setTile by done.
          rewrite orb_true_iff, bool_decide_eq_true, Hm, elem_of_app,
            list_elem_of_singleton.
          split.
          -- intros [[-> ->]|(? & ? & ?)]; [by split; [right|]|].
             split; [by left|done].
          -- intros ([?|[= -> ->]] & ? & ?); [right; done|left; done].
        * unfold setTile. rewrite Eb. rewrite Hm, elem_of_app, list_elem_of_singleton.
          split.
          -- intros (? & ? & ?). split; [by left|done].
          -- intros ([?|[= -> ->]] & Hx & Hy); [done|].
             apply Nat.ltb_lt in Hx, Hy. rewrite Hx, Hy in Eb. done.
      + by apply setTile_count. }
  apply (H new_GameGrid []).
  - split; [done|]. apply Forall_replicate. apply length_replicate.
  - intros x y. split.
    + unfold isTileSet. cbn [grid grid_tiles new_GameGrid].
      destruct ((x <? MAX_GRID_WIDTH) && (y <? MAX_GRID_WIDTH)) eqn:Eb; [|done].
      apply andb_true_iff in Eb as [Hx Hy]. apply Nat.ltb_lt in Hx, Hy.
      rewrite lookup_replicate_2 by done. cbn -[replicate MAX_GRID_WIDTH].
      rewrite lookup_replicate_2 by done. done.
    + intros [Hin _]. by apply elem_of_nil in Hin.
  - vm_compute. reflexivity.
Qed.

(** ** Dancing links *)

(** X11: on a matrix of n <= 200 columns whose rows were entered with
    addColumn and addRow, each row a non-empty list of distinct column
    numbers below n, solve(false) returns 1 when some of the rows have every
    column in exactly one of them, and 0 when no rows do; it leaves every
    link of the matrix as it was. *)
Theorem DLX_solve_exact_cover n valss :
  n <= DLX.MAX_COLUMNS -> forallb (row_values_ok n) valss = true ->
  exists d s d',
    build_matrix n valss = Some d /\ DLX.solve false d = Some (s, d') /\
    DLX.heap d' = DLX.heap d /\
    ((s = 1%Z /\ exact_cover n valss) \/ (s = 0%Z /\ ~ exact_cover n valss)).
Proof.
  intros Hn Hok.
  destruct (DLX_build.build_matrix_Built n valss Hn Hok) as (d & E & HB & HO).
  destruct (DLX_search.solve_Built d _ _ HB) as (s & d' & Es & Eh & Hs & Hiff).
  { rewrite length_seq. unfold DLX.MAX_COLUMNS, DLX.MAX_ROW_BUF in *. lia. }
  { rewrite HO. apply length_replicate. }
  assert (EC (row_cols (number_rows (seq 1 n) (S n) valss)) (seq 1 n) <->
          exact_cover n valss) as HEC.
  { rewrite (DLX_search.number_rows_cols n valss (S n) Hok).
    rewrite DLX_search.exact_cover_shift. apply DLX_search.EC_perm.
    - intros ρ Hρ. apply list_elem_of_fmap in Hρ as (values & -> & Hv).
      apply (NoDup_fmap_2 S).
      rewrite forallb_forall in Hok.
      apply list_elem_of_In, Hok, DLX_build.row_values_ok_spec in Hv.
      by destruct Hv.
    - apply NoDup_seq. }
  exists d, s, d'. split_and!; [done|done|done|].
  rewrite <- HEC, <- Hiff. destruct (decide (s = 1%Z)); [left; done|right].
  split; [lia|done].
Qed.

Lemma DLX_solve_exact_cover_witness :
  exists d s d',
    build_matrix 3 [[0; 1]; [1; 2]; [2]] = Some d /\
    DLX.solve false d = Some (s, d') /\
    DLX.heap d' = DLX.heap d /\
    ((s = 1%Z /\ exact_cover 3 [[0; 1]; [1; 2]; [2]]) \/
     (s = 0%Z /\ ~ exact_cover 3 [[0; 1]; [1; 2]; [2]])).
Proof.
  apply (DLX_solve_exact_cover 3 [[0; 1]; [1; 2]; [2]]).
  - unfold DLX.MAX_COLUMNS. lia.
  - vm_compute. reflexivity.
Defined.

(** X12: on a matrix entered with addColumn and addRow as above, cover of
    the header of any column followed by uncover of the same header gives
    back every link and every count. *)
Theorem DLX_cover_uncover n valss d k :
  n <= DLX.MAX_COLUMNS -> forallb (row_values_ok n) valss = true ->
  build_matrix n valss = Some d -> k < n ->
  exists c h',
    DLX.column_array d !! k = Some c /\
    DLX.cover c (DLX.heap d) = Some h' /\
    DLX.uncover c h' = Some (DLX.heap d).
Proof.
  intros Hn Hok E Hk.
  destruct (DLX_build.build_matrix_Built n valss Hn Hok) as (d0 & E0 & HB & _).
  rewrite E in E0. injection E0 as <-.
  destruct HB as (HG & Hc & _).
  assert (S k ∈ seq 1 n) as Hin by (apply elem_of_seq; lia).
  destruct (list_elem_of_split _ _ Hin) as (l1 & l2 & EA).
  rewrite EA in HG.
  destruct (DLX_cover.cover_spec _ _ _ _ _ _ HG) as (h' & Vc & Ec & _ & _ & _ & Hun & _).
  exists (S k), h'. split_and!; [|done|done].
  rewrite Hc. by apply lookup_seq_lt.
Qed.

Lemma DLX_cover_uncover_witness :
  exists c h',
    DLX.column_array
      (default DLX.new (build_matrix 3 [[0; 1]; [1; 2]; [2]])) !! 1 = Some c /\
    DLX.cover c
      (DLX.heap (default DLX.new (build_matrix 3 [[0; 1]; [1; 2]; [2]])))
      = Some h' /\
    DLX.uncover c h' =
      Some (DLX.heap (default DLX.new (build_matrix 3 [[0; 1]; [1; 2]; [2]]))).
Proof.
  apply (DLX_cover_uncover 3 [[0; 1]; [1; 2]; [2]]).
  - unfold DLX.MAX_COLUMNS. lia.
  - vm_compute. reflexivity.
  - vm_compute. reflexivity.
  - lia.
Defined.

Lemma fold_addColumn_None (l : list nat) :
  fold_left (fun d (_ : nat) => d ≫= DLX.addColumn) l None = None.
Proof. induction l as [|x l IH]; [done|]. simpl. apply IH. Qed.

Lemma add_columns_over d0 cols rows N m :
  Built d0 cols rows -> length cols + N = DLX.MAX_COLUMNS ->
  add_columns (N + S m) d0 = None.
Proof.
  intros HB HN.
  destruct (DLX_build.add_columns_Built N d0 cols rows HB) as (d & E & (_ & Hc & _) & _);
    [lia|].
  unfold add_columns in *. rewrite seq_app, fold_left_app, E.
  cbn [seq fold_left mbind option_bind].
  assert (DLX.addColumn d = None) as ->.
  { unfold DLX.addColumn. rewrite Hc, length_app, length_seq, HN.
    by rewrite Nat.leb_refl. }
  apply fold_addColumn_None.
Qed.

(** X13: the array of column headers has room for 200 columns: n calls of
    addColumn on a new matrix stay inside it exactly when n <= 200. *)
Theorem DLX_addColumn_bound n :
  is_Some (add_columns n DLX.new) <-> n <= DLX.MAX_COLUMNS.
Proof.
  split.
  - intros Hsome. destruct (decide (n <= DLX.MAX_COLUMNS)) as [|Hgt]; [done|].
    exfalso.
    assert (exists m, n = DLX.MAX_COLUMNS + S m) as (m & ->).
    { exists (n - DLX.MAX_COLUMNS - 1). lia. }
    rewrite (add_columns_over DLX.new [] [] DLX.MAX_COLUMNS m DLX_build.new_Built)
      in Hsome; [|reflexivity].
    destruct Hsome as [x Hx]. discriminate Hx.
  - intros Hn.
    destruct (DLX_build.add_columns_Built n DLX.new [] [] DLX_build.new_Built)
      as (d & E & _); [simpl; lia|].
    by exists d.
Qed.

(** ** The adjacency matrix of a board *)

Lemma filter_lookup_index {X} (P : X -> Prop) `{forall x, Decision (P x)}
    (l : list X) k x :
  filter P l !! k = Some x <->
  exists idx, l !! idx = Some x /\ P x /\ length (filter P (take idx l)) = k.
Proof.
  revert k. induction l as [|y l IH]; intros k.
  - rewrite filter_nil. split; [done|]. by intros (idx & ? & _).
  - destruct (decide (P y)) as [Hy|Hy].
    + rewrite filter_cons_True by done. destruct k as [|k]; simpl.
      * split.
        -- intros [= ->]. exists 0. by rewrite take_0.
        -- intros ([|idx] & E & HP & Hl); [by simplify_eq/=|].
           simpl in Hl. rewrite filter_cons_True in Hl by done. done.
      * rewrite IH. split.
        -- intros (idx & E & HP & Hl). exists (S idx). simpl.
           rewrite filter_cons_True by done. simpl. by rewrite Hl.
        -- intros ([|idx] & E & HP & Hl).
           ++ by rewrite take_0 in Hl.
           ++ simpl in *. rewrite filter_cons_True in Hl by done.
              simpl in Hl. exists idx. split_and!; [done|done|lia].
    + rewrite filter_cons_False by done. rewrite IH. split.
      * intros (idx & E & HP & Hl). exists (S idx). simpl.
        by rewrite filter_cons_False.
      * intros ([|idx] & E & HP & Hl).
        -- simpl in E. by simplify_eq.
        -- simpl in *. rewrite filter_cons_False in Hl by done. by exists idx.
Qed.

Lemma grid_cells_lookup r c :
  r < MAX_GRID_WIDTH -> c < MAX_GRID_WIDTH ->
  grid_cells !! (r * MAX_GRID_WIDTH + c) = Some (r, c).
Proof.
  intros Hr Hc.
  assert (forallb (fun r => forallb (fun c =>
            bool_decide (grid_cells !! (r * MAX_GRID_WIDTH + c) = Some (r, c)))
            (seq 0 MAX_GRID_WIDTH)) (seq 0 MAX_GRID_WIDTH) = true) as H
    by (vm_compute; reflexivity).
  rewrite forallb_forall in H.
  assert (In r (seq 0 MAX_GRID_WIDTH)) as Hr' by (apply in_seq; lia).
  specialize (H r Hr'). rewrite forallb_forall in H.
  eapply bool_decide_eq_true_1, H, in_seq. lia.
Qed.

Lemma grid_cells_index idx r c :
  grid_cells !! idx = Some (r, c) ->
  r < MAX_GRID_WIDTH /\ c < MAX_GRID_WIDTH /\ idx = r * MAX_GRID_WIDTH + c.
Proof.
  intros E. assert ((r, c) ∈ grid_cells) as Hin by (by eapply list_elem_of_lookup_2).
  apply elem_of_grid_cells in Hin as [Hr Hc]. split_and!; [done|done|].
  eapply NoDup_lookup; [apply NoDup_grid_cells|exact E|by apply grid_cells_lookup].
Qed.

(** The fold of [build_pos_matrix] from any counter on. *)
Lemma pos_fold g n l : forall k0 acc0,
  exists V,
    (fold_left
       (fun (acc : nat * list Z) (rc : nat * nat) =>
          if isTileSet g rc.1 rc.2 && (acc.1 <? n)
          then (S acc.1, acc.2 ++ [Z.of_nat acc.1])
          else (acc.1, acc.2 ++ [(-1)%Z])) l (k0, acc0)).2 = acc0 ++ V /\
    forall idx rc, l !! idx = Some rc ->
      V !! idx =
      Some (let k := k0 + length (filter (fun rc => isTileSet g rc.1 rc.2 = true)
                                    (take idx l)) in
            if isTileSet g rc.1 rc.2 && (k <? n) then Z.of_nat k else (-1)%Z).
Proof.
  induction l as [|rc0 l IH]; intros k0 acc0.
  - exists []. split; [by rewrite app_nil_r|]. intros idx rc E. done.
  - cbn [fold_left fst snd].
    destruct (isTileSet g rc0.1 rc0.2) eqn:Een; cbn [andb].
    + destruct (k0 <? n) eqn:Ek.
      * destruct (IH (S k0) (acc0 ++ [Z.of_nat k0])) as (V & -> & HV).
        exists (Z.of_nat k0 :: V). split; [by rewrite <- app_assoc|].
        intros [|idx] rc E; simpl in E.
        -- injection E as <-. cbn [take lookup list_lookup].
           rewrite filter_nil. cbn [length]. rewrite Nat.add_0_r, Een, Ek. done.
        -- change ((_ :: V) !! S idx) with (V !! idx). rewrite (HV idx rc E). cbn [take].
           rewrite filter_cons_True by done. cbn [length].
           replace (k0 + S (length (filter (fun rc1 => isTileSet g rc1.1 rc1.2 = true)
                                      (take idx l))))
             with (S k0 + length (filter (fun rc1 => isTileSet g rc1.1 rc1.2 = true)
                                      (take idx l))) by lia.
           done.
      * destruct (IH k0 (acc0 ++ [(-1)%Z])) as (V & -> & HV).
        exists ((-1)%Z :: V). split; [by rewrite <- app_assoc|].
        intros [|idx] rc E; simpl in E.
        -- injection E as <-. cbn [take lookup list_lookup].
           rewrite filter_nil. cbn [length]. rewrite Nat.add_0_r, Een, Ek. done.
        -- change ((_ :: V) !! S idx) with (V !! idx). rewrite (HV idx rc E). cbn [take].
           rewrite filter_cons_True by done. cbn [length]. cbv zeta.
           apply Nat.ltb_ge in Ek.
           destruct (isTileSet g rc.1 rc.2); [|done]. cbn [andb].
           destruct (Nat.ltb_spec (k0 + length (filter (fun rc1 => isTileSet g rc1.1 rc1.2 = true) (take idx l))) n);
             [lia|].
           destruct (Nat.ltb_spec (k0 + S (length (filter (fun rc1 => isTileSet g rc1.1 rc1.2 = true) (take idx l)))) n);
             [lia|done].
    + destruct (IH k0 (acc0 ++ [(-1)%Z])) as (V & -> & HV).
      exists ((-1)%Z :: V). split; [by rewrite <- app_assoc|].
      intros [|idx] rc E; simpl in E.
      * injection E as <-. cbn [lookup list_lookup]. cbv zeta. by rewrite Een.
      * change ((_ :: V) !! S idx) with (V !! idx). rewrite (HV idx rc E). cbn [take].
        rewrite filter_cons_False by (by rewrite Een). done.
Qed.

(** The tile of a cell in [pos_matrix]. *)
Lemma pos_at_spec g n r c :
  r < MAX_GRID_WIDTH -> c < MAX_GRID_WIDTH ->
  pos_at (build_pos_matrix g n) r c =
  if isTileSet g r c && (enabled_before g (r * MAX_GRID_WIDTH + c) <? n)
  then Z.of_nat (enabled_before g (r * MAX_GRID_WIDTH + c)) else (-1)%Z.
Proof.
  intros Hr Hc. unfold pos_at, build_pos_matrix.
  destruct (pos_fold g n grid_cells 0 []) as (V & -> & HV).
  cbn [app]. rewrite (HV _ _ (grid_cells_lookup r c Hr Hc)). done.
Qed.

Lemma tile_cells_lookup g n k rc :
  tile_cells g n !! k = Some rc <->
  k < n /\ rc.1 < MAX_GRID_WIDTH /\ rc.2 < MAX_GRID_WIDTH /\
  isTileSet g rc.1 rc.2 = true /\
  enabled_before g (rc.1 * MAX_GRID_WIDTH + rc.2) = k.
Proof.
  unfold tile_cells. rewrite lookup_take_Some, filter_lookup_index.
  destruct rc as [r c]. cbn [fst snd]. split.
  - intros [(idx & E & Hen & Hl) Hk].
    apply grid_cells_index in E as (Hr & Hc & ->). done.
  - intros (Hk & Hr & Hc & Hen & Hl). split; [|done].
    exists (r * MAX_GRID_WIDTH + c). split_and!; [|done|done].
    by apply grid_cells_lookup.
Qed.

Lemma pos_at_tile g n r c k :
  r < MAX_GRID_WIDTH -> c < MAX_GRID_WIDTH ->
  pos_at (build_pos_matrix g n) r c = Z.of_nat k <->
  tile_cells g n !! k = Some (r, c).
Proof.
  intros Hr Hc. rewrite (pos_at_spec g n r c Hr Hc), tile_cells_lookup.
  cbn [fst snd].
  destruct (isTileSet g r c); cbn [andb]; [|split; [lia|by intros (_ & _ & _ & ? & _)]].
  destruct (Nat.ltb_spec (enabled_before g (r * MAX_GRID_WIDTH + c)) n).
  - split; [intros E; split_and!; try done; lia|]. intros (_ & _ & _ & _ & <-). done.
  - split; [lia|]. intros (? & _ & _ & _ & ?). lia.
Qed.

Lemma pos_at_cases g n r c :
  r < MAX_GRID_WIDTH -> c < MAX_GRID_WIDTH ->
  pos_at (build_pos_matrix g n) r c = (-1)%Z \/
  exists k, k < n /\ pos_at (build_pos_matrix g n) r c = Z.of_nat k.
Proof.
  intros Hr Hc. rewrite (pos_at_spec g n r c Hr Hc).
  destruct (isTileSet g r c); cbn [andb]; [|by left].
  destruct (Nat.ltb_spec (enabled_before g (r * MAX_GRID_WIDTH + c)) n); [|by left].
  right. by eexists.
Qed.

Lemma insert_true_lookup (adj : list bool) i x :
  <[i := true]> adj !! x = Some true <->
  adj !! x = Some true \/ (x = i /\ i < length adj).
Proof.
  destruct (decide (x = i)) as [->|Hne].
  - destruct (decide (i < length adj)) as [Hlt|Hge].
    + rewrite list_lookup_insert_eq by done. split; [by right|done].
    + rewrite list_insert_ge by lia. split; [by left|]. intros [?|[_ ?]]; [done|lia].
  - rewrite list_lookup_insert_ne by done. split; [by left|].
    intros [?|[? _]]; done.
Qed.

Lemma link_length n m pos guard r c adj :
  length (link n m pos guard r c adj) = length adj.
Proof. unfold link. destruct (_ && _); [apply length_insert|done]. Qed.

Lemma link_lookup n m pos guard r c adj x :
  link n m pos guard r c adj !! x = Some true <->
  adj !! x = Some true \/
  (guard = true /\ pos_at m r c <> (-1)%Z /\
   x = Z.to_nat pos * n + Z.to_nat (pos_at m r c) /\ x < length adj).
Proof.
  unfold link. destruct guard; cbn [andb].
  - destruct (Z.eqb_spec (pos_at m r c) (-1)); cbn [negb].
    + split; [by left|]. intros [?|(_ & ? & _)]; done.
    + rewrite insert_true_lookup. split.
      * intros [?|[-> ?]]; [by left|right; done].
      * intros [?|(_ & _ & -> & ?)]; [by left|right; done].
  - split; [by left|]. intros [?|(? & _)]; done.
Qed.

(** [link_cell] makes one guarded assignment for each of the cells of
    [nbrs], in their order. *)
Lemma link_cell_nbrs a n m adj rc :
  link_cell a n m adj rc =
  if (pos_at m rc.1 rc.2 =? -1)%Z then adj
  else fold_left (fun adj rc' => link n m (pos_at m rc.1 rc.2) true rc'.1 rc'.2 adj)
         (nbrs a rc) adj.
Proof.
  unfold link_cell, nbrs. destruct (pos_at m rc.1 rc.2 =? -1)%Z; [done|].
  cbv zeta.
  generalize (0 <? rc.1) (0 <? rc.2) (rc.1 <? MAX_GRID_WIDTH - 1)
    (rc.2 <? MAX_GRID_WIDTH - 1).
  intros b1 b2 b3 b4.
  destruct (String.eqb a "Diagonal"), (String.eqb a "Straight"),
    b1, b2, b3, b4; reflexivity.
Qed.

Lemma links_lookup n m pos l : forall adj x,
  fold_left (fun adj rc' => link n m pos true rc'.1 rc'.2 adj) l adj !! x
    = Some true <->
  adj !! x = Some true \/
  exists rc', rc' ∈ l /\ pos_at m rc'.1 rc'.2 <> (-1)%Z /\
    x = Z.to_nat pos * n + Z.to_nat (pos_at m rc'.1 rc'.2) /\ x < length adj.
Proof.
  induction l as [|rc0 l IH]; intros adj x; cbn [fold_left].
  - split; [by left|]. intros [?|(rc' & Hin & _)]; [done|by apply elem_of_nil in Hin].
  - rewrite IH, link_lookup, link_length. split.
    + intros [[?|(_ & H1 & H2 & H3)]|(rc' & Hin & H1 & H2 & H3)].
      * by left.
      * right. exists rc0. split; [apply list_elem_of_here|done].
      * right. exists rc'. split; [by apply list_elem_of_further|done].
    + intros [?|(rc' & Hin & H1 & H2 & H3)]; [by left; left|].
      apply elem_of_cons in Hin as [->|Hin].
      * left. right. done.
      * right. by exists rc'.
Qed.

Lemma link_cell_length a n m adj rc :
  length (link_cell a n m adj rc) = length adj.
Proof.
  rewrite link_cell_nbrs. destruct (_ =? _)%Z; [done|].
  generalize (nbrs a rc). intros l. revert adj.
  induction l as [|x l IH]; intros adj; [done|]. cbn [fold_left].
  by rewrite IH, link_length.
Qed.

Lemma link_cell_lookup a n m adj rc x :
  link_cell a n m adj rc !! x = Some true <->
  adj !! x = Some true \/
  (pos_at m rc.1 rc.2 <> (-1)%Z /\
   exists rc', rc' ∈ nbrs a rc /\ pos_at m rc'.1 rc'.2 <> (-1)%Z /\
     x = Z.to_nat (pos_at m rc.1 rc.2) * n + Z.to_nat (pos_at m rc'.1 rc'.2) /\
     x < length adj).
Proof.
  rewrite link_cell_nbrs. destruct (Z.eqb_spec (pos_at m rc.1 rc.2) (-1)).
  - split; [by left|]. intros [?|[? _]]; done.
  - rewrite links_lookup. split.
    + intros [?|?]; [by left|by right].
    + intros [?|[_ ?]]; [by left|by right].
Qed.

(** The matrix after the loop over the cells. *)
Lemma adjacency_fold a n m l : forall adj x,
  fold_left (link_cell a n m) l adj !! x = Some true <->
  adj !! x = Some true \/
  exists rc rc', rc ∈ l /\ rc' ∈ nbrs a rc /\
    pos_at m rc.1 rc.2 <> (-1)%Z /\ pos_at m rc'.1 rc'.2 <> (-1)%Z /\
    x = Z.to_nat (pos_at m rc.1 rc.2) * n + Z.to_nat (pos_at m rc'.1 rc'.2) /\
    x < length adj.
Proof.
  induction l as [|rc0 l IH]; intros adj x; cbn [fold_left].
  - split; [by left|]. intros [?|(rc & rc' & Hin & _)]; [done|by apply elem_of_nil in Hin].
  - rewrite IH, link_cell_lookup, link_cell_length. split.
    + intros [[?|(H0 & rc' & H1 & H2 & H3 & H4)]|(rc & rc' & Hin & H1 & H2 & H3 & H4)].
      * by left.
      * right. exists rc0, rc'. split; [apply list_elem_of_here|done].
      * right. exists rc, rc'. split; [by apply list_elem_of_further|done].
    + intros [?|(rc & rc' & Hin & H1 & H2 & H3 & H4 & H5)]; [by left; left|].
      apply elem_of_cons in Hin as [->|Hin].
      * left. right. split; [done|]. by exists rc'.
      * right. by exists rc, rc'.
Qed.

Lemma nbrs_near_Diagonal rc rc' :
  rc ∈ grid_cells ->
  rc' ∈ nbrs "Diagonal" rc <-> rc' ∈ grid_cells /\ near "Diagonal" rc rc' = true.
Proof.
  intros Hrc.
  assert (forallb (fun rc =>
            forallb (fun rc' => bool_decide (rc' ∈ grid_cells))
              (nbrs "Diagonal" rc) &&
            forallb (fun rc' =>
              Bool.eqb (bool_decide (rc' ∈ nbrs "Diagonal" rc))
                       (near "Diagonal" rc rc')) grid_cells) grid_cells = true)
    as H by (vm_compute; reflexivity).
  rewrite forallb_forall in H. apply list_elem_of_In, H in Hrc.
  apply andb_true_iff in Hrc as [H1 H2]. rewrite forallb_forall in H1, H2. split.
  - intros Hin. assert (rc' ∈ grid_cells) as Hg.
    { eapply bool_decide_eq_true_1, H1. by apply list_elem_of_In. }
    split; [done|]. apply list_elem_of_In, H2 in Hg. apply Bool.eqb_prop in Hg.
    rewrite <- Hg. by apply bool_decide_eq_true_2.
  - intros [Hg Hn]. apply list_elem_of_In, H2, Bool.eqb_prop in Hg.
    rewrite Hn in Hg. by apply bool_decide_eq_true_1 in Hg.
Qed.

Lemma nbrs_near_Straight rc rc' :
  rc ∈ grid_cells ->
  rc' ∈ nbrs "Straight" rc <-> rc' ∈ grid_cells /\ near "Straight" rc rc' = true.
Proof.
  intros Hrc.
  assert (forallb (fun rc =>
            forallb (fun rc' => bool_decide (rc' ∈ grid_cells))
              (nbrs "Straight" rc) &&
            forallb (fun rc' =>
              Bool.eqb (bool_decide (rc' ∈ nbrs "Straight" rc))
                       (near "Straight" rc rc')) grid_cells) grid_cells = true)
    as H by (vm_compute; reflexivity).
  rewrite forallb_forall in H. apply list_elem_of_In, H in Hrc.
  apply andb_true_iff in Hrc as [H1 H2]. rewrite forallb_forall in H1, H2. split.
  - intros Hin. assert (rc' ∈ grid_cells) as Hg.
    { eapply bool_decide_eq_true_1, H1. by apply list_elem_of_In. }
    split; [done|]. apply list_elem_of_In, H2 in Hg. apply Bool.eqb_prop in Hg.
    rewrite <- Hg. by apply bool_decide_eq_true_2.
  - intros [Hg Hn]. apply list_elem_of_In, H2, Bool.eqb_prop in Hg.
    rewrite Hn in Hg. by apply bool_decide_eq_true_1 in Hg.
Qed.

Lemma nbrs_near a rc rc' :
  rc ∈ grid_cells ->
  rc' ∈ nbrs a rc <-> rc' ∈ grid_cells /\ near a rc rc' = true.
Proof.
  intros Hrc. destruct (String.eqb_spec a "Diagonal") as [->|Hd].
  { by apply nbrs_near_Diagonal. }
  destruct (String.eqb_spec a "Straight") as [->|Hs].
  { by apply nbrs_near_Straight. }
  apply String.eqb_neq in Hd, Hs. unfold nbrs, near. rewrite Hd, Hs. simpl.
  split; [by intros ?%elem_of_nil|by intros [_ ?]].
Qed.

Lemma index_unique n i j k k' :
  j < n -> k' < n -> k * n + k' = i * n + j -> k = i /\ k' = j.
Proof.
  intros Hj Hk E.
  assert (k = i) as ->; [|split; [done|lia]].
  destruct (lt_eq_lt_dec k i) as [[Hlt|?]|Hgt]; [|done|].
  - assert (S k * n <= i * n) as H by (apply Nat.mul_le_mono_r; lia).
    simpl in H. lia.
  - assert (S i * n <= k * n) as H by (apply Nat.mul_le_mono_r; lia).
    simpl in H. lia.
Qed.

(** The entry of two tiles in the adjacency matrix. *)
Lemma adjacency_char g n i j :
  i < n -> j < n ->
  fold_left (link_cell (tile_adjacency g) n (build_pos_matrix g n)) grid_cells
    (replicate (n * n) false) !! (i * n + j) = Some true <->
  exists p q, tile_cells g n !! i = Some p /\ tile_cells g n !! j = Some q /\
    near (tile_adjacency g) p q = true.
Proof.
  intros Hi Hj. rewrite adjacency_fold. split.
  - intros [H|(rc & rc' & Hin & Hn & Hp & Hq & Hx & _)].
    { apply lookup_replicate in H as [? _]. done. }
    apply (nbrs_near _ _ _ Hin) in Hn as [Hin' Hnear].
    destruct rc as [r c], rc' as [r' c']. cbn [fst snd] in *.
    apply elem_of_grid_cells in Hin as [Hr Hc].
    apply elem_of_grid_cells in Hin' as [Hr' Hc'].
    destruct (pos_at_cases g n r c Hr Hc) as [?|(k & Hk & Ek)]; [done|].
    destruct (pos_at_cases g n r' c' Hr' Hc') as [?|(k' & Hk' & Ek')]; [done|].
    rewrite Ek, Ek', !Nat2Z.id in Hx. symmetry in Hx.
    apply index_unique in Hx as [-> ->]; [|done|done].
    exists (r, c), (r', c'). split_and!; [|  |done].
    + by apply pos_at_tile.
    + by apply pos_at_tile.
  - intros ([r c] & [r' c'] & Ei & Ej & Hnear). right.
    pose proof (proj1 (tile_cells_lookup _ _ _ _) Ei) as (_ & Hr & Hc & _).
    pose proof (proj1 (tile_cells_lookup _ _ _ _) Ej) as (_ & Hr' & Hc' & _).
    cbn [fst snd] in *.
    apply pos_at_tile in Ei, Ej; try done.
    exists (r, c), (r', c'). cbn [fst snd]. rewrite Ei, Ej, !Nat2Z.id.
    split_and!; try lia.
    + by apply elem_of_grid_cells.
    + apply nbrs_near; [by apply elem_of_grid_cells|].
      split; [by apply elem_of_grid_cells|done].
    + rewrite length_replicate. nia.
Qed.

Lemma dist_sym a b : dist a b = dist b a.
Proof.
  unfold dist. destruct (Nat.ltb_spec a b), (Nat.ltb_spec b a); lia.
Qed.

Lemma near_sym a p q : near a p q = near a q p.
Proof. unfold near. by rewrite (dist_sym p.1), (dist_sym p.2). Qed.

Lemma near_irrefl a p : near a p p = false.
Proof.
  unfold near, dist. rewrite !Nat.ltb_irrefl, !Nat.sub_diag.
  by destruct (String.eqb a "Diagonal"), (String.eqb a "Straight").
Qed.

Lemma is_adjacent_char ls g i j :
  tile_adjacency g <> "Full"%string ->
  i < board_size (Board_new ls (Some g)) ->
  j < board_size (Board_new ls (Some g)) ->
  is_adjacent (Board_new ls (Some g)) i j = true <->
  exists p q,
    tile_cells g (board_size (Board_new ls (Some g))) !! i = Some p /\
    tile_cells g (board_size (Board_new ls (Some g))) !! j = Some q /\
    near (tile_adjacency g) p q = true.
Proof.
  intros Hfull Hi Hj. unfold is_adjacent.
  cbn [Board_new adj_matrix board_size build_adjacency_matrix] in *.
  apply String.eqb_neq in Hfull. rewrite Hfull.
  rewrite <- (adjacency_char g _ i j Hi Hj).
  destruct (fold_left _ _ _ !! _) as [[]|]; cbn [default from_option id];
    split; congruence.
Qed.

(** X14: with a grid whose adjacency is not Full, tile k of the board sits
    on the k-th enabled cell of the grid, row by row, and is_adjacent(i, j)
    holds exactly when the cells of the tiles i and j are next to each
    other: in the same row or column for Straight, also along a diagonal for
    Diagonal, and never for another adjacency name or for a tile without a
    cell. *)
Theorem is_adjacent_cells ls g i j :
  tile_adjacency g <> "Full"%string ->
  i < board_size (Board_new ls (Some g)) ->
  j < board_size (Board_new ls (Some g)) ->
  is_adjacent (Board_new ls (Some g)) i j = true <->
  exists p q,
    tile_cells g (board_size (Board_new ls (Some g))) !! i = Some p /\
    tile_cells g (board_size (Board_new ls (Some g))) !! j = Some q /\
    near (tile_adjacency g) p q = true.
Proof. apply is_adjacent_char. Qed.

Lemma is_adjacent_cells_witness :
  is_adjacent (Board_new (str "CATS") (Some (square_grid 2 "Straight"))) 0 1
    = true <->
  exists p q,
    tile_cells (square_grid 2 "Straight")
      (board_size (Board_new (str "CATS") (Some (square_grid 2 "Straight"))))
      !! 0 = Some p /\
    tile_cells (square_grid 2 "Straight")
      (board_size (Board_new (str "CATS") (Some (square_grid 2 "Straight"))))
      !! 1 = Some q /\
    near (tile_adjacency (square_grid 2 "Straight")) p q = true.
Proof.
  apply (is_adjacent_cells (str "CATS") (square_grid 2 "Straight") 0 1).
  - discriminate.
  - vm_compute. lia.
  - vm_compute. lia.
Defined.

(** X15: with a grid whose adjacency is not Full, is_adjacent is symmetric
    and no tile is adjacent to itself. *)
Theorem is_adjacent_symmetric ls g i j :
  tile_adjacency g <> "Full"%string ->
  i < board_size (Board_new ls (Some g)) ->
  j < board_size (Board_new ls (Some g)) ->
  is_adjacent (Board_new ls (Some g)) i j =
  is_adjacent (Board_new ls (Some g)) j i /\
  is_adjacent (Board_new ls (Some g)) i i = false.
Proof.
  intros Hfull Hi Hj. split.
  - apply eq_true_iff_eq.
    rewrite (is_adjacent_char ls g i j Hfull Hi Hj).
    rewrite (is_adjacent_char ls g j i Hfull Hj Hi). split.
    + intros (p & q & ? & ? & Hn). exists q, p. by rewrite near_sym.
    + intros (p & q & ? & ? & Hn). exists q, p. by rewrite near_sym.
  - apply not_true_is_false. rewrite (is_adjacent_char ls g i i Hfull Hi Hi).
    intros (p & q & E1 & E2 & Hn). rewrite E1 in E2. injection E2 as <-.
    by rewrite near_irrefl in Hn.
Qed.

Lemma is_adjacent_symmetric_witness :
  is_adjacent (Board_new (str "CATS") (Some (square_grid 2 "Diagonal"))) 0 3 =
  is_adjacent (Board_new (str "CATS") (Some (square_grid 2 "Diagonal"))) 3 0 /\
  is_adjacent (Board_new (str "CATS") (Some (square_grid 2 "Diagonal"))) 0 0
    = false.
Proof.
  apply (is_adjacent_symmetric (str "CATS") (square_grid 2 "Diagonal") 0 3).
  - discriminate.
  - vm_compute. lia.
  - vm_compute. lia.
Defined.

(** ** Dice *)

Lemma insert_head_perm {X} (l : list X) j (a y : X) :
  l !! j = Some y -> y :: <[j := a]> l ≡ₚ a :: l.
Proof.
  revert j. induction l as [|b l IH]; intros [|j] E; simplify_eq/=.
  - apply perm_swap.
  - rewrite perm_swap. rewrite (IH j E). apply perm_swap.
Qed.

Lemma swap_perm {X} (l : list X) i j x y :
  l !! i = Some x -> l !! j = Some y -> <[j := x]> (<[i := y]> l) ≡ₚ l.
Proof.
  revert i j. induction l as [|a l IH]; intros [|i] [|j] Ei Ej; simplify_eq/=.
  - done.
  - by apply insert_head_perm.
  - by apply insert_head_perm.
  - by rewrite (IH i j).
Qed.

Lemma swap_lookup {X} (l : list X) i j x y k :
  l !! i = Some x -> l !! j = Some y ->
  <[j := x]> (<[i := y]> l) !! k =
  if decide (k = j) then Some x else if decide (k = i) then Some y else l !! k.
Proof.
  intros Ei Ej.
  assert (i < length l) by (by eapply lookup_lt_Some).
  assert (j < length l) by (by eapply lookup_lt_Some).
  destruct (decide (k = j)) as [->|Hj].
  - rewrite list_lookup_insert_eq; [done|]. by rewrite length_insert.
  - rewrite list_lookup_insert_ne by done.
    destruct (decide (k = i)) as [->|Hi].
    + by rewrite list_lookup_insert_eq.
    + by rewrite list_lookup_insert_ne.
Qed.

Lemma Dice_ok_lengths d :
  Dice_ok d ->
  length (Dice.positions d) = length (Dice.dice d) /\
  length (Dice.die_faces d) = length (Dice.dice d).
Proof.
  intros (Hf & Hp & _). split; [|done]. by rewrite Hp, length_seq.
Qed.

Lemma Dice_ok_lt d i p :
  Dice_ok d -> Dice.positions d !! i = Some p -> p < length (Dice.dice d).
Proof.
  intros (_ & Hp & _) E. apply list_elem_of_lookup_2 in E.
  rewrite Hp in E. apply elem_of_seq in E. lia.
Qed.

(** [swap_dice] on a good state. *)
Lemma swap_dice_ok d i j :
  Dice_ok d -> i < length (Dice.dice d) -> j < length (Dice.dice d) ->
  exists pi pj fi fj,
    Dice.positions d !! i = Some pi /\ Dice.positions d !! j = Some pj /\
    Dice.die_faces d !! i = Some fi /\ Dice.die_faces d !! j = Some fj /\
    Dice.swap_dice i j d =
    Some {| Dice.letters := Dice.letters d; Dice.dice := Dice.dice d;
            Dice.positions := <[j := pi]> (<[i := pj]> (Dice.positions d));
            Dice.die_faces := <[j := fi]> (<[i := fj]> (Dice.die_faces d)) |} /\
    Dice_ok
      {| Dice.letters := Dice.letters d; Dice.dice := Dice.dice d;
         Dice.positions := <[j := pi]> (<[i := pj]> (Dice.positions d));
         Dice.die_faces := <[j := fi]> (<[i := fj]> (Dice.die_faces d)) |}.
Proof.
  intros Hok Hi Hj. destruct (Dice_ok_lengths d Hok) as [Hlp Hlf].
  destruct (lookup_lt_is_Some_2 (Dice.positions d) i) as [pi Epi]; [lia|].
  destruct (lookup_lt_is_Some_2 (Dice.positions d) j) as [pj Epj]; [lia|].
  destruct (lookup_lt_is_Some_2 (Dice.die_faces d) i) as [fi Efi]; [lia|].
  destruct (lookup_lt_is_Some_2 (Dice.die_faces d) j) as [fj Efj]; [lia|].
  exists pi, pj, fi, fj. split_and!; try done.
  - unfold Dice.swap_dice. by rewrite Epi, Epj, Efi, Efj.
  - destruct Hok as (_ & Hp & Hfaces). split_and!; cbn [Dice.die_faces Dice.dice Dice.positions].
    + by rewrite !length_insert.
    + by rewrite (swap_perm _ _ _ _ _ Epi Epj).
    + intros k p f. rewrite (swap_lookup _ _ _ _ _ k Epi Epj).
      rewrite (swap_lookup _ _ _ _ _ k Efi Efj).
      destruct (decide (k = j)) as [->|?]; [intros [= <-] [= <-]; by eapply Hfaces|].
      destruct (decide (k = i)) as [->|?]; [intros [= <-] [= <-]; by eapply Hfaces|].
      apply Hfaces.
Qed.

(** [roll(i)] on a good state. *)
Lemma roll_at_ok d i r :
  Dice_ok d -> i < length (Dice.dice d) ->
  exists d', Dice.roll_at i r d = Some d' /\ Dice_ok d' /\
    Dice.dice d' = Dice.dice d /\ Dice.positions d' = Dice.positions d.
Proof.
  intros Hok Hi. destruct (Dice_ok_lengths d Hok) as [Hlp Hlf].
  destruct (lookup_lt_is_Some_2 (Dice.positions d) i) as [p Ep]; [lia|].
  destruct (lookup_lt_is_Some_2 (Dice.die_faces d) i) as [f Ef]; [lia|].
  pose proof Hok as (_ & Hp & Hfaces).
  destruct (Hfaces i p f Ep Ef) as (die & Edie & Hf).
  unfold Dice.roll_at. rewrite Ep, Edie.
  destruct (Nat.eqb_spec (length die) 0) as [?|Hne]; [lia|].
  destruct (Nat.ltb_spec i (length (Dice.die_faces d))) as [_|?]; [|lia].
  cbn [orb negb]. eexists. split; [reflexivity|].
  split_and!; [|done|done]. split_and!; cbn [Dice.die_faces Dice.dice Dice.positions].
  - by rewrite length_insert.
  - done.
  - intros k p' f' Ep' Ef'. destruct (decide (k = i)) as [->|Hk].
    + rewrite list_lookup_insert_eq in Ef' by lia. injection Ef' as <-.
      rewrite Ep in Ep'. injection Ep' as <-. exists die. split; [done|].
      apply Nat.mod_upper_bound. lia.
    + rewrite list_lookup_insert_ne in Ef' by done. by eapply Hfaces.
Qed.

(** The loop of [scramble] from [max] down: the dice above [max] are where
    they stay, none at its own index. *)
Lemma scramble_loop_spec rng max : forall k d (started : bool),
  Dice_ok d -> max < length (Dice.dice d) \/ max = 0 ->
  (forall j p, j <= max -> Dice.positions d !! j = Some p -> p = j \/ max < p) ->
  (forall i p, max < i -> Dice.positions d !! i = Some p -> p <> i) ->
  (started = true ->
   exists j p, j <= max /\ Dice.positions d !! j = Some p /\ max < p) ->
  exists d',
    Dice.scramble_loop max rng k d = Some (d', k + max) /\ Dice_ok d' /\
    Dice.dice d' = Dice.dice d /\
    forall i p, Dice.positions d' !! i = Some p ->
      (0 < i -> p <> i) /\ (started = true \/ 0 < max -> p <> i).
Proof.
  induction max as [|m IH]; intros k d started Hok Hmax HA HB Hst.
  - exists d. split_and!; [simpl; f_equal; f_equal; lia|done|done|].
    intros i p E. split.
    + intros Hi. by apply (HB i p).
    + intros [Hs|?]; [|lia]. destruct (Hst Hs) as (j & q & Hj & Eq & Hq).
      destruct (decide (i = 0)) as [->|?]; [|apply (HB i p); [lia|done]].
      assert (j = 0) as -> by lia. rewrite E in Eq. injection Eq as ->. lia.
  - destruct Hmax as [Hmax|?]; [|lia].
    assert (rng k mod S m < S m) as Hr by (apply Nat.mod_upper_bound; lia).
    set (r := rng k mod S m) in *.
    destruct (swap_dice_ok d r (S m) Hok) as
      (pr & pm & fr & fm & Epr & Epm & Efr & Efm & Esw & Hok'); [lia|lia|].
    cbn [Dice.scramble_loop]. fold r. rewrite Esw.
    set (d1 := Dice.mk _ _ _ _) in *.
    assert (forall x, Dice.positions d1 !! x =
              if decide (x = S m) then Some pr
              else if decide (x = r) then Some pm
              else Dice.positions d !! x) as Hlk.
    { intros x. unfold d1. cbn [Dice.positions]. by apply swap_lookup. }
    assert (pm = S m \/ S m < pm) as Hpm by (by apply (HA (S m) pm)).
    assert (pr = r \/ S m < pr) as Hpr by (apply (HA r pr); [lia|done]).
    destruct (IH (S k) d1 true Hok') as (d' & E' & Hok'' & Ed & Hfin).
    + left. unfold d1. cbn [Dice.dice]. lia.
    + intros j p Hj. rewrite Hlk. repeat case_decide; try lia.
      * intros [= <-]. lia.
      * intros E. destruct (HA j p) as [?|?]; [lia|done|by left|right; lia].
    + intros i p Hi. rewrite Hlk. repeat case_decide; try lia.
      * intros [= <-]. lia.
      * intros E. apply (HB i p); [lia|done].
    + intros _. exists r, pm. split_and!; [lia| |lia].
      rewrite Hlk. rewrite decide_False by lia. by rewrite decide_True.
    + exists d'. split_and!; [|done|done|].
      * rewrite E'. f_equal. f_equal. lia.
      * intros i p E. destruct (Hfin i p E) as [H1 H2]. split; [done|].
        intros _. apply H2. by left.
Qed.

(** The first loop of [roll()]: each die at its own index, with a face. *)
Lemma roll_loop_spec rng ds : forall m k d,
  Forall (fun die => die <> []) ds -> Dice.dice d = ds ->
  length (Dice.positions d) = length ds ->
  length (Dice.die_faces d) = length ds -> m <= length ds ->
  exists d',
    fold_left
      (fun (st : option (Dice.t * nat)) (i : nat) =>
         match st with
         | Some (d, k) =>
             if i <? length (Dice.positions d) then
               match
                 Dice.roll_at i (rng k)
                   {| Dice.letters := Dice.letters d; Dice.dice := Dice.dice d;
                      Dice.positions := <[i := i]> (Dice.positions d);
                      Dice.die_faces := Dice.die_faces d |}
               with
               | Some d' => Some (d', S k)
               | None => None
               end
             else None
         | None => None
         end)
      (seq 0 m) (Some (d, k)) = Some (d', k + m) /\
    Dice.dice d' = ds /\ length (Dice.positions d') = length ds /\
    length (Dice.die_faces d') = length ds /\
    forall i, i < m ->
      Dice.positions d' !! i = Some i /\
      exists die f, ds !! i = Some die /\ Dice.die_faces d' !! i = Some f /\
        f < length die.
Proof.
  intros m k d Hne Hd Hlp Hlf. induction m as [|m IH]; intros Hm.
  - exists d. split_and!; try done; [simpl; f_equal; f_equal; lia|]. intros i Hi. lia.
  - destruct IH as (d1 & E1 & Hd1 & Hlp1 & Hlf1 & H1); [lia|].
    rewrite seq_S, fold_left_app, E1. cbn [fold_left plus].
    destruct (Nat.ltb_spec m (length (Dice.positions d1))) as [_|?]; [|lia].
    destruct (lookup_lt_is_Some_2 ds m) as [die Edie]; [lia|].
    assert (die <> []) as Hdie.
    { rewrite Forall_forall in Hne. apply Hne. by eapply list_elem_of_lookup_2. }
    unfold Dice.roll_at. cbn [Dice.positions Dice.dice Dice.die_faces Dice.letters].
    rewrite list_lookup_insert_eq by lia. rewrite Hd1, Edie.
    destruct (Nat.eqb_spec (length die) 0) as [E0|_].
    { destruct die; [done|simpl in E0; lia]. }
    destruct (Nat.ltb_spec m (length (Dice.die_faces d1))) as [_|?]; [|lia].
    cbn [orb negb]. eexists. split; [f_equal; f_equal; lia|].
    cbn [Dice.positions Dice.dice Dice.die_faces].
    split_and!; [done|by rewrite length_insert|by rewrite length_insert|].
    intros i Hi. destruct (decide (i = m)) as [->|Hne'].
    + split; [apply list_lookup_insert_eq; lia|].
      exists die, (rng (k + m) mod length die). split_and!; [done| |].
      * apply list_lookup_insert_eq. lia.
      * apply Nat.mod_upper_bound. destruct die; [done|simpl; lia].
    + rewrite !list_lookup_insert_ne by done. apply H1. lia.
Qed.

Lemma positions_identity (l : list nat) n :
  length l = n -> (forall i, i < n -> l !! i = Some i) -> l = seq 0 n.
Proof.
  intros Hl H. apply list_eq. intros i.
  destruct (decide (i < n)) as [Hi|Hi].
  - rewrite (H i Hi). symmetry. by apply lookup_seq_lt.
  - rewrite !lookup_ge_None_2; [done|rewrite length_seq; lia|lia].
Qed.

(** [roll()] on a state with vectors of the right size. *)
Lemma roll_spec rng k d :
  Forall (fun die => die <> []) (Dice.dice d) ->
  length (Dice.positions d) = length (Dice.dice d) ->
  length (Dice.die_faces d) = length (Dice.dice d) ->
  exists d',
    Dice.roll rng k d =
      Some (d', k + length (Dice.dice d) + (length (Dice.dice d) - 1)) /\
    Dice_ok d' /\ Dice.dice d' = Dice.dice d /\
    (2 <= length (Dice.dice d) ->
     forall i p, Dice.positions d' !! i = Some p -> p <> i).
Proof.
  intros Hne Hlp Hlf.
  destruct (roll_loop_spec rng (Dice.dice d) (length (Dice.dice d)) k d Hne eq_refl
              Hlp Hlf (le_n _)) as (d1 & E1 & Hd1 & Hlp1 & Hlf1 & H1).
  assert (Dice.positions d1 = seq 0 (length (Dice.dice d))) as Epos.
  { apply positions_identity; [done|]. intros i Hi. by apply H1. }
  assert (Dice_ok d1) as Hok1.
  { split_and!.
    - by rewrite Hd1.
    - by rewrite Hd1, Epos.
    - intros i p f Ep Ef. assert (i < length (Dice.dice d)) as Hi.
      { apply lookup_lt_Some in Ep. lia. }
      destruct (H1 i Hi) as (Ep' & die & f' & Edie & Ef' & Hf).
      rewrite Ep in Ep'. injection Ep' as ->. rewrite Ef in Ef'. injection Ef' as ->.
      exists die. by rewrite Hd1. }
  unfold Dice.roll. rewrite E1. unfold Dice.scramble. rewrite Hd1.
  destruct (scramble_loop_spec rng (length (Dice.dice d) - 1)
              (k + length (Dice.dice d)) d1 false Hok1)
    as (d' & E' & Hok' & Ed' & Hfin).
  - rewrite Hd1. destruct (length (Dice.dice d)); [by right|left; lia].
  - intros j p Hj. rewrite Epos. intros E. apply lookup_seq in E as [-> _]. by left.
  - intros i p Hi. rewrite Epos. intros E. apply lookup_seq in E as [_ ?]. lia.
  - done.
  - exists d'. split_and!; [done|done|congruence|].
    intros Hn i p E. destruct (Hfin i p E) as [_ H2]. apply H2. right. lia.
Qed.

(** [get_letters] on a good state: one face of each die. *)
Lemma get_letters_spec d :
  Dice_ok d ->
  exists faces,
    Dice.get_letters d = Some (concat faces) /\
    Forall2 (fun face pf => exists die,
               Dice.dice d !! pf.1 = Some die /\ die !! pf.2 = Some face)
      faces (zip (Dice.positions d) (Dice.die_faces d)).
Proof.
  intros Hok. destruct (Dice_ok_lengths d Hok) as [Hlp Hlf].
  destruct Hok as (_ & _ & Hfaces). unfold Dice.get_letters.
  assert (forall m, m <= length (Dice.dice d) ->
    exists faces,
      fold_left
        (fun (s : option (list ascii)) (i : nat) =>
           match s, Dice.positions d !! i, Dice.die_faces d !! i with
           | Some s, Some p, Some f =>
               match Dice.dice d !! p ≫= (fun die => die !! f) with
               | Some face => Some (s ++ face)
               | None => None
               end
           | _, _, _ => None
           end) (seq 0 m) (Some []) = Some (concat faces) /\
      Forall2 (fun face pf => exists die,
                 Dice.dice d !! pf.1 = Some die /\ die !! pf.2 = Some face)
        faces (take m (zip (Dice.positions d) (Dice.die_faces d)))) as H.
  { induction m as [|m IH]; intros Hm.
    - exists []. split; [done|]. rewrite take_0. constructor.
    - destruct IH as (faces & E & HF); [lia|].
      destruct (lookup_lt_is_Some_2 (Dice.positions d) m) as [p Ep]; [lia|].
      destruct (lookup_lt_is_Some_2 (Dice.die_faces d) m) as [f Ef]; [lia|].
      destruct (Hfaces m p f Ep Ef) as (die & Edie & Hf).
      destruct (lookup_lt_is_Some_2 die f Hf) as [face Eface].
      assert (zip (Dice.positions d) (Dice.die_faces d) !! m = Some (p, f)) as Ez.
      { apply lookup_zip_with_Some. by exists p, f. }
      exists (faces ++ [face]). split.
      + rewrite seq_S, fold_left_app, E. cbn [fold_left plus].
        rewrite Ep, Ef, Edie. cbn [mbind option_bind]. rewrite Eface.
        rewrite concat_app. simpl. by rewrite app_nil_r.
      + rewrite (take_S_r _ _ _ Ez). apply Forall2_app; [done|].
        constructor; [|constructor]. by exists die. }
  destruct (H (length (Dice.dice d)) (le_n _)) as (faces & E & HF).
  exists faces. split; [done|]. rewrite take_ge in HF; [done|].
  rewrite length_zip_with. lia.
Qed.

(** X16: the constructor of Dice, given dice that all have a face, draws
    one number for each die and one for each swap of the shuffle, and leaves
    every die at exactly one position, showing one of its own faces. *)
Theorem Dice_new_ok ds rng k :
  Forall (fun die => die <> []) ds ->
  exists d,
    Dice.new ds rng k = Some (d, k + length ds + (length ds - 1)) /\
    Dice_ok d /\ Dice.dice d = ds.
Proof.
  intros Hne.
  destruct (roll_spec rng k
              {| Dice.letters := []; Dice.dice := ds;
                 Dice.positions := replicate (length ds) 0;
                 Dice.die_faces := replicate (length ds) 0 |})
    as (d & E & Hok & Hd & _); cbn [Dice.dice Dice.positions Dice.die_faces].
  - done.
  - apply length_replicate.
  - apply length_replicate.
  - by exists d.
Qed.

Lemma Dice_new_ok_witness :
  exists d,
    Dice.new [[str "A"; str "B"]; [str "Qu"]] (fun _ => 5) 0 =
      Some (d, 0 + length [[str "A"; str "B"]; [str "Qu"]] +
               (length [[str "A"; str "B"]; [str "Qu"]] - 1)) /\
    Dice_ok d /\ Dice.dice d = [[str "A"; str "B"]; [str "Qu"]].
Proof.
  apply (Dice_new_ok [[str "A"; str "B"]; [str "Qu"]] (fun _ => 5) 0).
  repeat constructor; discriminate.
Defined.

(** X17: swap_dice(i, j) and roll(i) with indices of dice keep that state:
    they stay inside the vectors, divide by no zero, and afterwards every
    die is still at exactly one position and shows one of its own faces;
    roll(i) moves no die. *)
Theorem Dice_moves_ok d i j r :
  Dice_ok d -> i < length (Dice.dice d) -> j < length (Dice.dice d) ->
  (exists d', Dice.swap_dice i j d = Some d' /\ Dice_ok d' /\
     Dice.dice d' = Dice.dice d) /\
  (exists d', Dice.roll_at i r d = Some d' /\ Dice_ok d' /\
     Dice.dice d' = Dice.dice d /\ Dice.positions d' = Dice.positions d).
Proof.
  intros Hok Hi Hj. split.
  - destruct (swap_dice_ok d i j Hok Hi Hj)
      as (pi & pj & fi & fj & _ & _ & _ & _ & E & Hok').
    eexists. split; [exact E|]. split; [exact Hok'|done].
  - by apply roll_at_ok.
Qed.

Lemma Dice_moves_ok_witness :
  (exists d',
     Dice.swap_dice 0 1 (Dice.mk [] [[str "A"; str "B"]; [str "Qu"]] [1; 0] [0; 1])
       = Some d' /\ Dice_ok d' /\
     Dice.dice d' = [[str "A"; str "B"]; [str "Qu"]]) /\
  (exists d',
     Dice.roll_at 0 7 (Dice.mk [] [[str "A"; str "B"]; [str "Qu"]] [1; 0] [0; 1])
       = Some d' /\ Dice_ok d' /\
     Dice.dice d' = [[str "A"; str "B"]; [str "Qu"]] /\
     Dice.positions d' = [1; 0]).
Proof.
  apply (Dice_moves_ok
           (Dice.mk [] [[str "A"; str "B"]; [str "Qu"]] [1; 0] [0; 1]) 0 1 7).
  - split; [reflexivity|]. split; [apply perm_swap|].
    intros [|[|i]] p f; simpl; intros Hp Hf; try discriminate;
      injection Hp as <-; injection Hf as <-;
      eexists; (split; [reflexivity|simpl; lia]).
  - simpl. lia.
  - simpl. lia.
Defined.

(** X18: in such a state get_letters reads inside the vectors and returns
    the faces that the positions show, put together in the order of the
    positions: the piece for the position i is the face number die_faces[i]
    of the die positions[i], and the positions hold every die once. *)
Theorem Dice_get_letters d :
  Dice_ok d ->
  exists faces,
    Dice.get_letters d = Some (concat faces) /\
    Forall2 (fun face pf => exists die,
               Dice.dice d !! pf.1 = Some die /\ die !! pf.2 = Some face)
      faces (zip (Dice.positions d) (Dice.die_faces d)) /\
    Dice.positions d ≡ₚ seq 0 (length (Dice.dice d)).
Proof.
  intros Hok. destruct (get_letters_spec d Hok) as (faces & E & HF).
  exists faces. split_and!; [done|done|]. by destruct Hok as (_ & ? & _).
Qed.

Lemma Dice_get_letters_witness :
  exists faces,
    Dice.get_letters (Dice.mk [] [[str "A"; str "B"]; [str "Qu"]] [1; 0] [0; 1])
      = Some (concat faces) /\
    Forall2 (fun face pf => exists die,
               [[str "A"; str "B"]; [str "Qu"]] !! pf.1 = Some die /\
               die !! pf.2 = Some face)
      faces (zip [1; 0] [0; 1]) /\
    [1; 0] ≡ₚ seq 0 (length [[str "A"; str "B"]; [str "Qu"]]).
Proof.
  apply (Dice_get_letters
           (Dice.mk [] [[str "A"; str "B"]; [str "Qu"]] [1; 0] [0; 1])).
  split; [reflexivity|]. split; [apply perm_swap|].
  intros [|[|i]] p f; simpl; intros Hp Hf; try discriminate;
    injection Hp as <-; injection Hf as <-;
    eexists; (split; [reflexivity|simpl; lia]).
Defined.

(** X19: the shuffle of the constructor only swaps a position with a lower
    one, so with two dice or more no die is left at the position of its own
    index, whatever rand() returns. *)
Theorem Dice_new_moves_every_die ds rng k d k' :
  Forall (fun die => die <> []) ds -> 2 <= length ds ->
  Dice.new ds rng k = Some (d, k') ->
  forall i p, Dice.positions d !! i = Some p -> p <> i.
Proof.
  intros Hne Hn E.
  destruct (roll_spec rng k
              {| Dice.letters := []; Dice.dice := ds;
                 Dice.positions := replicate (length ds) 0;
                 Dice.die_faces := replicate (length ds) 0 |})
    as (d0 & E0 & _ & _ & Hfin); cbn [Dice.dice Dice.positions Dice.die_faces] in *.
  - done.
  - apply length_replicate.
  - apply length_replicate.
  - unfold Dice.new in E. rewrite E0 in E. injection E as <- _. by apply Hfin.
Qed.

Lemma Dice_new_moves_every_die_witness :
  Dice.positions
    (default (Dice.mk [] [] [] [])
       (fst <$> Dice.new [[str "A"; str "B"]; [str "Qu"]] (fun _ => 5) 0))
    !! 0 = Some 1 /\ 1 <> 0.
Proof.
  split; [vm_compute; reflexivity|].
  apply (Dice_new_moves_every_die [[str "A"; str "B"]; [str "Qu"]] (fun _ => 5) 0
           (default (Dice.mk [] [] [] [])
              (fst <$> Dice.new [[str "A"; str "B"]; [str "Qu"]] (fun _ => 5) 0))
           3 ltac:(repeat constructor; discriminate) ltac:(simpl; lia)
           ltac:(vm_compute; reflexivity) 0 1).
  vm_compute. reflexivity.
Defined.
